(** * Nurikabe solver (src/sudoku/stl/nurikabe.cpp): shallow embedding and
    verification of its specification.

    The C++ program keeps its grid in a [Grid] object whose regions are
    shared through [shared_ptr<Region>].  The embedding keeps the program's
    names, threads the grid explicitly through every member function, stores
    the regions in an arena keyed by handles, and returns a [result] wherever
    the source can throw or loop.

    Conventions.
    - [int] values are [Z].  Signed overflow is undefined in the source and
      is not modelled; all the quantities are bounded by the grid size or by
      a clue.
    - [vector::operator[]] out of range is undefined in the source.  The model
      reads a default (an unknown cell without region, flag [NONE]) and
      ignores a write there.
    - [set<pair<int,int>>] is a strictly increasing list of pairs in the
      lexicographic order of [std::pair], so that [begin()] is the head.
    - [set<shared_ptr<Region>>] is iterated in pointer order by the source;
      the model iterates the arena in the order of [map_to_list]. *)

From Stdlib Require Import ZArith Lia String Ascii Sorted.
From stdpp Require Import gmap list.

Local Open Scope Z_scope.

(** ** Exceptions, loops *)

Inductive exn : Type :=
| logic_error (what : string)
| runtime_error (what : string)
| out_of_range (what : string).

(** [OutOfFuel]: a loop of the source was cut by the model before its end. *)
Inductive result (A : Type) : Type :=
| Ok (a : A)
| Throw (e : exn)
| OutOfFuel.
Arguments Ok {A} a.
Arguments Throw {A} e.
Arguments OutOfFuel {A}.

#[global] Instance result_ret : MRet result := @Ok.
#[global] Instance result_bind : MBind result := fun A B k m =>
  match m with
  | Ok a => k a
  | Throw e => Throw e
  | OutOfFuel => OutOfFuel
  end.

#[global] Instance result_fmap : FMap result := fun A B f m =>
  match m with
  | Ok a => Ok (f a)
  | Throw e => Throw e
  | OutOfFuel => OutOfFuel
  end.

(** A [for] loop over [l] whose body may throw: the state [a] is threaded
    through the iterations, and the loop stops at the first exception. *)
Fixpoint for_each {A B} (l : list B) (a : A) (body : A -> B -> result A) : result A :=
  match l with
  | [] => Ok a
  | x :: l' => body a x ≫= λ a', for_each l' a' body
  end.

(** ** Coordinates and [set<pair<int, int>>] *)

Definition coord : Type := Z * Z.

Module CoordSet.

Definition compare (p q : coord) : comparison :=
  match p.1 ?= q.1 with
  | Eq => p.2 ?= q.2
  | c => c
  end.

Definition eqb (p q : coord) : bool := (p.1 =? q.1) && (p.2 =? q.2).

Definition t : Type := list coord.

Definition empty : t := [].

(** [s.insert(p)] *)
Fixpoint insert (p : coord) (s : t) : t :=
  match s with
  | [] => [p]
  | q :: s' =>
      match compare p q with
      | Lt => p :: s
      | Eq => s
      | Gt => q :: insert p s'
      end
  end.

(** [s.insert(first, last)] *)
Definition insert_all (ps : list coord) (s : t) : t :=
  foldl (fun acc p => insert p acc) s ps.

(** [s.erase(p)] *)
Definition erase (p : coord) (s : t) : t :=
  List.filter (fun q => negb (eqb p q)) s.

(** [s.find(p) != s.end()] *)
Definition mem (p : coord) (s : t) : bool := existsb (eqb p) s.

Definition is_empty (s : t) : bool :=
  match s with [] => true | _ => false end.

Definition size (s : t) : Z := Z.of_nat (length s).

End CoordSet.

(** ** Cell states and regions *)

(** [enum State : int]; a numbered cell holds its positive number. *)
Definition State : Type := Z.
Definition UNKNOWN : State := -3.
Definition WHITE : State := -2.
Definition BLACK : State := -1.

Inductive SitRep : Type :=
| CONTRADICTION_FOUND
| SOLUTION_FOUND
| KEEP_GOING
| CANNOT_PROCEED.

Definition SitRep_eqb (a b : SitRep) : bool :=
  match a, b with
  | CONTRADICTION_FOUND, CONTRADICTION_FOUND
  | SOLUTION_FOUND, SOLUTION_FOUND
  | KEEP_GOING, KEEP_GOING
  | CANNOT_PROCEED, CANNOT_PROCEED => true
  | _, _ => false
  end.

Record Region : Type := mkRegion {
  m_state : State;
  m_coords : CoordSet.t;
  m_unknowns : CoordSet.t
}.

Module Reg.

(** [Region::Region(state, x, y, unknowns)] *)
Definition make (state : State) (x y : Z) (unknowns : CoordSet.t) : result Region :=
  if state =? UNKNOWN
  then Throw (logic_error "LOGIC ERROR: Grid::Region::Region() - state must be known!")
  else Ok (mkRegion state (CoordSet.insert (x, y) CoordSet.empty) unknowns).

Definition white (r : Region) : bool := m_state r =? WHITE.
Definition black (r : Region) : bool := m_state r =? BLACK.
Definition numbered (r : Region) : bool := 0 <? m_state r.

Definition number (r : Region) : result Z :=
  if negb (numbered r)
  then Throw (logic_error "LOGIC ERROR: Grid::Region::number() - This region is not numbered!")
  else Ok (m_state r).

(** [r.numbered() && k(r.number())]: the source always reads [number()]
    behind the [numbered()] test, which short-circuits. *)
Definition numbered_and (r : Region) (k : Z -> bool) : bool :=
  numbered r && match number r with Ok n => k n | _ => false end.

Definition size (r : Region) : Z := CoordSet.size (m_coords r).
Definition contains (r : Region) (x y : Z) : bool := CoordSet.mem (x, y) (m_coords r).
Definition insert (ps : list coord) (r : Region) : Region :=
  mkRegion (m_state r) (CoordSet.insert_all ps (m_coords r)) (m_unknowns r).

Definition unk_size (r : Region) : Z := CoordSet.size (m_unknowns r).
Definition unk_insert (ps : list coord) (r : Region) : Region :=
  mkRegion (m_state r) (m_coords r) (CoordSet.insert_all ps (m_unknowns r)).
Definition unk_erase (x y : Z) (r : Region) : Region :=
  mkRegion (m_state r) (m_coords r) (CoordSet.erase (x, y) (m_unknowns r)).

End Reg.

(** ** The grid *)

(** A [shared_ptr<Region>] is a handle into the arena [m_regions]; the null
    pointer is [None]. *)
Definition rid : Type := nat.

(** One element of [m_output]; the timestamp taken from the performance
    counter is left out. *)
Record LogEntry : Type := mkLogEntry {
  log_message : string;
  log_cells : list (list State);
  log_updated : CoordSet.t;
  log_failed_guesses : Z;
  log_failed_coords : CoordSet.t
}.

Section WithPrng.

(** The state of the [mt19937] generator. *)
Context {PRNG : Type}.

Record Grid : Type := mkGrid {
  m_width : Z;
  m_height : Z;
  m_total_black : Z;
  m_cells : list (list (State * option rid));
  m_regions : gmap rid Region;
  m_sitrep : SitRep;
  m_output : list LogEntry;
  m_prng : PRNG
}.

Definition with_cells (g : Grid) (c : list (list (State * option rid))) : Grid :=
  mkGrid (m_width g) (m_height g) (m_total_black g) c (m_regions g)
         (m_sitrep g) (m_output g) (m_prng g).
Definition with_regions (g : Grid) (rs : gmap rid Region) : Grid :=
  mkGrid (m_width g) (m_height g) (m_total_black g) (m_cells g) rs
         (m_sitrep g) (m_output g) (m_prng g).
Definition with_sitrep (g : Grid) (s : SitRep) : Grid :=
  mkGrid (m_width g) (m_height g) (m_total_black g) (m_cells g) (m_regions g)
         s (m_output g) (m_prng g).
Definition with_output (g : Grid) (o : list LogEntry) : Grid :=
  mkGrid (m_width g) (m_height g) (m_total_black g) (m_cells g) (m_regions g)
         (m_sitrep g) o (m_prng g).
Definition with_total_black (g : Grid) (n : Z) : Grid :=
  mkGrid (m_width g) (m_height g) n (m_cells g) (m_regions g)
         (m_sitrep g) (m_output g) (m_prng g).

(** [m_cells[x][y]] *)
Definition cells_get (c : list (list (State * option rid))) (x y : Z)
  : State * option rid :=
  if (0 <=? x) && (0 <=? y) then
    match c !! Z.to_nat x with
    | Some col => default (UNKNOWN, None) (col !! Z.to_nat y)
    | None => (UNKNOWN, None)
    end
  else (UNKNOWN, None).

Definition cells_alter (f : State * option rid -> State * option rid)
  (c : list (list (State * option rid))) (x y : Z) : list (list (State * option rid)) :=
  if (0 <=? x) && (0 <=? y)
  then alter (alter f (Z.to_nat y)) (Z.to_nat x) c
  else c.

(** [(x, y)] is an element of the array [c]. *)
Definition inside (c : list (list (State * option rid))) (x y : Z) : Prop :=
  0 <= x /\ 0 <= y /\
  exists col, c !! Z.to_nat x = Some col /\ is_Some (col !! Z.to_nat y).

Definition valid (g : Grid) (x y : Z) : bool :=
  (0 <=? x) && (x <? m_width g) && (0 <=? y) && (y <? m_height g).

Definition cell (g : Grid) (x y : Z) : State := (cells_get (m_cells g) x y).1.
Definition region (g : Grid) (x y : Z) : option rid := (cells_get (m_cells g) x y).2.

Definition set_cell (g : Grid) (x y : Z) (s : State) : Grid :=
  with_cells g (cells_alter (fun c => (s, c.2)) (m_cells g) x y).
Definition set_region (g : Grid) (x y : Z) (r : option rid) : Grid :=
  with_cells g (cells_alter (fun c => (c.1, r)) (m_cells g) x y).

(** Dereferencing the handle stored in a cell. *)
Definition region_of (g : Grid) (x y : Z) : option Region :=
  i ← region g x y; m_regions g !! i.

(** The regions in the iteration order of [m_regions]. *)
Definition regions (g : Grid) : list (rid * Region) := map_to_list (m_regions g).

(** The cells visited by [for_valid_neighbors(x, y, f)], in order. *)
Definition valid_neighbors (g : Grid) (x y : Z) : list coord :=
  (if 0 <? x then [(x - 1, y)] else []) ++
  (if x + 1 <? m_width g then [(x + 1, y)] else []) ++
  (if 0 <? y then [(x, y - 1)] else []) ++
  (if y + 1 <? m_height g then [(x, y + 1)] else []).

Definition insert_valid_neighbors (g : Grid) (s : CoordSet.t) (x y : Z) : CoordSet.t :=
  foldl (fun acc p => CoordSet.insert p acc) s (valid_neighbors g x y).

Definition insert_valid_unknown_neighbors (g : Grid) (s : CoordSet.t) (x y : Z)
  : CoordSet.t :=
  foldl (fun acc p => if cell g p.1 p.2 =? UNKNOWN then CoordSet.insert p acc else acc)
        s (valid_neighbors g x y).

(** [make_shared<Region>] takes a handle that no live region has. *)
Definition fresh_rid (g : Grid) : rid := fresh (dom (m_regions g)).

Definition add_region (g : Grid) (x y : Z) : result Grid :=
  let unknowns := insert_valid_unknown_neighbors g CoordSet.empty x y in
  r ← Reg.make (cell g x y) x y unknowns;
  let i := fresh_rid g in
  Ok (with_regions (set_region g x y (Some i)) (<[i := r]> (m_regions g))).

(** The end of [fuse_regions]: the secondary region [b] (handle [i2]) is
    fused into the primary region [a] (handle [i1]), its cells are pointed at
    the primary region, and it leaves the set of all regions. *)
Definition absorb (g : Grid) (i1 : rid) (a : Region) (i2 : rid) (b : Region) : Grid :=
  let a' := Reg.unk_insert (m_unknowns b) (Reg.insert (m_coords b) a) in
  let g1 := with_regions g (<[i1 := a']> (m_regions g)) in
  let g2 := foldl (fun h p => set_region h p.1 p.2 (Some i1)) g1 (m_coords b) in
  with_regions g2 (delete i2 (m_regions g2)).

(** [fuse_regions(r1, r2)].  A handle held by the source always designates a
    live region; on a handle outside the arena the model does nothing. *)
Definition fuse_regions (g : Grid) (p1 p2 : option rid) : Grid :=
  match p1, p2 with
  | Some i1, Some i2 =>
      if bool_decide (i1 = i2) then g else
      match m_regions g !! i1, m_regions g !! i2 with
      | Some a, Some b =>
          if Reg.numbered a && Reg.numbered b then with_sitrep g CONTRADICTION_FOUND
          else if negb (Bool.eqb (Reg.black a) (Reg.black b)) then g
          else if Reg.size a <? Reg.size b then
            (* the bigger region [b] is the primary one, unless [a] is numbered *)
            if Reg.numbered a then absorb g i1 a i2 b else absorb g i2 b i1 a
          else
            (* [a] is the primary one, unless [b] is numbered *)
            if Reg.numbered b then absorb g i2 b i1 a else absorb g i1 a i2 b
      | _, _ => g
      end
  | _, _ => g
  end.

(** The handle [p] is null, dangling, or designates a black region. *)
Definition black_handle (g : Grid) (p : option rid) : Prop :=
  forall i a, p = Some i -> m_regions g !! i = Some a -> Reg.black a = true.

Definition mark (g : Grid) (s : State) (x y : Z) : result Grid :=
  if negb (s =? WHITE) && negb (s =? BLACK)
  then Throw (logic_error "LOGIC ERROR: Grid::mark() - s must be either WHITE or BLACK.")
  else if negb (cell g x y =? UNKNOWN)
  then Ok (with_sitrep g CONTRADICTION_FOUND)
  else
    let g1 := set_cell g x y s in
    let g2 := with_regions g1 (Reg.unk_erase x y <$> m_regions g1) in
    g3 ← add_region g2 x y;
    Ok (foldl (fun h p => fuse_regions h (region h x y) (region h p.1 p.2))
              g3 (valid_neighbors g3 x y)).

(** [print]: appends a snapshot of the cell states to [m_output]. *)
Definition print (g : Grid) (s : string) (updated : CoordSet.t)
  (failed_guesses : Z) (failed_coords : CoordSet.t) : Grid :=
  with_output g (m_output g ++
    [mkLogEntry s (List.map (List.map fst) (m_cells g)) updated failed_guesses failed_coords]).

Definition mark_all (g : Grid) (s : State) (ps : list coord) : result Grid :=
  for_each ps g (fun h p => mark h s p.1 p.2).

Definition contradiction_note : string :=
  " (Contradiction found! Attempted to fuse two numbered regions or mark an already known cell.)".

(** [process]: commits the proposed marks; [false] when there is none. *)
Definition process (g : Grid) (verbose : bool) (mark_as_black mark_as_white : CoordSet.t)
  (s : string) (failed_guesses : Z) (failed_coords : CoordSet.t) : result (bool * Grid) :=
  if CoordSet.is_empty mark_as_black && CoordSet.is_empty mark_as_white
  then Ok (false, g)
  else
    g1 ← mark_all g BLACK mark_as_black;
    g2 ← mark_all g1 WHITE mark_as_white;
    let g3 :=
      if verbose then
        let updated := CoordSet.insert_all mark_as_white mark_as_black in
        let t := if SitRep_eqb (m_sitrep g2) CONTRADICTION_FOUND
                 then (s ++ contradiction_note)%string else s in
        print g2 t updated failed_guesses failed_coords
      else g2 in
    Ok (true, g3).

(** The pairs visited by [for (x = 0; x < w; ++x) for (y = 0; y < h; ++y)]. *)
Definition xy_range (w h : Z) : list coord :=
  x ← seqZ 0 w; y ← seqZ 0 h; [(x, y)].

Definition known (g : Grid) : Z :=
  foldl (fun ret p => if negb (cell g p.1 p.2 =? UNKNOWN) then ret + 1 else ret)
        0 (xy_range (m_width g) (m_height g)).

(** ** The cheap deduction rules *)

(** [r.numbered() && r.size() == r.number()] *)
Definition complete_island (r : Region) : bool :=
  Reg.numbered_and r (fun n => Reg.size r =? n).

(** Look for complete islands. *)
Definition complete_islands_marks (g : Grid) : CoordSet.t :=
  foldl (fun mark_as_black ir =>
           if complete_island ir.2
           then CoordSet.insert_all (m_unknowns ir.2) mark_as_black
           else mark_as_black)
        CoordSet.empty (regions g).

Definition analyze_complete_islands (g : Grid) (verbose : bool) : result (bool * Grid) :=
  process g verbose (complete_islands_marks g) CoordSet.empty
          "Complete islands found." 0 CoordSet.empty.

Definition partial (g : Grid) (r : Region) : bool :=
  Reg.black r && (Reg.size r <? m_total_black g)
  || Reg.white r
  || Reg.numbered_and r (fun n => Reg.size r <? n).

(** Look for partial regions that can expand into only one cell. *)
Definition single_liberties_marks (g : Grid) : CoordSet.t * CoordSet.t :=
  foldl (fun marks ir =>
           let r := ir.2 in
           if partial g r && (Reg.unk_size r =? 1) then
             match m_unknowns r with
             | u :: _ =>
                 if Reg.black r
                 then (CoordSet.insert u marks.1, marks.2)
                 else (marks.1, CoordSet.insert u marks.2)
             | [] => marks
             end
           else marks)
        (CoordSet.empty, CoordSet.empty) (regions g).

Definition analyze_single_liberties (g : Grid) (verbose : bool) : result (bool * Grid) :=
  let marks := single_liberties_marks g in
  process g verbose marks.1 marks.2
          "Expanded partial regions with only one liberty." 0 CoordSet.empty.

(** The far cell chosen for the two liberties [(x1, y1)], [(x2, y2)] of [r]. *)
Definition far_corner (r : Region) (x1 y1 x2 y2 : Z) : coord :=
  if Reg.contains r x1 y2 then (x2, y1) else (x1, y2).

(** Look for N - 1 islands with exactly two diagonal liberties. *)
Definition dual_liberties_step (g : Grid) (mark_as_black : CoordSet.t) (r : Region)
  : CoordSet.t :=
  if Reg.numbered_and r (fun n => Reg.size r =? n - 1) && (Reg.unk_size r =? 2) then
    match m_unknowns r with
    | (x1, y1) :: (x2, y2) :: _ =>
        if (Z.abs (x1 - x2) =? 1) && (Z.abs (y1 - y2) =? 1) then
          let p := far_corner r x1 y1 x2 y2 in
          if cell g p.1 p.2 =? UNKNOWN
          then CoordSet.insert p mark_as_black
          else mark_as_black
        else mark_as_black
    | _ => mark_as_black
    end
  else mark_as_black.

Definition dual_liberties_marks (g : Grid) : CoordSet.t :=
  foldl (fun mark_as_black ir => dual_liberties_step g mark_as_black ir.2)
        CoordSet.empty (regions g).

Definition analyze_dual_liberties (g : Grid) (verbose : bool) : result (bool * Grid) :=
  process g verbose (dual_liberties_marks g) CoordSet.empty
          "N - 1 islands with exactly two diagonal liberties found." 0 CoordSet.empty.

(** ** Reachability *)

Definition impossibly_big_white_region (g : Grid) (n : Z) : bool :=
  forallb (fun ir => negb (Reg.numbered_and ir.2 (fun k => Reg.size ir.2 + n + 1 <=? k)))
          (regions g).

(** [set<shared_ptr<Region>>::insert] on the local sets of [unreachable]. *)
Definition rid_insert (i : rid) (s : list rid) : list rid :=
  if bool_decide (i ∈ s) then s else s ++ [i].

(** The white and the numbered regions next to [(x, y)]. *)
Definition adjacent_regions (g : Grid) (x y : Z) : list rid * list rid :=
  foldl (fun acc p =>
           match region g p.1 p.2 with
           | Some i =>
               match m_regions g !! i with
               | Some r =>
                   if Reg.white r then (rid_insert i acc.1, acc.2)
                   else if Reg.numbered r then (acc.1, rid_insert i acc.2)
                   else acc
               | None => acc
               end
           | None => acc
           end)
        ([], []) (valid_neighbors g x y).

Definition sum_sizes (g : Grid) (s : list rid) : Z :=
  foldl (fun size i => size + from_option Reg.size 0 (m_regions g !! i)) 0 s.

(** What the search does with the cell that it takes from the queue. *)
Inductive Step : Type :=
| Found      (* return false: the root can be connected here *)
| Skip       (* continue *)
| Expand.    (* enqueue the unknown neighbours *)

(** The tests of the search on the cell [(x_curr, y_curr)], reached by a
    chain of [n_curr] cells. *)
Definition examine (g : Grid) (x_curr y_curr n_curr : Z) : result Step :=
  let '(white_regions, numbered_regions) := adjacent_regions g x_curr y_curr in
  let size := sum_sizes g white_regions + sum_sizes g numbered_regions in
  match numbered_regions with
  | _ :: _ :: _ => Ok Skip
  | [i] =>
      num ← from_option Reg.number (Ok 0) (m_regions g !! i);
      Ok (if n_curr + size <=? num then Found else Skip)
  | [] =>
      if negb (bool_decide (white_regions = [])) then
        Ok (if impossibly_big_white_region g (n_curr + size) then Skip else Found)
      else Ok Expand
  end.

(** The last loop of the body: the unknown neighbours that are not yet
    discovered enter the queue and the discovered set. *)
Definition enqueue_neighbors (g : Grid) (x_curr y_curr n_curr : Z)
  (q : list (Z * Z * Z)) (discovered : CoordSet.t) : list (Z * Z * Z) * CoordSet.t :=
  foldl (fun acc p =>
           if (cell g p.1 p.2 =? UNKNOWN) && negb (CoordSet.mem p acc.2)
           then (acc.1 ++ [(p.1, p.2, n_curr + 1)], CoordSet.insert p acc.2)
           else acc)
        (q, discovered) (valid_neighbors g x_curr y_curr).

(** The breadth-first search of [unreachable]; one unit of fuel for each
    cell taken from the queue. *)
Fixpoint unreachable_loop (fuel : nat) (g : Grid) (q : list (Z * Z * Z))
  (discovered : CoordSet.t) : result bool :=
  match fuel with
  | O => OutOfFuel
  | S fuel' =>
      match q with
      | [] => Ok true
      | (x_curr, y_curr, n_curr) :: q' =>
          step ← examine g x_curr y_curr n_curr;
          match step with
          | Found => Ok false
          | Skip => unreachable_loop fuel' g q' discovered
          | Expand =>
              let '(q'', discovered') :=
                enqueue_neighbors g x_curr y_curr n_curr q' discovered in
              unreachable_loop fuel' g q'' discovered'
          end
      end
  end.

Definition unreachable (fuel : nat) (g : Grid) (x_root y_root : Z)
  (discovered : CoordSet.t) : result bool :=
  if negb (cell g x_root y_root =? UNKNOWN) then Ok false
  else unreachable_loop fuel g [(x_root, y_root, 1)]
                        (CoordSet.insert (x_root, y_root) discovered).

(** Look for unreachable cells. *)
Definition unreachable_cells_marks (fuel : nat) (g : Grid) : result CoordSet.t :=
  for_each (xy_range (m_width g) (m_height g)) CoordSet.empty
    (fun mark_as_black p =>
       u ← unreachable fuel g p.1 p.2 CoordSet.empty;
       Ok (if u : bool then CoordSet.insert p mark_as_black else mark_as_black)).

Definition analyze_unreachable_cells (fuel : nat) (g : Grid) (verbose : bool)
  : result (bool * Grid) :=
  mark_as_black ← unreachable_cells_marks fuel g;
  process g verbose mark_as_black CoordSet.empty
          "Unreachable cells blackened." 0 CoordSet.empty.

(** [struct XYState] and the [sort] of the four cells of a square by state.
    The branches that follow only look at squares whose sorted states are
    [UNKNOWN, BLACK, BLACK, BLACK] or [UNKNOWN, UNKNOWN, BLACK, BLACK]; the
    marks they produce do not depend on the order among equal states. *)
Definition XYState : Type := Z * Z * State.

Fixpoint sort_insert (e : XYState) (l : list XYState) : list XYState :=
  match l with
  | [] => [e]
  | h :: t => if h.2 <? e.2 then h :: sort_insert e t else e :: l
  end.

Definition sort_by_state (l : list XYState) : list XYState :=
  foldr sort_insert [] l.

Definition potential_pools_square (fuel : nat) (g : Grid) (x y : Z)
  (mark_as_white : CoordSet.t) : result CoordSet.t :=
  let a := sort_by_state [ (x, y, cell g x y); (x + 1, y, cell g (x + 1) y);
                           (x, y + 1, cell g x (y + 1));
                           (x + 1, y + 1, cell g (x + 1) (y + 1)) ] in
  match a with
  | [a0; a1; a2; a3] =>
      if (a0.2 =? UNKNOWN) && (a1.2 =? BLACK) && (a2.2 =? BLACK) && (a3.2 =? BLACK)
      then Ok (CoordSet.insert a0.1 mark_as_white)
      else if (a0.2 =? UNKNOWN) && (a1.2 =? UNKNOWN) && (a2.2 =? BLACK) && (a3.2 =? BLACK)
      then
        u1 ← unreachable fuel g a1.1.1 a1.1.2 (CoordSet.insert a0.1 CoordSet.empty);
        let m1 := if u1 : bool then CoordSet.insert a0.1 mark_as_white else mark_as_white in
        u0 ← unreachable fuel g a0.1.1 a0.1.2 (CoordSet.insert a1.1 CoordSet.empty);
        Ok (if u0 : bool then CoordSet.insert a1.1 m1 else m1)
      else Ok mark_as_white
  | _ => Ok mark_as_white
  end.

(** Look for squares of one unknown and three black cells, or two and two. *)
Definition potential_pools_marks (fuel : nat) (g : Grid) : result CoordSet.t :=
  for_each (xy_range (m_width g - 1) (m_height g - 1)) CoordSet.empty
    (fun mark_as_white p => potential_pools_square fuel g p.1 p.2 mark_as_white).

Definition analyze_potential_pools (fuel : nat) (g : Grid) (verbose : bool)
  : result (bool * Grid) :=
  mark_as_white ← potential_pools_marks fuel g;
  process g verbose CoordSet.empty mark_as_white
          "Whitened cells to prevent pools." 0 CoordSet.empty.

(** ** Confinement *)

Inductive Flag : Type := NONE | OPEN | CLOSED | VERBOTEN.

Definition Flag_eqb (a b : Flag) : bool :=
  match a, b with
  | NONE, NONE | OPEN, OPEN | CLOSED, CLOSED | VERBOTEN, VERBOTEN => true
  | _, _ => false
  end.

(** [map<shared_ptr<Region>, set<pair<int, int>>>] *)
Definition cache_map_t : Type := gmap rid CoordSet.t.

(** [flags[x + y * m_width]] *)
Definition flag_index (g : Grid) (p : coord) : Z := p.1 + p.2 * m_width g.

Definition flags_get (g : Grid) (flags : list Flag) (p : coord) : Flag :=
  if 0 <=? flag_index g p
  then default NONE (flags !! Z.to_nat (flag_index g p))
  else NONE.

Definition flags_set (g : Grid) (flags : list Flag) (p : coord) (f : Flag) : list Flag :=
  if 0 <=? flag_index g p
  then <[Z.to_nat (flag_index g p) := f]> flags
  else flags.

(** [if (f == NONE) f = OPEN;] on each cell of [ps]. *)
Definition flags_open (g : Grid) (flags : list Flag) (ps : list coord) : list Flag :=
  foldl (fun fl p => if Flag_eqb (flags_get g fl p) NONE then flags_set g fl p OPEN else fl)
        flags ps.

(** [find(flags.begin(), flags.end(), OPEN)] *)
Fixpoint find_open (flags : list Flag) : option nat :=
  match flags with
  | [] => None
  | f :: flags' => if Flag_eqb f OPEN then Some O else S <$> find_open flags'
  end.

(** The condition of the loop of [confined], which is also its result. *)
Definition needs_more (g : Grid) (r : Region) (closed_size : Z) : bool :=
  Reg.black r && (closed_size <? m_total_black g)
  || Reg.white r
  || Reg.numbered_and r (fun n => closed_size <? n).

Inductive Verdict : Type :=
| Consume      (* keep going *)
| Discard      (* continue *)
| Escaped      (* return false *)
| Confused.    (* throw *)

(** The comparison of our region [r] (handle [ri]) with the region [area] of
    the cell [p] under consideration. *)
Definition consider (g : Grid) (ri : rid) (r : Region) (p : coord) (area : option Region)
  : Verdict :=
  if Reg.black r then
    match area with
    | None => Consume
    | Some a => if Reg.black a then Consume else Discard
    end
  else if Reg.white r then
    match area with
    | None => Consume
    | Some a => if Reg.black a then Discard else if Reg.white a then Consume else Escaped
    end
  else
    match area with
    | None =>
        let rejected :=
          existsb (fun q =>
                     match region g q.1 q.2 with
                     | Some oi =>
                         match m_regions g !! oi with
                         | Some other => Reg.numbered other && negb (bool_decide (oi = ri))
                         | None => false
                         end
                     | None => false
                     end)
                  (valid_neighbors g p.1 p.2) in
        if rejected then Discard else Consume
    | Some a => if Reg.black a then Discard else if Reg.white a then Consume else Confused
    end.

(** The loop of [confined]; one unit of fuel for each test of its condition. *)
Fixpoint confined_loop (fuel : nat) (g : Grid) (ri : rid) (r : Region)
  (verboten : CoordSet.t) (flags : list Flag) (closed_size : Z) (cache : cache_map_t)
  : result (bool * cache_map_t) :=
  match fuel with
  | O => OutOfFuel
  | S fuel' =>
      if negb (needs_more g r closed_size) then Ok (needs_more g r closed_size, cache)
      else
        match find_open flags with
        | None => Ok (needs_more g r closed_size, cache)
        | Some index =>
            let flags := <[index := NONE]> flags in
            let p : coord := (Z.rem (Z.of_nat index) (m_width g),
                              Z.quot (Z.of_nat index) (m_width g)) in
            let area := region_of g p.1 p.2 in
            match consider g ri r p area with
            | Discard => confined_loop fuel' g ri r verboten flags closed_size cache
            | Escaped => Ok (false, cache)
            | Confused =>
                Throw (logic_error ("LOGIC ERROR: Grid::confined() - " ++
                  "I was confused and thought two numbered regions would be adjacent."))
            | Consume =>
                match area with
                | None =>
                    let flags := flags_set g flags p CLOSED in
                    let flags := flags_open g flags (valid_neighbors g p.1 p.2) in
                    let cache :=
                      if CoordSet.is_empty verboten
                      then <[ri := CoordSet.insert p (default CoordSet.empty (cache !! ri))]> cache
                      else cache in
                    confined_loop fuel' g ri r verboten flags (closed_size + 1) cache
                | Some a =>
                    let flags := foldl (fun fl q => flags_set g fl q CLOSED) flags (m_coords a) in
                    let flags := flags_open g flags (m_unknowns a) in
                    confined_loop fuel' g ri r verboten flags (closed_size + Reg.size a) cache
                end
            end
        end
  end.

(** Is [r], the region of handle [ri], confined when the verboten cells
    cannot be consumed? *)
Definition confined (fuel : nat) (g : Grid) (ri : rid) (r : Region)
  (cache : cache_map_t) (verboten : CoordSet.t) : result (bool * cache_map_t) :=
  let skip :=
    if negb (CoordSet.is_empty verboten) then
      match cache !! ri with
      | None => true
      | Some consumed => forallb (fun p => negb (CoordSet.mem p consumed)) verboten
      end
    else false in
  if skip then Ok (false, cache)
  else
    let flags := replicate (Z.to_nat (m_width g * m_height g)) NONE in
    let flags := foldl (fun fl p => flags_set g fl p OPEN) flags (m_unknowns r) in
    let flags := foldl (fun fl p => flags_set g fl p CLOSED) flags (m_coords r) in
    let flags := foldl (fun fl p => flags_set g fl p VERBOTEN) flags verboten in
    confined_loop fuel g ri r verboten flags (Reg.size r) cache.

(** ** Contradictions *)

Definition uh_oh (g : Grid) (verbose : bool) (s : string) : Grid :=
  with_sitrep (if verbose then print g s CoordSet.empty 0 CoordSet.empty else g)
              CONTRADICTION_FOUND.

Definition pool_at (g : Grid) (p : coord) : bool :=
  (cell g p.1 p.2 =? BLACK) && (cell g (p.1 + 1) p.2 =? BLACK)
  && (cell g p.1 (p.2 + 1) =? BLACK) && (cell g (p.1 + 1) (p.2 + 1) =? BLACK).

Definition gigantic (g : Grid) (r : Region) : bool :=
  Reg.white r && impossibly_big_white_region g (Reg.size r)
  || Reg.numbered_and r (fun n => n <? Reg.size r).

(** The loop of [detect_contradictions] over the regions: the message of the
    contradiction it stops at, if any, and the two counters. *)
Fixpoint detect_regions (fuel : nat) (g : Grid) (rs : list (rid * Region))
  (black_cells white_cells : Z) (cache : cache_map_t)
  : result (option string * Z * Z * cache_map_t) :=
  match rs with
  | [] => Ok (None, black_cells, white_cells, cache)
  | (i, r) :: rs' =>
      if gigantic g r
      then Ok (Some "Contradiction found! Gigantic region detected."%string,
               black_cells, white_cells, cache)
      else
        let black_cells := if Reg.black r then black_cells + Reg.size r else black_cells in
        let white_cells := if Reg.black r then white_cells else white_cells + Reg.size r in
        c ← confined fuel g i r cache CoordSet.empty;
        if c.1 : bool
        then Ok (Some "Contradiction found! Confined region detected."%string,
                 black_cells, white_cells, c.2)
        else detect_regions fuel g rs' black_cells white_cells c.2
  end.

Definition detect_contradictions (fuel : nat) (g : Grid) (verbose : bool)
  (cache : cache_map_t) : result (bool * Grid * cache_map_t) :=
  if existsb (pool_at g) (xy_range (m_width g - 1) (m_height g - 1))
  then Ok (true, uh_oh g verbose "Contradiction found! Pool detected.", cache)
  else
    d ← detect_regions fuel g (regions g) 0 0 cache;
    let '(found, black_cells, white_cells, cache') := d in
    match found with
    | Some s => Ok (true, uh_oh g verbose s, cache')
    | None =>
        if m_total_black g <? black_cells
        then Ok (true, uh_oh g verbose "Contradiction found! Too many black cells detected.",
                 cache')
        else if m_width g * m_height g - m_total_black g <? white_cells
        then Ok (true,
                 uh_oh g verbose "Contradiction found! Too many white/numbered cells detected.",
                 cache')
        else Ok (false, g, cache')
    end.

(** ** Confinement analysis *)

(** The body of the inner loop of the first pass: the region [ir] against
    the single verboten cell [u]. *)
Definition confinement_region (fuel : nat) (g : Grid) (u : coord)
  (st : CoordSet.t * CoordSet.t * cache_map_t) (ir : rid * Region)
  : result (CoordSet.t * CoordSet.t * cache_map_t) :=
  let '(mark_as_black, mark_as_white, cache) := st in
  c ← confined fuel g ir.1 ir.2 cache (CoordSet.insert u CoordSet.empty);
  Ok (if c.1 : bool then
        if Reg.black ir.2
        then (CoordSet.insert u mark_as_black, mark_as_white, c.2)
        else (mark_as_black, CoordSet.insert u mark_as_white, c.2)
      else (mark_as_black, mark_as_white, c.2)).

(** The inner loop of the first pass: every region against [u]. *)
Definition confinement_cell (fuel : nat) (g : Grid) (u : coord)
  (st : CoordSet.t * CoordSet.t * cache_map_t)
  : result (CoordSet.t * CoordSet.t * cache_map_t) :=
  for_each (regions g) st (confinement_region fuel g u).

(** The first pass: each unknown cell in turn is the only verboten cell. *)
Definition confinement_unknown (fuel : nat) (g : Grid)
  (st : CoordSet.t * CoordSet.t * cache_map_t) (p : coord)
  : result (CoordSet.t * CoordSet.t * cache_map_t) :=
  if cell g p.1 p.2 =? UNKNOWN then confinement_cell fuel g p st else Ok st.

Definition confinement_pass1 (fuel : nat) (g : Grid) (cache : cache_map_t)
  : result (CoordSet.t * CoordSet.t * cache_map_t) :=
  for_each (xy_range (m_width g) (m_height g)) (CoordSet.empty, CoordSet.empty, cache)
           (confinement_unknown fuel g).

(** The innermost loop of the second pass: the other numbered regions against
    the liberty [u] of region [i] and the unknown neighbours of [u]. *)
Definition confinement_other (fuel : nat) (g : Grid) (i : rid) (u : coord)
  (verboten : CoordSet.t) (st : CoordSet.t * cache_map_t) (kr : rid * Region)
  : result (CoordSet.t * cache_map_t) :=
  if negb (bool_decide (kr.1 = i)) && Reg.numbered kr.2 then
    c ← confined fuel g kr.1 kr.2 st.2 verboten;
    Ok (if c.1 : bool then CoordSet.insert u st.1 else st.1, c.2)
  else Ok st.

Definition confinement_liberty (fuel : nat) (g : Grid) (i : rid)
  (st : CoordSet.t * cache_map_t) (u : coord) : result (CoordSet.t * cache_map_t) :=
  let verboten :=
    insert_valid_unknown_neighbors g (CoordSet.insert u CoordSet.empty) u.1 u.2 in
  for_each (regions g) st (confinement_other fuel g i u verboten).

Definition confinement_pass2 (fuel : nat) (g : Grid) (st : CoordSet.t * cache_map_t)
  : result (CoordSet.t * cache_map_t) :=
  for_each (regions g) st
    (fun st ir =>
       if Reg.numbered_and ir.2 (fun n => Reg.size ir.2 <? n)
       then for_each (m_unknowns ir.2) st (confinement_liberty fuel g ir.1)
       else Ok st).

Definition confinement_marks (fuel : nat) (g : Grid) (cache : cache_map_t)
  : result (CoordSet.t * CoordSet.t * cache_map_t) :=
  '(mark_as_black, mark_as_white, cache1) ← confinement_pass1 fuel g cache;
  '(mark_as_black', cache2) ← confinement_pass2 fuel g (mark_as_black, cache1);
  Ok (mark_as_black', mark_as_white, cache2).

Definition analyze_confinement (fuel : nat) (g : Grid) (verbose : bool)
  (cache : cache_map_t) : result (bool * Grid * cache_map_t) :=
  '(mark_as_black, mark_as_white, cache') ← confinement_marks fuel g cache;
  res ← process g verbose mark_as_black mark_as_white
                "Confinement analysis succeeded." 0 CoordSet.empty;
  Ok (res, cache').

(** ** The solve driver *)

Section Solve.

(** [random_shuffle(first, last, dist)] with the distribution drawing from
    [m_prng]: the shuffled vector and the generator afterwards. *)
Variable random_shuffle : PRNG -> list (Z * Z * Z) -> list (Z * Z * Z) * PRNG.

(** The private copy constructor: the regions are copied, the output is not,
    and every cell of a copied region is pointed at the copy.  The copies
    keep the handles of the originals. *)
Definition Grid_copy (other : Grid) : Grid :=
  let g := with_output other [] in
  foldl (fun h ir => foldl (fun h' k => set_region h' k.1 k.2 (Some ir.1)) h (m_coords ir.2))
        g (regions g).

Fixpoint stable_insert (e : Z * Z * Z) (l : list (Z * Z * Z)) : list (Z * Z * Z) :=
  match l with
  | [] => [e]
  | h :: t => if e.2 <? h.2 then e :: l else h :: stable_insert e t
  end.

(** [stable_sort] by the Manhattan distance. *)
Definition stable_sort (l : list (Z * Z * Z)) : list (Z * Z * Z) :=
  foldl (fun acc e => stable_insert e acc) [] l.

(** Guess cells in a deterministic but pseudorandomized order; the generator
    of the grid advances. *)
Definition guessing_order (g : Grid) : list coord * Grid :=
  let cs := xy_range (m_width g) (m_height g) in
  let x_y_manhattan :=
    omap (fun p => if cell g p.1 p.2 =? UNKNOWN
                   then Some (p.1, p.2, m_width g + m_height g) else None) cs in
  let white_cells := List.filter (fun p => cell g p.1 p.2 =? WHITE) cs in
  let '(shuffled, prng) := random_shuffle (m_prng g) x_y_manhattan in
  let nearest (t : Z * Z * Z) :=
    (t.1, foldl (fun manhattan k =>
                   let d := Z.abs (t.1.1 - k.1) + Z.abs (t.1.2 - k.2) in
                   if d <? manhattan then d else manhattan)
                t.2 white_cells) in
  let sorted := stable_sort (nearest <$> shuffled) in
  (fst <$> sorted,
   mkGrid (m_width g) (m_height g) (m_total_black g) (m_cells g) (m_regions g)
          (m_sitrep g) (m_output g) prng).

(** [a || b] on two steps of analysis: [b] runs on the grid left by [a]. *)
Definition or_else (a : result (bool * Grid)) (b : Grid -> result (bool * Grid))
  : result (bool * Grid) :=
  a ≫= λ r : bool * Grid, if r.1 then Ok r else b r.2.

(** [solve], with the hypothetical analysis [hyp] left open: it is only
    reached when [guessing] holds. *)
Definition solve_with (hyp : nat -> Grid -> bool -> result (bool * Grid))
  (fuel : nat) (g : Grid) (verbose guessing : bool) : result (SitRep * Grid) :=
  if known g =? m_width g * m_height g then
    d ← detect_contradictions fuel g verbose ∅;
    if d.1.1 : bool then Ok (CONTRADICTION_FOUND, d.1.2)
    else Ok (SOLUTION_FOUND,
             if verbose then print d.1.2 "I'm done!" CoordSet.empty 0 CoordSet.empty
             else d.1.2)
  else
    r ← or_else (analyze_complete_islands g verbose) (λ g,
        or_else (analyze_single_liberties g verbose) (λ g,
        or_else (analyze_dual_liberties g verbose) (λ g,
        or_else (analyze_unreachable_cells fuel g verbose) (λ g,
        or_else (analyze_potential_pools fuel g verbose) (λ g,
          d ← detect_contradictions fuel g verbose ∅;
          if d.1.1 : bool then Ok (true, d.1.2) else
          c ← analyze_confinement fuel d.1.2 verbose d.2;
          if c.1.1 : bool then Ok (true, c.1.2) else
          if guessing : bool then hyp fuel c.1.2 verbose else Ok (false, c.1.2))))));
    if r.1 : bool then Ok (m_sitrep r.2, r.2)
    else Ok (CANNOT_PROCEED,
             if verbose then print r.2 "I'm stumped!" CoordSet.empty 0 CoordSet.empty
             else r.2).

(** [solve(verbose, false)] never reaches the hypothetical analysis. *)
Definition solve_no_guess (fuel : nat) (g : Grid) (verbose : bool) : result (SitRep * Grid) :=
  solve_with (λ _ g _, Ok (false, g)) fuel g verbose false.

(** [while (sr == KEEP_GOING) sr = other.solve(false, false);] *)
Fixpoint solve_until (n : nat) (fuel : nat) (other : Grid) : result SitRep :=
  match n with
  | O => OutOfFuel
  | S n' =>
      r ← solve_no_guess fuel other false;
      if SitRep_eqb r.1 KEEP_GOING then solve_until n' fuel r.2 else Ok r.1
  end.

(** One guess: the colour [color] at [(x, y)] on a copy of the grid. *)
Definition hypothesize (fuel : nat) (g : Grid) (color : State) (x y : Z) : result SitRep :=
  other ← mark (Grid_copy g) color x y;
  solve_until fuel fuel other.

Definition singleton_if (b : bool) (p : coord) : CoordSet.t :=
  if b then CoordSet.insert p CoordSet.empty else CoordSet.empty.

(** The loop over the two colours and over the cells of [guessing_order]. *)
Fixpoint hypotheticals_loop (fuel : nat) (g : Grid) (verbose : bool)
  (todo : list (coord * State)) (failed_guesses : Z) (failed_coords : CoordSet.t)
  : result (bool * Grid) :=
  match todo with
  | [] => Ok (false, g)
  | (p, color) :: todo' =>
      sr ← hypothesize fuel g color p.1 p.2;
      match sr with
      | CONTRADICTION_FOUND =>
          (* mark_as_diff.insert(p) *)
          process g verbose (singleton_if (negb (color =? BLACK)) p)
                  (singleton_if (color =? BLACK) p)
                  "Hypothetical contradiction found." failed_guesses failed_coords
      | SOLUTION_FOUND =>
          (* mark_as_same.insert(p) *)
          process g verbose (singleton_if (color =? BLACK) p)
                  (singleton_if (negb (color =? BLACK)) p)
                  "Hypothetical solution found." failed_guesses failed_coords
      | _ =>
          hypotheticals_loop fuel g verbose todo' (failed_guesses + 1)
                             (CoordSet.insert p failed_coords)
      end
  end.

(** The guesses in the order of the two nested loops. *)
Definition guesses (v : list coord) : list (coord * State) :=
  u ← v; [(u, BLACK); (u, WHITE)].

Definition analyze_hypotheticals (fuel : nat) (g : Grid) (verbose : bool)
  : result (bool * Grid) :=
  let '(v, g') := guessing_order g in
  hypotheticals_loop fuel g' verbose (guesses v) 0 CoordSet.empty.

Definition solve (fuel : nat) (g : Grid) (verbose guessing : bool) : result (SitRep * Grid) :=
  solve_with analyze_hypotheticals fuel g verbose guessing.

End Solve.

(** ** Construction *)

(** The matches of the regular expression [(\d+)|( )|(\n)|[^\d \n]]
    that [sregex_iterator] yields: a maximal run of digits, a space, a
    newline, or any other character. *)
Inductive token : Type :=
| TNumber (digits : list ascii)
| TSpace
| TNewline
| TOther (c : ascii).

Definition is_digit (c : ascii) : bool :=
  (48 <=? Z.of_nat (nat_of_ascii c)) && (Z.of_nat (nat_of_ascii c) <=? 57).
Definition is_space (c : ascii) : bool := Z.of_nat (nat_of_ascii c) =? 32.
Definition is_newline (c : ascii) : bool := Z.of_nat (nat_of_ascii c) =? 10.

Fixpoint tokenize (s : list ascii) : list token :=
  match s with
  | [] => []
  | c :: s' =>
      if is_digit c then
        match tokenize s' with
        | TNumber ds :: ts => TNumber (c :: ds) :: ts
        | ts => TNumber [c] :: ts
        end
      else if is_space c then TSpace :: tokenize s'
      else if is_newline c then TNewline :: tokenize s'
      else TOther c :: tokenize s'
  end.

Definition INT_MAX : Z := 2147483647.

(** The value that [int] arithmetic leaves: the 32 bits of the result, read
    in two's complement. *)
Definition wrap_int (z : Z) : Z := (z + 2147483648) mod 4294967296 - 2147483648.

Definition decimal (ds : list ascii) : Z :=
  foldl (fun n c => 10 * n + (Z.of_nat (nat_of_ascii c) - 48)) 0 ds.

(** [std::stoi] on a run of digits: the value, or [std::out_of_range] when
    it does not fit in an [int]. *)
Definition stoi (ds : list ascii) : result Z :=
  if INT_MAX <? decimal ds
  then Throw (out_of_range "stoi argument out of range")
  else Ok (decimal ds).

(** The parsing loop, which fills the vector [v]. *)
Fixpoint parse (ts : list token) (v : list Z) : result (list Z) :=
  match ts with
  | [] => Ok v
  | TNumber ds :: ts' => n ← stoi ds; parse ts' (v ++ [n])
  | TSpace :: ts' => parse ts' (v ++ [0])
  | TNewline :: ts' => parse ts' v
  | TOther _ :: _ =>
      Throw (runtime_error ("RUNTIME ERROR: Grid::Grid() - " ++
                            "s must contain only digits, spaces, and newlines."))
  end.

(** The values that the parsing loop pushes for a list of tokens, and the
    tokens on which it does not throw. *)
Definition token_values (ts : list token) : list Z :=
  ts ≫= λ t, match t with TNumber ds => [decimal ds] | TSpace => [0] | _ => [] end.

Definition token_ok (t : token) : bool :=
  match t with
  | TNumber ds => decimal ds <=? INT_MAX
  | TOther _ => false
  | _ => true
  end.

(** [v[k]] *)
Definition entry (v : list Z) (k : Z) : Z := default 0 (v !! Z.to_nat k).

(** The body of the two loops of the constructor at [(x, y)]. *)
Definition place_clue (v : list Z) (g : Grid) (p : coord) : result Grid :=
  let n := entry v (p.1 + p.2 * m_width g) in
  if 0 <? n then
    if valid g p.1 (p.2 - 1) && (0 <? cell g p.1 (p.2 - 1))
    then Throw (runtime_error ("RUNTIME ERROR: Grid::Grid() - " ++
                               "s contains vertically adjacent numbers."))
    else
      g1 ← add_region (set_cell g p.1 p.2 n) p.1 p.2;
      Ok (with_total_black g1 (wrap_int (m_total_black g1 - n)))
  else Ok g.

Section Construction.

(** The constructor of [mt19937] from a seed. *)
Variable mt19937 : Z -> PRNG.

Definition Grid_new (width height : Z) (s : string) : result Grid :=
  if width <? 1
  then Throw (runtime_error "RUNTIME ERROR: Grid::Grid() - width must be at least 1.")
  else if height <? 1
  then Throw (runtime_error "RUNTIME ERROR: Grid::Grid() - height must be at least 1.")
  else
    let g0 :=
      mkGrid width height (wrap_int (width * height))
             (replicate (Z.to_nat width) (replicate (Z.to_nat height) (UNKNOWN, None)))
             ∅ KEEP_GOING [] (mt19937 1729) in
    v ← parse (tokenize (list_ascii_of_string s)) [];
    if negb (Z.of_nat (length v) =? width * height)
    then Throw (runtime_error ("RUNTIME ERROR: Grid::Grid() - " ++
                               "s must contain width * height numbers and spaces."))
    else
      g ← for_each (seqZ 0 width) g0
            (fun g x => for_each (seqZ 0 height) g (fun h y => place_clue v h (x, y)));
      Ok (print g "I'm okay to go!" CoordSet.empty 0 CoordSet.empty).

End Construction.

End WithPrng.

Arguments Grid : clear implicits.

(** ** The loop of [main] *)

(** [while (g.solve() == Grid::KEEP_GOING) { }] in [main]: one unit of [n]
    for each call of [solve]. *)
Fixpoint solve_loop {PRNG}
  (random_shuffle : PRNG -> list (Z * Z * Z) -> list (Z * Z * Z) * PRNG)
  (n fuel : nat) (g : Grid PRNG) : result (Grid PRNG) :=
  match n with
  | O => OutOfFuel
  | S n' =>
      r ← solve random_shuffle fuel g true true;
      if SitRep_eqb r.1 KEEP_GOING then solve_loop random_shuffle n' fuel r.2 else Ok r.2
  end.

(** ** The input errors of the specification *)

(** The numbers and spaces of the input string, in order, as the grammar of
    the specification reads them: the digits of a run form one number, a
    space is a 0, any other character contributes nothing.  [cur] is the
    value of the run of digits being read, if any. *)
Fixpoint entries_from (cur : option Z) (s : list ascii) : list Z :=
  match s with
  | [] => option_list cur
  | c :: s' =>
      if is_digit c
      then entries_from (Some (10 * default 0 cur + (Z.of_nat (nat_of_ascii c) - 48))) s'
      else option_list cur ++ (if is_space c then [0] else []) ++ entries_from None s'
  end.

Definition entries (s : string) : list Z := entries_from None (list_ascii_of_string s).

(** "a character other than a digit, space, or newline" *)
Definition bad_character (s : string) : Prop :=
  exists c, c ∈ list_ascii_of_string s
            /\ is_digit c = false /\ is_space c = false /\ is_newline c = false.

(** "the total count of numbers-and-spaces differs from W * H" *)
Definition wrong_count (width height : Z) (s : string) : Prop :=
  Z.of_nat (length (entries s)) <> width * height.

(** "two non-zero numbers are vertically adjacent", in the row-major layout *)
Definition vertically_adjacent (width height : Z) (s : string) : Prop :=
  exists x y, 0 <= x < width /\ 1 <= y < height
              /\ 0 < entry (entries s) (x + y * width)
              /\ 0 < entry (entries s) (x + (y - 1) * width).

(** The five input errors that the specification lists. *)
Definition input_error (width height : Z) (s : string) : Prop :=
  width < 1 \/ height < 1 \/ bad_character s
  \/ wrong_count width height s \/ vertically_adjacent width height s.

(** A number of the input that does not fit in an [int]. *)
Definition number_too_big (s : string) : Prop :=
  exists n, n ∈ entries s /\ INT_MAX < n.

(** ** Quantities of the specification *)

(** The sum of the sizes of the black regions, and of the other regions. *)
Definition black_cells {PRNG} (g : Grid PRNG) : Z :=
  foldr (fun ir acc => if Reg.black ir.2 then Reg.size ir.2 + acc else acc) 0 (regions g).
Definition white_cells {PRNG} (g : Grid PRNG) : Z :=
  foldr (fun ir acc => if Reg.black ir.2 then acc else Reg.size ir.2 + acc) 0 (regions g).

(** The grid that a step of analysis leaves. *)
Definition after {PRNG} (d : Grid PRNG) (r : result (bool * Grid PRNG)) : Grid PRNG :=
  match r with Ok (_, g) => g | _ => d end.

(** ** The search of [unreachable] and the islands of a grid *)

(** The notions of this part are not in the source: they state what the
    search of [unreachable] explores and what blackening a cell keeps, for
    the proofs on the unreachable-cell rule. *)

(** A chain of cells from [u] to [e], of [len] cells: every cell after the
    first is an unknown neighbour of the one before, and every cell before
    the last is one that the search expands. *)
Inductive chain {PRNG} (g : Grid PRNG) : coord -> Z -> coord -> Prop :=
| chain_end e : chain g e 1 e
| chain_cons u w len e :
    examine g u.1 u.2 1 = Ok Expand ->
    w ∈ valid_neighbors g u.1 u.2 ->
    cell g w.1 w.2 = UNKNOWN ->
    chain g w len e ->
    chain g u (len + 1) e.

(** The cells of the grid that are not yet discovered. *)
Definition undiscovered {PRNG} (g : Grid PRNG) (discovered : CoordSet.t) : nat :=
  length (List.filter (fun p => negb (CoordSet.mem p discovered))
                      (xy_range (m_width g) (m_height g))).

(** The cells of [A] at the depth [lo]. *)
Definition layer (lo : Z) (A : list coord) : list (Z * Z * Z) := (fun p => (p, lo)) <$> A.

(** The state of the search, with the cells already taken from the queue
    and their depths in [examined]. *)
Record search_inv {PRNG} (g : Grid PRNG) (c : coord) (q : list (Z * Z * Z))
  (discovered : CoordSet.t) (examined : list (coord * Z)) : Prop := {
  inv_discovered : forall p, p ∈ discovered ->
    (exists d, (p, d) ∈ q) \/ (exists d, (p, d) ∈ examined);
  inv_not_found : forall p d, (p, d) ∈ examined -> examine g p.1 p.2 d <> Ok Found;
  inv_neighbors : forall p d w, (p, d) ∈ examined -> examine g p.1 p.2 d = Ok Expand ->
    w ∈ valid_neighbors g p.1 p.2 -> cell g w.1 w.2 = UNKNOWN ->
    exists d', d' <= d + 1 /\ ((w, d') ∈ q \/ (w, d') ∈ examined);
  inv_layers : exists lo A B, q = layer lo A ++ layer (lo + 1) B
    /\ forall p d, (p, d) ∈ examined -> d <= lo;
  inv_valid : forall t, t ∈ q -> valid g t.1.1 t.1.2 = true;
  inv_root : (c, 1) ∈ q \/ (c, 1) ∈ examined
}.

(** [g'] has the islands of [g]: the regions that are not black are the
    same, under the same handles, with the same states and the same cells,
    and the cells that designate them in [g] designate them in [g']. *)
Record same_islands {PRNG} (g g' : Grid PRNG) : Prop := {
  si_width : m_width g' = m_width g;
  si_height : m_height g' = m_height g;
  si_fwd : forall i r, m_regions g !! i = Some r -> Reg.black r = false ->
    exists r', m_regions g' !! i = Some r'
      /\ m_state r' = m_state r /\ m_coords r' = m_coords r;
  si_bwd : forall i r', m_regions g' !! i = Some r' -> Reg.black r' = false ->
    exists r, m_regions g !! i = Some r
      /\ m_state r' = m_state r /\ m_coords r' = m_coords r;
  si_handle : forall x y i r, region g x y = Some i -> m_regions g !! i = Some r ->
    Reg.black r = false -> region g' x y = Some i;
  si_cell : forall x y,
    region g' x y = region g x y \/ black_handle g' (region g' x y)
}.

(** The cells of the black regions designate black regions. *)
Definition black_cells_black {PRNG} (g : Grid PRNG) : Prop :=
  forall i b q, m_regions g !! i = Some b -> Reg.black b = true -> q ∈ m_coords b ->
    black_handle g (region g q.1 q.2).

(** The unknown cells of the grid designate no island. *)
Definition unknown_cells_free {PRNG} (g : Grid PRNG) : Prop :=
  forall x y, valid g x y = true -> cell g x y = UNKNOWN -> black_handle g (region g x y).

Definition tidy {PRNG} (g : Grid PRNG) : Prop :=
  unknown_cells_free g /\ black_cells_black g.

(** ** Notions for the further properties *)

(** The notions of this part are not in the source: they name what the
    further properties of the code are about. *)

(** The cells of the array are cells of the grid. *)
Definition shape {PRNG} (g : Grid PRNG) : Prop :=
  forall x y, inside (m_cells g) x y -> valid g x y = true.

(** Every liberty that a region records is an unknown cell. *)
Definition liberties_unknown {PRNG} (g : Grid PRNG) : Prop :=
  forall i r q, m_regions g !! i = Some r -> q ∈ m_unknowns r -> cell g q.1 q.2 = UNKNOWN.

(** The fields that [set_region], [absorb] and [fuse_regions] leave alone. *)
Definition same_frame {PRNG} (g h : Grid PRNG) : Prop :=
  m_width h = m_width g /\ m_height h = m_height g /\ m_total_black h = m_total_black g
  /\ m_output h = m_output g /\ m_prng h = m_prng g.

(** The loop of [known()] over the cells of [l], from the count [n]. *)
Definition count_known {PRNG} (g : Grid PRNG) (n : Z) (l : list coord) : Z :=
  foldl (fun ret p => if negb (cell g p.1 p.2 =? UNKNOWN) then ret + 1 else ret) n l.

(** The two conditions under which the single-liberty rule proposes the
    only liberty of a region, as black and as white. *)
Definition expands_black {PRNG} (g : Grid PRNG) (r : Region) : Prop :=
  Reg.black r = true /\ Reg.size r < m_total_black g.

Definition expands_white (r : Region) : Prop :=
  Reg.black r = false
  /\ (Reg.white r = true \/ (Reg.numbered r = true /\ Reg.size r < m_state r)).

(** The four cells of the square whose upper left corner is [(x, y)]. *)
Definition square (x y : Z) : list coord :=
  [(x, y); (x + 1, y); (x, y + 1); (x + 1, y + 1)].

(** The Manhattan distance from [p] to the nearest white cell, as the inner
    loop of [guessing_order] computes it: [m_width + m_height] when there is
    no white cell nearer than that. *)
Definition white_distance {PRNG} (g : Grid PRNG) (p : coord) : Z :=
  foldl (fun manhattan k =>
           let d := Z.abs (p.1 - k.1) + Z.abs (p.2 - k.2) in
           if d <? manhattan then d else manhattan)
        (m_width g + m_height g)
        (List.filter (fun k => cell g k.1 k.2 =? WHITE) (xy_range (m_width g) (m_height g))).

(** The vector [x_y_manhattan] before the shuffle. *)
Definition unknown_cells {PRNG} (g : Grid PRNG) : list (Z * Z * Z) :=
  omap (fun p => if cell g p.1 p.2 =? UNKNOWN
                 then Some (p.1, p.2, m_width g + m_height g) else None)
       (xy_range (m_width g) (m_height g)).

(** What a step of analysis may do to the grid: the array keeps its size,
    the situation stays or becomes [CONTRADICTION_FOUND], and short of a
    contradiction the number of known cells grows ([strict]: by one at
    least). *)
Definition moved {PRNG} (strict : bool) (g g' : Grid PRNG) : Prop :=
  m_width g' = m_width g /\ m_height g' = m_height g
  /\ (forall x y, inside (m_cells g') x y <-> inside (m_cells g) x y)
  /\ (m_sitrep g' = CONTRADICTION_FOUND
      \/ (m_sitrep g' = m_sitrep g
          /\ (shape g -> if strict then known g < known g' else known g <= known g'))).

(** The grid but for its output and its generator. *)
Definition same_board {PRNG} (g g' : Grid PRNG) : Prop :=
  m_cells g' = m_cells g /\ m_regions g' = m_regions g /\ m_sitrep g' = m_sitrep g
  /\ m_width g' = m_width g /\ m_height g' = m_height g
  /\ m_total_black g' = m_total_black g.

(** The sum of the numbers in the cells of the grid. *)
Definition clue_sum {PRNG} (g : Grid PRNG) : Z :=
  foldr (fun p acc => (if 0 <? cell g p.1 p.2 then cell g p.1 p.2 else 0) + acc) 0
        (xy_range (m_width g) (m_height g)).

(** ** Well-formed grids and the loops that end *)

(** The notions of this part are not in the source either: they state
    the invariant of the grid that the constructor sets up and [mark]
    keeps, and what the loops of the analysis need to return. *)

(** The grid is well formed: the array has the size of the grid; an unknown
    cell designates no region and a known cell designates a region that
    contains it; the cells of a region designate it; the liberties of a
    region are unknown cells of the grid; a region is black, white or
    numbered. *)
Record well_formed {PRNG} (g : Grid PRNG) : Prop := {
  wf_width : 1 <= m_width g;
  wf_height : 1 <= m_height g;
  wf_array : forall x y, inside (m_cells g) x y <-> valid g x y = true;
  wf_unknown : forall x y, valid g x y = true -> cell g x y = UNKNOWN -> region g x y = None;
  wf_known : forall x y, valid g x y = true -> cell g x y <> UNKNOWN ->
    exists i a, region g x y = Some i /\ m_regions g !! i = Some a /\ (x, y) ∈ m_coords a;
  wf_coords : forall i a q, m_regions g !! i = Some a -> q ∈ m_coords a ->
    valid g q.1 q.2 = true /\ region g q.1 q.2 = Some i;
  wf_liberties : forall i a q, m_regions g !! i = Some a -> q ∈ m_unknowns a ->
    valid g q.1 q.2 = true /\ cell g q.1 q.2 = UNKNOWN;
  wf_state : forall i a, m_regions g !! i = Some a ->
    Reg.black a = true \/ Reg.white a = true \/ Reg.numbered a = true
}.

(** Two numbers of the grid are side by side in a row. *)
Definition clues_side_by_side {PRNG} (g : Grid PRNG) : bool :=
  existsb (fun p => (0 <? cell g p.1 p.2) && (0 <? cell g (p.1 + 1) p.2))
          (xy_range (m_width g - 1) (m_height g)).

(** The liberties of a region are neighbours of its only cell. *)
Definition liberties_near {PRNG} (g : Grid PRNG) : Prop :=
  forall i r u, m_regions g !! i = Some r -> u ∈ m_unknowns r ->
    exists q, m_coords r = [q] /\ u ∈ valid_neighbors g q.1 q.2.

(** The cells of [s] are unknown cells of the grid. *)
Definition unknown_cells_of {PRNG} (g : Grid PRNG) (s : CoordSet.t) : Prop :=
  forall q, q ∈ s -> valid g q.1 q.2 = true /\ cell g q.1 q.2 = UNKNOWN.

(** The cells of [s] are cells of the grid. *)
Definition cells_of {PRNG} (g : Grid PRNG) (s : CoordSet.t) : Prop :=
  forall q, q ∈ s -> valid g q.1 q.2 = true.

(** Fuel for every loop of the analysis of the grid. *)
Definition enough {PRNG} (g : Grid PRNG) (fuel : nat) : Prop :=
  (m_width g * m_height g + 1) * (m_width g * m_height g + 1) <= Z.of_nat fuel.

(** The number of flags equal to [f]. *)
Fixpoint count_flag (f : Flag) (flags : list Flag) : Z :=
  match flags with
  | [] => 0
  | x :: l => (if Flag_eqb x f then 1 else 0) + count_flag f l
  end.

(** What is left to the loop of [confined]: the cells that are not closed
    count for a whole pass over the flags, the open cells for one step. *)
Definition confined_measure (flags : list Flag) : Z :=
  (Z.of_nat (length flags) - count_flag CLOSED flags) * (Z.of_nat (length flags) + 1)
  + count_flag OPEN flags.

(** The flags of a numbered region in the loop of [confined]: an open cell
    designates no numbered region, and the cells of the region are closed. *)
Definition confined_inv {PRNG} (g : Grid PRNG) (r : Region) (flags : list Flag) : Prop :=
  length flags = Z.to_nat (m_width g * m_height g)
  /\ (Reg.black r = false -> Reg.white r = false ->
      (forall q a, valid g q.1 q.2 = true ->
                   flags !! Z.to_nat (flag_index g q) = Some OPEN ->
                   region_of g q.1 q.2 = Some a ->
                   Reg.black a = true \/ Reg.white a = true)
      /\ (forall q, q ∈ m_coords r -> flags !! Z.to_nat (flag_index g q) = Some CLOSED)).

(** A step of analysis that returns, leaves a well-formed grid, and leaves
    the grid alone when it answers "no change". *)
Definition steady {PRNG} (a : result (bool * Grid PRNG)) (g : Grid PRNG) : Prop :=
  exists (b : bool) g', a = Ok (b, g') /\ well_formed g' /\ (b = false -> g' = g).

(** ** Sample grids *)

Definition no_prng : Z -> unit := fun _ => tt.
Definition keep_order (s : unit) (l : list (Z * Z * Z)) : list (Z * Z * Z) * unit := (l, s).
Definition empty_grid : Grid unit := mkGrid 0 0 0 [] ∅ KEEP_GOING [] tt.
Definition grid_of (r : result (Grid unit)) : Grid unit :=
  match r with Ok g => g | _ => empty_grid end.

(** One row of five cells with the clue 3 at its left end. *)
Definition corridor : Grid unit := grid_of (Grid_new no_prng 5 1 "3    ").
(** One row of three cells with the clues 1 and 2 at its ends; there is no
    black cell in a solution: [m_total_black] is 0. *)
Definition clue_pair : Grid unit := grid_of (Grid_new no_prng 3 1 "1 2").
(** Two columns, four rows, the clue 2 at (0, 0) and at (1, 2). *)
Definition two_islands : Grid unit :=
  grid_of (Grid_new no_prng 2 4
             ("2 " ++ String "010" ("  " ++ String "010" (" 2" ++ String "010" "  ")))).
(** Three by three with the clue 4 in a corner, three black cells and a
    white one. *)
Definition pool_shore : Grid unit :=
  grid_of (mark_all (grid_of (Grid_new no_prng 3 3 "4        ")) BLACK [(1, 1); (2, 1); (0, 2)]
             ≫= λ g, mark g WHITE 2 2).
(** The island of the corridor, and the cache that [detect_contradictions]
    leaves on the corridor: the island consumes (1, 0) and (2, 0). *)
Definition corridor_island : Region := mkRegion 3 [(0, 0)] [(1, 0)].
Definition corridor_cache : cache_map_t := {[ 0%nat := [(1, 0); (2, 0)] ]}.
(** The single cell with the clue 1: a solved grid. *)
Definition solved_cell : Grid unit := grid_of (Grid_new no_prng 1 1 "1").
(** One row of five cells with the clue 1 at its left end. *)
Definition lone_clue : Grid unit := grid_of (Grid_new no_prng 5 1 "1    ").
(** One row of two cells with the clues 1 and 2: a newline between two
    numbers of a row keeps them apart in the string but not in the grid. *)
Definition adjacent_clues : Grid unit :=
  grid_of (Grid_new no_prng 2 1 ("1" ++ String "010" "2")).
(** Three by three with the clue 5 in the centre: no rule applies and no
    guess is decisive. *)
Definition stumped : Grid unit := grid_of (Grid_new no_prng 3 3 "    5    ").
(** Two by two without clue, three cells black. *)
Definition pool_corner : Grid unit :=
  grid_of (mark_all (grid_of (Grid_new no_prng 2 2 "    ")) BLACK [(0, 0); (1, 0); (0, 1)]).
(** Two by two without clue, the four cells black. *)
Definition pool : Grid unit :=
  grid_of (mark_all (grid_of (Grid_new no_prng 2 2 "    ")) BLACK
             [(0, 0); (1, 0); (0, 1); (1, 1)]).
(** One row of three cells with two clues whose sum does not fit in an
    [int]. *)
Definition big_clues : Grid unit := grid_of (Grid_new no_prng 3 1 "2147483647 2147483647").
(** One row of seven cells with the clues 3 and 4, and the cache that
    [detect_contradictions] leaves on it. *)
Definition two_clue_row : Grid unit := grid_of (Grid_new no_prng 7 1 " 3   4 ").
Definition two_clue_row_cache : cache_map_t :=
  {[ 0%nat := [(0, 0); (2, 0)]; 1%nat := [(3, 0); (4, 0); (6, 0)] ]}.
(** The corridor with the cell next to the clue blackened. *)
Definition corridor_black : Grid unit := grid_of (mark corridor BLACK 1 0).
(** The row of [lone_clue] with the cell next to the clue blackened. *)
Definition lone_clue_black : Grid unit := grid_of (mark lone_clue BLACK 1 0).

(** * Verification *)

(** ** Facts on the model of [set<pair<int, int>>] *)

Module CoordSetFacts.

Lemma compare_eq (p q : coord) : CoordSet.compare p q = Eq -> p = q.
Proof.
  destruct p as [a b], q as [c d]; unfold CoordSet.compare; simpl.
  destruct (a ?= c) eqn:E; try discriminate.
  intros E'. apply Z.compare_eq in E, E'. by subst.
Qed.

Lemma eqb_true (p q : coord) : CoordSet.eqb p q = true <-> p = q.
Proof.
  destruct p as [a b], q as [c d]; unfold CoordSet.eqb; simpl.
  rewrite andb_true_iff, !Z.eqb_eq. split; [intros [-> ->]|intros [= -> ->]]; done.
Qed.

Lemma eqb_false (p q : coord) : CoordSet.eqb p q = false <-> p <> q.
Proof.
  rewrite <- eqb_true. destruct (CoordSet.eqb p q); split; congruence.
Qed.

Lemma elem_of_insert (p q : coord) (s : CoordSet.t) :
  q ∈ CoordSet.insert p s <-> q = p \/ q ∈ s.
Proof.
  induction s as [|h s IH]; simpl.
  - rewrite list_elem_of_singleton, elem_of_nil. tauto.
  - destruct (CoordSet.compare p h) eqn:E.
    + apply compare_eq in E as ->. rewrite elem_of_cons. tauto.
    + rewrite !elem_of_cons. tauto.
    + rewrite !elem_of_cons, IH. tauto.
Qed.

Lemma elem_of_insert_all (ps : list coord) (q : coord) (s : CoordSet.t) :
  q ∈ CoordSet.insert_all ps s <-> q ∈ ps \/ q ∈ s.
Proof.
  unfold CoordSet.insert_all. revert s.
  induction ps as [|p ps IH]; intros s; simpl.
  - rewrite elem_of_nil. tauto.
  - rewrite IH, elem_of_insert, elem_of_cons. tauto.
Qed.

Lemma elem_of_erase (p q : coord) (s : CoordSet.t) :
  q ∈ CoordSet.erase p s <-> q <> p /\ q ∈ s.
Proof.
  unfold CoordSet.erase. rewrite !list_elem_of_In, filter_In, negb_true_iff, eqb_false.
  split; intros [? ?]; split; auto.
Qed.

Lemma mem_true (p : coord) (s : CoordSet.t) : CoordSet.mem p s = true <-> p ∈ s.
Proof.
  unfold CoordSet.mem. rewrite existsb_exists. split.
  - intros (q & Hq & E). apply eqb_true in E as ->. by apply list_elem_of_In.
  - intros H. exists p. split; [by apply list_elem_of_In | by apply eqb_true].
Qed.

Lemma is_empty_true (s : CoordSet.t) : CoordSet.is_empty s = true <-> s = [].
Proof. destruct s; simpl; split; congruence. Qed.

Lemma insert_nonempty (p : coord) (s : CoordSet.t) : CoordSet.insert p s <> [].
Proof.
  intros E. assert (H : p ∈ CoordSet.insert p s) by (apply elem_of_insert; auto).
  rewrite E in H. by apply not_elem_of_nil in H.
Qed.

End CoordSetFacts.


(** ** Marking a known cell, the first test of [unreachable], the cache of
    [confined] *)

Section Basics.

Context {PRNG : Type}.
Implicit Types (g : Grid PRNG) (r : Region).

Lemma Z_eqb_false_ne (a b : Z) : a <> b -> (a =? b) = false.
Proof. intros H. by apply Z.eqb_neq. Qed.

(** C5.  Marking a cell that is already known, as white or as black, only
    records the contradiction: the call returns normally, [m_sitrep] is
    [CONTRADICTION_FOUND], and the cells and the regions are those of before. *)
Theorem mark_known_cell g (s : State) (x y : Z) :
  s = WHITE \/ s = BLACK ->
  cell g x y <> UNKNOWN ->
  exists g', mark g s x y = Ok g'
    /\ m_sitrep g' = CONTRADICTION_FOUND
    /\ m_cells g' = m_cells g
    /\ m_regions g' = m_regions g.
Proof.
  intros Hs Hc. exists (with_sitrep g CONTRADICTION_FOUND).
  split; [|done].
  unfold mark. rewrite (Z_eqb_false_ne _ _ Hc).
  by destruct Hs as [-> | ->].
Qed.

(** C8.  On a root cell that is not unknown, [unreachable] answers [false]
    whatever the discovered set, before any search. *)
Theorem unreachable_known_root (fuel : nat) g (x_root y_root : Z) (discovered : CoordSet.t) :
  cell g x_root y_root <> UNKNOWN ->
  unreachable fuel g x_root y_root discovered = Ok false.
Proof.
  intros Hc. unfold unreachable. by rewrite (Z_eqb_false_ne _ _ Hc).
Qed.

(** C10.  With verboten cells and no entry for the region in the cache,
    [confined] answers not confined at once: the answer does not depend on
    the fuel, so the loop is not entered, and the cache is left as it was. *)
Theorem confined_uncached (fuel : nat) g (ri : rid) r (cache : cache_map_t)
  (verboten : CoordSet.t) :
  verboten <> [] ->
  cache !! ri = None ->
  confined fuel g ri r cache verboten = Ok (false, cache).
Proof.
  intros Hv Hc. unfold confined. rewrite Hc.
  by destruct verboten.
Qed.

End Basics.

(** ** A grid without unknown cells *)

Section Solved.

Context {PRNG : Type}.
Implicit Types (g : Grid PRNG).

Lemma elem_of_xy_range (w h : Z) (p : coord) :
  p ∈ xy_range w h <-> 0 <= p.1 < w /\ 0 <= p.2 < h.
Proof.
  unfold xy_range. rewrite list_elem_of_bind. split.
  - intros (x & Hp & Hx). apply list_elem_of_bind in Hp as (y & Hp & Hy).
    apply list_elem_of_singleton in Hp as ->. simpl.
    apply elem_of_seqZ in Hx, Hy. lia.
  - intros [Hx Hy]. exists p.1. split; [|apply elem_of_seqZ; lia].
    apply list_elem_of_bind. exists p.2. split; [|apply elem_of_seqZ; lia].
    destruct p. by apply list_elem_of_singleton.
Qed.

Lemma length_bind_const {A B} (f : A -> list B) (n : nat) (l : list A) :
  (forall a, length (f a) = n) -> length (l ≫= f) = (length l * n)%nat.
Proof.
  intros Hf. induction l as [|a l IH]; [done|].
  rewrite bind_cons, length_app, Hf, IH. simpl. lia.
Qed.

Lemma length_xy_range (w h : Z) :
  0 <= w -> 0 <= h -> Z.of_nat (length (xy_range w h)) = w * h.
Proof.
  intros Hw Hh. unfold xy_range.
  rewrite (length_bind_const _ (Z.to_nat h)).
  - rewrite length_seqZ. lia.
  - intros x. rewrite (length_bind_const _ 1%nat); [|done].
    rewrite length_seqZ. lia.
Qed.

Lemma known_count g (l : list coord) (n : Z) :
  (forall p, p ∈ l -> cell g p.1 p.2 <> UNKNOWN) ->
  foldl (fun ret p => if negb (cell g p.1 p.2 =? UNKNOWN) then ret + 1 else ret) n l
  = n + Z.of_nat (length l).
Proof.
  revert n. induction l as [|p l IH]; intros n Hl; simpl; [lia|].
  rewrite (Z_eqb_false_ne _ _ (Hl p ltac:(left))). simpl.
  rewrite IH; [lia|]. intros q Hq. apply Hl. by right.
Qed.

Lemma known_all g :
  0 <= m_width g -> 0 <= m_height g ->
  (forall x y, valid g x y = true -> cell g x y <> UNKNOWN) ->
  known g = m_width g * m_height g.
Proof.
  intros Hw Hh Hall. unfold known. rewrite known_count.
  - by rewrite length_xy_range.
  - intros p Hp. apply Hall. apply elem_of_xy_range in Hp.
    unfold valid. repeat (apply andb_true_intro; split); lia.
Qed.

(** A run of [detect_contradictions] that finds nothing leaves the grid alone. *)
Lemma detect_contradictions_false (fuel : nat) g (verbose : bool)
  (cache cache' : cache_map_t) g' :
  detect_contradictions fuel g verbose cache = Ok (false, g', cache') -> g' = g.
Proof.
  unfold detect_contradictions.
  destruct (existsb _ _); [discriminate|].
  destruct (detect_regions _ _ _ _ _ _) as [[[[found b] w] c]| |]; simpl; try discriminate.
  destruct found; [discriminate|].
  repeat (case_match; try discriminate). congruence.
Qed.

(** C4.  On a grid whose cells are all known and where [detect_contradictions]
    finds nothing, [solve] answers [SOLUTION_FOUND]; the cells, the regions
    and the recorded situation are those of before (only the output log may
    have grown). *)
Theorem solve_solved_grid (random_shuffle : PRNG -> list (Z * Z * Z) -> list (Z * Z * Z) * PRNG)
  (fuel : nat) g (verbose guessing : bool) gd (cache : cache_map_t) :
  0 <= m_width g -> 0 <= m_height g ->
  (forall x y, valid g x y = true -> cell g x y <> UNKNOWN) ->
  detect_contradictions fuel g verbose ∅ = Ok (false, gd, cache) ->
  exists g', solve random_shuffle fuel g verbose guessing = Ok (SOLUTION_FOUND, g')
    /\ m_cells g' = m_cells g
    /\ m_regions g' = m_regions g
    /\ m_sitrep g' = m_sitrep g.
Proof.
  intros Hw Hh Hall Hd.
  pose proof (detect_contradictions_false _ _ _ _ _ _ Hd) as ->.
  unfold solve, solve_with.
  rewrite (known_all g Hw Hh Hall), Z.eqb_refl, Hd. simpl.
  eexists. split; [reflexivity|]. by destruct verbose.
Qed.

End Solved.

(** ** The cell array *)

Section Cells.

Implicit Types (c : list (list (State * option rid))).

Lemma cells_get_alter_ne f c (x y x' y' : Z) :
  (x, y) <> (x', y') ->
  cells_get (cells_alter f c x y) x' y' = cells_get c x' y'.
Proof.
  intros Hne. unfold cells_get, cells_alter.
  destruct ((0 <=? x') && (0 <=? y')) eqn:E'; [|done].
  destruct ((0 <=? x) && (0 <=? y)) eqn:E; [|done].
  apply andb_true_iff in E as [Hx Hy], E' as [Hx' Hy'].
  apply Z.leb_le in Hx, Hy, Hx', Hy'.
  destruct (decide (Z.to_nat x = Z.to_nat x')) as [Ex|Ex].
  - rewrite <- Ex, list_lookup_alter_eq.
    destruct (c !! Z.to_nat x) as [col|]; simpl; [|done].
    rewrite list_lookup_alter_ne; [done|].
    intros Ey. apply Hne. f_equal; lia.
  - by rewrite list_lookup_alter_ne.
Qed.

Lemma cells_get_alter_eq f c (x y : Z) :
  inside c x y -> cells_get (cells_alter f c x y) x y = f (cells_get c x y).
Proof.
  intros (Hx & Hy & col & Hcol & [a Ha]). unfold cells_get, cells_alter.
  apply Z.leb_le in Hx, Hy. rewrite Hx, Hy. simpl.
  rewrite list_lookup_alter_eq, Hcol. simpl. rewrite list_lookup_alter_eq, Ha. simpl.
  done.
Qed.

Lemma cells_get_alter_fst f c (x y x' y' : Z) :
  (forall a, (f a).1 = a.1) ->
  (cells_get (cells_alter f c x y) x' y').1 = (cells_get c x' y').1.
Proof.
  intros Hf. destruct (decide ((x, y) = (x', y'))) as [[= <- <-]|Hne];
    [|by rewrite cells_get_alter_ne].
  unfold cells_get, cells_alter.
  destruct ((0 <=? x) && (0 <=? y)) eqn:E; [|done].
  rewrite list_lookup_alter_eq. destruct (c !! Z.to_nat x) as [col|]; simpl; [|done].
  rewrite list_lookup_alter_eq. destruct (col !! Z.to_nat y); simpl; [apply Hf|done].
Qed.

Lemma inside_alter f c (x y x' y' : Z) :
  inside (cells_alter f c x y) x' y' <-> inside c x' y'.
Proof.
  unfold inside, cells_alter.
  destruct ((0 <=? x) && (0 <=? y)); [|done].
  split; intros (Hx & Hy & col & Hcol & Hs); (split; [done|split; [done|]]).
  - destruct (decide (Z.to_nat x = Z.to_nat x')) as [Ex|Ex].
    + rewrite <- Ex, list_lookup_alter_eq in Hcol.
      destruct (c !! Z.to_nat x) as [col0|] eqn:E0; simpl in Hcol; [|done].
      injection Hcol as <-. exists col0. split; [by rewrite <- Ex|].
      apply lookup_lt_is_Some. apply lookup_lt_is_Some in Hs.
      by rewrite length_alter in Hs.
    + rewrite list_lookup_alter_ne in Hcol by done. eauto.
  - destruct (decide (Z.to_nat x = Z.to_nat x')) as [Ex|Ex].
    + exists (alter f (Z.to_nat y) col). rewrite <- Ex, list_lookup_alter_eq.
      rewrite <- Ex in Hcol. rewrite Hcol. split; [done|].
      apply lookup_lt_is_Some. apply lookup_lt_is_Some in Hs.
      by rewrite length_alter.
    + exists col. by rewrite list_lookup_alter_ne.
Qed.

End Cells.

(** ** What [mark] does to the cells and to the numbered regions *)

Section MarkFacts.

Context {PRNG : Type}.
Implicit Types (g h : Grid PRNG) (r a b : Region) (p : option rid).

Lemma cells_alter_cases f (c : list (list (State * option rid))) (x y : Z) :
  inside c x y \/ cells_alter f c x y = c.
Proof.
  unfold inside, cells_alter.
  destruct ((0 <=? x) && (0 <=? y)) eqn:E; [|by right].
  apply andb_true_iff in E as [Hx Hy]. apply Z.leb_le in Hx, Hy.
  destruct (c !! Z.to_nat x) as [col|] eqn:Ec.
  - destruct (col !! Z.to_nat y) as [a|] eqn:Ea.
    + left. eauto 8.
    + right. apply list_eq. intros i.
      destruct (decide (Z.to_nat x = i)) as [<-|Hi];
        [|by rewrite list_lookup_alter_ne].
      rewrite list_lookup_alter_eq, Ec. simpl. f_equal.
      apply list_eq. intros j.
      destruct (decide (Z.to_nat y = j)) as [<-|Hj];
        [|by rewrite list_lookup_alter_ne].
      by rewrite list_lookup_alter_eq, Ea.
  - right. apply list_eq. intros i.
    destruct (decide (Z.to_nat x = i)) as [<-|Hi];
      [|by rewrite list_lookup_alter_ne].
    by rewrite list_lookup_alter_eq, Ec.
Qed.

Lemma cell_set_region g (x y : Z) p (x' y' : Z) :
  cell (set_region g x y p) x' y' = cell g x' y'.
Proof. unfold cell, set_region. simpl. by apply cells_get_alter_fst. Qed.

Lemma cell_set_regions g (i : rid) (ps : list coord) (x' y' : Z) :
  cell (foldl (fun h q => set_region h q.1 q.2 (Some i)) g ps) x' y' = cell g x' y'.
Proof.
  revert g. induction ps as [|q ps IH]; intros g; simpl; [done|].
  by rewrite IH, cell_set_region.
Qed.

Lemma m_regions_set_regions g (i : rid) (ps : list coord) :
  m_regions (foldl (fun h q => set_region h q.1 q.2 (Some i)) g ps) = m_regions g.
Proof. revert g. induction ps as [|q ps IH]; intros g; simpl; [done|]. by rewrite IH. Qed.

Lemma region_set_regions g (i : rid) (ps : list coord) (x y : Z) :
  region (foldl (fun h q => set_region h q.1 q.2 (Some i)) g ps) x y = region g x y
  \/ region (foldl (fun h q => set_region h q.1 q.2 (Some i)) g ps) x y = Some i.
Proof.
  revert g. induction ps as [|q ps IH]; intros g; simpl; [by left|].
  destruct (IH (set_region g q.1 q.2 (Some i))) as [E|E]; [|by right].
  rewrite E. unfold region, set_region. simpl.
  destruct (decide ((q.1, q.2) = (x, y))) as [[= <- <-]|Hne].
  - destruct (cells_alter_cases (fun c => (c.1, Some i)) (m_cells g) q.1 q.2) as [Hin | ->];
      [|by left].
    right. by rewrite cells_get_alter_eq.
  - left. by rewrite cells_get_alter_ne.
Qed.

Lemma cell_absorb g (i1 i2 : rid) a b (x y : Z) :
  cell (absorb g i1 a i2 b) x y = cell g x y.
Proof. unfold absorb. apply (cell_set_regions (with_regions g _)). Qed.

Lemma cell_fuse_regions g p1 p2 (x y : Z) :
  cell (fuse_regions g p1 p2) x y = cell g x y.
Proof.
  unfold fuse_regions.
  repeat (case_match; try done); apply cell_absorb.
Qed.

Lemma black_not_numbered r : Reg.black r = true -> Reg.numbered r = false.
Proof.
  unfold Reg.black, Reg.numbered, BLACK. intros H%Z.eqb_eq. apply Z.ltb_ge. lia.
Qed.

Lemma m_regions_absorb g (i1 i2 : rid) a b :
  m_regions (absorb g i1 a i2 b)
  = delete i2 (<[i1 := Reg.unk_insert (m_unknowns b) (Reg.insert (m_coords b) a)]>
                 (m_regions g)).
Proof.
  unfold absorb. simpl. by rewrite (m_regions_set_regions (with_regions g _)).
Qed.

Lemma region_absorb g (i1 i2 : rid) a b (x y : Z) :
  region (absorb g i1 a i2 b) x y = region g x y
  \/ region (absorb g i1 a i2 b) x y = Some i1.
Proof. unfold absorb. apply (region_set_regions (with_regions g _)). Qed.

(** Fusing two black regions: the numbered regions stay as they are, a
    black handle stays black, and a cell keeps its handle or is pointed at a
    black region. *)
Lemma absorb_black g (i1 i2 : rid) a b :
  i1 <> i2 -> Reg.black a = true ->
  let h := absorb g i1 a i2 b in
  (forall i r, m_regions h !! i = Some r -> Reg.numbered r = true ->
               m_regions g !! i = Some r)
  /\ (forall p, black_handle g p -> black_handle h p)
  /\ (forall x y, region h x y = region g x y \/ black_handle h (region h x y)).
Proof.
  intros Hne Ha h.
  assert (Hh : forall i r, m_regions h !! i = Some r ->
             (i = i1 /\ Reg.black r = true) \/ m_regions g !! i = Some r).
  { intros i r. unfold h. rewrite m_regions_absorb, lookup_delete_Some.
    intros [_ Hi]. apply lookup_insert_Some in Hi as [[<- <-]|[_ Hi]]; [left|by right].
    split; [done|]. apply Ha. }
  split; [|split].
  - intros i r Hi Hn. destruct (Hh i r Hi) as [[_ Hb]|Hg]; [|done].
    apply black_not_numbered in Hb. congruence.
  - intros p Hp i r -> Hi. destruct (Hh i r Hi) as [[_ Hb]|Hg]; [done|]. by eapply Hp.
  - intros x y. destruct (region_absorb g i1 i2 a b x y) as [E|E]; [by left|right].
    fold h in E. rewrite E. intros i r [= <-] Hi.
    destruct (Hh i1 r Hi) as [[_ Hb]|Hg]; [done|].
    unfold h in Hi. rewrite m_regions_absorb, lookup_delete_ne, lookup_insert_eq in Hi by done.
    by injection Hi as <-.
Qed.

Lemma fuse_regions_black g p1 p2 :
  black_handle g p1 ->
  let h := fuse_regions g p1 p2 in
  (forall i r, m_regions h !! i = Some r -> Reg.numbered r = true ->
               m_regions g !! i = Some r)
  /\ (forall p, black_handle g p -> black_handle h p)
  /\ (forall x y, region h x y = region g x y \/ black_handle h (region h x y)).
Proof.
  intros Hp1. unfold fuse_regions.
  destruct p1 as [i1|]; [|by auto].
  destruct p2 as [i2|]; [|by auto].
  case_bool_decide as Hne; [by auto|].
  destruct (m_regions g !! i1) as [a|] eqn:Ea; [|by auto].
  destruct (m_regions g !! i2) as [b|] eqn:Eb; [|by auto].
  pose proof (Hp1 i1 a eq_refl Ea) as Ha.
  rewrite (black_not_numbered a Ha). simpl.
  destruct (Bool.eqb (Reg.black a) (Reg.black b)) eqn:Eab; simpl; [|by auto].
  apply Bool.eqb_prop in Eab. rewrite Ha in Eab. symmetry in Eab.
  rewrite (black_not_numbered b Eab).
  destruct (Reg.size a <? Reg.size b); by apply absorb_black.
Qed.

Lemma inside_set_regions g (i : rid) (ps : list coord) (x y : Z) :
  inside (m_cells (foldl (fun h q => set_region h q.1 q.2 (Some i)) g ps)) x y
  <-> inside (m_cells g) x y.
Proof.
  revert g. induction ps as [|q ps IH]; intros g; simpl; [done|].
  rewrite IH. unfold set_region. simpl. apply inside_alter.
Qed.

Lemma inside_fuse_regions g p1 p2 (x y : Z) :
  inside (m_cells (fuse_regions g p1 p2)) x y <-> inside (m_cells g) x y.
Proof.
  unfold fuse_regions.
  repeat (case_match; try done); unfold absorb; simpl;
    apply (inside_set_regions (with_regions g _)).
Qed.

(** The loop of [mark] over the neighbours of the new cell [(x, y)]. *)
Lemma fuse_neighbors_cells g (x y : Z) (l : list coord) (x' y' : Z) :
  let h := foldl (fun h q => fuse_regions h (region h x y) (region h q.1 q.2)) g l in
  cell h x' y' = cell g x' y' /\ (inside (m_cells h) x' y' <-> inside (m_cells g) x' y').
Proof.
  revert g. induction l as [|q l IH]; intros g; simpl; [done|].
  destruct (IH (fuse_regions g (region g x y) (region g q.1 q.2))) as [-> ->].
  by rewrite cell_fuse_regions, inside_fuse_regions.
Qed.

Lemma fuse_neighbors_black g (x y : Z) (l : list coord) :
  black_handle g (region g x y) ->
  let h := foldl (fun h q => fuse_regions h (region h x y) (region h q.1 q.2)) g l in
  forall i r, m_regions h !! i = Some r -> Reg.numbered r = true ->
              m_regions g !! i = Some r.
Proof.
  revert g. induction l as [|q l IH]; intros g Hb; simpl; [done|].
  destruct (fuse_regions_black g (region g x y) (region g q.1 q.2) Hb) as (Hnum & Hkeep & Hcell).
  intros i r Hi Hn. apply Hnum; [|done]. revert Hi Hn. apply IH.
  destruct (Hcell x y) as [-> | ?]; [by apply Hkeep|done].
Qed.

Lemma add_region_spec g (x y : Z) g' :
  add_region g x y = Ok g' ->
  cell g x y <> UNKNOWN
  /\ (forall x' y', cell g' x' y' = cell g x' y')
  /\ (forall x' y', inside (m_cells g') x' y' <-> inside (m_cells g) x' y')
  /\ (exists r, m_state r = cell g x y
        /\ m_regions g' = <[fresh_rid g := r]> (m_regions g)
        /\ (inside (m_cells g) x y -> region g' x y = Some (fresh_rid g))).
Proof.
  unfold add_region, Reg.make.
  destruct (cell g x y =? UNKNOWN) eqn:E; simpl; [done|].
  intros [= <-]. apply Z.eqb_neq in E.
  split; [done|]. split; [|split].
  - intros x' y'. apply (cell_set_region g).
  - intros x' y'. simpl. apply inside_alter.
  - eexists. split; [|split]; [|reflexivity|]; [done|].
    intros Hin. unfold region. simpl. by rewrite cells_get_alter_eq.
Qed.

Lemma cell_set_cell g (x y : Z) (s : State) :
  (inside (m_cells g) x y /\ cell (set_cell g x y s) x y = s)
  \/ set_cell g x y s = g.
Proof.
  unfold cell, set_cell.
  destruct (cells_alter_cases (fun c => (s, c.2)) (m_cells g) x y) as [Hin | E].
  - left. split; [done|]. simpl. by rewrite cells_get_alter_eq.
  - right. rewrite E. by destruct g.
Qed.

Lemma cell_set_cell_ne g (x y : Z) (s : State) (x' y' : Z) :
  (x', y') <> (x, y) -> cell (set_cell g x y s) x' y' = cell g x' y'.
Proof. intros Hne. unfold cell, set_cell. simpl. by rewrite cells_get_alter_ne. Qed.

(** Marking an unknown cell: when [mark] returns, the cell is in the array
    and holds the new state, and the other cells are untouched. *)
Lemma mark_unknown g (s : State) (x y : Z) g' :
  mark g s x y = Ok g' -> cell g x y = UNKNOWN ->
  inside (m_cells g) x y
  /\ cell g' x y = s
  /\ (forall x' y', (x', y') <> (x, y) -> cell g' x' y' = cell g x' y')
  /\ (forall x' y', inside (m_cells g') x' y' <-> inside (m_cells g) x' y').
Proof.
  unfold mark. intros Hm Hc.
  destruct (negb (s =? WHITE) && negb (s =? BLACK)); [done|].
  rewrite Hc in Hm. simpl in Hm.
  destruct (add_region _ x y) as [g3| |] eqn:Ea; simpl in Hm; try discriminate.
  injection Hm as <-.
  apply add_region_spec in Ea as (Hk & Hcells & Hins & _).
  change (cell (with_regions (set_cell g x y s) _) x y) with (cell (set_cell g x y s) x y) in Hk.
  destruct (cell_set_cell g x y s) as [[Hin Hs] | E]; [|by rewrite E in Hk].
  split; [done|]. split; [|split].
  - rewrite (proj1 (fuse_neighbors_cells g3 x y _ x y)), Hcells. apply Hs.
  - intros x' y' Hne.
    rewrite (proj1 (fuse_neighbors_cells g3 x y _ x' y')), Hcells.
    by apply (cell_set_cell_ne g).
  - intros x' y'.
    rewrite (proj2 (fuse_neighbors_cells g3 x y _ x' y')), Hins. simpl. apply inside_alter.
Qed.

Lemma mark_known g (s : State) (x y : Z) g' :
  mark g s x y = Ok g' -> cell g x y <> UNKNOWN -> g' = with_sitrep g CONTRADICTION_FOUND.
Proof.
  unfold mark. intros Hm Hc.
  destruct (negb (s =? WHITE) && negb (s =? BLACK)); [done|].
  rewrite (Z_eqb_false_ne _ _ Hc) in Hm. simpl in Hm. congruence.
Qed.

(** [mark] returns on every cell of the array. *)
Lemma mark_total g (s : State) (x y : Z) :
  s = WHITE \/ s = BLACK -> inside (m_cells g) x y ->
  exists g', mark g s x y = Ok g'.
Proof.
  intros Hs Hin. unfold mark.
  replace (negb (s =? WHITE) && negb (s =? BLACK)) with false by (by destruct Hs as [-> | ->]).
  destruct (cell g x y =? UNKNOWN) eqn:Hc; simpl; [|eauto].
  unfold add_region, Reg.make.
  change (cell (with_regions (set_cell g x y s) _) x y) with (cell (set_cell g x y s) x y).
  replace (cell (set_cell g x y s) x y) with s.
  - replace (s =? UNKNOWN) with false by (by destruct Hs as [-> | ->]). simpl. eauto.
  - unfold cell, set_cell. simpl. by rewrite cells_get_alter_eq.
Qed.

(** Blackening an unknown cell erases it from the liberties of the
    numbered regions and changes nothing else in them. *)
Lemma mark_black_numbered g (x y : Z) g' (i : rid) r' :
  mark g BLACK x y = Ok g' -> cell g x y = UNKNOWN ->
  m_regions g' !! i = Some r' -> Reg.numbered r' = true ->
  exists r, m_regions g !! i = Some r /\ r' = Reg.unk_erase x y r.
Proof.
  intros Hm Hc Hi Hn.
  pose proof (mark_unknown _ _ _ _ _ Hm Hc) as (Hin & _).
  unfold mark in Hm. simpl in Hm. rewrite Hc in Hm. simpl in Hm.
  destruct (add_region _ x y) as [g3| |] eqn:Ea; simpl in Hm; try discriminate.
  injection Hm as <-.
  apply add_region_spec in Ea as (_ & _ & _ & rn & Hst & Hreg & Hptr).
  assert (Hrn : Reg.black rn = true).
  { unfold Reg.black. rewrite Hst. apply Z.eqb_eq.
    change (cell (with_regions (set_cell g x y BLACK) _) x y)
      with (cell (set_cell g x y BLACK) x y).
    unfold cell, set_cell. simpl. by rewrite cells_get_alter_eq. }
  apply fuse_neighbors_black in Hi; [|clear Hi|done].
  - rewrite Hreg in Hi. apply lookup_insert_Some in Hi as [[_ <-]|[_ Hi]].
    + apply black_not_numbered in Hrn. congruence.
    + simpl in Hi. apply lookup_fmap_Some in Hi as (r & <- & Hr). eauto.
  - rewrite Hptr by (simpl; by apply inside_alter).
    intros j a [= <-]. rewrite Hreg, lookup_insert_eq. by intros [= <-].
Qed.

End MarkFacts.

(** ** The complete-island rule, applied twice *)

Section CompleteIslands.

Context {PRNG : Type}.
Implicit Types (g h : Grid PRNG) (r : Region).

Lemma mark_all_cons g (s : State) (p : coord) (ps : list coord) :
  mark_all g s (p :: ps) = (mark g s p.1 p.2 ≫= λ h, mark_all h s ps).
Proof. done. Qed.

Lemma mark_all_total g (s : State) (ps : list coord) :
  s = WHITE \/ s = BLACK ->
  (forall q, q ∈ ps -> inside (m_cells g) q.1 q.2) ->
  exists g', mark_all g s ps = Ok g'.
Proof.
  intros Hs. revert g. induction ps as [|p ps IH]; intros g Hin.
  - by exists g.
  - rewrite mark_all_cons.
    destruct (mark_total g s p.1 p.2 Hs (Hin p ltac:(left))) as [h Hh].
    rewrite Hh. simpl. apply IH. intros q Hq.
    assert (Hq' := Hin q ltac:(by right)).
    destruct (decide (cell g p.1 p.2 = UNKNOWN)) as [Hc|Hc].
    + by apply (mark_unknown _ _ _ _ _ Hh Hc).
    + by rewrite (mark_known _ _ _ _ _ Hh Hc).
Qed.

(** What a run of black marks leaves: known cells stay, the marked cells
    are known, and a numbered region has lost liberties at most; the
    liberties it keeps are cells that the marks did not touch. *)
Lemma mark_all_black g (ps : list coord) g' :
  mark_all g BLACK ps = Ok g' ->
  (forall x y, cell g x y <> UNKNOWN -> cell g' x y <> UNKNOWN)
  /\ (forall q, q ∈ ps -> cell g' q.1 q.2 <> UNKNOWN)
  /\ (forall i r', m_regions g' !! i = Some r' -> Reg.numbered r' = true ->
        exists r, m_regions g !! i = Some r
          /\ m_state r' = m_state r /\ m_coords r' = m_coords r
          /\ forall q, q ∈ m_unknowns r' ->
               q ∈ m_unknowns r
               /\ (cell g q.1 q.2 = UNKNOWN -> cell g' q.1 q.2 = UNKNOWN)).
Proof.
  revert g. induction ps as [|p ps IH]; intros g.
  - intros [= <-]. split; [done|]. split; [by intros q ?%not_elem_of_nil|].
    intros i r' Hi _. exists r'. eauto 10.
  - rewrite mark_all_cons.
    destruct (mark g BLACK p.1 p.2) as [h| |] eqn:Hh; simpl; try discriminate.
    intros Hps. destruct (IH h Hps) as (Hmono & Hmarked & Hnum).
    destruct (decide (cell g p.1 p.2 = UNKNOWN)) as [Hc|Hc].
    + destruct (mark_unknown _ _ _ _ _ Hh Hc) as (_ & Hp & Hother & _).
      assert (Hp' : cell h p.1 p.2 <> UNKNOWN) by (by rewrite Hp).
      split; [|split].
      * intros x y Hxy. apply Hmono.
        destruct (decide ((x, y) = (p.1, p.2))) as [[= -> ->]|Hne]; [done|].
        by rewrite Hother.
      * intros q [-> | Hq]%elem_of_cons; [by apply Hmono|by apply Hmarked].
      * intros i r' Hi Hn. destruct (Hnum i r' Hi Hn) as (r1 & Hr1 & Hst & Hco & Hunk).
        assert (Hn1 : Reg.numbered r1 = true) by (unfold Reg.numbered in *; by rewrite <- Hst).
        destruct (mark_black_numbered _ _ _ _ _ _ Hh Hc Hr1 Hn1) as (r & Hr & ->).
        exists r. split; [done|]. split; [done|]. split; [done|].
        intros q Hq. destruct (Hunk q Hq) as [Hq1 Hq2].
        apply CoordSetFacts.elem_of_erase in Hq1 as [Hne Hq1].
        split; [done|]. intros Hg. apply Hq2. rewrite Hother; [done|].
        destruct p, q. simpl in *. congruence.
    + rewrite (mark_known _ _ _ _ _ Hh Hc) in *.
      split; [done|]. split; [|done].
      intros q [-> | Hq]%elem_of_cons; [by apply Hmono|by apply Hmarked].
Qed.

Lemma elem_of_complete_islands_fold (q : coord) (l : list (rid * Region)) (s : CoordSet.t) :
  q ∈ foldl (fun mark_as_black ir =>
               if complete_island ir.2
               then CoordSet.insert_all (m_unknowns ir.2) mark_as_black
               else mark_as_black) s l
  <-> q ∈ s \/ exists ir, ir ∈ l /\ complete_island ir.2 = true /\ q ∈ m_unknowns ir.2.
Proof.
  revert s. induction l as [|ir l IH]; intros s; simpl.
  - split; [by left|]. intros [?|(? & []%not_elem_of_nil & _)]. done.
  - rewrite IH. split.
    + intros [Hq|(ir' & Hir' & Hc & Hq)].
      * destruct (complete_island ir.2) eqn:E; [|by left].
        apply CoordSetFacts.elem_of_insert_all in Hq as [Hq|Hq]; [|by left].
        right. exists ir. split; [by left|done].
      * right. exists ir'. split; [by right|done].
    + intros [Hq|(ir' & [-> | Hir']%elem_of_cons & Hc & Hq)].
      * left. destruct (complete_island ir.2); [|done].
        apply CoordSetFacts.elem_of_insert_all. by right.
      * left. rewrite Hc. apply CoordSetFacts.elem_of_insert_all. by left.
      * right. eauto.
Qed.

Lemma elem_of_complete_islands_marks g (q : coord) :
  q ∈ complete_islands_marks g
  <-> exists i r, m_regions g !! i = Some r /\ complete_island r = true /\ q ∈ m_unknowns r.
Proof.
  unfold complete_islands_marks. rewrite elem_of_complete_islands_fold. split.
  - intros [[]%not_elem_of_nil|([i r] & Hir & Hc & Hq)].
    apply elem_of_map_to_list in Hir. eauto.
  - intros (i & r & Hir & Hc & Hq). right. exists (i, r).
    split; [by apply elem_of_map_to_list|done].
Qed.

Lemma complete_island_numbered r : complete_island r = true -> Reg.numbered r = true.
Proof. unfold complete_island, Reg.numbered_and. by intros [? _]%andb_true_iff. Qed.

Lemma complete_island_ext r r' :
  m_state r' = m_state r -> m_coords r' = m_coords r ->
  complete_island r' = complete_island r.
Proof.
  destruct r, r'. simpl. intros -> ->. done.
Qed.

Lemma process_nothing g (verbose : bool) (s : string) (n : Z) (fc : CoordSet.t) :
  process g verbose CoordSet.empty CoordSet.empty s n fc = Ok (false, g).
Proof. done. Qed.

(** R1 after R1.  On a grid where every liberty recorded for a complete
    island is an unknown cell of the array, the complete-island rule
    returns, and applied again at once to the grid it leaves it proposes no
    mark: the second call answers no change. *)
Lemma complete_islands_twice g (verbose : bool) :
  (forall i r q, m_regions g !! i = Some r -> complete_island r = true ->
                 q ∈ m_unknowns r ->
                 cell g q.1 q.2 = UNKNOWN /\ inside (m_cells g) q.1 q.2) ->
  exists b g', analyze_complete_islands g verbose = Ok (b, g')
    /\ complete_islands_marks g' = []
    /\ analyze_complete_islands g' verbose = Ok (false, g').
Proof.
  intros Hwf.
  assert (Hmarks : forall q, q ∈ complete_islands_marks g ->
            cell g q.1 q.2 = UNKNOWN /\ inside (m_cells g) q.1 q.2).
  { intros q (i & r & Hr & Hc & Hq)%elem_of_complete_islands_marks. eauto. }
  unfold analyze_complete_islands at 1. unfold process.
  destruct (CoordSet.is_empty (complete_islands_marks g)) eqn:Eempty; simpl.
  { apply CoordSetFacts.is_empty_true in Eempty.
    exists false, g. split; [done|]. split; [done|].
    unfold analyze_complete_islands. rewrite Eempty. apply process_nothing. }
  destruct (mark_all_total g BLACK (complete_islands_marks g)) as [g1 Hg1];
    [by right|by intros q [_ ?]%Hmarks|].
  rewrite Hg1. simpl.
  destruct (mark_all_black _ _ _ Hg1) as (_ & Hmarked & Hnum).
  set (g3 := if verbose then _ else g1).
  assert (Hreg : m_regions g3 = m_regions g1) by (unfold g3; by destruct verbose).
  assert (Hnone : complete_islands_marks g3 = []).
  { destruct (complete_islands_marks g3) as [|q l] eqn:E; [done|exfalso].
    assert (Hq : q ∈ complete_islands_marks g3) by (rewrite E; by left).
    apply elem_of_complete_islands_marks in Hq as (i & r' & Hr' & Hc' & Hq).
    rewrite Hreg in Hr'.
    destruct (Hnum i r' Hr' (complete_island_numbered _ Hc')) as (r & Hr & Hst & Hco & Hunk).
    destruct (Hunk q Hq) as [Hqr Hkeep].
    rewrite (complete_island_ext r r' Hst Hco) in Hc'.
    destruct (Hwf i r q Hr Hc' Hqr) as [Hu _].
    apply (Hmarked q); [|by apply Hkeep].
    apply elem_of_complete_islands_marks. eauto. }
  exists true, g3. split; [done|]. split; [done|].
  unfold analyze_complete_islands. rewrite Hnone. apply process_nothing.
Qed.

End CompleteIslands.

(** ** The bound on the black cells *)

Section BlackBound.

Context {PRNG : Type}.
Implicit Types (g : Grid PRNG).

Lemma detect_regions_counts (fuel : nat) g (rs : list (rid * Region)) (b w b' w' : Z)
  (cache cache' : cache_map_t) :
  detect_regions fuel g rs b w cache = Ok (None, b', w', cache') ->
  b' = b + foldr (fun ir acc => if Reg.black ir.2 then Reg.size ir.2 + acc else acc) 0 rs
  /\ w' = w + foldr (fun ir acc => if Reg.black ir.2 then acc else Reg.size ir.2 + acc) 0 rs.
Proof.
  revert b w cache. induction rs as [|[i r] rs IH]; intros b w cache; simpl.
  - intros [= <- <- _]. lia.
  - destruct (gigantic g r); [discriminate|].
    destruct (confined fuel g i r cache CoordSet.empty) as [[c cache1]| |]; simpl;
      try discriminate.
    destruct c; [discriminate|].
    intros [-> ->]%IH. destruct (Reg.black r); lia.
Qed.

(** C3, amended to what the code does.  The bound on the black cells is not
    kept by [mark]; it is what [detect_contradictions] tests: whenever that
    function reports no contradiction, the sizes of the black regions add up
    to at most [m_total_black], and those of the other regions to at most
    W * H - [m_total_black]. *)
Theorem no_contradiction_black_bound (fuel : nat) g (verbose : bool)
  (cache cache' : cache_map_t) g' :
  detect_contradictions fuel g verbose cache = Ok (false, g', cache') ->
  black_cells g <= m_total_black g
  /\ white_cells g <= m_width g * m_height g - m_total_black g.
Proof.
  unfold detect_contradictions.
  destruct (existsb _ _); [discriminate|].
  destruct (detect_regions _ _ _ _ _ _) as [[[[found b] w] c]| |] eqn:Ed; simpl;
    try discriminate.
  destruct found; [discriminate|].
  apply detect_regions_counts in Ed as [-> ->].
  destruct (m_total_black g <? _) eqn:E1; [discriminate|].
  destruct (m_width g * m_height g - m_total_black g <? _) eqn:E2; [discriminate|].
  intros _. apply Z.ltb_ge in E1, E2. unfold black_cells, white_cells. lia.
Qed.

End BlackBound.

(** C3 as stated fails: on the row of clues 1 and 2, where no cell may be
    black, both a call of [mark] and the complete-island rule leave a black
    region of one cell. *)
Lemma black_bound_not_kept :
  (let g' := grid_of (mark clue_pair BLACK 1 0) in
   mark clue_pair BLACK 1 0 = Ok g' /\ ~ black_cells g' <= m_total_black g')
  /\ (let g' := after empty_grid (analyze_complete_islands clue_pair false) in
      analyze_complete_islands clue_pair false = Ok (true, g')
      /\ ~ black_cells g' <= m_total_black g').
Proof.
  split; (split; [by vm_compute|]); vm_compute; intros H; by apply H.
Qed.

(** C2 as stated fails for the single-liberty rule: on the corridor the
    island of 3 has one liberty, and again one after the rule has whitened
    it, so that the second call proposes a mark and answers "changed". *)
Lemma single_liberties_twice_marks :
  let g1 := after empty_grid (analyze_single_liberties corridor false) in
  analyze_single_liberties corridor false = Ok (true, g1)
  /\ single_liberties_marks g1 = ([], [(2, 0)])
  /\ fst <$> analyze_single_liberties g1 false = Ok true.
Proof. by vm_compute. Qed.

(** The dual-liberty rule and the pool rule also propose marks on a second
    call. *)
Example dual_liberties_twice_marks :
  let g1 := after empty_grid (analyze_dual_liberties two_islands false) in
  analyze_dual_liberties two_islands false = Ok (true, g1)
  /\ dual_liberties_marks two_islands = [(1, 1)]
  /\ dual_liberties_marks g1 = [(0, 3)].
Proof. by vm_compute. Qed.

Example potential_pools_twice_marks :
  let g1 := after empty_grid (analyze_potential_pools 100 pool_shore false) in
  analyze_potential_pools 100 pool_shore false = Ok (true, g1)
  /\ fst <$> analyze_potential_pools 100 g1 false = Ok true.
Proof. by vm_compute. Qed.

(** The complete-island rule needs its hypothesis on the liberties: the
    island of 1 next to the clue 2 records that clue as a liberty, the mark
    on it only reports a contradiction, and the second call proposes it
    again. *)
Example complete_islands_twice_adjacent_clues :
  let g1 := after empty_grid (analyze_complete_islands adjacent_clues false) in
  analyze_complete_islands adjacent_clues false = Ok (true, g1)
  /\ m_sitrep g1 = CONTRADICTION_FOUND
  /\ complete_islands_marks g1 = [(1, 0)]
  /\ fst <$> analyze_complete_islands g1 false = Ok true.
Proof. by vm_compute. Qed.

(** ** The dual-liberty rule *)

Section DualLiberties.

Context {PRNG : Type}.
Implicit Types (g h : Grid PRNG) (r : Region).

(** The state of every cell after one call of [mark]. *)
Lemma mark_cells g (s : State) (x y : Z) g' (x' y' : Z) :
  mark g s x y = Ok g' ->
  cell g' x' y' = if bool_decide ((x', y') = (x, y) /\ cell g x y = UNKNOWN)
                  then s else cell g x' y'.
Proof.
  intros Hm. destruct (decide (cell g x y = UNKNOWN)) as [Hc|Hc].
  - destruct (mark_unknown _ _ _ _ _ Hm Hc) as (_ & Hs & Hother & _).
    case_bool_decide as Hd.
    + destruct Hd as [[= -> ->] _]. done.
    + apply Hother. intros E. apply Hd. done.
  - rewrite (mark_known _ _ _ _ _ Hm Hc).
    case_bool_decide as Hd; [by destruct Hd|done].
Qed.

(** The state of every cell after a run of marks of one colour. *)
Lemma mark_all_cells g (s : State) (ps : list coord) g' (x y : Z) :
  mark_all g s ps = Ok g' ->
  cell g' x y = if bool_decide ((x, y) ∈ ps /\ cell g x y = UNKNOWN)
                then s else cell g x y.
Proof.
  revert g. induction ps as [|p ps IH]; intros g.
  - intros [= <-]. case_bool_decide as Hd; [|done]. by destruct Hd as [?%not_elem_of_nil _].
  - rewrite mark_all_cons.
    destruct (mark g s p.1 p.2) as [h| |] eqn:Hh; simpl; try discriminate.
    intros Hps. rewrite (IH h Hps), !(mark_cells _ _ _ _ _ _ _ Hh).
    destruct p as [px py]. simpl.
    destruct (decide ((x, y) = (px, py) /\ cell g px py = UNKNOWN)) as [[[= -> ->] Hc]|HA].
    + rewrite (bool_decide_eq_true_2 (_ = _ /\ _)) by done.
      rewrite (bool_decide_eq_true_2 (_ ∈ _ :: _ /\ _)) by (split; [by left|done]).
      by case_bool_decide.
    + rewrite (bool_decide_eq_false_2 (_ = _ /\ _)) by done.
      rewrite (bool_decide_ext ((x, y) ∈ ps /\ cell g x y = UNKNOWN)
                 ((x, y) ∈ (px, py) :: ps /\ cell g x y = UNKNOWN)); [done|].
      split; intros [Hin Hc]; (split; [|done]).
      * by right.
      * apply elem_of_cons in Hin as [[= -> ->]|Hin]; [|done]. by destruct HA.
Qed.

Lemma dual_liberties_step_le g (s : CoordSet.t) r (q : coord) :
  q ∈ s -> q ∈ dual_liberties_step g s r.
Proof.
  intros Hq. unfold dual_liberties_step.
  repeat (case_match; try done). apply CoordSetFacts.elem_of_insert. by right.
Qed.

Lemma dual_liberties_step_unknown g (s : CoordSet.t) r (q : coord) :
  q ∈ dual_liberties_step g s r -> q ∈ s \/ cell g q.1 q.2 = UNKNOWN.
Proof.
  unfold dual_liberties_step.
  repeat (case_match; try (by left)).
  intros [-> | ?]%CoordSetFacts.elem_of_insert; [right|by left].
  by apply Z.eqb_eq.
Qed.

Lemma dual_liberties_fold_le g (l : list (rid * Region)) (s : CoordSet.t) (q : coord) :
  q ∈ s -> q ∈ foldl (fun mb ir => dual_liberties_step g mb ir.2) s l.
Proof.
  revert s. induction l as [|ir l IH]; intros s Hq; simpl; [done|].
  by apply IH, dual_liberties_step_le.
Qed.

Lemma dual_liberties_fold_unknown g (l : list (rid * Region)) (s : CoordSet.t) (q : coord) :
  q ∈ foldl (fun mb ir => dual_liberties_step g mb ir.2) s l ->
  q ∈ s \/ cell g q.1 q.2 = UNKNOWN.
Proof.
  revert s. induction l as [|ir l IH]; intros s; simpl; [by left|].
  intros [Hq|Hq]%IH; [|by right]. by apply dual_liberties_step_unknown in Hq.
Qed.

Lemma dual_liberties_fold_hit g (l : list (rid * Region)) (s : CoordSet.t)
  (ir : rid * Region) (q : coord) :
  ir ∈ l -> (forall s', q ∈ dual_liberties_step g s' ir.2) ->
  q ∈ foldl (fun mb ir => dual_liberties_step g mb ir.2) s l.
Proof.
  revert s. induction l as [|ir' l IH]; intros s Hin Hstep; [by apply not_elem_of_nil in Hin|].
  apply elem_of_cons in Hin as [<- | Hin]; simpl.
  - apply dual_liberties_fold_le, Hstep.
  - by apply IH.
Qed.

(** Every cell that the rule proposes is unknown. *)
Lemma dual_liberties_marks_unknown g (q : coord) :
  q ∈ dual_liberties_marks g -> cell g q.1 q.2 = UNKNOWN.
Proof.
  intros [[]%not_elem_of_nil|Hq]%dual_liberties_fold_unknown. done.
Qed.

(** C7.  Let [r] be a numbered region one cell short of its number whose
    liberties are exactly [u1] and [u2], in the order of the set, and
    diagonal neighbours.  The far corner that the rule selects is
    (u2.x, u1.y) when [r] contains (u1.x, u2.y) and (u1.x, u2.y) otherwise;
    the rule proposes it as black exactly when it is unknown.  When the rule
    returns, an unknown far corner has become black and a known one has kept
    its state; the rule does return when the cells it proposes are in the
    array. *)
Theorem dual_liberties_far_corner g (verbose : bool) (i : rid) r (u1 u2 : coord) :
  m_regions g !! i = Some r ->
  Reg.numbered r = true ->
  Reg.size r = m_state r - 1 ->
  m_unknowns r = [u1; u2] ->
  Z.abs (u1.1 - u2.1) = 1 -> Z.abs (u1.2 - u2.2) = 1 ->
  let p : coord := if Reg.contains r u1.1 u2.2 then (u2.1, u1.2) else (u1.1, u2.2) in
  (p ∈ dual_liberties_marks g <-> cell g p.1 p.2 = UNKNOWN)
  /\ (forall b g', analyze_dual_liberties g verbose = Ok (b, g') ->
        (cell g p.1 p.2 = UNKNOWN -> cell g' p.1 p.2 = BLACK)
        /\ (cell g p.1 p.2 <> UNKNOWN -> cell g' p.1 p.2 = cell g p.1 p.2))
  /\ ((forall q, q ∈ dual_liberties_marks g -> inside (m_cells g) q.1 q.2) ->
      exists b g', analyze_dual_liberties g verbose = Ok (b, g')).
Proof.
  intros Hr Hn Hsize Hunk Hdx Hdy p.
  assert (Hiff : p ∈ dual_liberties_marks g <-> cell g p.1 p.2 = UNKNOWN).
  { split; [apply dual_liberties_marks_unknown|]. intros Hc.
    apply (dual_liberties_fold_hit g _ _ (i, r)); [by apply elem_of_map_to_list|].
    intros s'. unfold dual_liberties_step, Reg.numbered_and, Reg.number, Reg.unk_size.
    simpl. rewrite Hn, Hunk. simpl. rewrite Hsize, Z.eqb_refl. simpl.
    destruct u1 as [x1 y1], u2 as [x2 y2]. simpl in *.
    rewrite Hdx, Hdy. simpl. unfold far_corner. fold p. apply Z.eqb_eq in Hc. rewrite Hc.
    apply CoordSetFacts.elem_of_insert. by left. }
  split; [done|]. split.
  - intros b g'. unfold analyze_dual_liberties, process.
    destruct (CoordSet.is_empty (dual_liberties_marks g) && _) eqn:Ee.
    { intros [= _ <-]. split; [|done]. intros Hc%Hiff.
      apply andb_true_iff in Ee as [Ee%CoordSetFacts.is_empty_true _].
      rewrite Ee in Hc. by apply not_elem_of_nil in Hc. }
    destruct (mark_all g BLACK (dual_liberties_marks g)) as [g1| |] eqn:Hg1; simpl;
      try discriminate.
    intros [= _ <-].
    assert (Hcell : forall h s' u fg fc, cell (if verbose then print h s' u fg fc else h) p.1 p.2
                                       = cell h p.1 p.2) by (intros; by destruct verbose).
    rewrite Hcell, (mark_all_cells _ _ _ _ p.1 p.2 Hg1). clear Hcell.
    case_bool_decide as Hd; split; try done.
    + by destruct Hd.
    + intros Hc. exfalso. apply Hd. split; [|done]. destruct p. by apply Hiff.
  - intros Hin. unfold analyze_dual_liberties, process.
    destruct (CoordSet.is_empty (dual_liberties_marks g) && _); [eauto|].
    destruct (mark_all_total g BLACK (dual_liberties_marks g)) as [g1 ->]; [by right|done|].
    simpl. eauto.
Qed.

End DualLiberties.

(** ** The unreachable-cell rule, applied twice *)

(** *** The tests of the search *)

Section Examine.

Context {PRNG : Type}.
Implicit Types (g : Grid PRNG) (r : Region).

Lemma elem_of_rid_insert (i j : rid) (s : list rid) :
  j ∈ rid_insert i s <-> j = i \/ j ∈ s.
Proof.
  unfold rid_insert. case_bool_decide as Hi.
  - split; [by right|]. by intros [-> | ?].
  - rewrite elem_of_app, list_elem_of_singleton. tauto.
Qed.

(** The handles that [adjacent_regions] collects designate white regions
    and numbered regions of the arena. *)
Lemma adjacent_regions_spec g (x y : Z) :
  (forall i, i ∈ (adjacent_regions g x y).1 ->
             exists r, m_regions g !! i = Some r /\ Reg.white r = true)
  /\ (forall i, i ∈ (adjacent_regions g x y).2 ->
                exists r, m_regions g !! i = Some r /\ Reg.numbered r = true).
Proof.
  unfold adjacent_regions.
  generalize (valid_neighbors g x y). intros l.
  assert (H : forall acc : list rid * list rid,
    (forall i, i ∈ acc.1 -> exists r, m_regions g !! i = Some r /\ Reg.white r = true) ->
    (forall i, i ∈ acc.2 -> exists r, m_regions g !! i = Some r /\ Reg.numbered r = true) ->
    let res := foldl (fun acc p =>
           match region g p.1 p.2 with
           | Some i =>
               match m_regions g !! i with
               | Some r =>
                   if Reg.white r then (rid_insert i acc.1, acc.2)
                   else if Reg.numbered r then (acc.1, rid_insert i acc.2)
                   else acc
               | None => acc
               end
           | None => acc
           end) acc l in
    (forall i, i ∈ res.1 -> exists r, m_regions g !! i = Some r /\ Reg.white r = true)
    /\ (forall i, i ∈ res.2 -> exists r, m_regions g !! i = Some r /\ Reg.numbered r = true)).
  { induction l as [|p l IH]; intros acc Hw Hn; simpl; [done|].
    apply IH.
    - destruct (region g p.1 p.2) as [i|]; [|done].
      destruct (m_regions g !! i) as [r|] eqn:Er; [|done].
      destruct (Reg.white r) eqn:Ew; simpl.
      + intros j [-> | Hj]%elem_of_rid_insert; eauto.
      + by destruct (Reg.numbered r).
    - destruct (region g p.1 p.2) as [i|]; [|done].
      destruct (m_regions g !! i) as [r|] eqn:Er; [|done].
      destruct (Reg.white r) eqn:Ew; simpl; [done|].
      destruct (Reg.numbered r) eqn:En; simpl; [|done].
      intros j [-> | Hj]%elem_of_rid_insert; eauto. }
  apply H; simpl; by intros i ?%not_elem_of_nil.
Qed.

Lemma forallb_false {A} (f : A -> bool) (l : list A) :
  forallb f l = false <-> exists a, a ∈ l /\ f a = false.
Proof.
  induction l as [|a l IH]; simpl.
  - split; [done|]. by intros (a & ?%not_elem_of_nil & _).
  - rewrite andb_false_iff, IH. split.
    + intros [Ha | (b & Hb & Hf)]; [exists a; split; [by left|done]|].
      exists b. split; [by right|done].
    + intros (b & [-> | Hb]%elem_of_cons & Hf); [by left|right; eauto].
Qed.

Lemma impossibly_big_mono g (m m' : Z) :
  m' <= m ->
  impossibly_big_white_region g m = false -> impossibly_big_white_region g m' = false.
Proof.
  intros Hm. unfold impossibly_big_white_region.
  rewrite !forallb_false. intros ([i r] & Hin & Hr). exists (i, r). split; [done|].
  apply negb_false_iff in Hr. apply negb_false_iff. simpl in *.
  unfold Reg.numbered_and in *. apply andb_true_iff in Hr as [Hn Hk].
  rewrite Hn. simpl. destruct (Reg.number r) as [k| |]; try done.
  apply Z.leb_le in Hk. apply Z.leb_le. lia.
Qed.

Lemma examine_total g (x y n : Z) : exists s, examine g x y n = Ok s.
Proof.
  unfold examine. pose proof (adjacent_regions_spec g x y) as [_ Hn].
  destruct (adjacent_regions g x y) as [wr nr]. simpl in *.
  destruct nr as [|i [|j nr]]; [| |by eauto].
  - destruct (negb _); eauto.
  - destruct (Hn i ltac:(by left)) as (r & -> & Hr). simpl.
    unfold Reg.number. rewrite Hr. simpl. eauto.
Qed.

Lemma examine_expand g (x y n n' : Z) :
  examine g x y n = Ok Expand -> examine g x y n' = Ok Expand.
Proof.
  unfold examine. destruct (adjacent_regions g x y) as [wr nr].
  destruct nr as [|i [|j nr]]; [| |done].
  - destruct (negb _); [|done]. by destruct (impossibly_big_white_region _ _).
  - destruct (from_option _ _ _) as [num| |]; simpl; try done.
    by destruct (_ <=? _).
Qed.

Lemma examine_found_le g (x y n n' : Z) :
  examine g x y n = Ok Found -> n' <= n -> examine g x y n' = Ok Found.
Proof.
  unfold examine. destruct (adjacent_regions g x y) as [wr nr]. intros H Hn.
  destruct nr as [|i [|j nr]]; [| |done].
  - destruct (negb _); [|done].
    destruct (impossibly_big_white_region g (n + _)) eqn:E; [done|].
    rewrite (impossibly_big_mono g (n + (sum_sizes g wr + sum_sizes g []))); [done|lia|done].
  - destruct (from_option _ _ _) as [num| |]; simpl in *; try done.
    destruct (n + _ <=? num) eqn:E; [|done]. apply Z.leb_le in E.
    replace (n' + _ <=? num) with true; [done|]. symmetry. apply Z.leb_le. lia.
Qed.

End Examine.

(** *** The search returns, and a [false] comes with a chain *)

Section BreadthFirst.

Context {PRNG : Type}.
Implicit Types (g : Grid PRNG) (q : list (Z * Z * Z)) (p u w e c : coord).

Lemma chain_snoc g c (n : Z) u w :
  chain g c n u ->
  examine g u.1 u.2 1 = Ok Expand ->
  w ∈ valid_neighbors g u.1 u.2 ->
  cell g w.1 w.2 = UNKNOWN ->
  chain g c (n + 1) w.
Proof.
  intros Hc Hu Hw Hun. induction Hc as [e | u' w' len e Hu' Hw' Hun' Hc IH].
  - apply (chain_cons g e w 1 w); [done|done|done|apply chain_end].
  - apply (chain_cons g u' w' (len + 1) w); auto.
Qed.

Lemma chain_length g c (n : Z) e : chain g c n e -> 1 <= n.
Proof. induction 1; lia. Qed.

Lemma valid_neighbors_valid g (x y : Z) p :
  valid g x y = true -> p ∈ valid_neighbors g x y -> valid g p.1 p.2 = true.
Proof.
  unfold valid, valid_neighbors. intros Hv Hp.
  repeat (apply andb_true_iff in Hv as [Hv ?]).
  repeat (apply elem_of_app in Hp as [Hp | Hp]);
    case_match; try (by apply not_elem_of_nil in Hp);
    apply list_elem_of_singleton in Hp as ->; simpl;
    repeat (apply andb_true_intro; split); lia.
Qed.

Lemma valid_xy_range g p :
  valid g p.1 p.2 = true -> p ∈ xy_range (m_width g) (m_height g).
Proof.
  unfold valid. intros Hv. repeat (apply andb_true_iff in Hv as [Hv ?]).
  apply elem_of_xy_range. lia.
Qed.

Lemma filter_length_lt {A} (f f' : A -> bool) (l : list A) (a : A) :
  (forall b, f' b = true -> f b = true) ->
  a ∈ l -> f a = true -> f' a = false ->
  (length (List.filter f' l) + 1 <= length (List.filter f l))%nat.
Proof.
  intros Hle. induction l as [|b l IH]; intros Ha Hf Hf'; [by apply not_elem_of_nil in Ha|].
  assert (Hmono : (length (List.filter f' l) <= length (List.filter f l))%nat).
  { clear -Hle. induction l as [|b l IH]; simpl; [done|].
    destruct (f' b) eqn:E'; [rewrite (Hle _ E'); simpl; lia|].
    destruct (f b); simpl; lia. }
  apply elem_of_cons in Ha as [<- | Ha]; simpl.
  - rewrite Hf, Hf'. simpl. lia.
  - specialize (IH Ha Hf Hf'). destruct (f' b) eqn:E'; [rewrite (Hle _ E'); simpl; lia|].
    destruct (f b); simpl; lia.
Qed.

Lemma undiscovered_insert g (discovered : CoordSet.t) p :
  valid g p.1 p.2 = true -> CoordSet.mem p discovered = false ->
  (undiscovered g (CoordSet.insert p discovered) + 1 <= undiscovered g discovered)%nat.
Proof.
  intros Hv Hp. unfold undiscovered. apply (filter_length_lt _ _ _ p).
  - intros b Hb. apply negb_true_iff in Hb. apply negb_true_iff.
    apply not_true_iff_false. intros Hm%CoordSetFacts.mem_true.
    apply not_true_iff_false in Hb. apply Hb, CoordSetFacts.mem_true.
    apply CoordSetFacts.elem_of_insert. by right.
  - by apply valid_xy_range.
  - by rewrite Hp.
  - apply negb_false_iff, CoordSetFacts.mem_true, CoordSetFacts.elem_of_insert. by left.
Qed.

(** The cells that a step of the search enqueues. *)
Lemma enqueue_neighbors_spec g (x y n : Z) q (discovered : CoordSet.t) :
  valid g x y = true ->
  exists new : list coord,
    (enqueue_neighbors g x y n q discovered).1 = q ++ ((fun p => (p, n + 1)) <$> new)
    /\ (forall p, p ∈ new -> p ∈ valid_neighbors g x y /\ cell g p.1 p.2 = UNKNOWN)
    /\ (forall p, p ∈ (enqueue_neighbors g x y n q discovered).2
                  <-> p ∈ discovered \/ p ∈ new)
    /\ (forall p, p ∈ valid_neighbors g x y -> cell g p.1 p.2 = UNKNOWN ->
                  p ∈ (enqueue_neighbors g x y n q discovered).2)
    /\ (length (enqueue_neighbors g x y n q discovered).1
        + undiscovered g (enqueue_neighbors g x y n q discovered).2
        <= length q + undiscovered g discovered)%nat.
Proof.
  intros Hv. unfold enqueue_neighbors.
  assert (Hl : forall p, p ∈ valid_neighbors g x y -> valid g p.1 p.2 = true)
    by (intros p; by apply valid_neighbors_valid).
  revert Hl. generalize (valid_neighbors g x y). intros l Hl.
  revert q discovered. induction l as [|a l IH]; intros q discovered; simpl.
  - exists []. simpl. rewrite app_nil_r. split; [done|]. split; [by intros p ?%not_elem_of_nil|].
    split; [|split; [by intros p ?%not_elem_of_nil|done]].
    intros p. split; [by left|]. by intros [? | ?%not_elem_of_nil].
  - destruct ((cell g a.1 a.2 =? UNKNOWN) && negb (CoordSet.mem a discovered)) eqn:Ea.
    + apply andb_true_iff in Ea as [Hu%Z.eqb_eq Hm%negb_true_iff].
      destruct (IH ltac:(intros p Hp; apply Hl; by right)
                  (q ++ [(a.1, a.2, n + 1)]) (CoordSet.insert a discovered))
        as (new & Hq & Hnew & Hdisc & Hall & Hmeasure).
      exists (a :: new). split; [|split; [|split; [|split]]].
      * rewrite Hq, <- app_assoc. simpl. by destruct a.
      * intros p [-> | Hp]%elem_of_cons; [split; [by left|done]|].
        destruct (Hnew p Hp). split; [by right|done].
      * intros p. rewrite Hdisc, CoordSetFacts.elem_of_insert, elem_of_cons. tauto.
      * intros p [-> | Hp]%elem_of_cons Hpu; [|by apply Hall].
        apply Hdisc. left. apply CoordSetFacts.elem_of_insert. by left.
      * pose proof (undiscovered_insert g discovered a (Hl a ltac:(by left)) Hm).
        rewrite length_app in Hmeasure. simpl in Hmeasure. lia.
    + destruct (IH ltac:(intros p Hp; apply Hl; by right) q discovered)
        as (new & Hq & Hnew & Hdisc & Hall & Hmeasure).
      exists new. split; [done|]. split; [|split; [done|split; [|done]]].
      * intros p Hp. destruct (Hnew p Hp). split; [by right|done].
      * intros p [-> | Hp]%elem_of_cons Hpu; [|by apply Hall].
        apply Hdisc. left. apply CoordSetFacts.mem_true.
        apply andb_false_iff in Ea as [Ea | Ea].
        -- apply Z.eqb_neq in Ea. done.
        -- by apply negb_false_iff in Ea.
Qed.

(** The search returns when it has fuel for every cell of the grid. *)
Lemma unreachable_loop_total (fuel : nat) g q (discovered : CoordSet.t) :
  (forall t, t ∈ q -> valid g t.1.1 t.1.2 = true) ->
  (length q + undiscovered g discovered < fuel)%nat ->
  exists b, unreachable_loop fuel g q discovered = Ok b.
Proof.
  revert q discovered. induction fuel as [|fuel IH]; intros q discovered Hq Hfuel; [lia|].
  simpl. destruct q as [|[[x y] n] q]; [by eauto|].
  destruct (examine_total g x y n) as [s ->]. simpl.
  assert (Hxy : valid g x y = true) by (apply (Hq (x, y, n)); by left).
  destruct s.
  - by eauto.
  - apply IH; [|simpl in Hfuel; lia]. intros t Ht. apply Hq. by right.
  - destruct (enqueue_neighbors_spec g x y n q discovered Hxy)
      as (new & Hq' & Hnew & _ & _ & Hmeasure).
    destruct (enqueue_neighbors g x y n q discovered) as [q' discovered'] eqn:E.
    simpl in *. apply IH; [|lia].
    intros t. rewrite Hq'. intros [Ht | Ht]%elem_of_app; [apply Hq; by right|].
    apply list_elem_of_fmap in Ht as (p & -> & Hp). simpl.
    apply (valid_neighbors_valid g x y); [done|]. by apply Hnew.
Qed.

(** When the search answers [false], it has found a chain from the root to
    a cell where its test succeeds. *)
Lemma unreachable_loop_false (fuel : nat) g c q (discovered : CoordSet.t) :
  (forall t, t ∈ q -> valid g t.1.1 t.1.2 = true /\ chain g c t.2 t.1) ->
  unreachable_loop fuel g q discovered = Ok false ->
  exists n e, chain g c n e /\ examine g e.1 e.2 n = Ok Found.
Proof.
  revert q discovered. induction fuel as [|fuel IH]; intros q discovered Hq; [done|].
  simpl. destruct q as [|[[x y] n] q]; [done|].
  destruct (Hq (x, y, n) ltac:(by left)) as [Hxy Hchain]. simpl in Hxy, Hchain.
  destruct (examine g x y n) as [s| |] eqn:Es; simpl; try done.
  destruct s.
  - intros _. exists n, (x, y). done.
  - apply IH. intros t Ht. apply Hq. by right.
  - destruct (enqueue_neighbors_spec g x y n q discovered Hxy)
      as (new & Hq' & Hnew & _ & _ & _).
    destruct (enqueue_neighbors g x y n q discovered) as [q' discovered'] eqn:E.
    simpl in *. apply IH.
    intros t. rewrite Hq'. intros [Ht | Ht]%elem_of_app; [apply Hq; by right|].
    apply list_elem_of_fmap in Ht as (p & -> & Hp). simpl.
    destruct (Hnew p Hp) as [Hp1 Hp2].
    split; [by apply (valid_neighbors_valid g x y)|].
    apply (chain_snoc g c n (x, y) p); [done| |done|done].
    by apply (examine_expand g x y n).
Qed.

End BreadthFirst.

(** *** A [true] of the search excludes every chain *)

Section Exhaustive.

Context {PRNG : Type}.
Implicit Types (g : Grid PRNG) (q : list (Z * Z * Z)) (p u w e c : coord).

Lemma elem_of_layer (lo : Z) (A : list coord) (t : Z * Z * Z) :
  t ∈ layer lo A <-> t.2 = lo /\ t.1 ∈ A.
Proof.
  unfold layer. rewrite list_elem_of_fmap. split.
  - intros (p & -> & Hp). done.
  - intros [<- Hp]. exists t.1. split; [by destruct t|done].
Qed.

(** One step of the search keeps the invariant. *)
Lemma search_inv_step g c (x y n : Z) q (discovered : CoordSet.t) (examined : list (coord * Z))
  (s : Step) :
  search_inv g c ((x, y, n) :: q) discovered examined ->
  examine g x y n = Ok s -> s <> Found ->
  let next := if s is Expand then enqueue_neighbors g x y n q discovered
              else (q, discovered) in
  search_inv g c next.1 next.2 (((x, y), n) :: examined).
Proof.
  intros [Hdisc Hnf Hnb (lo & A & B & Hq & Hlo) Hval Hroot] Hs Hne next.
  assert (Hxy : valid g x y = true) by (apply (Hval (x, y, n)); by left).
  (* the depths of the queue *)
  assert (Hdepth : forall t, t ∈ q -> n <= t.2 <= n + 1).
  { destruct A as [|a A]; simpl in Hq.
    - destruct B as [|b B]; simpl in Hq; [done|]. simplify_eq/=.
      intros t [-> _]%elem_of_layer. lia.
    - simplify_eq/=.
      intros t [[-> _]%elem_of_layer | [-> _]%elem_of_layer]%elem_of_app; lia. }
  assert (Hdone : forall p d, (p, d) ∈ examined -> d <= n).
  { intros p d Hd%Hlo. destruct A as [|a A]; simpl in Hq.
    - destruct B as [|b B]; simpl in Hq; [done|]. simplify_eq/=. lia.
    - simplify_eq/=. lia. }
  destruct (enqueue_neighbors_spec g x y n q discovered Hxy)
    as (new & Hq' & Hnew & Hdisc' & Hall & _).
  assert (Hsub : forall t, t ∈ q -> t ∈ next.1).
  { intros t Ht. unfold next. destruct s; try done. rewrite Hq'. apply elem_of_app. by left. }
  split.
  - (* discovered cells *)
    intros p Hp.
    assert (Hold : p ∈ discovered ->
              (exists d, (p, d) ∈ next.1) \/ (exists d, (p, d) ∈ ((x, y), n) :: examined)).
    { intros [[d [[= -> ->] | Hd]%elem_of_cons] | [d Hd]]%Hdisc.
      - right. exists n. by left.
      - left. exists d. by apply Hsub.
      - right. exists d. by right. }
    unfold next in *. destruct s; try (by apply Hold).
    apply Hdisc' in Hp as [Hp | Hp]; [by apply Hold|].
    left. exists (n + 1). rewrite Hq'. apply elem_of_app. right.
    apply list_elem_of_fmap. by exists p.
  - intros p d [[= -> ->] | Hd]%elem_of_cons; [|by apply Hnf].
    simpl. rewrite Hs. by intros [= ->].
  - (* the neighbours of the cells that are done *)
    intros p d w [[= -> ->] | Hd]%elem_of_cons Hexp Hw Hun.
    + simpl in *. rewrite Hs in Hexp. injection Hexp as ->.
      unfold next. destruct (proj1 (Hdisc' w) (Hall w Hw Hun)) as [Hwd | Hwn].
      * apply Hdisc in Hwd as [[d [[= -> ->] | Hd]%elem_of_cons] | [d Hd]].
        -- exists n. split; [lia|]. right. by left.
        -- exists d. split; [apply (Hdepth _ Hd)|]. left. rewrite Hq'.
           apply elem_of_app. by left.
        -- exists d. split; [specialize (Hdone _ _ Hd); lia|]. right. by right.
      * exists (n + 1). split; [lia|]. left. rewrite Hq'. apply elem_of_app. right.
        apply list_elem_of_fmap. by exists w.
    + destruct (Hnb p d w Hd Hexp Hw Hun) as (d' & Hd' & [[[= -> ->] | Hin]%elem_of_cons | Hin]).
      * exists n. split; [done|]. right. by left.
      * exists d'. split; [done|]. left. by apply Hsub.
      * exists d'. split; [done|]. right. by right.
  - (* the two layers of the queue *)
    unfold next. destruct A as [|a A]; simpl in Hq.
    + destruct B as [|b B]; simpl in Hq; [done|]. simplify_eq/=.
      exists (lo + 1), B, (if s is Expand then new else []). split.
      * destruct s; [by destruct Hne| |]; simpl; [by rewrite app_nil_r | by rewrite Hq'].
      * intros p d [[= -> ->] | Hd%Hlo]%elem_of_cons; lia.
    + simplify_eq/=.
      exists lo, A, (B ++ (if s is Expand then new else [])). split.
      * destruct s; [by destruct Hne| |]; simpl; [by rewrite app_nil_r|].
        rewrite Hq'. unfold layer. by rewrite fmap_app, app_assoc.
      * intros p d [[= -> ->] | Hd%Hlo]%elem_of_cons; lia.
  - (* validity *)
    intros t Ht. unfold next in Ht. destruct s; try (apply Hval; by right).
    rewrite Hq' in Ht. apply elem_of_app in Ht as [Ht | Ht]; [apply Hval; by right|].
    apply list_elem_of_fmap in Ht as (p & -> & Hp). simpl.
    apply (valid_neighbors_valid g x y); [done|]. by apply Hnew.
  - destruct Hroot as [[[= -> ->] | Hr]%elem_of_cons | Hr].
    + right. by left.
    + left. by apply Hsub.
    + right. by right.
Qed.

(** When the search answers [true], every cell that a chain from the root
    reaches was examined at a depth that is at most the length of the chain,
    and the test failed there. *)
Lemma unreachable_loop_true (fuel : nat) g c q (discovered : CoordSet.t)
  (examined : list (coord * Z)) :
  search_inv g c q discovered examined ->
  unreachable_loop fuel g q discovered = Ok true ->
  exists discovered' examined', search_inv g c [] discovered' examined'.
Proof.
  revert q discovered examined. induction fuel as [|fuel IH]; intros q discovered examined Hinv; [done|].
  simpl. destruct q as [|[[x y] n] q]; [by eauto|].
  destruct (examine g x y n) as [s| |] eqn:Es; simpl; try done.
  pose proof (search_inv_step g c x y n q discovered examined s Hinv Es) as Hstep.
  destruct s; [done| |].
  - apply (IH q discovered (((x, y), n) :: examined)). by apply Hstep.
  - destruct (enqueue_neighbors g x y n q discovered) as [q' discovered'] eqn:E.
    apply (IH q' discovered' (((x, y), n) :: examined)). by apply Hstep.
Qed.

Lemma search_inv_chain g c (discovered : CoordSet.t) (examined : list (coord * Z))
  u (d len : Z) e :
  search_inv g c [] discovered examined ->
  (u, d) ∈ examined -> chain g u len e ->
  exists d', d' <= d + len - 1 /\ (e, d') ∈ examined.
Proof.
  intros Hinv Hu Hchain. revert d Hu.
  induction Hchain as [e | u w len e Hexp Hw Hun Hchain IH]; intros d Hu.
  - exists d. split; [lia|done].
  - destruct (inv_neighbors g c _ _ _ Hinv u d w Hu) as (dw & Hdw & [[]%not_elem_of_nil | Hin]);
      [by apply (examine_expand g _ _ 1)|done|done|].
    destruct (IH dw Hin) as (d' & Hd' & He). exists d'. split; [lia|done].
Qed.

End Exhaustive.

Section Unreachable.

Context {PRNG : Type}.
Implicit Types (g : Grid PRNG) (q : list (Z * Z * Z)) (p u w e c : coord).

Lemma undiscovered_le g (discovered : CoordSet.t) :
  0 <= m_width g -> 0 <= m_height g ->
  (undiscovered g discovered <= Z.to_nat (m_width g * m_height g))%nat.
Proof.
  intros Hw Hh. unfold undiscovered.
  pose proof (length_xy_range (m_width g) (m_height g) Hw Hh) as Hlen.
  pose proof (List.filter_length_le (fun p => negb (CoordSet.mem p discovered))
                (xy_range (m_width g) (m_height g))) as Hle.
  lia.
Qed.

(** [unreachable] returns on every cell of the grid when the fuel exceeds
    the number of cells by two. *)
Lemma unreachable_total (fuel : nat) g (x y : Z) :
  valid g x y = true ->
  m_width g * m_height g + 1 < Z.of_nat fuel ->
  exists b, unreachable fuel g x y CoordSet.empty = Ok b.
Proof.
  intros Hv Hfuel. unfold unreachable.
  destruct (negb (cell g x y =? UNKNOWN)); [by eauto|].
  apply unreachable_loop_total.
  - intros t ->%list_elem_of_singleton. done.
  - assert (0 <= m_width g /\ 0 <= m_height g) as [Hw Hh].
    { unfold valid in Hv. repeat (apply andb_true_iff in Hv as [Hv ?]). lia. }
    pose proof (undiscovered_le g (CoordSet.insert (x, y) CoordSet.empty) Hw Hh).
    change (length [(x, y, 1)]) with 1%nat. lia.
Qed.

(** When [unreachable] answers [true], no chain from the root ends on a
    cell where the test of the search succeeds for the length of the chain. *)
Lemma unreachable_true_chain (fuel : nat) g (x y : Z) (n : Z) e :
  valid g x y = true ->
  unreachable fuel g x y CoordSet.empty = Ok true ->
  chain g (x, y) n e ->
  examine g e.1 e.2 n <> Ok Found.
Proof.
  intros Hv. unfold unreachable.
  destruct (negb (cell g x y =? UNKNOWN)); [done|].
  intros Hloop Hchain Hfound.
  apply (unreachable_loop_true fuel g (x, y) _ _ []) in Hloop as (discovered' & examined' & Hinv).
  - destruct (inv_root g _ _ _ _ Hinv) as [[]%not_elem_of_nil | Hroot].
    destruct (search_inv_chain g (x, y) discovered' examined' (x, y) 1 n e Hinv Hroot Hchain)
      as (d' & Hd' & He).
    apply (inv_not_found g _ _ _ _ Hinv e d' He).
    apply (examine_found_le g _ _ n); [done|lia].
  - split.
    + intros p [-> | []%not_elem_of_nil]%CoordSetFacts.elem_of_insert.
      left. exists 1. by left.
    + by intros p d ?%not_elem_of_nil.
    + by intros p d w ?%not_elem_of_nil.
    + exists 1, [(x, y)], []. split; [done|]. by intros p d ?%not_elem_of_nil.
    + intros t ->%list_elem_of_singleton. done.
    + left. by left.
Qed.

(** When [unreachable] answers [false] on an unknown cell, there is a chain
    from it to a cell where the test succeeds. *)
Lemma unreachable_false_chain (fuel : nat) g (x y : Z) :
  valid g x y = true ->
  cell g x y = UNKNOWN ->
  unreachable fuel g x y CoordSet.empty = Ok false ->
  exists n e, chain g (x, y) n e /\ examine g e.1 e.2 n = Ok Found.
Proof.
  intros Hv Hc. unfold unreachable. rewrite Hc. simpl.
  apply unreachable_loop_false.
  intros t ->%list_elem_of_singleton. split; [done|]. apply chain_end.
Qed.

End Unreachable.

(** *** Blackening cells keeps the islands *)

Section Islands.

Context {PRNG : Type}.
Implicit Types (g h : Grid PRNG) (r a b : Region) (p : option rid).

Lemma same_islands_refl g : same_islands g g.
Proof. split; eauto. Qed.

Lemma black_handle_islands g g' p :
  same_islands g g' -> black_handle g p -> black_handle g' p.
Proof.
  intros Hsi Hp i r' -> Hi. destruct (Reg.black r') eqn:Eb; [done|].
  destruct (si_bwd g g' Hsi i r' Hi Eb) as (r & Hr & Hst & _).
  pose proof (Hp i r eq_refl Hr) as Hb. unfold Reg.black in *. congruence.
Qed.

Lemma same_islands_trans g g' g'' :
  same_islands g g' -> same_islands g' g'' -> same_islands g g''.
Proof.
  intros H1 H2. split.
  - by rewrite (si_width _ _ H2), (si_width _ _ H1).
  - by rewrite (si_height _ _ H2), (si_height _ _ H1).
  - intros i r Hi Hb. destruct (si_fwd _ _ H1 i r Hi Hb) as (r' & Hi' & Hst & Hco).
    destruct (si_fwd _ _ H2 i r' Hi') as (r'' & Hi'' & Hst' & Hco').
    { unfold Reg.black in *. congruence. }
    exists r''. split; [done|]. split; congruence.
  - intros i r'' Hi Hb. destruct (si_bwd _ _ H2 i r'' Hi Hb) as (r' & Hi' & Hst & Hco).
    destruct (si_bwd _ _ H1 i r' Hi') as (r & Hi'' & Hst' & Hco').
    { unfold Reg.black in *. congruence. }
    exists r. split; [done|]. split; congruence.
  - intros x y i r Hxy Hi Hb.
    destruct (si_fwd _ _ H1 i r Hi Hb) as (r' & Hi' & Hst & Hco).
    apply (si_handle _ _ H2 x y i r'); [by eapply si_handle|done|].
    unfold Reg.black in *. congruence.
  - intros x y. destruct (si_cell _ _ H2 x y) as [E|E]; [|by right].
    rewrite E. destruct (si_cell _ _ H1 x y) as [E'|E']; [by left|right].
    by apply (black_handle_islands g' g'').
Qed.

Lemma region_set_cell g (x y : Z) (s : State) (x' y' : Z) :
  region (set_cell g x y s) x' y' = region g x' y'.
Proof.
  unfold region, set_cell. simpl.
  destruct (decide ((x, y) = (x', y'))) as [[= <- <-]|Hne];
    [|by rewrite cells_get_alter_ne].
  destruct (cells_alter_cases (fun c => (s, c.2)) (m_cells g) x y) as [Hin | ->]; [|done].
  by rewrite cells_get_alter_eq.
Qed.

Lemma region_set_region_ne g (x y : Z) p (x' y' : Z) :
  (x, y) <> (x', y') -> region (set_region g x y p) x' y' = region g x' y'.
Proof. intros Hne. unfold region, set_region. simpl. by rewrite cells_get_alter_ne. Qed.

Lemma region_set_regions_ne g (i : rid) (ps : list coord) (q : coord) :
  q ∉ ps ->
  region (foldl (fun h q => set_region h q.1 q.2 (Some i)) g ps) q.1 q.2 = region g q.1 q.2.
Proof.
  revert g. induction ps as [|u ps IH]; intros g Hq; simpl; [done|].
  apply not_elem_of_cons in Hq as [Hne Hq]. rewrite IH by done.
  apply region_set_region_ne. intros E. apply Hne. destruct q, u. simpl in *. congruence.
Qed.

Lemma size_set_regions g (i : rid) (ps : list coord) :
  let h := foldl (fun h q => set_region h q.1 q.2 (Some i)) g ps in
  m_width h = m_width g /\ m_height h = m_height g.
Proof.
  revert g. induction ps as [|u ps IH]; intros g; simpl; [done|].
  destruct (IH (set_region g u.1 u.2 (Some i))) as [-> ->]. done.
Qed.

Lemma size_absorb g (i1 i2 : rid) a b :
  m_width (absorb g i1 a i2 b) = m_width g /\ m_height (absorb g i1 a i2 b) = m_height g.
Proof. unfold absorb. simpl. apply (size_set_regions (with_regions g _)). Qed.

(** Fusing two black regions keeps the islands. *)
Lemma absorb_islands g (i1 i2 : rid) a b :
  i1 <> i2 ->
  m_regions g !! i1 = Some a -> m_regions g !! i2 = Some b ->
  Reg.black a = true -> Reg.black b = true ->
  black_cells_black g ->
  same_islands g (absorb g i1 a i2 b) /\ black_cells_black (absorb g i1 a i2 b).
Proof.
  intros Hne Ea Eb Ha Hb Hbcb.
  destruct (absorb_black g i1 i2 a b Hne Ha) as (_ & Hkeep & Hcell).
  set (h := absorb g i1 a i2 b) in *.
  assert (Hh : forall i r, m_regions h !! i = Some r ->
             (i = i1 /\ r = Reg.unk_insert (m_unknowns b) (Reg.insert (m_coords b) a))
             \/ (i <> i1 /\ m_regions g !! i = Some r)).
  { intros i r. unfold h. rewrite m_regions_absorb, lookup_delete_Some.
    intros [_ Hi]. apply lookup_insert_Some in Hi as [[<- <-]|[? Hi]]; [by left|right; eauto]. }
  split; [split|].
  - apply size_absorb.
  - apply size_absorb.
  - intros i r Hi Hr. exists r. split; [|done].
    unfold h. rewrite m_regions_absorb, lookup_delete_ne, lookup_insert_ne; [done| |];
      intros <-; congruence.
  - intros i r' Hi Hr. destruct (Hh i r' Hi) as [[_ ->]|[_ Hg]]; [|by eauto].
    unfold Reg.black in *. simpl in Hr. congruence.
  - intros x y i r Hxy Hi Hr.
    assert (Hq : (x, y) ∉ m_coords b).
    { intros Hin. pose proof (Hbcb i2 b (x, y) Eb Hb Hin i r Hxy Hi). congruence. }
    unfold h, absorb.
    change (region (with_regions ?g0 _) x y) with (region g0 x y).
    rewrite (region_set_regions_ne (with_regions g _) i1 (m_coords b) (x, y) Hq). done.
  - apply Hcell.
  - intros i c q Hi Hc Hq.
    assert (Hg : black_handle g (region g q.1 q.2)).
    { destruct (Hh i c Hi) as [[_ ->]|[_ Hg]].
      - simpl in Hq. apply CoordSetFacts.elem_of_insert_all in Hq as [Hq|Hq].
        + by apply (Hbcb i2 b q).
        + by apply (Hbcb i1 a q).
      - by apply (Hbcb i c q). }
    destruct (Hcell q.1 q.2) as [-> | ?]; [by apply Hkeep|done].
Qed.

Lemma fuse_regions_islands g p1 p2 :
  black_handle g p1 -> black_cells_black g ->
  same_islands g (fuse_regions g p1 p2) /\ black_cells_black (fuse_regions g p1 p2).
Proof.
  intros Hp1 Hbcb. unfold fuse_regions.
  pose proof (same_islands_refl g) as Hrefl.
  destruct p1 as [i1|]; [|done].
  destruct p2 as [i2|]; [|done].
  case_bool_decide as Hne; [done|].
  destruct (m_regions g !! i1) as [a|] eqn:Ea; [|done].
  destruct (m_regions g !! i2) as [b|] eqn:Eb; [|done].
  pose proof (Hp1 i1 a eq_refl Ea) as Ha.
  rewrite (black_not_numbered a Ha). simpl.
  destruct (Bool.eqb (Reg.black a) (Reg.black b)) eqn:Eab; simpl; [|done].
  apply Bool.eqb_prop in Eab. rewrite Ha in Eab. symmetry in Eab.
  rewrite (black_not_numbered b Eab).
  destruct (Reg.size a <? Reg.size b); apply absorb_islands; done.
Qed.

Lemma fuse_neighbors_islands g (x y : Z) (l : list coord) :
  black_handle g (region g x y) -> black_cells_black g ->
  let h := foldl (fun h q => fuse_regions h (region h x y) (region h q.1 q.2)) g l in
  same_islands g h /\ black_cells_black h.
Proof.
  revert g. induction l as [|q l IH]; intros g Hb Hbcb; simpl.
  { split; [apply same_islands_refl|done]. }
  destruct (fuse_regions_islands g (region g x y) (region g q.1 q.2) Hb Hbcb) as [Hsi Hbcb'].
  destruct (fuse_regions_black g (region g x y) (region g q.1 q.2) Hb) as (_ & Hkeep & Hcell).
  destruct (IH (fuse_regions g (region g x y) (region g q.1 q.2))) as [Hsi' Hbcb''];
    [|done|].
  - destruct (Hcell x y) as [-> | ?]; [by apply Hkeep|done].
  - split; [|done]. by eapply same_islands_trans.
Qed.

End Islands.

Section MarkIslands.

Context {PRNG : Type}.
Implicit Types (g h : Grid PRNG) (r a b : Region) (p : option rid).

Lemma valid_islands g g' (x y : Z) : same_islands g g' -> valid g' x y = valid g x y.
Proof. intros Hsi. unfold valid. by rewrite (si_width _ _ Hsi), (si_height _ _ Hsi). Qed.

(** Blackening a cell keeps the islands. *)
Lemma mark_black_islands g (x y : Z) g' :
  valid g x y = true -> tidy g ->
  mark g BLACK x y = Ok g' ->
  same_islands g g' /\ tidy g'.
Proof.
  intros Hv [Hfree Hbcb] Hm.
  destruct (decide (cell g x y = UNKNOWN)) as [Hc|Hc].
  2: { apply mark_known in Hm as ->; [|done]. split; [by split; eauto|]. split; done. }
  pose proof (mark_cells g BLACK x y g') as Hcells.
  pose proof (mark_unknown _ _ _ _ _ Hm Hc) as (Hin & _).
  assert (Hsi : same_islands g g' /\ black_cells_black g').
  { unfold mark in Hm. simpl in Hm. rewrite Hc in Hm. simpl in Hm.
    unfold add_region in Hm.
    destruct (Reg.make _ x y _) as [rn| |] eqn:Ern; simpl in Hm; try discriminate.
    injection Hm as <-.
    set (g2 := with_regions (set_cell g x y BLACK)
                 (Reg.unk_erase x y <$> m_regions (set_cell g x y BLACK))) in *.
    set (j := fresh_rid g2) in *.
    set (g3 := with_regions (set_region g2 x y (Some j)) (<[j := rn]> (m_regions g2))) in *.
    assert (Hrn : Reg.black rn = true /\ m_coords rn = CoordSet.insert (x, y) CoordSet.empty).
    { unfold Reg.make in Ern. destruct (_ =? UNKNOWN) eqn:E; [done|].
      injection Ern as <-. split; [|done]. unfold Reg.black. simpl. apply Z.eqb_eq.
      change (cell g2 x y) with (cell (set_cell g x y BLACK) x y).
      unfold cell, set_cell. simpl. by rewrite cells_get_alter_eq. }
    destruct Hrn as [Hrn Hcoords].
    assert (Hj : m_regions g !! j = None).
    { pose proof (is_fresh (dom (m_regions g2))) as Hfresh. fold (fresh_rid g2) in Hfresh.
      fold j in Hfresh. apply not_elem_of_dom in Hfresh.
      unfold g2 in Hfresh. simpl in Hfresh. rewrite lookup_fmap in Hfresh.
      by destruct (m_regions g !! j). }
    assert (Hstore : forall i r', m_regions g3 !! i = Some r' ->
              (i = j /\ r' = rn)
              \/ (i <> j /\ exists r, m_regions g !! i = Some r /\ r' = Reg.unk_erase x y r)).
    { intros i r'. unfold g3. simpl. intros [[<- <-]|[? Hi]]%lookup_insert_Some; [by left|].
      right. split; [done|]. rewrite lookup_fmap in Hi.
      destruct (m_regions g !! i) as [r|]; [|done]. injection Hi as <-. eauto. }
    assert (Hreg_ne : forall x' y', (x', y') <> (x, y) -> region g3 x' y' = region g x' y').
    { intros x' y' Hne. unfold g3.
      change (region (with_regions ?g0 _) x' y') with (region g0 x' y').
      rewrite region_set_region_ne by done.
      change (region g2 x' y') with (region (set_cell g x y BLACK) x' y').
      apply region_set_cell. }
    assert (Hreg_eq : region g3 x y = Some j).
    { unfold g3. change (region (with_regions ?g0 _) x y) with (region g0 x y).
      unfold region, set_region. simpl. rewrite cells_get_alter_eq; [done|].
      by apply inside_alter. }
    assert (Hkeep : forall p, black_handle g p -> black_handle g3 p).
    { intros p Hp i r' -> Hi. destruct (Hstore i r' Hi) as [[_ ->]|[_ (r & Hr & ->)]]; [done|].
      apply (Hp i r eq_refl Hr). }
    assert (Hnew : black_handle g3 (Some j)).
    { intros i r' [= <-] Hi. destruct (Hstore j r' Hi) as [[_ ->]|[? _]]; done. }
    assert (Hsi3 : same_islands g g3).
    { split; try done.
      - intros i r Hi Hr. exists (Reg.unk_erase x y r). split; [|done].
        unfold g3. simpl. rewrite lookup_insert_ne by (intros <-; congruence).
        by rewrite lookup_fmap, Hi.
      - intros i r' Hi Hr. destruct (Hstore i r' Hi) as [[_ ->]|[_ (r & Hr0 & ->)]];
          [congruence|]. by exists r.
      - intros x' y' i r Hxy Hi Hr.
        destruct (decide ((x', y') = (x, y))) as [[= -> ->]|Hne].
        + pose proof (Hfree x y Hv Hc i r Hxy Hi). congruence.
        + by rewrite Hreg_ne.
      - intros x' y'. destruct (decide ((x', y') = (x, y))) as [[= -> ->]|Hne].
        + right. by rewrite Hreg_eq.
        + left. by apply Hreg_ne. }
    assert (Hbcb3 : black_cells_black g3).
    { intros i c q Hi Hcb Hq.
      destruct (decide ((q.1, q.2) = (x, y))) as [[= -> ->]|Hne]; [by rewrite Hreg_eq|].
      rewrite Hreg_ne by done. apply Hkeep.
      destruct (Hstore i c Hi) as [[_ ->]|[_ (r & Hr & ->)]].
      - rewrite Hcoords in Hq. apply CoordSetFacts.elem_of_insert in Hq as [-> | []%not_elem_of_nil].
        done.
      - by apply (Hbcb i r q). }
    destruct (fuse_neighbors_islands g3 x y (valid_neighbors g3 x y)) as [Hsi' Hbcb'];
      [by rewrite Hreg_eq|done|].
    split; [|done]. by eapply same_islands_trans. }
  destruct Hsi as [Hsi Hbcb']. split; [done|]. split; [|done].
  intros x' y' Hv' Hc'. rewrite (valid_islands g g') in Hv' by done.
  rewrite (Hcells x' y' Hm) in Hc'. case_bool_decide as Hd; [done|].
  destruct (si_cell _ _ Hsi x' y') as [-> | ?]; [|done].
  apply (black_handle_islands g g'); [done|]. by apply Hfree.
Qed.

Lemma mark_all_black_islands g (ps : list coord) g' :
  (forall q, q ∈ ps -> valid g q.1 q.2 = true) -> tidy g ->
  mark_all g BLACK ps = Ok g' ->
  same_islands g g' /\ tidy g'.
Proof.
  revert g. induction ps as [|q ps IH]; intros g Hv Ht.
  { intros [= <-]. split; [apply same_islands_refl|done]. }
  rewrite mark_all_cons.
  destruct (mark g BLACK q.1 q.2) as [h| |] eqn:Em; simpl; try done.
  intros Hall.
  destruct (mark_black_islands g q.1 q.2 h) as [Hsi Ht']; [apply Hv; by left|done|done|].
  destruct (IH h) as [Hsi' Ht'']; [|done|done|].
  - intros u Hu. rewrite (valid_islands g h) by done. apply Hv. by right.
  - split; [|done]. by eapply same_islands_trans.
Qed.

End MarkIslands.

Section ExamineIslands.

Context {PRNG : Type}.
Implicit Types (g h : Grid PRNG) (r a b : Region) (p : option rid).

Lemma valid_neighbors_islands g g' (x y : Z) :
  same_islands g g' -> valid_neighbors g' x y = valid_neighbors g x y.
Proof.
  intros Hsi. unfold valid_neighbors. by rewrite (si_width _ _ Hsi), (si_height _ _ Hsi).
Qed.

Lemma white_not_black r : Reg.white r = true -> Reg.black r = false.
Proof. unfold Reg.white, Reg.black, WHITE, BLACK. lia. Qed.

Lemma numbered_not_black r : Reg.numbered r = true -> Reg.black r = false.
Proof. unfold Reg.numbered, Reg.black, BLACK. lia. Qed.

(** A cell that designates no island adds nothing to the sets of
    [adjacent_regions]. *)
Lemma adjacent_step_black g p (acc : list rid * list rid) :
  black_handle g p ->
  match p with
  | Some i =>
      match m_regions g !! i with
      | Some r =>
          if Reg.white r then (rid_insert i acc.1, acc.2)
          else if Reg.numbered r then (acc.1, rid_insert i acc.2)
          else acc
      | None => acc
      end
  | None => acc
  end = acc.
Proof.
  intros Hp. destruct p as [i|]; [|done].
  destruct (m_regions g !! i) as [r|] eqn:Er; [|done].
  pose proof (Hp i r eq_refl Er) as Hb.
  destruct (Reg.white r) eqn:Ew; [apply white_not_black in Ew; congruence|].
  destruct (Reg.numbered r) eqn:En; [apply numbered_not_black in En; congruence|done].
Qed.

Lemma adjacent_regions_islands g g' (x y : Z) :
  same_islands g g' -> adjacent_regions g' x y = adjacent_regions g x y.
Proof.
  intros Hsi. unfold adjacent_regions. rewrite (valid_neighbors_islands g g') by done.
  generalize (@nil rid, @nil rid). induction (valid_neighbors g x y) as [|q l IH];
    intros acc; simpl; [done|].
  rewrite <- IH. f_equal.
  assert (Hblack : black_handle g (region g q.1 q.2) -> black_handle g' (region g' q.1 q.2)).
  { intros Hb. destruct (si_cell _ _ Hsi q.1 q.2) as [-> | ?]; [|done].
    by apply (black_handle_islands g g'). }
  destruct (region g q.1 q.2) as [i|] eqn:Ei.
  2: { apply adjacent_step_black, Hblack. by intros i a. }
  destruct (m_regions g !! i) as [r|] eqn:Er.
  2: { apply adjacent_step_black, Hblack. intros j a [= <-]. congruence. }
  destruct (Reg.black r) eqn:Eb.
  - rewrite adjacent_step_black.
    + destruct (Reg.white r) eqn:Ew; [apply white_not_black in Ew; congruence|].
      by destruct (Reg.numbered r) eqn:En; [apply numbered_not_black in En; congruence|].
    + apply Hblack. intros j a [= <-]. congruence.
  - rewrite (si_handle _ _ Hsi q.1 q.2 i r Ei Er Eb).
    destruct (si_fwd _ _ Hsi i r Er Eb) as (r' & -> & Hst & _).
    unfold Reg.white, Reg.numbered. by rewrite Hst.
Qed.

Lemma sum_sizes_islands g g' (s : list rid) :
  same_islands g g' ->
  (forall i, i ∈ s -> exists r, m_regions g !! i = Some r /\ Reg.black r = false) ->
  sum_sizes g' s = sum_sizes g s.
Proof.
  intros Hsi. unfold sum_sizes.
  assert (H : forall z : Z,
    (forall i, i ∈ s -> exists r, m_regions g !! i = Some r /\ Reg.black r = false) ->
    foldl (fun size i => size + from_option Reg.size 0 (m_regions g' !! i)) z s
    = foldl (fun size i => size + from_option Reg.size 0 (m_regions g !! i)) z s);
    [|by apply H].
  induction s as [|i s IH]; intros z Hs; simpl; [done|].
  destruct (Hs i ltac:(by left)) as (r & Hr & Hb).
  destruct (si_fwd _ _ Hsi i r Hr Hb) as (r' & Hr' & _ & Hco).
  rewrite Hr, Hr'. simpl. unfold Reg.size. rewrite Hco.
  apply IH. intros j Hj. apply Hs. by right.
Qed.

Lemma impossibly_big_islands g g' (n : Z) :
  same_islands g g' ->
  impossibly_big_white_region g' n = impossibly_big_white_region g n.
Proof.
  intros Hsi. unfold impossibly_big_white_region.
  set (f := fun ir : rid * Region =>
              negb (Reg.numbered_and ir.2 (fun k => Reg.size ir.2 + n + 1 <=? k))).
  assert (Hf : forall i r r', m_state r' = m_state r -> m_coords r' = m_coords r ->
                 f (i, r') = f (i, r)).
  { intros i r r' Hst Hco. unfold f, Reg.numbered_and, Reg.number, Reg.numbered, Reg.size.
    simpl. by rewrite Hst, Hco. }
  assert (Hnum : forall i r, Reg.numbered r = false -> f (i, r) = true).
  { intros i r Hn. unfold f, Reg.numbered_and. simpl. by rewrite Hn. }
  apply Bool.eq_iff_eq_true. rewrite !forallb_forall. unfold regions.
  split; intros H [i r] Hin%list_elem_of_In%elem_of_map_to_list.
  - destruct (Reg.numbered r) eqn:En; [|by apply Hnum].
    destruct (si_fwd _ _ Hsi i r Hin (numbered_not_black r En)) as (r' & Hr' & Hst & Hco).
    rewrite <- (Hf i r r' Hst Hco). apply H. by apply list_elem_of_In, elem_of_map_to_list.
  - destruct (Reg.numbered r) eqn:En; [|by apply Hnum].
    destruct (si_bwd _ _ Hsi i r Hin (numbered_not_black r En)) as (r0 & Hr0 & Hst & Hco).
    rewrite (Hf i r0 r Hst Hco). apply H. by apply list_elem_of_In, elem_of_map_to_list.
Qed.

(** The tests of the search see the islands only. *)
Lemma examine_islands g g' (x y n : Z) :
  same_islands g g' -> examine g' x y n = examine g x y n.
Proof.
  intros Hsi. unfold examine. rewrite (adjacent_regions_islands g g') by done.
  pose proof (adjacent_regions_spec g x y) as [Hw Hn].
  destruct (adjacent_regions g x y) as [wr nr]. simpl in Hw, Hn.
  rewrite (sum_sizes_islands g g' wr), (sum_sizes_islands g g' nr); try done.
  2: { intros i Hi. destruct (Hn i Hi) as (r & Hr & Hnum). exists r.
       split; [done|]. by apply numbered_not_black. }
  2: { intros i Hi. destruct (Hw i Hi) as (r & Hr & Hwh). exists r.
       split; [done|]. by apply white_not_black. }
  destruct nr as [|i [|j nr]]; [| |done].
  - by rewrite (impossibly_big_islands g g').
  - destruct (Hn i ltac:(by left)) as (r & Hr & Hnum).
    destruct (si_fwd _ _ Hsi i r Hr (numbered_not_black r Hnum)) as (r' & -> & Hst & _).
    rewrite Hr. simpl. unfold Reg.number, Reg.numbered. by rewrite Hst.
Qed.

End ExamineIslands.

(** *** The rule after the rule *)

Section UnreachableTwice.

Context {PRNG : Type}.
Implicit Types (g h : Grid PRNG) (p q u w e : coord).

Lemma xy_range_valid g p :
  p ∈ xy_range (m_width g) (m_height g) -> valid g p.1 p.2 = true.
Proof.
  intros Hp%elem_of_xy_range. unfold valid.
  repeat (apply andb_true_intro; split); lia.
Qed.

(** The marks of the rule: the cells for which the search answers [true]. *)
Lemma unreachable_cells_marks_spec (fuel : nat) g :
  (forall p, p ∈ xy_range (m_width g) (m_height g) ->
             exists b, unreachable fuel g p.1 p.2 CoordSet.empty = Ok b) ->
  exists ms, unreachable_cells_marks fuel g = Ok ms
    /\ forall p, p ∈ ms <-> p ∈ xy_range (m_width g) (m_height g)
                            /\ unreachable fuel g p.1 p.2 CoordSet.empty = Ok true.
Proof.
  unfold unreachable_cells_marks.
  generalize (xy_range (m_width g) (m_height g)). intros l Htotal.
  assert (H : forall s : CoordSet.t, exists ms,
    for_each l s (fun mark_as_black p =>
       u ← unreachable fuel g p.1 p.2 CoordSet.empty;
       Ok (if u : bool then CoordSet.insert p mark_as_black else mark_as_black)) = Ok ms
    /\ forall p, p ∈ ms <-> p ∈ s
         \/ (p ∈ l /\ unreachable fuel g p.1 p.2 CoordSet.empty = Ok true)).
  { induction l as [|q l IH]; intros s; simpl.
    - exists s. split; [done|]. intros p. split; [by left|].
      by intros [? | [?%not_elem_of_nil _]].
    - destruct (Htotal q ltac:(by left)) as [b Hb]. rewrite Hb. simpl.
      destruct (IH (fun p Hp => Htotal p ltac:(by right))
                  (if b then CoordSet.insert q s else s)) as (ms & -> & Hms).
      exists ms. split; [done|]. intros p. rewrite Hms, elem_of_cons.
      destruct b.
      + rewrite CoordSetFacts.elem_of_insert. split.
        * intros [[-> | ?] | [? ?]]; eauto.
        * intros [? | [[-> | ?] ?]]; eauto.
      + split.
        * intros [? | [? ?]]; eauto.
        * intros [? | [[-> | ?] ?]]; eauto. congruence. }
  destruct (H CoordSet.empty) as (ms & Hms & Hspec). exists ms. split; [done|].
  intros p. rewrite Hspec. split; [|by right].
  by intros [?%not_elem_of_nil | ?].
Qed.

(** A chain that ends on a cell where the test succeeds is a chain of the
    grid in which the unreachable cells are black. *)
Lemma chain_islands (fuel : nat) g g' (ms : CoordSet.t) u (len m : Z) e :
  same_islands g g' ->
  (forall p, p ∈ ms -> valid g p.1 p.2 = true
                       /\ unreachable fuel g p.1 p.2 CoordSet.empty = Ok true) ->
  (forall p, cell g p.1 p.2 = UNKNOWN -> p ∉ ms -> cell g' p.1 p.2 = UNKNOWN) ->
  chain g u len e -> examine g e.1 e.2 m = Ok Found -> len <= m ->
  chain g' u len e.
Proof.
  intros Hsi Hms Hcells Hchain Hfound. revert m Hfound.
  induction Hchain as [e | u w len e Hexp Hw Hun Hchain IH]; intros m Hfound Hlen.
  { apply chain_end. }
  apply chain_cons with w.
  - by rewrite (examine_islands g g').
  - by rewrite (valid_neighbors_islands g g').
  - apply Hcells; [done|]. intros Hin. destruct (Hms w Hin) as [Hv Hu].
    apply (unreachable_true_chain fuel g w.1 w.2 len e Hv Hu).
    + by destruct w.
    + apply (examine_found_le g _ _ m); [done|lia].
  - apply (IH m); [done|lia].
Qed.

(** R4 after R4: when the unreachable cells are black, the search finds
    no other unreachable cell. *)
Lemma unreachable_cells_twice (fuel : nat) g (verbose : bool) :
  (forall x y, valid g x y = true -> inside (m_cells g) x y) ->
  tidy g ->
  m_width g * m_height g + 1 < Z.of_nat fuel ->
  exists b g', analyze_unreachable_cells fuel g verbose = Ok (b, g')
    /\ unreachable_cells_marks fuel g' = Ok []
    /\ analyze_unreachable_cells fuel g' verbose = Ok (false, g').
Proof.
  intros Hshape Htidy Hfuel.
  assert (Htotal : forall h, same_islands g h ->
            forall p, p ∈ xy_range (m_width h) (m_height h) ->
                      exists b, unreachable fuel h p.1 p.2 CoordSet.empty = Ok b).
  { intros h Hsi p Hp. apply unreachable_total; [by apply xy_range_valid|].
    by rewrite (si_width _ _ Hsi), (si_height _ _ Hsi). }
  destruct (unreachable_cells_marks_spec fuel g (Htotal g (same_islands_refl g)))
    as (ms & Hms & Hspec).
  (* it is enough to find the grid [g'] *)
  assert (Hgoal : forall b g',
    analyze_unreachable_cells fuel g verbose = Ok (b, g') ->
    same_islands g g' ->
    (forall p, cell g p.1 p.2 = UNKNOWN -> p ∉ ms -> cell g' p.1 p.2 = UNKNOWN) ->
    (forall p, cell g' p.1 p.2 = UNKNOWN -> cell g p.1 p.2 = UNKNOWN /\ p ∉ ms) ->
    exists b g', analyze_unreachable_cells fuel g verbose = Ok (b, g')
      /\ unreachable_cells_marks fuel g' = Ok []
      /\ analyze_unreachable_cells fuel g' verbose = Ok (false, g')).
  { intros b g' Hrun Hsi Hkeep Hunk. exists b, g'. split; [done|].
    assert (Hnone : unreachable_cells_marks fuel g' = Ok []).
    { destruct (unreachable_cells_marks_spec fuel g' (Htotal g' Hsi)) as (ms' & Hms' & Hspec').
      rewrite Hms'. f_equal. destruct ms' as [|p ms']; [done|exfalso].
      destruct (proj1 (Hspec' p) ltac:(by left)) as [Hp Htrue].
      pose proof (xy_range_valid g' p Hp) as Hv'.
      assert (Hv : valid g p.1 p.2 = true) by (by rewrite <- (valid_islands g g')).
      assert (Hc' : cell g' p.1 p.2 = UNKNOWN).
      { unfold unreachable in Htrue.
        destruct (cell g' p.1 p.2 =? UNKNOWN) eqn:E; [by apply Z.eqb_eq|done]. }
      destruct (Hunk p Hc') as [Hc Hnot].
      destruct (Htotal g (same_islands_refl g) p (valid_xy_range g p Hv)) as [b0 Hb0].
      destruct b0.
      { apply Hnot, Hspec. split; [by apply valid_xy_range|done]. }
      destruct (unreachable_false_chain fuel g p.1 p.2 Hv Hc Hb0) as (n & e & Hchain & Hfound).
      apply (unreachable_true_chain fuel g' p.1 p.2 n e Hv' Htrue).
      - apply (chain_islands fuel g g' ms _ n n); [done| |done|done|done|lia].
        intros u Hu. apply Hspec in Hu as [Hu ?]. split; [by apply xy_range_valid|done].
      - by rewrite (examine_islands g g'). }
    split; [done|]. unfold analyze_unreachable_cells. rewrite Hnone. simpl.
    apply process_nothing. }
  destruct (CoordSet.is_empty ms) eqn:Eempty.
  { apply (Hgoal false g).
    - unfold analyze_unreachable_cells, process. rewrite Hms. simpl. by rewrite Eempty.
    - apply same_islands_refl.
    - done.
    - apply CoordSetFacts.is_empty_true in Eempty. subst ms.
      intros p Hp. split; [done|]. apply not_elem_of_nil. }
  destruct (mark_all_total g BLACK ms) as [g1 Hg1]; [by right| |].
  { intros q Hq. apply Hshape, xy_range_valid. by apply Hspec. }
  destruct (mark_all_black_islands g ms g1) as [Hsi _]; [|done|done|].
  { intros q Hq. apply xy_range_valid. by apply Hspec. }
  pose proof (fun x y => mark_all_cells g BLACK ms g1 x y Hg1) as Hcells.
  assert (Hrun : exists g3, analyze_unreachable_cells fuel g verbose = Ok (true, g3)
            /\ (forall x y, cell g3 x y = cell g1 x y) /\ same_islands g1 g3).
  { unfold analyze_unreachable_cells, process. rewrite Hms. simpl. rewrite Eempty. simpl.
    rewrite Hg1. simpl. eexists. split; [done|].
    destruct verbose; (split; [done|]); split; eauto. }
  destruct Hrun as (g3 & Hrun & Hcell3 & Hsi3).
  apply (Hgoal true g3); [done| | |].
  - by eapply same_islands_trans.
  - intros [x y] Hc Hp. simpl in *. rewrite Hcell3, Hcells.
    case_bool_decide as Hd; [by destruct Hd|done].
  - intros [x y]. simpl. rewrite Hcell3, Hcells. case_bool_decide as Hd; [done|].
    intros Hc. split; [done|]. intros Hin. by apply Hd.
Qed.

End UnreachableTwice.

(** C2, amended to what the code does.  The claim holds for the
    complete-island rule R1 and for the unreachable-cell rule R4.  On a grid
    as the solver keeps it (every liberty recorded for a complete island is
    an unknown cell, every cell of the W x H grid is in the array, an unknown
    cell designates no island, the cells of a black region designate black
    regions), each of the two rules returns, and applied again at once to
    the grid it leaves it proposes no mark: the second call answers no
    change.  The search of R4 is given fuel for every cell of the grid. *)
Theorem complete_islands_and_unreachable_cells_twice {PRNG} (fuel : nat) (g : Grid PRNG)
  (verbose : bool) :
  (forall i r q, m_regions g !! i = Some r -> complete_island r = true ->
                 q ∈ m_unknowns r ->
                 cell g q.1 q.2 = UNKNOWN /\ inside (m_cells g) q.1 q.2) ->
  (forall x y, valid g x y = true -> inside (m_cells g) x y) ->
  tidy g ->
  m_width g * m_height g + 1 < Z.of_nat fuel ->
  (exists b g', analyze_complete_islands g verbose = Ok (b, g')
     /\ complete_islands_marks g' = []
     /\ analyze_complete_islands g' verbose = Ok (false, g'))
  /\ (exists b g', analyze_unreachable_cells fuel g verbose = Ok (b, g')
        /\ unreachable_cells_marks fuel g' = Ok []
        /\ analyze_unreachable_cells fuel g' verbose = Ok (false, g')).
Proof.
  intros Hliberties Hshape Htidy Hfuel. split.
  - by apply complete_islands_twice.
  - by apply unreachable_cells_twice.
Qed.

(** ** Confinement analysis: the colour of the marks *)

Section Confinement.

Context {PRNG : Type}.
Implicit Types (g h : Grid PRNG) (r : Region).

(** With verboten cells, [confined] only reads the cache. *)
Lemma confined_loop_cache (fuel : nat) g (ri : rid) r (verboten : CoordSet.t)
  (flags : list Flag) (closed_size : Z) (cache cache' : cache_map_t) (b : bool) :
  verboten <> [] ->
  confined_loop fuel g ri r verboten flags closed_size cache = Ok (b, cache') ->
  cache' = cache.
Proof.
  intros Hv. revert flags closed_size.
  induction fuel as [|fuel IH]; intros flags closed_size; simpl; [discriminate|].
  destruct (negb (needs_more g r closed_size)); [by intros [= _ <-]|].
  destruct (find_open flags) as [index|]; [|by intros [= _ <-]].
  destruct (consider _ _ _ _ _); try (by intros [= _ <-]); try discriminate.
  - destruct (region_of _ _ _); [by apply IH|].
    destruct verboten; [done|]. by apply IH.
  - by apply IH.
Qed.

Lemma confined_cache (fuel : nat) g (ri : rid) r (cache cache' : cache_map_t)
  (verboten : CoordSet.t) (b : bool) :
  verboten <> [] ->
  confined fuel g ri r cache verboten = Ok (b, cache') -> cache' = cache.
Proof.
  intros Hv. unfold confined.
  destruct (if negb (CoordSet.is_empty verboten) then _ else _); [by intros [= _ <-]|].
  by apply confined_loop_cache.
Qed.

Lemma confinement_regions_spec (fuel : nat) g (u : coord) (l : list (rid * Region))
  (mb mw mb' mw' : CoordSet.t) (cache cache' : cache_map_t) :
  for_each l (mb, mw, cache) (confinement_region fuel g u) = Ok (mb', mw', cache') ->
  cache' = cache
  /\ (forall q, q ∈ mb -> q ∈ mb') /\ (forall q, q ∈ mw -> q ∈ mw')
  /\ (forall ir c, ir ∈ l -> confined fuel g ir.1 ir.2 cache [u] = Ok (true, c) ->
        if Reg.black ir.2 then u ∈ mb' else u ∈ mw').
Proof.
  revert mb mw. induction l as [|ir l IH]; intros mb mw; simpl.
  - intros [= <- <- <-]. split; [done|]. split; [done|]. split; [done|].
    by intros ir c ?%not_elem_of_nil.
  - change (CoordSet.insert u CoordSet.empty) with [u].
    destruct (confined fuel g ir.1 ir.2 cache [u]) as [[b c1]| |] eqn:Ec; simpl;
      try discriminate.
    assert (c1 = cache) as -> by (by eapply confined_cache, Ec).
    destruct b; [destruct (Reg.black ir.2) eqn:Eb|].
    + intros (-> & Hb & Hw & Hall)%IH. split; [done|]. split; [|split; [done|]].
      * intros q Hq. apply Hb, CoordSetFacts.elem_of_insert. by right.
      * intros ir' c [-> | Hin]%elem_of_cons Hc; [|by eapply Hall].
        rewrite Eb. apply Hb, CoordSetFacts.elem_of_insert. by left.
    + intros (-> & Hb & Hw & Hall)%IH. split; [done|]. split; [done|]. split.
      * intros q Hq. apply Hw, CoordSetFacts.elem_of_insert. by right.
      * intros ir' c [-> | Hin]%elem_of_cons Hc; [|by eapply Hall].
        rewrite Eb. apply Hw, CoordSetFacts.elem_of_insert. by left.
    + intros (-> & Hb & Hw & Hall)%IH. split; [done|]. split; [done|]. split; [done|].
      intros ir' c [-> | Hin]%elem_of_cons Hc; [congruence|by eapply Hall].
Qed.

Lemma confinement_pass1_spec (fuel : nat) g (l : list coord)
  (mb mw mb' mw' : CoordSet.t) (cache cache' : cache_map_t) :
  for_each l (mb, mw, cache) (confinement_unknown fuel g) = Ok (mb', mw', cache') ->
  cache' = cache
  /\ (forall q, q ∈ mb -> q ∈ mb') /\ (forall q, q ∈ mw -> q ∈ mw')
  /\ (forall u ir c, u ∈ l -> cell g u.1 u.2 = UNKNOWN -> ir ∈ regions g ->
        confined fuel g ir.1 ir.2 cache [u] = Ok (true, c) ->
        if Reg.black ir.2 then u ∈ mb' else u ∈ mw').
Proof.
  revert mb mw. induction l as [|p l IH]; intros mb mw; simpl.
  - intros [= <- <- <-]. split; [done|]. split; [done|]. split; [done|].
    by intros u ir c ?%not_elem_of_nil.
  - destruct (confinement_unknown fuel g (mb, mw, cache) p) as [[[mb1 mw1] c1]| |] eqn:Ep;
      simpl; try discriminate.
    assert (c1 = cache
            /\ (forall q, q ∈ mb -> q ∈ mb1) /\ (forall q, q ∈ mw -> q ∈ mw1)
            /\ (cell g p.1 p.2 = UNKNOWN -> forall ir c, ir ∈ regions g ->
                  confined fuel g ir.1 ir.2 cache [p] = Ok (true, c) ->
                  if Reg.black ir.2 then p ∈ mb1 else p ∈ mw1))
      as (-> & Hb1 & Hw1 & Hall1).
    { unfold confinement_unknown in Ep.
      destruct (cell g p.1 p.2 =? UNKNOWN) eqn:Ec.
      - apply confinement_regions_spec in Ep as (-> & ? & ? & ?). auto.
      - injection Ep as <- <- <-. apply Z.eqb_neq in Ec. done. }
    intros (-> & Hb & Hw & Hall)%IH. split; [done|]. split; [auto|]. split; [auto|].
    intros u ir c [-> | Hin]%elem_of_cons Hu Hir Hc; [|by eapply Hall].
    specialize (Hall1 Hu ir c Hir Hc). destruct (Reg.black ir.2); auto.
Qed.

(** A relation that every iteration respects holds across the loop. *)
Lemma for_each_rel {A B} (R : A -> A -> Prop) (body : A -> B -> result A)
  (l : list B) (a a' : A) :
  (forall a, R a a) -> (forall a b c, R a b -> R b c -> R a c) ->
  (forall a x a', x ∈ l -> body a x = Ok a' -> R a a') ->
  for_each l a body = Ok a' -> R a a'.
Proof.
  intros Hrefl Htrans. revert a. induction l as [|x l IH]; intros a Hbody; simpl.
  - intros [= <-]. apply Hrefl.
  - destruct (body a x) as [a1| |] eqn:E; simpl; try discriminate.
    intros H. apply (Htrans _ a1).
    + apply (Hbody _ x); [by left|done].
    + apply IH; [|done]. intros ? ? ? ?. apply Hbody. by right.
Qed.

(** The second pass only adds black marks. *)
Lemma confinement_pass2_le (fuel : nat) g (mb mb' : CoordSet.t) (cache cache' : cache_map_t)
  (q : coord) :
  confinement_pass2 fuel g (mb, cache) = Ok (mb', cache') -> q ∈ mb -> q ∈ mb'.
Proof.
  set (R := fun st st' : CoordSet.t * cache_map_t => q ∈ st.1 -> q ∈ st'.1).
  assert (Hrefl : forall a, R a a) by (intros a; unfold R; auto).
  assert (Htrans : forall a b c, R a b -> R b c -> R a c) by (unfold R; auto).
  unfold confinement_pass2.
  apply (for_each_rel R _ _ (mb, cache) (mb', cache') Hrefl Htrans).
  intros st ir st' _. destruct (Reg.numbered_and _ _); [|intros [= <-]; apply Hrefl].
  apply (for_each_rel R _ _ st st' Hrefl Htrans).
  intros st1 u st1' _. apply (for_each_rel R _ _ st1 st1' Hrefl Htrans).
  intros [mb2 c2] kr [mb2' c2'] _. unfold confinement_other.
  destruct (negb _ && _); [|intros [= <- <-]; apply Hrefl].
  destruct (confined _ _ _ _ _ _) as [[b c3]| |]; simpl; try discriminate.
  intros [= <- <-] Hq. simpl in *.
  destruct b; [|done]. apply CoordSetFacts.elem_of_insert. by right.
Qed.

End Confinement.

(** ** Hypothetical search *)

Section Hypotheticals.

Context {PRNG : Type}.
Variable random_shuffle : PRNG -> list (Z * Z * Z) -> list (Z * Z * Z) * PRNG.
Implicit Types (g h : Grid PRNG).

(** The guesses that end with [CANNOT_PROCEED] are passed over. *)
Lemma hypotheticals_loop_skip (fuel : nat) g (verbose : bool)
  (pre rest : list (coord * State)) (failed_guesses : Z) (failed_coords : CoordSet.t) :
  Forall (fun qc => hypothesize fuel g qc.2 qc.1.1 qc.1.2 = Ok CANNOT_PROCEED) pre ->
  hypotheticals_loop fuel g verbose (pre ++ rest) failed_guesses failed_coords
  = hypotheticals_loop fuel g verbose rest (failed_guesses + Z.of_nat (length pre))
      (CoordSet.insert_all (fst <$> pre) failed_coords).
Proof.
  revert failed_guesses failed_coords.
  induction pre as [|[q col] pre IH]; intros fg fc Hpre; simpl.
  - by rewrite Z.add_0_r.
  - apply Forall_cons in Hpre as [Hq Hpre]. simpl in Hq. rewrite Hq. simpl.
    rewrite IH by done. f_equal. lia.
Qed.

Lemma guesses_colour (v : list coord) (p : coord) (c : State) :
  (p, c) ∈ guesses v -> c = BLACK \/ c = WHITE.
Proof.
  unfold guesses. intros (u & Hpc & _)%list_elem_of_bind.
  apply elem_of_cons in Hpc as [[= _ ->]|Hpc]; [by left|].
  apply list_elem_of_singleton in Hpc as [= _ ->]. by right.
Qed.

(** Committing one mark through [process]. *)
Lemma process_single g (verbose : bool) (s : State) (p : coord) (msg : string)
  (failed_guesses : Z) (failed_coords : CoordSet.t) :
  s = WHITE \/ s = BLACK ->
  inside (m_cells g) p.1 p.2 ->
  exists g1 g', mark g s p.1 p.2 = Ok g1
    /\ process g verbose (singleton_if (s =? BLACK) p) (singleton_if (negb (s =? BLACK)) p)
               msg failed_guesses failed_coords = Ok (true, g')
    /\ m_cells g' = m_cells g1 /\ m_regions g' = m_regions g1 /\ m_sitrep g' = m_sitrep g1.
Proof.
  intros Hs Hin. destruct (mark_total g s p.1 p.2 Hs Hin) as [g1 Hg1].
  exists g1. unfold process.
  destruct Hs as [-> | ->]; unfold mark_all; simpl; rewrite Hg1; simpl;
    (eexists; split; [done|]; split; [done|]; by destruct verbose).
Qed.

(** C6.  Let the guess of colour [c] at the cell [p] be the first one, in the
    order of the search, whose solve loop on the copy ends otherwise than
    with [CANNOT_PROCEED].  If it ends with a contradiction the true grid
    marks [p] with the opposite colour, if it ends with a solution the true
    grid marks [p] with [c]; in both cases the search answers "changed", and
    [p] has the colour marked if it was unknown. *)
Theorem hypothetical_first_decisive (fuel : nat) g (verbose : bool) (v : list coord) g0
  (pre post : list (coord * State)) (p : coord) (c : State) (sr : SitRep) :
  guessing_order random_shuffle g = (v, g0) ->
  guesses v = pre ++ (p, c) :: post ->
  Forall (fun qc => hypothesize fuel g0 qc.2 qc.1.1 qc.1.2 = Ok CANNOT_PROCEED) pre ->
  inside (m_cells g) p.1 p.2 ->
  hypothesize fuel g0 c p.1 p.2 = Ok sr ->
  sr = CONTRADICTION_FOUND \/ sr = SOLUTION_FOUND ->
  let opposite := if c =? BLACK then WHITE else BLACK in
  let colour := if SitRep_eqb sr CONTRADICTION_FOUND then opposite else c in
  exists g1 g', mark g0 colour p.1 p.2 = Ok g1
    /\ analyze_hypotheticals random_shuffle fuel g verbose = Ok (true, g')
    /\ m_cells g' = m_cells g1 /\ m_regions g' = m_regions g1 /\ m_sitrep g' = m_sitrep g1
    /\ (cell g p.1 p.2 = UNKNOWN -> cell g' p.1 p.2 = colour).
Proof.
  intros Hgo Hv Hpre Hin Hsr Hdec opposite colour.
  assert (Hc : c = BLACK \/ c = WHITE).
  { apply (guesses_colour v p). rewrite Hv. apply elem_of_app. right. by left. }
  assert (Hcells : m_cells g0 = m_cells g).
  { unfold guessing_order in Hgo. destruct (random_shuffle _ _). by injection Hgo as _ <-. }
  assert (Hcol : colour = WHITE \/ colour = BLACK).
  { unfold colour, opposite. destruct Hdec as [-> | ->], Hc as [-> | ->]; simpl; auto. }
  unfold analyze_hypotheticals. rewrite Hgo, Hv, hypotheticals_loop_skip by done.
  simpl. rewrite Hsr.
  rewrite <- Hcells in Hin.
  destruct (process_single g0 verbose colour p
              (if SitRep_eqb sr CONTRADICTION_FOUND
               then "Hypothetical contradiction found." else "Hypothetical solution found.")
              (0 + Z.of_nat (length pre)) (CoordSet.insert_all (fst <$> pre) CoordSet.empty)
              Hcol Hin) as (g1 & g' & Hg1 & Hproc & Hg'c & Hg'r & Hg's).
  exists g1, g'. split; [done|]. split.
  - rewrite <- Hproc. unfold colour, opposite.
    destruct Hdec as [-> | ->], Hc as [-> | ->]; reflexivity.
  - split; [done|]. split; [done|]. split; [done|].
    intros Hu. unfold cell in *. rewrite Hg'c. rewrite <- Hcells in Hu.
    by apply (mark_unknown _ _ _ _ _ Hg1 Hu).
Qed.

End Hypotheticals.

(** ** Construction: parsing *)

Section Parsing.

Lemma token_values_cons (t : token) (ts : list token) :
  token_values (t :: ts)
  = match t with TNumber ds => [decimal ds] | TSpace => [0] | _ => [] end ++ token_values ts.
Proof. done. Qed.

Lemma parse_spec (ts : list token) (v : list Z) :
  if forallb token_ok ts
  then parse ts v = Ok (v ++ token_values ts)
  else exists e, parse ts v = Throw e.
Proof.
  revert v. induction ts as [|t ts IH]; intros v.
  - simpl. by rewrite app_nil_r.
  - rewrite token_values_cons. destruct t as [ds| | |c]; simpl.
    + unfold stoi. rewrite Z.leb_antisym.
      destruct (INT_MAX <? decimal ds); simpl; [eauto|].
      specialize (IH (v ++ [decimal ds])). destruct (forallb token_ok ts); [|done].
      rewrite IH. by rewrite <- app_assoc.
    + specialize (IH (v ++ [0])). destruct (forallb token_ok ts); [|done].
      rewrite IH. by rewrite <- app_assoc.
    + specialize (IH v). by destruct (forallb token_ok ts).
    + eauto.
Qed.

Lemma token_ok_all (ts : list token) :
  forallb token_ok ts = true
  <-> (forall c, TOther c ∉ ts) /\ (forall n, n ∈ token_values ts -> n <= INT_MAX).
Proof.
  induction ts as [|t ts IH].
  - simpl. split; [|done]. intros _. split; [intros c; apply not_elem_of_nil|].
    by intros n ?%not_elem_of_nil.
  - rewrite token_values_cons. simpl. rewrite andb_true_iff, IH. clear IH. split.
    + intros (Ht & Ho & Hn). split.
      * intros c [<- | Hc]%elem_of_cons; [done|by apply (Ho c)].
      * intros n [Hn1 | Hn2]%elem_of_app; [|by apply Hn].
        destruct t as [ds| | |c]; simpl in *.
        -- apply list_elem_of_singleton in Hn1 as ->. by apply Z.leb_le.
        -- apply list_elem_of_singleton in Hn1 as ->. done.
        -- by apply not_elem_of_nil in Hn1.
        -- done.
    + intros (Ho & Hn). split; [|split].
      * destruct t as [ds| | |c]; simpl; try done.
        -- apply Z.leb_le, Hn, elem_of_app. left. by apply list_elem_of_singleton.
        -- exfalso. apply (Ho c). by left.
      * intros c Hc. apply (Ho c). by right.
      * intros n Hn'. apply Hn, elem_of_app. by right.
Qed.

Lemma decimal_cons (c : ascii) (ds : list ascii) (n : Z) :
  foldl (fun n c => 10 * n + (Z.of_nat (nat_of_ascii c) - 48))
        (10 * n + (Z.of_nat (nat_of_ascii c) - 48)) ds
  = foldl (fun n c => 10 * n + (Z.of_nat (nat_of_ascii c) - 48)) n (c :: ds).
Proof. done. Qed.

(** The tokens of the regular expression carry the numbers and spaces of the
    grammar. *)
Lemma entries_tokenize (s : list ascii) (cur : option Z) :
  entries_from cur s
  = match cur with
    | None => token_values (tokenize s)
    | Some n =>
        match tokenize s with
        | TNumber ds :: ts =>
            foldl (fun n c => 10 * n + (Z.of_nat (nat_of_ascii c) - 48)) n ds
              :: token_values ts
        | ts => n :: token_values ts
        end
    end.
Proof.
  revert cur. induction s as [|c s IH]; intros cur; simpl.
  - by destruct cur.
  - destruct (is_digit c) eqn:Ed.
    + rewrite IH. destruct (tokenize s) as [|[ds| | |c'] ts]; destruct cur; done.
    + rewrite (IH None).
      destruct (is_space c); [|destruct (is_newline c)]; by destruct cur.
Qed.

Lemma entries_token_values (s : string) :
  entries s = token_values (tokenize (list_ascii_of_string s)).
Proof. apply (entries_tokenize _ None). Qed.

Lemma tokenize_other (s : list ascii) (c : ascii) :
  TOther c ∈ tokenize s
  <-> c ∈ s /\ is_digit c = false /\ is_space c = false /\ is_newline c = false.
Proof.
  induction s as [|a s IH]; simpl.
  - split; [by intros ?%not_elem_of_nil|by intros [?%not_elem_of_nil _]].
  - rewrite elem_of_cons.
    destruct (is_digit a) eqn:Ed.
    + assert (Hhead : TOther c ∈
                (match tokenize s with
                 | TNumber ds :: ts => TNumber (a :: ds) :: ts
                 | ts => TNumber [a] :: ts
                 end) <-> TOther c ∈ tokenize s).
      { destruct (tokenize s) as [|[ds| | |c'] ts]; rewrite !elem_of_cons;
          split; intros H; try (by right); try (by destruct H as [?|?]; [done|]);
          intuition congruence. }
      rewrite Hhead, IH. split; [tauto|].
      intros [[-> | ?] (? & ? & ?)]; [congruence|tauto].
    + destruct (is_space a) eqn:Es; [|destruct (is_newline a) eqn:En];
        rewrite elem_of_cons, IH.
      * split; [intros [?|?]; [done|tauto]|].
        intros [[-> | ?] (? & ? & ?)]; [congruence|tauto].
      * split; [intros [?|?]; [done|tauto]|].
        intros [[-> | ?] (? & ? & ?)]; [congruence|tauto].
      * split.
        -- intros [[= ->] | ?]; [|tauto]. auto.
        -- intros [[-> | ?] (? & ? & ?)]; [by left|tauto].
Qed.

(** The parsing loop of the constructor throws exactly on a bad character or
    on a number that is too big, and yields the numbers and spaces of the
    grammar otherwise. *)
Lemma parse_string (s : string) :
  ((bad_character s \/ number_too_big s)
   /\ exists e, parse (tokenize (list_ascii_of_string s)) [] = Throw e)
  \/ (~ bad_character s /\ ~ number_too_big s
      /\ parse (tokenize (list_ascii_of_string s)) [] = Ok (entries s)).
Proof.
  pose proof (parse_spec (tokenize (list_ascii_of_string s)) []) as Hp.
  pose proof (token_ok_all (tokenize (list_ascii_of_string s))) as Hok.
  rewrite <- entries_token_values in Hok.
  destruct (forallb token_ok _).
  - right. destruct Hok as [(Ho & Hn) _]; [done|].
    split; [|split].
    + intros (c & Hc). by apply tokenize_other, Ho in Hc.
    + intros (n & Hn1 & Hn2). apply Hn in Hn1. lia.
    + by rewrite Hp, entries_token_values.
  - left. split; [|done].
    destruct (existsb (fun t => match t with TOther _ => true | _ => false end)
                (tokenize (list_ascii_of_string s))) eqn:He.
    + left. apply existsb_exists in He as ([| | |c] & Ht & ?); try done.
      exists c. by apply tokenize_other, list_elem_of_In.
    + right. destruct (decide (Exists (fun n => INT_MAX < n) (entries s))) as [Hb|Hb].
      * apply Exists_exists in Hb as (n & ? & ?). by exists n.
      * exfalso. assert (false = true) as [=]. apply Hok. split.
        -- intros c Hc. apply not_true_iff_false in He. apply He.
           apply existsb_exists. exists (TOther c). by rewrite <- list_elem_of_In.
        -- intros n Hn. apply Z.nlt_ge. intros Hlt. apply Hb, Exists_exists. eauto.
Qed.

End Parsing.

(** ** Construction: placing the clues *)

Section Construction.

Context {PRNG : Type}.
Implicit Types (g h : Grid PRNG) (v : list Z).

(** What a clue shows in its cell: the number, or nothing for a space. *)
Lemma place_clue_spec v g (x y : Z) :
  inside (m_cells g) x y ->
  let n := entry v (x + y * m_width g) in
  if (0 <? n) && (valid g x (y - 1) && (0 <? cell g x (y - 1)))
  then exists e, place_clue v g (x, y) = Throw e
  else exists g', place_clue v g (x, y) = Ok g'
    /\ m_width g' = m_width g /\ m_height g' = m_height g
    /\ (forall x' y', inside (m_cells g') x' y' <-> inside (m_cells g) x' y')
    /\ (forall x' y', cell g' x' y'
                      = if bool_decide ((x', y') = (x, y) /\ 0 < n) then n else cell g x' y').
Proof.
  intros Hin n. unfold place_clue. simpl. fold n.
  destruct (0 <? n) eqn:Hn; simpl.
  - destruct (valid g x (y - 1) && (0 <? cell g x (y - 1))); [eauto|].
    apply Z.ltb_lt in Hn.
    assert (Hcell : cell (set_cell g x y n) x y = n).
    { unfold cell, set_cell. simpl. by rewrite cells_get_alter_eq. }
    unfold add_region, Reg.make. rewrite Hcell.
    replace (n =? UNKNOWN) with false by (symmetry; apply Z.eqb_neq; unfold UNKNOWN; lia).
    simpl. eexists. split; [done|]. split; [done|]. split; [done|]. split.
    + intros x' y'. simpl. by rewrite !inside_alter.
    + intros x' y'. unfold cell. simpl. rewrite cells_get_alter_fst by done.
      case_bool_decide as Hd.
      * destruct Hd as [[= -> ->] _]. by rewrite cells_get_alter_eq.
      * rewrite cells_get_alter_ne; [done|]. intros [= -> ->]. apply Hd. done.
  - exists g. split; [done|]. split; [done|]. split; [done|]. split; [done|].
    intros x' y'. apply Z.ltb_ge in Hn.
    rewrite bool_decide_eq_false_2; [done|]. intros [_ ?]. lia.
Qed.

(** The inner loop of the constructor on the column [x], from the row [y0]
    on: it throws exactly when two numbers of the column are adjacent. *)
Lemma fill_column v (x : Z) (k : nat) (y0 : Z) g :
  0 <= y0 -> 0 <= x < m_width g -> y0 + Z.of_nat k <= m_height g ->
  (forall y, y0 <= y < y0 + Z.of_nat k ->
             inside (m_cells g) x y /\ cell g x y = UNKNOWN) ->
  (1 <= y0 -> cell g x (y0 - 1)
              = if 0 <? entry v (x + (y0 - 1) * m_width g)
                then entry v (x + (y0 - 1) * m_width g) else UNKNOWN) ->
  let adjacent := exists y, y0 <= y < y0 + Z.of_nat k /\ 1 <= y
                    /\ 0 < entry v (x + y * m_width g)
                    /\ 0 < entry v (x + (y - 1) * m_width g) in
  (adjacent
   /\ exists e, for_each (seqZ y0 (Z.of_nat k)) g (fun h y => place_clue v h (x, y)) = Throw e)
  \/ (~ adjacent
      /\ exists g', for_each (seqZ y0 (Z.of_nat k)) g (fun h y => place_clue v h (x, y)) = Ok g'
         /\ m_width g' = m_width g /\ m_height g' = m_height g
         /\ (forall x' y', inside (m_cells g') x' y' <-> inside (m_cells g) x' y')
         /\ (forall x' y', x' <> x -> cell g' x' y' = cell g x' y')).
Proof.
  revert y0 g. induction k as [|k IH]; intros y0 g Hy0 Hx Hk Hcol Hprev adjacent.
  - right. split; [intros (y & ? & _); lia|]. exists g. by rewrite seqZ_nil.
  - rewrite seqZ_cons by lia. simpl.
    replace (Z.pred (Z.of_nat (S k))) with (Z.of_nat k) by lia.
    destruct (Hcol y0 ltac:(lia)) as [Hin Hun].
    pose proof (place_clue_spec v g x y0 Hin) as Hplace. simpl in Hplace.
    set (n := entry v (x + y0 * m_width g)) in *.
    assert (Hvalid : valid g x (y0 - 1) = bool_decide (1 <= y0)).
    { unfold valid. case_bool_decide.
      - repeat (apply andb_true_intro; split); lia.
      - apply andb_false_iff. left. apply andb_false_iff. right. lia. }
    destruct ((0 <? n) && (valid g x (y0 - 1) && (0 <? cell g x (y0 - 1)))) eqn:Ec.
    + left. apply andb_true_iff in Ec as [Hn [Hv Hc]%andb_true_iff].
      rewrite Hvalid in Hv. apply bool_decide_eq_true in Hv.
      apply Z.ltb_lt in Hn, Hc. rewrite (Hprev Hv) in Hc.
      destruct Hplace as [e ->]. split; [|by eauto].
      exists y0. repeat split; try lia.
      destruct (0 <? entry v (x + (y0 - 1) * m_width g)) eqn:E; [by apply Z.ltb_lt|].
      unfold UNKNOWN in Hc. lia.
    + destruct Hplace as (g1 & -> & Hw1 & Hh1 & Hin1 & Hcell1). simpl.
      destruct (IH (Z.succ y0) g1) as [[Hadj He] | [Hadj Hg']].
      * lia.
      * lia.
      * lia.
      * intros y Hy. rewrite Hin1, Hcell1.
        rewrite bool_decide_eq_false_2 by (intros [[= ?] _]; lia).
        apply Hcol. lia.
      * intros _. replace (Z.succ y0 - 1) with y0 by lia.
        rewrite Hw1, Hcell1. fold n. rewrite Hun.
        destruct (0 <? n) eqn:En.
        -- apply Z.ltb_lt in En. by rewrite bool_decide_eq_true_2.
        -- apply Z.ltb_ge in En. by rewrite bool_decide_eq_false_2 by (intros [_ ?]; lia).
      * left. split; [|done]. destruct Hadj as (y & ? & ? & Hy). rewrite Hw1 in Hy.
        exists y. split; [lia|]. done.
      * right. split.
        -- intros (y & Hy & Hy1 & Ha & Hb).
           destruct (decide (y = y0)) as [-> | Hne].
           ++ apply andb_false_iff in Ec as [Ec | Ec].
              ** apply Z.ltb_ge in Ec. unfold n in Ec. lia.
              ** rewrite Hvalid, (bool_decide_eq_true_2 _ Hy1) in Ec. simpl in Ec.
                 rewrite (Hprev Hy1) in Ec.
                 apply Z.ltb_lt in Hb. rewrite Hb in Ec. apply Z.ltb_ge in Ec. lia.
           ++ apply Hadj. exists y. rewrite Hw1. split; [lia|]. done.
        -- destruct Hg' as (g' & -> & Hw' & Hh' & Hin' & Hcell').
           exists g'. split; [done|]. split; [congruence|]. split; [congruence|]. split.
           ++ intros x' y'. by rewrite Hin', Hin1.
           ++ intros x' y' Hne. rewrite Hcell' by done. rewrite Hcell1.
              by rewrite bool_decide_eq_false_2 by (intros [[= ? ?] _]; done).
Qed.

(** The two loops of the constructor, from the column [x0] on. *)
Lemma fill_columns v (k : nat) (x0 : Z) g :
  0 <= x0 -> x0 + Z.of_nat k <= m_width g -> 0 <= m_height g ->
  (forall x y, x0 <= x < x0 + Z.of_nat k -> 0 <= y < m_height g ->
               inside (m_cells g) x y /\ cell g x y = UNKNOWN) ->
  let adjacent := exists x y, x0 <= x < x0 + Z.of_nat k /\ 1 <= y < m_height g
                    /\ 0 < entry v (x + y * m_width g)
                    /\ 0 < entry v (x + (y - 1) * m_width g) in
  let loops h := for_each (seqZ x0 (Z.of_nat k)) h
                   (fun h x => for_each (seqZ 0 (m_height g)) h
                                 (fun h' y => place_clue v h' (x, y))) in
  (adjacent /\ exists e, loops g = Throw e)
  \/ (~ adjacent /\ exists g', loops g = Ok g').
Proof.
  revert x0 g. induction k as [|k IH]; intros x0 g Hx0 Hk Hh Hall adjacent loops.
  - right. split; [intros (x & y & ? & _); lia|]. exists g. unfold loops. by rewrite seqZ_nil.
  - unfold loops. rewrite seqZ_cons by lia. simpl.
    replace (Z.pred (Z.of_nat (S k))) with (Z.of_nat k) by lia.
    assert (Hcolumn := fill_column v x0 (Z.to_nat (m_height g)) 0 g).
    rewrite Z2Nat.id in Hcolumn by done.
    destruct Hcolumn as [[Hadj [e ->]] | [Hadj Hg1]].
    + done.
    + lia.
    + lia.
    + intros y Hy. apply Hall; lia.
    + lia.
    + left. split; [|by eauto]. destruct Hadj as (y & ? & ? & ?).
      exists x0, y. split; [lia|]. split; [lia|]. done.
    + destruct Hg1 as (g1 & -> & Hw1 & Hh1 & Hin1 & Hcell1). simpl.
      destruct (IH (Z.succ x0) g1) as [[Hadj' He] | [Hadj' Hg']].
      * lia.
      * lia.
      * lia.
      * intros x y Hx Hy. rewrite Hin1, Hcell1 by lia. apply Hall; lia.
      * left. rewrite Hh1, Hw1 in *. split; [|done].
        destruct Hadj' as (x & y & ? & ?). exists x, y. split; [lia|]. done.
      * right. rewrite Hh1, Hw1 in *. split; [|done].
        intros (x & y & Hx & Hy & Ha).
        destruct (decide (x = x0)) as [-> | Hne].
        -- apply Hadj. exists y. split; [lia|]. split; [lia|]. done.
        -- apply Hadj'. exists x, y. split; [lia|]. done.
Qed.

(** The answer of the constructor on every input: it throws on the five
    input errors of the specification and on a number that is too big, and
    constructs a grid otherwise. *)
Lemma Grid_new_cases (mt19937 : Z -> PRNG) (width height : Z) (s : string) :
  ((input_error width height s \/ number_too_big s)
   /\ exists e, Grid_new mt19937 width height s = Throw e)
  \/ (~ (input_error width height s \/ number_too_big s)
      /\ exists g, Grid_new mt19937 width height s = Ok g).
Proof.
  unfold Grid_new, input_error.
  destruct (width <? 1) eqn:Ew; [left; apply Z.ltb_lt in Ew; by eauto|].
  destruct (height <? 1) eqn:Eh; [left; apply Z.ltb_lt in Eh; by eauto 6|].
  apply Z.ltb_ge in Ew, Eh.
  destruct (parse_string s) as [[Hbad [e ->]] | (Hnb & Hnt & ->)]; simpl.
  { left. split; [|by eauto]. tauto. }
  destruct (Z.of_nat (length (entries s)) =? width * height) eqn:Ec; simpl.
  2:{ left. apply Z.eqb_neq in Ec. split; [|by eauto]. unfold wrong_count. tauto. }
  apply Z.eqb_eq in Ec.
  set (g0 := mkGrid width height (wrap_int (width * height)) _ ∅ KEEP_GOING [] (mt19937 1729)).
  assert (Hloops := fill_columns (entries s) (Z.to_nat width) 0 g0).
  rewrite Z2Nat.id in Hloops by lia.
  destruct Hloops as [[Hadj [e He]] | [Hadj [g He]]].
  - done.
  - simpl. lia.
  - simpl. lia.
  - intros x y Hx Hy. simpl in *. split.
    + split; [lia|]. split; [lia|]. exists (replicate (Z.to_nat height) (UNKNOWN, None)).
      split; [apply lookup_replicate_2; lia|].
      apply lookup_lt_is_Some. rewrite length_replicate. lia.
    + unfold cell, cells_get. simpl.
      replace ((0 <=? x) && (0 <=? y)) with true
        by (symmetry; apply andb_true_intro; split; apply Z.leb_le; lia).
      rewrite lookup_replicate_2 by lia. by rewrite lookup_replicate_2 by lia.
  - left. simpl in He. rewrite He. simpl. split; [|by eauto].
    left. do 4 right. destruct Hadj as (x & y & Hx & Hy & Ha). simpl in *.
    exists x, y. split; [lia|]. done.
  - right. simpl in He. rewrite He. simpl. split; [|by eauto].
    intros [[? | [? | [? | [? | (x & y & Hx & Hy & Ha)]]]] | ?]; try done; try lia.
    apply Hadj. exists x, y. simpl. split; [lia|]. done.
Qed.

(** C9, amended to what the code does.  The constructor throws, and no grid
    is constructed, exactly when the width or the height is less than 1, the
    string holds a character other than a digit, a space or a newline, the
    count of numbers and spaces differs from W * H, two non-zero numbers are
    vertically adjacent, or a number does not fit in an [int]; otherwise it
    returns a grid. *)
Theorem Grid_new_throws (mt19937 : Z -> PRNG) (width height : Z) (s : string) :
  ((exists e, Grid_new mt19937 width height s = Throw e)
   <-> input_error width height s \/ number_too_big s)
  /\ ((exists g, Grid_new mt19937 width height s = Ok g)
      <-> ~ (input_error width height s \/ number_too_big s)).
Proof.
  destruct (Grid_new_cases mt19937 width height s) as [[Herr [e He]] | [Hok [g Hg]]].
  - split; split; try done.
    + by eauto.
    + intros [g Hg]. congruence.
  - split; split; try done.
    + intros [e He]. congruence.
    + by eauto.
Qed.

End Construction.

(** C9 as stated fails: the single number 99999999999 on a grid of one cell
    is none of the five input errors, and the constructor throws on it, from
    [std::stoi]. *)
Lemma Grid_new_number_too_big :
  ~ input_error 1 1 "99999999999"
  /\ Grid_new no_prng 1 1 "99999999999" = Throw (out_of_range "stoi argument out of range").
Proof.
  split; [|by vm_compute].
  intros [? | [? | [(c & Hc & Hbad) | [Hcount | (x & y & ? & ? & _)]]]]; try lia.
  - vm_compute in Hc. repeat (apply elem_of_cons in Hc as [-> | Hc]; [by destruct Hbad|]).
    by apply not_elem_of_nil in Hc.
  - by apply Hcount.
Qed.

(** ** The theorems on the sample grids *)

Lemma mark_known_cell_witness :
  exists g', mark corridor BLACK 0 0 = Ok g'
    /\ m_sitrep g' = CONTRADICTION_FOUND
    /\ m_cells g' = m_cells corridor
    /\ m_regions g' = m_regions corridor.
Proof.
  apply (mark_known_cell corridor BLACK 0 0); [by right | by vm_compute].
Defined.

Lemma unreachable_known_root_witness :
  unreachable 0 corridor 0 0 [(1, 0)] = Ok false.
Proof.
  apply (unreachable_known_root 0 corridor 0 0 [(1, 0)]). by vm_compute.
Defined.

Lemma confined_uncached_witness :
  confined 0 corridor 0%nat corridor_island ∅ [(1, 0)] = Ok (false, ∅).
Proof.
  apply (confined_uncached 0 corridor 0%nat corridor_island ∅ [(1, 0)]);
    [done | by vm_compute].
Defined.

Lemma solve_solved_grid_witness :
  exists g', solve keep_order 10 solved_cell true true = Ok (SOLUTION_FOUND, g')
    /\ m_cells g' = m_cells solved_cell
    /\ m_regions g' = m_regions solved_cell
    /\ m_sitrep g' = m_sitrep solved_cell.
Proof.
  apply (solve_solved_grid keep_order 10 solved_cell true true solved_cell ∅).
  - by vm_compute.
  - by vm_compute.
  - intros x y Hv. unfold valid in Hv.
    assert (x = 0 /\ y = 0) as [-> ->].
    { change (m_width solved_cell) with 1 in Hv. change (m_height solved_cell) with 1 in Hv.
      repeat (apply andb_true_iff in Hv as [Hv ?]). lia. }
    by vm_compute.
  - by vm_compute.
Defined.

Lemma no_contradiction_black_bound_witness :
  black_cells corridor <= m_total_black corridor
  /\ white_cells corridor <= m_width corridor * m_height corridor - m_total_black corridor.
Proof.
  apply (no_contradiction_black_bound 10 corridor false ∅ corridor_cache corridor).
  by vm_compute.
Defined.

Lemma inside_corridor (x : Z) : 0 <= x < 5 -> inside (m_cells corridor) x 0.
Proof.
  intros Hx. split; [lia|]. split; [lia|].
  assert (x = 0 \/ x = 1 \/ x = 2 \/ x = 3 \/ x = 4) as [-> | [-> | [-> | [-> | ->]]]] by lia;
    vm_compute; eauto.
Qed.

Lemma valid_lone_clue (x y : Z) : valid lone_clue x y = true -> 0 <= x < 5 /\ y = 0.
Proof.
  unfold valid. change (m_width lone_clue) with 5. change (m_height lone_clue) with 1.
  intros Hv. repeat (apply andb_true_iff in Hv as [Hv ?]). lia.
Qed.

Lemma inside_lone_clue (x y : Z) :
  valid lone_clue x y = true -> inside (m_cells lone_clue) x y.
Proof.
  intros [Hx ->]%valid_lone_clue. split; [lia|]. split; [lia|].
  assert (x = 0 \/ x = 1 \/ x = 2 \/ x = 3 \/ x = 4) as [-> | [-> | [-> | [-> | ->]]]] by lia;
    vm_compute; eauto.
Qed.

Lemma regions_lone_clue (i : rid) (r : Region) :
  m_regions lone_clue !! i = Some r -> i = 0%nat /\ r = mkRegion 1 [(0, 0)] [(1, 0)].
Proof.
  intros Hr%elem_of_map_to_list.
  remember (map_to_list (m_regions lone_clue)) as l eqn:Hl. vm_compute in Hl. subst l.
  by apply list_elem_of_singleton in Hr as [= -> ->].
Qed.

Lemma tidy_lone_clue : tidy lone_clue.
Proof.
  split.
  - intros x y [Hx ->]%valid_lone_clue Hc.
    assert (x = 0 \/ x = 1 \/ x = 2 \/ x = 3 \/ x = 4) as [-> | [-> | [-> | [-> | ->]]]] by lia;
      [by vm_compute in Hc|by intros i a|by intros i a|by intros i a|by intros i a].
  - intros i b q [_ ->]%regions_lone_clue Hb. by vm_compute in Hb.
Qed.

Lemma complete_islands_and_unreachable_cells_twice_witness :
  (exists b g', analyze_complete_islands lone_clue true = Ok (b, g')
     /\ complete_islands_marks g' = []
     /\ analyze_complete_islands g' true = Ok (false, g'))
  /\ (exists b g', analyze_unreachable_cells 10 lone_clue true = Ok (b, g')
        /\ unreachable_cells_marks 10 g' = Ok []
        /\ analyze_unreachable_cells 10 g' true = Ok (false, g')).
Proof.
  apply (complete_islands_and_unreachable_cells_twice 10 lone_clue true).
  - intros i r q [_ ->]%regions_lone_clue _ ->%list_elem_of_singleton.
    split; [by vm_compute|]. by apply inside_lone_clue.
  - apply inside_lone_clue.
  - apply tidy_lone_clue.
  - by vm_compute.
Defined.

(** Both rules have marks to commit on this grid. *)
Example lone_clue_marks :
  complete_islands_marks lone_clue = [(1, 0)]
  /\ unreachable_cells_marks 10 lone_clue = Ok [(1, 0); (2, 0); (3, 0); (4, 0)].
Proof. by vm_compute. Qed.

Lemma dual_liberties_far_corner_witness :
  ((1, 1) ∈ dual_liberties_marks two_islands <-> cell two_islands 1 1 = UNKNOWN)
  /\ (forall b g', analyze_dual_liberties two_islands false = Ok (b, g') ->
        (cell two_islands 1 1 = UNKNOWN -> cell g' 1 1 = BLACK)
        /\ (cell two_islands 1 1 <> UNKNOWN -> cell g' 1 1 = cell two_islands 1 1))
  /\ ((forall q, q ∈ dual_liberties_marks two_islands ->
                 inside (m_cells two_islands) q.1 q.2) ->
      exists b g', analyze_dual_liberties two_islands false = Ok (b, g')).
Proof.
  apply (dual_liberties_far_corner two_islands false 0%nat
           (mkRegion 2 [(0, 0)] [(0, 1); (1, 0)]) (0, 1) (1, 0)); by vm_compute.
Defined.

Lemma hypothetical_first_decisive_witness :
  exists g1 g', mark corridor WHITE 1 0 = Ok g1
    /\ analyze_hypotheticals keep_order 10 corridor false = Ok (true, g')
    /\ m_cells g' = m_cells g1 /\ m_regions g' = m_regions g1 /\ m_sitrep g' = m_sitrep g1
    /\ (cell corridor 1 0 = UNKNOWN -> cell g' 1 0 = WHITE).
Proof.
  apply (hypothetical_first_decisive keep_order 10 corridor false
           [(1, 0); (2, 0); (3, 0); (4, 0)] corridor []
           [((1, 0), WHITE); ((2, 0), BLACK); ((2, 0), WHITE); ((3, 0), BLACK);
            ((3, 0), WHITE); ((4, 0), BLACK); ((4, 0), WHITE)]
           (1, 0) BLACK CONTRADICTION_FOUND).
  - by vm_compute.
  - by vm_compute.
  - by apply Forall_nil.
  - apply inside_corridor. simpl. lia.
  - by vm_compute.
  - by left.
Defined.

(** * Further properties of the code *)

(** ** The neighbours of a cell *)

Section Neighbours.

Context {PRNG : Type}.
Implicit Types (g h : Grid PRNG) (r a b : Region) (p q : coord).

Lemma elem_of_valid_neighbors g (x y : Z) p :
  p ∈ valid_neighbors g x y
  <-> (p = (x - 1, y) /\ 0 < x) \/ (p = (x + 1, y) /\ x + 1 < m_width g)
      \/ (p = (x, y - 1) /\ 0 < y) \/ (p = (x, y + 1) /\ y + 1 < m_height g).
Proof.
  unfold valid_neighbors. rewrite !elem_of_app.
  destruct (0 <? x) eqn:E1, (x + 1 <? m_width g) eqn:E2, (0 <? y) eqn:E3,
    (y + 1 <? m_height g) eqn:E4;
    rewrite ?list_elem_of_singleton, ?elem_of_nil;
    rewrite ?Z.ltb_lt, ?Z.ltb_ge in *; intuition lia.
Qed.

(** X1.  From a cell of the grid, [for_valid_neighbors] calls its function
    on exactly the cells of the grid at distance 1, each of them once. *)
Theorem valid_neighbors_exact g (x y : Z) :
  valid g x y = true ->
  NoDup (valid_neighbors g x y)
  /\ forall p, p ∈ valid_neighbors g x y
               <-> valid g p.1 p.2 = true /\ Z.abs (p.1 - x) + Z.abs (p.2 - y) = 1.
Proof.
  intros Hv. unfold valid in Hv. repeat (apply andb_true_iff in Hv as [Hv ?]).
  split.
  - unfold valid_neighbors.
    destruct (0 <? x), (x + 1 <? m_width g), (0 <? y), (y + 1 <? m_height g); simpl;
      repeat (apply NoDup_cons; split;
              [rewrite ?elem_of_cons, ?elem_of_nil; intros H'; intuition (simplify_eq; lia)|]);
      apply NoDup_nil_2.
  - intros [px py]. rewrite elem_of_valid_neighbors. unfold valid. simpl.
    rewrite !andb_true_iff, !Z.leb_le, !Z.ltb_lt. split.
    + intros [[[= -> ->] ?]|[[[= -> ->] ?]|[[[= -> ->] ?]|[[= -> ->] ?]]]]; lia.
    + intros [? Hd].
      assert ((px = x - 1 /\ py = y) \/ (px = x + 1 /\ py = y)
              \/ (px = x /\ py = y - 1) \/ (px = x /\ py = y + 1)) as Hc by lia.
      destruct Hc as [[-> ->]|[[-> ->]|[[-> ->]|[-> ->]]]]; [left|right; left|do 2 right; left|do 3 right];
        (split; [done|lia]).
Qed.

End Neighbours.

(** ** What [mark] and [add_region] change *)

Section MarkMore.

Context {PRNG : Type}.
Implicit Types (g h : Grid PRNG) (r a b : Region) (p q : coord).

Lemma elem_of_insert_valid_unknown_neighbors g (s : CoordSet.t) (x y : Z) q :
  q ∈ insert_valid_unknown_neighbors g s x y
  <-> q ∈ s \/ (q ∈ valid_neighbors g x y /\ cell g q.1 q.2 = UNKNOWN).
Proof.
  unfold insert_valid_unknown_neighbors. generalize (valid_neighbors g x y). intros l.
  revert s. induction l as [|u l IH]; intros s; simpl.
  - split; [by left|]. by intros [? | [?%not_elem_of_nil _]].
  - rewrite IH, elem_of_cons. destruct (cell g u.1 u.2 =? UNKNOWN) eqn:E.
    + apply Z.eqb_eq in E. rewrite CoordSetFacts.elem_of_insert. split.
      * intros [[-> | ?] | [? ?]]; eauto.
      * intros [? | [[-> | ?] ?]]; eauto.
    + apply Z.eqb_neq in E. split.
      * intros [? | [? ?]]; eauto.
      * intros [? | [[-> | ?] ?]]; eauto. done.
Qed.

(** X2.  [add_region] on a cell of the array: on an unknown cell the
    constructor of [Region] throws; on a known cell the grid gains one
    region, under a handle that no region had, made of that cell alone, in
    the state of the cell, whose liberties are exactly the unknown cells
    among the neighbours; the cell designates the new region, and no other
    cell and no other region changes. *)
Theorem add_region_result g (x y : Z) :
  inside (m_cells g) x y ->
  if cell g x y =? UNKNOWN
  then add_region g x y
       = Throw (logic_error "LOGIC ERROR: Grid::Region::Region() - state must be known!")
  else exists g' r, add_region g x y = Ok g'
    /\ m_regions g !! fresh_rid g = None
    /\ m_regions g' = <[fresh_rid g := r]> (m_regions g)
    /\ m_state r = cell g x y /\ m_coords r = [(x, y)]
    /\ (forall q, q ∈ m_unknowns r
                  <-> q ∈ valid_neighbors g x y /\ cell g q.1 q.2 = UNKNOWN)
    /\ region g' x y = Some (fresh_rid g)
    /\ (forall x' y', (x', y') <> (x, y) -> region g' x' y' = region g x' y')
    /\ (forall x' y', cell g' x' y' = cell g x' y').
Proof.
  intros Hin. unfold add_region, Reg.make.
  destruct (cell g x y =? UNKNOWN) eqn:E; [done|].
  eexists _, _. split; [reflexivity|]. cbn [m_state m_coords m_unknowns m_regions with_regions].
  split; [|split; [done|split; [done|split; [done|split; [|split; [|split]]]]]].
  - apply not_elem_of_dom. unfold fresh_rid. apply is_fresh.
  - intros q. cbn [m_unknowns].
    rewrite elem_of_insert_valid_unknown_neighbors. split; [|by right].
    by intros [?%not_elem_of_nil | ?].
  - change (region (with_regions ?g0 _) x y) with (region g0 x y).
    unfold region, set_region. simpl. by rewrite cells_get_alter_eq.
  - intros x' y' Hne.
    change (region (with_regions ?g0 _) x' y') with (region g0 x' y').
    apply region_set_region_ne. congruence.
  - intros x' y'. apply (cell_set_region g x y).
Qed.

(** X3.  On a cell of the array, [mark] throws exactly when the colour is
    neither white nor black; with a colour it returns. *)
Theorem mark_throws_on_colour_only g (s : State) (x y : Z) :
  inside (m_cells g) x y ->
  if negb (s =? WHITE) && negb (s =? BLACK)
  then mark g s x y
       = Throw (logic_error "LOGIC ERROR: Grid::mark() - s must be either WHITE or BLACK.")
  else exists g', mark g s x y = Ok g'.
Proof.
  intros Hin. destruct (negb (s =? WHITE) && negb (s =? BLACK)) eqn:E.
  - unfold mark. by rewrite E.
  - apply mark_total; [|done].
    apply andb_false_iff in E as [E|E]; apply negb_false_iff, Z.eqb_eq in E; auto.
Qed.

Lemma same_frame_refl g : same_frame g g.
Proof. by repeat split. Qed.

Lemma same_frame_trans g h k : same_frame g h -> same_frame h k -> same_frame g k.
Proof. unfold same_frame. intros (? & ? & ? & ? & ?) (? & ? & ? & ? & ?). repeat split; congruence. Qed.

Lemma same_frame_set_regions g (i : rid) (ps : list coord) :
  same_frame g (foldl (fun h q => set_region h q.1 q.2 (Some i)) g ps).
Proof.
  revert g. induction ps as [|u ps IH]; intros g; simpl; [apply same_frame_refl|].
  eapply same_frame_trans; [|apply IH]. by repeat split.
Qed.

Lemma same_frame_absorb g (i1 i2 : rid) a b : same_frame g (absorb g i1 a i2 b).
Proof.
  unfold absorb.
  pose proof (same_frame_set_regions
                (with_regions g (<[i1 := Reg.unk_insert (m_unknowns b)
                                            (Reg.insert (m_coords b) a)]> (m_regions g)))
                i1 (m_coords b)) as H.
  destruct H as (? & ? & ? & ? & ?). by repeat split.
Qed.

Lemma same_frame_fuse_regions g (p1 p2 : option rid) : same_frame g (fuse_regions g p1 p2).
Proof.
  unfold fuse_regions.
  repeat (case_match; try apply same_frame_refl; try apply same_frame_absorb).
  by repeat split.
Qed.

Lemma same_frame_fuse_neighbors g (x y : Z) (l : list coord) :
  same_frame g (foldl (fun h q => fuse_regions h (region h x y) (region h q.1 q.2)) g l).
Proof.
  revert g. induction l as [|q l IH]; intros g; simpl; [apply same_frame_refl|].
  eapply same_frame_trans; [apply same_frame_fuse_regions|apply IH].
Qed.

Lemma same_frame_mark g (s : State) (x y : Z) g' : mark g s x y = Ok g' -> same_frame g g'.
Proof.
  unfold mark. destruct (negb (s =? WHITE) && negb (s =? BLACK)); [done|].
  destruct (negb (cell g x y =? UNKNOWN)); [intros [= <-]; by repeat split|].
  unfold add_region. destruct (Reg.make _ _ _ _) as [rn| |]; simpl; try done.
  intros [= <-]. eapply same_frame_trans; [|apply same_frame_fuse_neighbors].
  by repeat split.
Qed.

(** X4.  A call of [mark] that returns changes the state of no cell but
    its own, which it sets when it was unknown and leaves when it was
    known; the size of the grid, the number of black cells of the solution,
    the output and the generator are those of before. *)
Theorem mark_frame g (s : State) (x y : Z) g' :
  mark g s x y = Ok g' ->
  (forall x' y', (x', y') <> (x, y) -> cell g' x' y' = cell g x' y')
  /\ cell g' x y = (if cell g x y =? UNKNOWN then s else cell g x y)
  /\ m_width g' = m_width g /\ m_height g' = m_height g
  /\ m_total_black g' = m_total_black g
  /\ m_output g' = m_output g /\ m_prng g' = m_prng g.
Proof.
  intros Hm. pose proof (fun x' y' => mark_cells g s x y g' x' y' Hm) as Hc.
  split; [|split].
  - intros x' y' Hne. rewrite Hc. case_bool_decide as Hd; [by destruct Hd|done].
  - rewrite Hc. destruct (cell g x y =? UNKNOWN) eqn:E.
    + apply Z.eqb_eq in E. by rewrite bool_decide_eq_true_2.
    + apply Z.eqb_neq in E. rewrite bool_decide_eq_false_2; [done|]. by intros [_ ?].
  - apply same_frame_mark in Hm. apply Hm.
Qed.

(** The regions after [fuse_regions]: a region of before, or the fusion of
    two of them, of which the second has left the set. *)
Lemma fuse_regions_lookup g (p1 p2 : option rid) (i : rid) r :
  m_regions (fuse_regions g p1 p2) !! i = Some r ->
  m_regions g !! i = Some r
  \/ exists j a b, m_regions g !! i = Some a /\ m_regions g !! j = Some b /\ j <> i
       /\ r = Reg.unk_insert (m_unknowns b) (Reg.insert (m_coords b) a).
Proof.
  assert (Habs : forall i1 i2 a b, i1 <> i2 ->
            m_regions g !! i1 = Some a -> m_regions g !! i2 = Some b ->
            m_regions (absorb g i1 a i2 b) !! i = Some r ->
            m_regions g !! i = Some r
            \/ exists j a b, m_regions g !! i = Some a /\ m_regions g !! j = Some b /\ j <> i
                 /\ r = Reg.unk_insert (m_unknowns b) (Reg.insert (m_coords b) a)).
  { intros i1 i2 a b Hne Ea Eb. rewrite m_regions_absorb, lookup_delete_Some.
    intros [_ [[<- <-]|[_ Hi]]%lookup_insert_Some]; [right|by left].
    exists i2, a, b. done. }
  unfold fuse_regions.
  destruct p1 as [i1|]; [|by left]. destruct p2 as [i2|]; [|by left].
  case_bool_decide as Hne; [by left|].
  destruct (m_regions g !! i1) as [a|] eqn:Ea; [|by left].
  destruct (m_regions g !! i2) as [b|] eqn:Eb; [|by left].
  destruct (Reg.numbered a && Reg.numbered b); [by left|].
  destruct (negb _); [by left|].
  destruct (Reg.size a <? Reg.size b); [destruct (Reg.numbered a)|destruct (Reg.numbered b)];
    by (apply Habs; [done| |]).
Qed.

Lemma liberties_unknown_fuse_regions g (p1 p2 : option rid) :
  liberties_unknown g -> liberties_unknown (fuse_regions g p1 p2).
Proof.
  intros Hl i r q Hi Hq. rewrite cell_fuse_regions.
  apply fuse_regions_lookup in Hi as [Hi | (j & a & b & Ha & Hb & _ & ->)].
  - by apply (Hl i r).
  - simpl in Hq. apply CoordSetFacts.elem_of_insert_all in Hq as [Hq|Hq].
    + by apply (Hl j b).
    + by apply (Hl i a).
Qed.

Lemma liberties_unknown_fuse_neighbors g (x y : Z) (l : list coord) :
  liberties_unknown g ->
  liberties_unknown (foldl (fun h q => fuse_regions h (region h x y) (region h q.1 q.2)) g l).
Proof.
  revert g. induction l as [|q l IH]; intros g Hl; simpl; [done|].
  by apply IH, liberties_unknown_fuse_regions.
Qed.

(** X5.  [mark] keeps the liberties of the regions up to date: when every
    recorded liberty is an unknown cell before the call, so it is after it;
    in particular no region records the marked cell as a liberty any more. *)
Theorem mark_keeps_liberties g (s : State) (x y : Z) g' :
  liberties_unknown g ->
  mark g s x y = Ok g' ->
  liberties_unknown g'
  /\ (forall i r, m_regions g' !! i = Some r -> (x, y) ∉ m_unknowns r).
Proof.
  intros Hl Hm.
  assert (Hs : s <> UNKNOWN).
  { unfold mark in Hm. destruct (negb (s =? WHITE) && negb (s =? BLACK)) eqn:E; [done|].
    apply andb_false_iff in E as [E|E]; apply negb_false_iff, Z.eqb_eq in E; by subst. }
  assert (Hl' : liberties_unknown g').
  { destruct (decide (cell g x y = UNKNOWN)) as [Hc|Hc].
    2: { apply mark_known in Hm as ->; done. }
    unfold mark in Hm. destruct (negb (s =? WHITE) && negb (s =? BLACK)); [done|].
    rewrite Hc in Hm. simpl in Hm. unfold add_region in Hm.
    destruct (Reg.make _ _ _ _) as [rn| |] eqn:Ern; simpl in Hm; try done.
    injection Hm as <-. apply liberties_unknown_fuse_neighbors.
    unfold Reg.make in Ern. destruct (_ =? UNKNOWN) eqn:Ecell; [done|]. injection Ern as <-.
    intros i r q Hi Hq.
    change (cell (with_regions ?g0 _) q.1 q.2) with (cell g0 q.1 q.2).
    rewrite cell_set_region.
    change (cell (with_regions ?g0 _) q.1 q.2) with (cell g0 q.1 q.2).
    simpl in Hi. apply lookup_insert_Some in Hi as [[_ <-]|[_ Hi]].
    - simpl in Hq. apply elem_of_insert_valid_unknown_neighbors in Hq
        as [[]%not_elem_of_nil | [_ Hq]]. done.
    - rewrite lookup_fmap in Hi.
      destruct (m_regions g !! i) as [r0|] eqn:Er0; [|done]. injection Hi as <-.
      simpl in Hq. apply CoordSetFacts.elem_of_erase in Hq as [Hne Hq].
      rewrite cell_set_cell_ne; [by apply (Hl i r0)|]. destruct q. simpl. congruence. }
  split; [done|]. intros i r Hi Hq. specialize (Hl' i r (x, y) Hi Hq). simpl in Hl'.
  rewrite (mark_cells g s x y g' x y Hm) in Hl'.
  case_bool_decide as Hd; [done|]. apply Hd. split; [done|].
  destruct (decide (cell g x y = UNKNOWN)); done.
Qed.

End MarkMore.

(** ** The situation and the count of known cells *)

Section SitRepKnown.

Context {PRNG : Type}.
Implicit Types (g h : Grid PRNG) (r a b : Region) (p q : coord).

Lemma m_sitrep_set_regions g (i : rid) (ps : list coord) :
  m_sitrep (foldl (fun h q => set_region h q.1 q.2 (Some i)) g ps) = m_sitrep g.
Proof. revert g. induction ps as [|u ps IH]; intros g; simpl; [done|]. by rewrite IH. Qed.

Lemma m_sitrep_absorb g (i1 i2 : rid) a b : m_sitrep (absorb g i1 a i2 b) = m_sitrep g.
Proof. unfold absorb. simpl. by rewrite (m_sitrep_set_regions (with_regions g _)). Qed.

Lemma fuse_regions_sitrep g (p1 p2 : option rid) :
  m_sitrep (fuse_regions g p1 p2) = m_sitrep g
  \/ m_sitrep (fuse_regions g p1 p2) = CONTRADICTION_FOUND.
Proof.
  unfold fuse_regions.
  destruct p1 as [i1|]; [|by left]. destruct p2 as [i2|]; [|by left].
  case_bool_decide; [by left|].
  destruct (m_regions g !! i1) as [a|]; [|by left].
  destruct (m_regions g !! i2) as [b|]; [|by left].
  destruct (Reg.numbered a && Reg.numbered b); [by right|].
  destruct (negb _); [by left|].
  destruct (Reg.size a <? Reg.size b); [destruct (Reg.numbered a)|destruct (Reg.numbered b)];
    left; apply m_sitrep_absorb.
Qed.

Lemma fuse_neighbors_sitrep g (x y : Z) (l : list coord) :
  let h := foldl (fun h q => fuse_regions h (region h x y) (region h q.1 q.2)) g l in
  m_sitrep h = m_sitrep g \/ m_sitrep h = CONTRADICTION_FOUND.
Proof.
  revert g. induction l as [|q l IH]; intros g; simpl; [by left|].
  destruct (IH (fuse_regions g (region g x y) (region g q.1 q.2))) as [E|E]; [|by right].
  rewrite E. apply fuse_regions_sitrep.
Qed.

Lemma fuse_regions_black_sitrep g (p1 p2 : option rid) :
  black_handle g p1 -> m_sitrep (fuse_regions g p1 p2) = m_sitrep g.
Proof.
  intros Hp1. unfold fuse_regions.
  destruct p1 as [i1|]; [|done]. destruct p2 as [i2|]; [|done].
  case_bool_decide; [done|].
  destruct (m_regions g !! i1) as [a|] eqn:Ea; [|done].
  destruct (m_regions g !! i2) as [b|] eqn:Eb; [|done].
  rewrite (black_not_numbered a (Hp1 i1 a eq_refl Ea)). simpl.
  destruct (negb _); [done|].
  destruct (Reg.size a <? Reg.size b); [|destruct (Reg.numbered b)]; apply m_sitrep_absorb.
Qed.

Lemma fuse_neighbors_black_sitrep g (x y : Z) (l : list coord) :
  black_handle g (region g x y) ->
  m_sitrep (foldl (fun h q => fuse_regions h (region h x y) (region h q.1 q.2)) g l)
  = m_sitrep g.
Proof.
  revert g. induction l as [|q l IH]; intros g Hb; simpl; [done|].
  destruct (fuse_regions_black g (region g x y) (region g q.1 q.2) Hb) as (_ & Hkeep & Hcell).
  rewrite IH; [by apply fuse_regions_black_sitrep|].
  destruct (Hcell x y) as [-> | ?]; [by apply Hkeep|done].
Qed.

(** After [mark] the situation is what it was, or a contradiction. *)
Lemma mark_sitrep_step g (s : State) (x y : Z) g' :
  mark g s x y = Ok g' ->
  m_sitrep g' = m_sitrep g \/ m_sitrep g' = CONTRADICTION_FOUND.
Proof.
  intros Hm. destruct (decide (cell g x y = UNKNOWN)) as [Hc|Hc].
  2: { apply mark_known in Hm as ->; [|done]. by right. }
  unfold mark in Hm. destruct (negb (s =? WHITE) && negb (s =? BLACK)); [done|].
  rewrite Hc in Hm. simpl in Hm.
  destruct (add_region _ x y) as [g3| |] eqn:Ea; simpl in Hm; try done.
  injection Hm as <-.
  assert (Hs3 : m_sitrep g3 = m_sitrep g).
  { unfold add_region in Ea. destruct (Reg.make _ _ _ _); simpl in Ea; try done.
    by injection Ea as <-. }
  rewrite <- Hs3. apply fuse_neighbors_sitrep.
Qed.

(** X6.  [m_sitrep] only ever moves to [CONTRADICTION_FOUND]: after a call
    of [mark] it is what it was, or it is [CONTRADICTION_FOUND]; and
    blackening an unknown cell never reports a contradiction. *)
Theorem mark_sitrep g (s : State) (x y : Z) g' :
  mark g s x y = Ok g' ->
  (m_sitrep g' = m_sitrep g \/ m_sitrep g' = CONTRADICTION_FOUND)
  /\ (s = BLACK -> cell g x y = UNKNOWN -> m_sitrep g' = m_sitrep g).
Proof.
  intros Hm. split; [by eapply mark_sitrep_step|]. intros -> Hc.
  pose proof (mark_unknown _ _ _ _ _ Hm Hc) as (Hin & _).
  unfold mark in Hm. simpl in Hm. rewrite Hc in Hm. simpl in Hm.
  destruct (add_region _ x y) as [g3| |] eqn:Ea; simpl in Hm; try done.
  injection Hm as <-.
  assert (Hs3 : m_sitrep g3 = m_sitrep g).
  { unfold add_region in Ea. destruct (Reg.make _ _ _ _); simpl in Ea; try done.
    by injection Ea as <-. }
  rewrite <- Hs3. apply fuse_neighbors_black_sitrep.
  apply add_region_spec in Ea as (_ & _ & _ & rn & Hst & Hreg & Hptr).
  rewrite Hptr by (simpl; by apply inside_alter).
  intros j a [= <-]. rewrite Hreg, lookup_insert_eq. intros [= <-].
  unfold Reg.black. rewrite Hst. apply Z.eqb_eq.
  change (cell (with_regions ?g0 _) x y) with (cell g0 x y).
  unfold cell, set_cell. simpl. by rewrite cells_get_alter_eq.
Qed.

(** *** Counting the known cells *)

Lemma count_known_shift g (n k : Z) (l : list coord) :
  count_known g (n + k) l = count_known g n l + k.
Proof.
  revert n. induction l as [|u l IH]; intros n; simpl; [done|].
  destruct (negb _); [|apply IH]. replace (n + k + 1) with (n + 1 + k) by lia. apply IH.
Qed.

Lemma count_known_bounds g (n : Z) (l : list coord) :
  n <= count_known g n l <= n + Z.of_nat (length l).
Proof.
  revert n. induction l as [|u l IH]; intros n; simpl; [lia|].
  destruct (negb _); [specialize (IH (n + 1))|specialize (IH n)]; lia.
Qed.

Lemma count_known_full g (n : Z) (l : list coord) :
  count_known g n l = n + Z.of_nat (length l) ->
  forall p, p ∈ l -> cell g p.1 p.2 <> UNKNOWN.
Proof.
  revert n. induction l as [|u l IH]; intros n Hn p Hp; [by apply not_elem_of_nil in Hp|].
  simpl in Hn. destruct (cell g u.1 u.2 =? UNKNOWN) eqn:E; simpl in Hn.
  - pose proof (count_known_bounds g n l). lia.
  - apply elem_of_cons in Hp as [-> | Hp]; [by apply Z.eqb_neq|].
    apply (IH (n + 1)); [lia|done].
Qed.

Lemma NoDup_xy_range (w h : Z) : NoDup (xy_range w h).
Proof.
  unfold xy_range. apply NoDup_bind.
  - intros x1 x2 p _ _ (y1 & ->%list_elem_of_singleton & _)%list_elem_of_bind
      (y2 & [= -> _]%list_elem_of_singleton & _)%list_elem_of_bind. done.
  - intros x _. apply NoDup_bind.
    + intros y1 y2 p _ _ ->%list_elem_of_singleton [= ->]%list_elem_of_singleton. done.
    + intros y _. apply NoDup_singleton.
    + apply NoDup_seqZ.
  - apply NoDup_seqZ.
Qed.

Lemma count_known_mark g g' (p0 : coord) (n : Z) (l : list coord) :
  NoDup l ->
  (forall p, p <> p0 -> cell g' p.1 p.2 = cell g p.1 p.2) ->
  cell g p0.1 p0.2 = UNKNOWN -> cell g' p0.1 p0.2 <> UNKNOWN ->
  count_known g' n l = count_known g n l + (if bool_decide (p0 ∈ l) then 1 else 0).
Proof.
  intros Hnd Hother H0 H0'. revert n. induction Hnd as [|u l Hu Hnd IH]; intros n.
  { rewrite bool_decide_eq_false_2 by apply not_elem_of_nil. unfold count_known. simpl. lia. }
  change (count_known g' n (u :: l))
    with (count_known g' (if negb (cell g' u.1 u.2 =? UNKNOWN) then n + 1 else n) l).
  change (count_known g n (u :: l))
    with (count_known g (if negb (cell g u.1 u.2 =? UNKNOWN) then n + 1 else n) l).
  destruct (decide (u = p0)) as [->|Hne].
  - rewrite H0. apply Z.eqb_neq in H0'. rewrite H0'.
    change (negb (UNKNOWN =? UNKNOWN)) with false. cbn [negb].
    rewrite IH, (bool_decide_eq_false_2 (p0 ∈ l)) by done.
    rewrite (bool_decide_eq_true_2 (p0 ∈ p0 :: l)) by (by left).
    rewrite count_known_shift. lia.
  - rewrite (Hother u Hne), IH. f_equal.
    rewrite (bool_decide_ext (p0 ∈ u :: l) (p0 ∈ l)); [done|].
    rewrite elem_of_cons. split; [intros [E|?]; [by subst|done]|by right].
Qed.

Lemma known_mark_unknown g (s : State) (x y : Z) g' :
  mark g s x y = Ok g' ->
  valid g x y = true -> cell g x y = UNKNOWN ->
  known g' = known g + 1.
Proof.
  intros Hm Hv Hc. destruct (same_frame_mark g s x y g' Hm) as (Hw & Hh & _).
  change (known g') with (count_known g' 0 (xy_range (m_width g') (m_height g'))).
  change (known g) with (count_known g 0 (xy_range (m_width g) (m_height g))).
  rewrite Hw, Hh.
  rewrite (count_known_mark g g' (x, y) 0 (xy_range (m_width g) (m_height g))).
  - rewrite bool_decide_eq_true_2; [done|]. by apply (valid_xy_range g (x, y)).
  - apply NoDup_xy_range.
  - intros [x' y'] Hne. simpl. rewrite (mark_cells g s x y g' x' y' Hm).
    case_bool_decide as Hd; [by destruct Hd|done].
  - done.
  - simpl. rewrite (mark_cells g s x y g' x y Hm).
    rewrite bool_decide_eq_true_2 by done.
    unfold mark in Hm. destruct (negb (s =? WHITE) && negb (s =? BLACK)) eqn:E; [done|].
    apply andb_false_iff in E as [E|E]; apply negb_false_iff, Z.eqb_eq in E; by subst.
Qed.

(** X7.  What [mark] does to [known()]: marking an unknown cell of the
    grid makes it grow by exactly one, and a mark on a known cell leaves
    it as it is. *)
Theorem mark_known_count g (s : State) (x y : Z) g' :
  mark g s x y = Ok g' ->
  valid g x y = true ->
  known g' = if cell g x y =? UNKNOWN then known g + 1 else known g.
Proof.
  intros Hm Hv. destruct (cell g x y =? UNKNOWN) eqn:E.
  - apply Z.eqb_eq in E. by apply (known_mark_unknown g s x y g').
  - apply Z.eqb_neq in E. by apply mark_known in Hm as ->.
Qed.

(** X8.  [known()] lies between 0 and W * H, and it is W * H exactly when
    no cell of the grid is unknown. *)
Theorem known_bounds g :
  0 <= m_width g -> 0 <= m_height g ->
  0 <= known g <= m_width g * m_height g
  /\ (known g = m_width g * m_height g
      <-> forall x y, valid g x y = true -> cell g x y <> UNKNOWN).
Proof.
  intros Hw Hh.
  change (known g) with (count_known g 0 (xy_range (m_width g) (m_height g))).
  pose proof (count_known_bounds g 0 (xy_range (m_width g) (m_height g))) as Hb.
  rewrite length_xy_range in Hb by done. split; [apply Hb|]. split.
  - intros Hfull x y Hv.
    apply (count_known_full g 0 (xy_range (m_width g) (m_height g)) ) with (p := (x, y)).
    + rewrite length_xy_range by done. apply Hfull.
    + by apply (valid_xy_range g (x, y)).
  - apply known_all; done.
Qed.

End SitRepKnown.

(** ** Fusing regions *)

Section FuseMore.

Context {PRNG : Type}.
Implicit Types (g h : Grid PRNG) (r a b : Region) (p q : coord).

Lemma region_set_regions_in g (i : rid) (ps : list coord) q :
  q ∈ ps -> inside (m_cells g) q.1 q.2 ->
  region (foldl (fun h u => set_region h u.1 u.2 (Some i)) g ps) q.1 q.2 = Some i.
Proof.
  revert g. induction ps as [|u ps IH]; intros g Hq Hin; [by apply not_elem_of_nil in Hq|].
  simpl. apply elem_of_cons in Hq as [-> | Hq].
  - destruct (region_set_regions (set_region g u.1 u.2 (Some i)) i ps u.1 u.2) as [E|E];
      [|done].
    rewrite E. unfold region, set_region. simpl. by rewrite cells_get_alter_eq.
  - apply IH; [done|]. unfold set_region. simpl. by apply inside_alter.
Qed.

(** The fusion of the secondary region [b] into the primary region [a]. *)
Lemma absorb_result g (i1 i2 : rid) a b :
  let h := absorb g i1 a i2 b in
  let r := Reg.unk_insert (m_unknowns b) (Reg.insert (m_coords b) a) in
  m_regions h = delete i2 (<[i1 := r]> (m_regions g))
  /\ m_state r = m_state a
  /\ (forall q, q ∈ m_coords r <-> q ∈ m_coords a \/ q ∈ m_coords b)
  /\ (forall q, q ∈ m_unknowns r <-> q ∈ m_unknowns a \/ q ∈ m_unknowns b)
  /\ (forall x y, cell h x y = cell g x y)
  /\ m_sitrep h = m_sitrep g
  /\ (forall q, q ∈ m_coords b -> inside (m_cells g) q.1 q.2 -> region h q.1 q.2 = Some i1)
  /\ (forall q, q ∉ m_coords b -> region h q.1 q.2 = region g q.1 q.2).
Proof.
  intros h r. split; [apply m_regions_absorb|]. split; [done|].
  split; [|split; [|split; [|split; [|split]]]].
  - intros q. unfold r. simpl. rewrite CoordSetFacts.elem_of_insert_all. tauto.
  - intros q. unfold r. simpl. rewrite CoordSetFacts.elem_of_insert_all. tauto.
  - intros x y. apply cell_absorb.
  - apply m_sitrep_absorb.
  - intros q Hq Hin. unfold h, absorb.
    change (region (with_regions ?g0 _) q.1 q.2) with (region g0 q.1 q.2).
    by apply (region_set_regions_in (with_regions g _)).
  - intros q Hq. unfold h, absorb.
    change (region (with_regions ?g0 _) q.1 q.2) with (region g0 q.1 q.2).
    by rewrite (region_set_regions_ne (with_regions g _)).
Qed.

(** X9.  [fuse_regions] on two different regions of the same kind (both
    black, or neither black and at most one numbered): one of the two
    handles stays, with a region that has the cells and the liberties of
    both; the other leaves the set of regions and its cells designate the
    region that stays.  A numbered region is never the one that leaves, so
    the fused region keeps the number; otherwise the bigger region stays.
    No cell changes its state and no contradiction is recorded. *)
Theorem fuse_regions_result g (i1 i2 : rid) a b :
  i1 <> i2 ->
  m_regions g !! i1 = Some a -> m_regions g !! i2 = Some b ->
  Reg.numbered a && Reg.numbered b = false ->
  Reg.black a = Reg.black b ->
  let h := fuse_regions g (Some i1) (Some i2) in
  exists (keep drop : rid) (k d r : Region),
    ((keep, drop, k, d) = (i1, i2, a, b) \/ (keep, drop, k, d) = (i2, i1, b, a))
    /\ Reg.numbered d = false
    /\ (Reg.numbered k = false -> Reg.size d <= Reg.size k)
    /\ m_regions h = delete drop (<[keep := r]> (m_regions g))
    /\ m_state r = m_state k
    /\ (forall q, q ∈ m_coords r <-> q ∈ m_coords a \/ q ∈ m_coords b)
    /\ (forall q, q ∈ m_unknowns r <-> q ∈ m_unknowns a \/ q ∈ m_unknowns b)
    /\ (forall x y, cell h x y = cell g x y)
    /\ m_sitrep h = m_sitrep g
    /\ (forall q, q ∈ m_coords d -> inside (m_cells g) q.1 q.2 ->
                  region h q.1 q.2 = Some keep)
    /\ (forall q, q ∉ m_coords d -> region h q.1 q.2 = region g q.1 q.2).
Proof.
  intros Hne Ea Eb Hnum Hblack h. unfold h, fuse_regions.
  rewrite bool_decide_eq_false_2 by done. rewrite Ea, Eb, Hnum, Hblack.
  rewrite Bool.eqb_reflx. cbn [negb].
  assert (Hab : forall (i1 i2 : rid) a b,
            exists r, let h := absorb g i1 a i2 b in
              m_regions h = delete i2 (<[i1 := r]> (m_regions g))
              /\ m_state r = m_state a
              /\ (forall q, q ∈ m_coords r <-> q ∈ m_coords a \/ q ∈ m_coords b)
              /\ (forall q, q ∈ m_unknowns r <-> q ∈ m_unknowns a \/ q ∈ m_unknowns b)
              /\ (forall x y, cell h x y = cell g x y)
              /\ m_sitrep h = m_sitrep g
              /\ (forall q, q ∈ m_coords b -> inside (m_cells g) q.1 q.2 ->
                            region h q.1 q.2 = Some i1)
              /\ (forall q, q ∉ m_coords b -> region h q.1 q.2 = region g q.1 q.2)).
  { intros j1 j2 a0 b0. eexists. apply absorb_result. }
  apply andb_false_iff in Hnum.
  destruct (Reg.size a <? Reg.size b) eqn:Esz.
  - apply Z.ltb_lt in Esz. destruct (Reg.numbered a) eqn:Ena.
    + destruct Hnum as [?|Enb]; [done|].
      destruct (Hab i1 i2 a b) as (r & H1 & H2 & H3 & H4 & H5 & H6 & H7 & H8).
      exists i1, i2, a, b, r. split; [by left|]. split; [done|]. split; [by rewrite Ena|].
      done.
    + destruct (Hab i2 i1 b a) as (r & H1 & H2 & H3 & H4 & H5 & H6 & H7 & H8).
      exists i2, i1, b, a, r. split; [by right|]. split; [done|]. split; [intros _; lia|].
      split; [done|]. split; [done|].
      split; [intros q; rewrite H3; tauto|]. split; [intros q; rewrite H4; tauto|]. done.
  - apply Z.ltb_ge in Esz. destruct (Reg.numbered b) eqn:Enb.
    + destruct Hnum as [Ena|?]; [|done].
      destruct (Hab i2 i1 b a) as (r & H1 & H2 & H3 & H4 & H5 & H6 & H7 & H8).
      exists i2, i1, b, a, r. split; [by right|]. split; [done|]. split; [by rewrite Enb|].
      split; [done|]. split; [done|].
      split; [intros q; rewrite H3; tauto|]. split; [intros q; rewrite H4; tauto|]. done.
    + destruct (Hab i1 i2 a b) as (r & H1 & H2 & H3 & H4 & H5 & H6 & H7 & H8).
      exists i1, i2, a, b, r. split; [by left|]. split; [done|]. split; [intros _; lia|].
      done.
Qed.

(** X10.  [impossibly_big_white_region(n)] holds exactly when no numbered
    region has room for [n] more cells and a bridge; so what is impossibly
    big stays so when it grows, and on a grid without numbered region every
    size is impossibly big. *)
Theorem impossibly_big_white_region_spec g (n : Z) :
  (impossibly_big_white_region g n = true
   <-> forall i r, m_regions g !! i = Some r -> Reg.numbered r = true ->
                   m_state r < Reg.size r + n + 1)
  /\ (forall m, n <= m -> impossibly_big_white_region g n = true ->
                impossibly_big_white_region g m = true).
Proof.
  assert (Hspec : forall n, impossibly_big_white_region g n = true
            <-> forall i r, m_regions g !! i = Some r -> Reg.numbered r = true ->
                            m_state r < Reg.size r + n + 1).
  { intros k. unfold impossibly_big_white_region, regions. rewrite forallb_forall. split.
    - intros H i r Hi Hn.
      specialize (H (i, r) ltac:(by apply list_elem_of_In, elem_of_map_to_list)).
      unfold Reg.numbered_and, Reg.number in H. simpl in H. rewrite Hn in H. simpl in H.
      apply negb_true_iff, Z.leb_gt in H. lia.
    - intros H [i r] Hin%list_elem_of_In%elem_of_map_to_list.
      unfold Reg.numbered_and, Reg.number. simpl.
      destruct (Reg.numbered r) eqn:En; [|done]. simpl.
      apply negb_true_iff, Z.leb_gt. specialize (H i r Hin En). lia. }
  split; [apply Hspec|].
  intros m Hm. rewrite !Hspec. intros H i r Hi Hn. specialize (H i r Hi Hn). lia.
Qed.

End FuseMore.

(** ** The search and the committing of marks *)

Section SearchMore.

Context {PRNG : Type}.
Implicit Types (g h : Grid PRNG) (p q : coord).

(** X11.  The breadth-first search of [unreachable] ends: from a cell of
    the grid, whatever the cells it is told to avoid, it answers after at
    most as many steps as the grid has cells (here: with that much fuel). *)
Theorem unreachable_returns (fuel : nat) g (x y : Z) (discovered : CoordSet.t) :
  valid g x y = true ->
  m_width g * m_height g + 1 < Z.of_nat fuel ->
  exists b, unreachable fuel g x y discovered = Ok b.
Proof.
  intros Hv Hfuel. unfold unreachable.
  destruct (negb (cell g x y =? UNKNOWN)); [by eauto|].
  apply unreachable_loop_total.
  - intros t ->%list_elem_of_singleton. done.
  - assert (0 <= m_width g /\ 0 <= m_height g) as [Hw Hh].
    { unfold valid in Hv. repeat (apply andb_true_iff in Hv as [Hv ?]). lia. }
    pose proof (undiscovered_le g (CoordSet.insert (x, y) discovered) Hw Hh).
    change (length [(x, y, 1)]) with 1%nat. lia.
Qed.

(** X12.  What [unreachable] decides.  On an unknown cell of the grid, and
    with no cell to avoid, it answers [false] exactly when a chain of cells
    leads from the root to a cell where the test of the search succeeds for
    the length of the chain: every cell of the chain after the root is an
    unknown neighbour of the one before, and every cell before the last has
    no white and no numbered region next to it.  It answers [true] exactly
    when there is no such chain. *)
Theorem unreachable_decides (fuel : nat) g (x y : Z) :
  valid g x y = true ->
  cell g x y = UNKNOWN ->
  m_width g * m_height g + 1 < Z.of_nat fuel ->
  let connects := exists n e, chain g (x, y) n e /\ examine g e.1 e.2 n = Ok Found in
  (unreachable fuel g x y CoordSet.empty = Ok false <-> connects)
  /\ (unreachable fuel g x y CoordSet.empty = Ok true <-> ~ connects).
Proof.
  intros Hv Hc Hfuel connects.
  destruct (unreachable_total fuel g x y Hv Hfuel) as [b Hb].
  assert (Htrue : unreachable fuel g x y CoordSet.empty = Ok true -> ~ connects).
  { intros Ht (n & e & Hchain & Hfound).
    by apply (unreachable_true_chain fuel g x y n e Hv Ht Hchain). }
  assert (Hfalse : unreachable fuel g x y CoordSet.empty = Ok false -> connects).
  { by apply unreachable_false_chain. }
  rewrite Hb in *. destruct b.
  - split; [split; [done|]|split; [by auto|done]].
    intros Hcon. by destruct (Htrue eq_refl).
  - split; [split; [by auto|done]|split; [done|]].
    intros Hn. by destruct (Hn (Hfalse eq_refl)).
Qed.

End SearchMore.

Section ProcessMore.

Context {PRNG : Type}.
Implicit Types (g h : Grid PRNG) (p q : coord).

Lemma mark_inside g (s : State) (x y : Z) g' (x' y' : Z) :
  mark g s x y = Ok g' -> inside (m_cells g') x' y' <-> inside (m_cells g) x' y'.
Proof.
  intros Hm. destruct (decide (cell g x y = UNKNOWN)) as [Hc|Hc].
  - by destruct (mark_unknown _ _ _ _ _ Hm Hc) as (_ & _ & _ & ->).
  - by apply mark_known in Hm as ->.
Qed.

Lemma mark_all_inside g (s : State) (ps : list coord) g' (x' y' : Z) :
  mark_all g s ps = Ok g' -> inside (m_cells g') x' y' <-> inside (m_cells g) x' y'.
Proof.
  revert g. induction ps as [|u ps IH]; intros g; [by intros [= <-]|].
  rewrite mark_all_cons. destruct (mark g s u.1 u.2) as [h| |] eqn:Em; simpl; try done.
  intros Hall. rewrite (IH h Hall). by eapply mark_inside.
Qed.

Lemma mark_colour g (s : State) (x y : Z) g' : mark g s x y = Ok g' -> s <> UNKNOWN.
Proof.
  unfold mark. destruct (negb (s =? WHITE) && negb (s =? BLACK)) eqn:E; [done|]. intros _.
  apply andb_false_iff in E as [E|E]; apply negb_false_iff, Z.eqb_eq in E; by subst.
Qed.

(** A mark on a known cell is remembered to the end of the loop. *)
Lemma mark_all_contradiction g (s : State) (ps : list coord) g' :
  mark_all g s ps = Ok g' ->
  m_sitrep g = CONTRADICTION_FOUND \/ (exists q, q ∈ ps /\ cell g q.1 q.2 <> UNKNOWN) ->
  m_sitrep g' = CONTRADICTION_FOUND.
Proof.
  revert g. induction ps as [|u ps IH]; intros g.
  { intros [= <-] [?|(q & ?%not_elem_of_nil & _)]; done. }
  rewrite mark_all_cons. destruct (mark g s u.1 u.2) as [h| |] eqn:Em; simpl; try done.
  intros Hall Hor. apply (IH h Hall).
  pose proof (mark_sitrep_step g s u.1 u.2 h Em) as Hs.
  pose proof (mark_colour _ _ _ _ _ Em) as Hcol.
  destruct Hor as [Hc | (q & [-> | Hq]%elem_of_cons & Hk)].
  - left. destruct Hs as [-> | ->]; done.
  - left. by apply mark_known in Em as ->.
  - right. exists q. split; [done|].
    rewrite (mark_cells g s u.1 u.2 h q.1 q.2 Em). by case_bool_decide.
Qed.

(** X13.  [process] on marks that lie in the array: it answers [false]
    exactly when both sets are empty, and then the grid is untouched;
    otherwise every proposed cell that was unknown has the proposed colour,
    black winning over white, and every other cell has the state it had. *)
Theorem process_result g (verbose : bool) (mark_as_black mark_as_white : CoordSet.t)
  (s : string) (failed_guesses : Z) (failed_coords : CoordSet.t) :
  (forall q, q ∈ mark_as_black \/ q ∈ mark_as_white -> inside (m_cells g) q.1 q.2) ->
  exists b g',
    process g verbose mark_as_black mark_as_white s failed_guesses failed_coords = Ok (b, g')
    /\ (b = false <-> mark_as_black = [] /\ mark_as_white = [])
    /\ (b = false -> g' = g)
    /\ (forall x y,
          cell g' x y
          = if bool_decide ((x, y) ∈ mark_as_black /\ cell g x y = UNKNOWN) then BLACK
            else if bool_decide ((x, y) ∈ mark_as_white /\ cell g x y = UNKNOWN) then WHITE
            else cell g x y).
Proof.
  intros Hin. unfold process.
  destruct (CoordSet.is_empty mark_as_black && CoordSet.is_empty mark_as_white) eqn:E.
  - apply andb_true_iff in E as [->%CoordSetFacts.is_empty_true ->%CoordSetFacts.is_empty_true].
    exists false, g. split; [done|]. split; [done|]. split; [done|].
    intros x y.
    rewrite bool_decide_eq_false_2 by (by intros [?%not_elem_of_nil _]). done.
  - destruct (mark_all_total g BLACK mark_as_black) as [g1 Hg1]; [by right|by auto|].
    destruct (mark_all_total g1 WHITE mark_as_white) as [g2 Hg2]; [by left| |].
    { intros q Hq. apply (mark_all_inside g BLACK mark_as_black g1 _ _ Hg1). by auto. }
    rewrite Hg1. simpl. rewrite Hg2. simpl.
    set (g3 := if verbose then _ else g2).
    assert (Hc : forall x y, cell g3 x y = cell g2 x y) by (unfold g3; by destruct verbose).
    exists true, g3. split; [done|].
    split; [|split; [done|]].
    { split; [done|]. intros [-> ->]. simpl in E. done. }
    intros x y. rewrite Hc.
    rewrite (mark_all_cells g1 WHITE mark_as_white g2 x y Hg2).
    rewrite (mark_all_cells g BLACK mark_as_black g1 x y Hg1).
    destruct (decide ((x, y) ∈ mark_as_black /\ cell g x y = UNKNOWN)) as [Hb|Hb].
    + rewrite (bool_decide_eq_true_2 _ Hb). cbv iota.
      repeat case_bool_decide; try done. by destruct_and!.
    + rewrite (bool_decide_eq_false_2 _ Hb). cbv iota.
      repeat case_bool_decide; try done.
Qed.

(** X14.  A conflict among the proposed marks is reported, not dropped:
    when [process] returns and a cell is proposed in both colours, or a
    proposed cell is already known, the grid is left with
    [CONTRADICTION_FOUND]. *)
Theorem process_conflict g (verbose : bool) (mark_as_black mark_as_white : CoordSet.t)
  (s : string) (failed_guesses : Z) (failed_coords : CoordSet.t) (b : bool) g' :
  process g verbose mark_as_black mark_as_white s failed_guesses failed_coords = Ok (b, g') ->
  (exists q, q ∈ mark_as_black /\ q ∈ mark_as_white)
  \/ (exists q, (q ∈ mark_as_black \/ q ∈ mark_as_white) /\ cell g q.1 q.2 <> UNKNOWN) ->
  m_sitrep g' = CONTRADICTION_FOUND.
Proof.
  unfold process.
  destruct (CoordSet.is_empty mark_as_black && CoordSet.is_empty mark_as_white) eqn:E.
  { apply andb_true_iff in E as [->%CoordSetFacts.is_empty_true ->%CoordSetFacts.is_empty_true].
    intros _ [(q & ?%not_elem_of_nil & _) | (q & [?%not_elem_of_nil | ?%not_elem_of_nil] & _)];
      done. }
  destruct (mark_all g BLACK mark_as_black) as [g1| |] eqn:Hg1; simpl; try done.
  destruct (mark_all g1 WHITE mark_as_white) as [g2| |] eqn:Hg2; simpl; try done.
  intros [= <- <-] Hconf.
  assert (H2 : m_sitrep g2 = CONTRADICTION_FOUND).
  { apply (mark_all_contradiction g1 WHITE mark_as_white g2 Hg2).
    destruct Hconf as [(q & Hb & Hw) | (q & [Hb | Hw] & Hk)].
    - right. exists q. split; [done|].
      destruct (mark_all_black g mark_as_black g1 Hg1) as (_ & Hmarked & _). by apply Hmarked.
    - left. apply (mark_all_contradiction g BLACK mark_as_black g1 Hg1). right. eauto.
    - right. exists q. split; [done|].
      destruct (mark_all_black g mark_as_black g1 Hg1) as (Hkeep & _ & _). by apply Hkeep. }
  by destruct verbose.
Qed.

End ProcessMore.

(** ** What the cheap rules propose *)

Section RulesMore.

Context {PRNG : Type}.
Implicit Types (g h : Grid PRNG) (r : Region) (p q : coord).

Lemma unk_size_one r : (Reg.unk_size r =? 1) = true <-> exists u, m_unknowns r = [u].
Proof.
  unfold Reg.unk_size, CoordSet.size. rewrite Z.eqb_eq.
  destruct (m_unknowns r) as [|u [|v l]]; simpl; split; try lia; try (intros [? [=]]); eauto.
Qed.

Lemma partial_cases g r :
  partial g r = true <-> expands_black g r \/ expands_white r.
Proof.
  unfold partial, expands_black, expands_white, Reg.numbered_and, Reg.number,
    Reg.black, Reg.white, Reg.numbered, WHITE, BLACK.
  rewrite !orb_true_iff, !andb_true_iff, Z.ltb_lt, !Z.eqb_eq.
  destruct (0 <? m_state r) eqn:E; simpl; rewrite ?Z.ltb_lt, ?Z.eqb_neq;
    rewrite ?Z.ltb_lt, ?Z.ltb_ge in E; split; intros H; intuition (try lia).
Qed.

Lemma single_liberties_fold g (l : list (rid * Region)) (m : CoordSet.t * CoordSet.t) q :
  let res := foldl (fun marks ir =>
           let r := ir.2 in
           if partial g r && (Reg.unk_size r =? 1) then
             match m_unknowns r with
             | u :: _ =>
                 if Reg.black r
                 then (CoordSet.insert u marks.1, marks.2)
                 else (marks.1, CoordSet.insert u marks.2)
             | [] => marks
             end
           else marks) m l in
  (q ∈ res.1 <-> q ∈ m.1 \/ exists ir, ir ∈ l /\ expands_black g ir.2 /\ m_unknowns ir.2 = [q])
  /\ (q ∈ res.2 <-> q ∈ m.2 \/ exists ir, ir ∈ l /\ expands_white ir.2 /\ m_unknowns ir.2 = [q]).
Proof.
  revert m. induction l as [|[i r] l IH]; intros m; simpl.
  { split; (split; [by left|]); by intros [? | (ir & ?%not_elem_of_nil & _)]. }
  destruct (IH (let r := r in
           if partial g r && (Reg.unk_size r =? 1) then
             match m_unknowns r with
             | u :: _ =>
                 if Reg.black r
                 then (CoordSet.insert u m.1, m.2)
                 else (m.1, CoordSet.insert u m.2)
             | [] => m
             end
           else m)) as [IH1 IH2].
  simpl in IH1, IH2. rewrite IH1, IH2. clear IH IH1 IH2.
  assert (Hhead : forall (P : Region -> Prop) (S : CoordSet.t),
    (q ∈ S \/ exists ir, ir ∈ l /\ P ir.2 /\ m_unknowns ir.2 = [q])
    \/ (P r /\ m_unknowns r = [q])
    <-> q ∈ S \/ exists ir, ir ∈ (i, r) :: l /\ P ir.2 /\ m_unknowns ir.2 = [q]).
  { intros P S. split.
    - intros [[? | (ir & ? & ? & ?)] | [? ?]]; [by left| |].
      + right. exists ir. split; [by right|done].
      + right. exists (i, r). split; [by left|done].
    - intros [? | (ir & [-> | ?]%elem_of_cons & ? & ?)]; [by left; left|by right|].
      left. right. eauto. }
  rewrite <- !Hhead. clear Hhead.
  destruct (partial g r && (Reg.unk_size r =? 1)) eqn:E.
  - apply andb_true_iff in E as [Hp [u Hu]%unk_size_one]. rewrite Hu.
    apply partial_cases in Hp.
    destruct (Reg.black r) eqn:Eb; simpl; rewrite ?CoordSetFacts.elem_of_insert.
    + assert (Hb : expands_black g r).
      { destruct Hp as [?|[? _]]; [done|congruence]. }
      assert (Hw : ~ expands_white r) by (intros [? _]; congruence).
      split; split; intros H; intuition (try congruence; eauto).
    + assert (Hw : expands_white r).
      { destruct Hp as [[? _]|?]; [congruence|done]. }
      assert (Hb : ~ expands_black g r) by (intros [? _]; congruence).
      split; split; intros H; intuition (try congruence; eauto).
  - assert (Hno : ~ ((expands_black g r \/ expands_white r) /\ m_unknowns r = [q])).
    { intros [Hp Hu]. apply partial_cases in Hp. rewrite Hp in E. simpl in E.
      apply Z.eqb_neq in E. apply E. unfold Reg.unk_size. by rewrite Hu. }
    split; split; intros H; intuition eauto.
Qed.

(** X15.  What the single-liberty rule proposes.  A cell is proposed as
    black exactly when it is the only liberty of a black region smaller
    than the number of black cells of the solution; it is proposed as white
    exactly when it is the only liberty of a white region, or of a numbered
    region that is smaller than its number. *)
Theorem single_liberties_marks_spec g q :
  (q ∈ (single_liberties_marks g).1
   <-> exists i r, m_regions g !! i = Some r /\ m_unknowns r = [q]
         /\ Reg.black r = true /\ Reg.size r < m_total_black g)
  /\ (q ∈ (single_liberties_marks g).2
      <-> exists i r, m_regions g !! i = Some r /\ m_unknowns r = [q]
            /\ Reg.black r = false
            /\ (Reg.white r = true \/ (Reg.numbered r = true /\ Reg.size r < m_state r))).
Proof.
  destruct (single_liberties_fold g (regions g) (CoordSet.empty, CoordSet.empty) q) as [H1 H2].
  fold (single_liberties_marks g) in H1, H2. rewrite H1, H2. unfold regions. split; split.
  - intros [?%not_elem_of_nil | ([i r] & Hin%elem_of_map_to_list & [? ?] & ?)]; [done|].
    exists i, r. done.
  - intros (i & r & Hi & Hu & Hb & Hs). right. exists (i, r).
    split; [by apply elem_of_map_to_list|]. done.
  - intros [?%not_elem_of_nil | ([i r] & Hin%elem_of_map_to_list & [? ?] & ?)]; [done|].
    exists i, r. done.
  - intros (i & r & Hi & Hu & Hb & Hs). right. exists (i, r).
    split; [by apply elem_of_map_to_list|]. done.
Qed.

(** X16.  What the complete-island rule does.  It proposes exactly the
    liberties of the numbered regions that have reached their number; when
    it returns, those of them that were unknown are black and every other
    cell has the state it had. *)
Theorem complete_islands_blackened g (verbose : bool) :
  (forall q, q ∈ complete_islands_marks g
             <-> exists i r, m_regions g !! i = Some r /\ Reg.numbered r = true
                   /\ Reg.size r = m_state r /\ q ∈ m_unknowns r)
  /\ (forall b g', analyze_complete_islands g verbose = Ok (b, g') ->
        (b = false <-> complete_islands_marks g = [])
        /\ forall x y,
             cell g' x y
             = if bool_decide ((x, y) ∈ complete_islands_marks g /\ cell g x y = UNKNOWN)
               then BLACK else cell g x y).
Proof.
  split.
  - intros q. rewrite elem_of_complete_islands_marks.
    assert (Hc : forall r, complete_island r = true
                   <-> Reg.numbered r = true /\ Reg.size r = m_state r).
    { intros r. unfold complete_island, Reg.numbered_and, Reg.number.
      destruct (Reg.numbered r); simpl; [rewrite Z.eqb_eq|]; intuition congruence. }
    split; intros (i & r & Hi & H); exists i, r; (split; [done|]).
    + destruct H as [H ?]. apply Hc in H. tauto.
    + destruct H as (? & ? & ?). split; [|done]. apply Hc. tauto.
  - intros b g'. unfold analyze_complete_islands, process.
    destruct (CoordSet.is_empty (complete_islands_marks g)) eqn:E; simpl.
    + apply CoordSetFacts.is_empty_true in E. intros [= <- <-]. split; [done|].
      intros x y. rewrite E. rewrite bool_decide_eq_false_2; [done|].
      by intros [?%not_elem_of_nil _].
    + destruct (mark_all g BLACK (complete_islands_marks g)) as [g1| |] eqn:Hg1;
        simpl; try done.
      intros [= <- <-]. split.
      { split; [done|]. intros E'. rewrite E' in E. done. }
      intros x y. transitivity (cell g1 x y).
      { destruct (SitRep_eqb _ _); by destruct verbose. }
      rewrite (mark_all_cells g BLACK _ g1 x y Hg1). repeat case_bool_decide; done.
Qed.

End RulesMore.

(** ** Pools, contradictions and confinement *)

Section PoolsMore.

Context {PRNG : Type}.
Implicit Types (g h : Grid PRNG) (r : Region) (p q u v : coord).

Lemma for_each_elem {A B} (R : A -> A -> Prop) (body : A -> B -> result A)
  (l : list B) (a a' : A) (x : B) :
  (forall a, R a a) -> (forall a b c, R a b -> R b c -> R a c) ->
  (forall a y a', body a y = Ok a' -> R a a') ->
  for_each l a body = Ok a' -> x ∈ l ->
  exists a1 a2, R a a1 /\ body a1 x = Ok a2 /\ R a2 a'.
Proof.
  intros Hrefl Htrans Hstep. revert a.
  induction l as [|y l IH]; intros a Hrun Hx; [by apply not_elem_of_nil in Hx|].
  simpl in Hrun. destruct (body a y) as [a0| |] eqn:E; simpl in Hrun; try done.
  apply elem_of_cons in Hx as [-> | Hx].
  - exists a, a0. split; [done|]. split; [done|].
    apply (for_each_rel R body l a0 a'); eauto.
  - destruct (IH a0 Hrun Hx) as (a1 & a2 & H1 & H2 & H3).
    exists a1, a2. split; [|done]. eapply Htrans; [|done]. by eapply Hstep.
Qed.

Lemma potential_pools_square_mono (fuel : nat) g (x y : Z) (m m' : CoordSet.t) q :
  potential_pools_square fuel g x y m = Ok m' -> q ∈ m -> q ∈ m'.
Proof.
  unfold potential_pools_square.
  destruct (sort_by_state _) as [|a0 [|a1 [|a2 [|a3 [|? ?]]]]]; try (by intros [= <-]).
  destruct (_ && _).
  { intros [= <-] Hq. apply CoordSetFacts.elem_of_insert. by right. }
  destruct (_ && _); [|by intros [= <-]].
  destruct (unreachable fuel g a1.1.1 a1.1.2 _) as [u1| |]; simpl; try done.
  destruct (unreachable fuel g a0.1.1 a0.1.2 _) as [u0| |]; simpl; try done.
  intros [= <-] Hq. destruct u0, u1; rewrite ?CoordSetFacts.elem_of_insert; auto.
Qed.

Lemma potential_pools_square_hit (fuel : nat) g (x y : Z) (m : CoordSet.t) u :
  u ∈ square x y ->
  cell g u.1 u.2 = UNKNOWN ->
  (forall v, v ∈ square x y -> v <> u -> cell g v.1 v.2 = BLACK) ->
  potential_pools_square fuel g x y m = Ok (CoordSet.insert u m).
Proof.
  intros Hu Hc Hb. unfold potential_pools_square.
  assert (Hne : forall a b c d : Z, (a, b) <> (c, d) <-> a <> c \/ b <> d).
  { intros a b c d. split; [|intros [?|?] [= ? ?]; done].
    intros H. destruct (decide (a = c)) as [->|?]; [|by left]. right. intros ->. done. }
  assert (Hcases : u = (x, y) \/ u = (x + 1, y) \/ u = (x, y + 1) \/ u = (x + 1, y + 1)).
  { unfold square in Hu. rewrite !elem_of_cons, elem_of_nil in Hu. tauto. }
  clear Hu. unfold square in Hb.
  destruct Hcases as [-> | [-> | [-> | ->]]];
    simpl in Hc;
    pose proof (Hb (x, y)) as H00; pose proof (Hb (x + 1, y)) as H10;
    pose proof (Hb (x, y + 1)) as H01; pose proof (Hb (x + 1, y + 1)) as H11;
    simpl in H00, H10, H01, H11;
    rewrite ?Hc, ?H00, ?H10, ?H01, ?H11;
    rewrite ?elem_of_cons, ?Hne; try (clear; lia); try tauto; try (clear; right; lia);
    reflexivity.
Qed.

End PoolsMore.

Section ContradictionsMore.

Context {PRNG : Type}.
Implicit Types (g h : Grid PRNG) (r : Region) (p q u v : coord).

Lemma uh_oh_spec g (verbose : bool) (s : string) :
  m_cells (uh_oh g verbose s) = m_cells g
  /\ m_regions (uh_oh g verbose s) = m_regions g
  /\ m_sitrep (uh_oh g verbose s) = CONTRADICTION_FOUND
  /\ m_output (uh_oh g verbose s)
     = m_output g ++ (if verbose
                      then [mkLogEntry s (List.map (List.map fst) (m_cells g))
                                       CoordSet.empty 0 CoordSet.empty]
                      else []).
Proof. unfold uh_oh. destruct verbose; simpl; by rewrite ?app_nil_r. Qed.

(** X18.  A pool is a contradiction whatever the rest of the grid: when
    the four cells of a square of the grid are black,
    [detect_contradictions] answers [true] before it looks at any region
    (no fuel is needed), records [CONTRADICTION_FOUND], and leaves the
    cells, the regions and the cache as they are. *)
Theorem detect_contradictions_pool (fuel : nat) g (verbose : bool) (cache : cache_map_t)
  (x y : Z) :
  0 <= x < m_width g - 1 -> 0 <= y < m_height g - 1 ->
  (forall v, v ∈ square x y -> cell g v.1 v.2 = BLACK) ->
  exists g', detect_contradictions fuel g verbose cache = Ok (true, g', cache)
    /\ m_sitrep g' = CONTRADICTION_FOUND
    /\ m_cells g' = m_cells g /\ m_regions g' = m_regions g.
Proof.
  intros Hx Hy Hb. unfold detect_contradictions.
  replace (existsb (pool_at g) (xy_range (m_width g - 1) (m_height g - 1))) with true.
  - eexists. split; [done|].
    destruct (uh_oh_spec g verbose "Contradiction found! Pool detected.") as (? & ? & ? & _).
    done.
  - symmetry. apply existsb_exists. exists (x, y). split.
    + apply list_elem_of_In, elem_of_xy_range. simpl. lia.
    + pose proof (Hb (x, y)) as H00. pose proof (Hb (x + 1, y)) as H10.
      pose proof (Hb (x, y + 1)) as H01. pose proof (Hb (x + 1, y + 1)) as H11.
      unfold square in H00, H10, H01, H11. rewrite !elem_of_cons in H00, H10, H01, H11.
      unfold pool_at. simpl in *. rewrite H00, H10, H01, H11 by tauto. done.
Qed.

(** X19.  [detect_contradictions] only observes: whatever it answers, the
    cells and the regions are those of before.  When it answers [true] the
    grid records [CONTRADICTION_FOUND] and, if verbose, the output has
    gained exactly one entry; when it answers [false] the grid is
    untouched. *)
Theorem detect_contradictions_frame (fuel : nat) g (verbose : bool)
  (cache cache' : cache_map_t) (b : bool) g' :
  detect_contradictions fuel g verbose cache = Ok (b, g', cache') ->
  m_cells g' = m_cells g /\ m_regions g' = m_regions g
  /\ (if b
      then m_sitrep g' = CONTRADICTION_FOUND
           /\ length (m_output g') = (length (m_output g) + (if verbose then 1 else 0))%nat
      else g' = g).
Proof.
  assert (Huh : forall s,
    m_cells (uh_oh g verbose s) = m_cells g /\ m_regions (uh_oh g verbose s) = m_regions g
    /\ m_sitrep (uh_oh g verbose s) = CONTRADICTION_FOUND
       /\ length (m_output (uh_oh g verbose s))
          = (length (m_output g) + (if verbose then 1 else 0))%nat).
  { intros s. destruct (uh_oh_spec g verbose s) as (? & ? & ? & Ho).
    rewrite Ho, length_app. by destruct verbose. }
  unfold detect_contradictions.
  destruct (existsb _ _); [intros [= <- <- <-]; apply Huh|].
  destruct (detect_regions _ _ _ _ _ _) as [[[[found bc] wc] c]| |]; simpl; try done.
  destruct found as [s|]; [intros [= <- <- <-]; apply Huh|].
  destruct (_ <? bc); [intros [= <- <- <-]; apply Huh|].
  destruct (_ <? wc); [intros [= <- <- <-]; apply Huh|].
  by intros [= <- <- <-].
Qed.

(** X20.  With verboten cells, [confined] reads the cache and never writes
    it, and it can only report a region as confined when one of the
    verboten cells is among those that the region consumed in the run
    without verboten cells. *)
Theorem confined_verboten (fuel : nat) g (ri : rid) r (cache cache' : cache_map_t)
  (verboten : CoordSet.t) (b : bool) :
  verboten <> [] ->
  confined fuel g ri r cache verboten = Ok (b, cache') ->
  cache' = cache
  /\ (b = true -> exists consumed p,
        cache !! ri = Some consumed /\ p ∈ verboten /\ p ∈ consumed).
Proof.
  intros Hne Hrun. split; [by eapply confined_cache|].
  intros ->. unfold confined in Hrun.
  destruct verboten as [|v0 verboten]; [done|].
  cbn [CoordSet.is_empty negb] in Hrun.
  destruct (cache !! ri) as [consumed|]; [|done].
  destruct (forallb _ _) eqn:E; [done|].
  apply forallb_false in E as (p & Hp & Hmem).
  apply negb_false_iff, CoordSetFacts.mem_true in Hmem. eauto.
Qed.

End ContradictionsMore.

(** ** The copy of a grid *)

Section CopyMore.

Context {PRNG : Type}.
Implicit Types (g h : Grid PRNG) (r : Region) (p q u v : coord).

Lemma copy_fold (l : list (rid * Region)) h :
  let h' := foldl (fun h ir => foldl (fun h' k => set_region h' k.1 k.2 (Some ir.1))
                                     h (m_coords ir.2)) h l in
  (forall x y, cell h' x y = cell h x y)
  /\ m_regions h' = m_regions h /\ m_sitrep h' = m_sitrep h /\ same_frame h h'
  /\ (forall x y, inside (m_cells h') x y <-> inside (m_cells h) x y)
  /\ (forall q, region h' q.1 q.2 = region h q.1 q.2
                \/ exists ir, ir ∈ l /\ q ∈ m_coords ir.2 /\ region h' q.1 q.2 = Some ir.1)
  /\ (forall ir q, ir ∈ l -> q ∈ m_coords ir.2 -> inside (m_cells h) q.1 q.2 ->
        exists jr, jr ∈ l /\ q ∈ m_coords jr.2 /\ region h' q.1 q.2 = Some jr.1).
Proof.
  revert h. induction l as [|ir l IH]; intros h; simpl.
  { split; [done|]. split; [done|]. split; [done|]. split; [apply same_frame_refl|].
    split; [done|]. split; [by left|]. by intros ir q ?%not_elem_of_nil. }
  set (h1 := foldl (fun h' k => set_region h' k.1 k.2 (Some ir.1)) h (m_coords ir.2)).
  destruct (IH h1) as (Hc & Hr & Hs & Hf & Hi & Hreg & Hcov).
  split; [|split; [|split; [|split; [|split; [|split]]]]].
  - intros x y. rewrite Hc. apply cell_set_regions.
  - rewrite Hr. apply m_regions_set_regions.
  - rewrite Hs. apply m_sitrep_set_regions.
  - eapply same_frame_trans; [apply same_frame_set_regions|done].
  - intros x y. rewrite Hi. apply inside_set_regions.
  - intros q. destruct (Hreg q) as [E | (jr & Hjr & Hq & E)].
    + rewrite E. destruct (decide (q ∈ m_coords ir.2)) as [Hq|Hq].
      * destruct (region_set_regions h ir.1 (m_coords ir.2) q.1 q.2) as [E'|E'];
          [by left|]. right. exists ir. split; [by left|done].
      * left. by apply region_set_regions_ne.
    + right. exists jr. split; [by right|done].
  - intros jr q Hjr Hq Hin. destruct (Hreg q) as [E | (kr & Hkr & Hq' & E)].
    + apply elem_of_cons in Hjr as [-> | Hjr].
      * exists ir. split; [by left|]. split; [done|]. rewrite E.
        by apply region_set_regions_in.
      * destruct (Hcov jr q Hjr Hq) as (kr & ? & ? & ?); [by apply inside_set_regions|].
        exists kr. split; [by right|done].
    + exists kr. split; [by right|done].
Qed.

(** X21.  The private copy constructor: the copy has the cell states, the
    regions, the situation, the sizes and the generator of the original, and
    an empty output; every cell of a region designates, in the copy, a region
    that contains it. *)
Theorem Grid_copy_spec g :
  let c := Grid_copy g in
  (forall x y, cell c x y = cell g x y)
  /\ m_regions c = m_regions g
  /\ m_output c = []
  /\ m_sitrep c = m_sitrep g /\ m_prng c = m_prng g
  /\ m_width c = m_width g /\ m_height c = m_height g
  /\ m_total_black c = m_total_black g
  /\ (forall i r q, m_regions g !! i = Some r -> q ∈ m_coords r ->
        inside (m_cells g) q.1 q.2 ->
        exists j r', m_regions g !! j = Some r' /\ q ∈ m_coords r'
                     /\ region c q.1 q.2 = Some j).
Proof.
  intros c. unfold c, Grid_copy.
  destruct (copy_fold (regions (with_output g [])) (with_output g []))
    as (Hc & Hr & Hs & (Hw & Hh & Ht & Ho & Hp) & Hi & Hreg & Hcov).
  split; [done|]. split; [done|]. split; [done|]. split; [done|]. split; [done|].
  split; [done|]. split; [done|]. split; [done|].
  intros i r q Hir Hq Hin.
  destruct (Hcov (i, r) q) as ([j r'] & Hj & Hq' & E); [by apply elem_of_map_to_list|done|done|].
  exists j, r'. split; [by apply elem_of_map_to_list in Hj|done].
Qed.

End CopyMore.

(** ** The order of the guesses *)

Section GuessingOrder.

Context {PRNG : Type}.
Variable random_shuffle : PRNG -> list (Z * Z * Z) -> list (Z * Z * Z) * PRNG.
Implicit Types (g h : Grid PRNG) (p q : coord) (t e : Z * Z * Z).

Lemma stable_insert_perm e (l : list (Z * Z * Z)) : stable_insert e l ≡ₚ e :: l.
Proof.
  induction l as [|h l IH]; simpl; [done|].
  destruct (e.2 <? h.2); [done|]. rewrite IH. apply Permutation_swap.
Qed.

Lemma stable_sort_perm (l : list (Z * Z * Z)) : stable_sort l ≡ₚ l.
Proof.
  unfold stable_sort.
  assert (H : forall acc, foldl (fun acc e => stable_insert e acc) acc l ≡ₚ l ++ acc).
  { induction l as [|e l IH]; intros acc; simpl; [done|].
    rewrite IH, stable_insert_perm. by rewrite Permutation_middle. }
  by rewrite H, app_nil_r.
Qed.

Lemma stable_insert_sorted e (l : list (Z * Z * Z)) :
  StronglySorted (fun a b => a.2 <= b.2) l ->
  StronglySorted (fun a b => a.2 <= b.2) (stable_insert e l).
Proof.
  induction 1 as [|h l Hs IH Hh]; simpl; [by repeat constructor|].
  destruct (e.2 <? h.2) eqn:E.
  - apply Z.ltb_lt in E. constructor; [by constructor|].
    constructor; [lia|]. eapply Forall_impl; [done|]. simpl. intros; lia.
  - apply Z.ltb_ge in E. constructor; [done|].
    rewrite stable_insert_perm. by constructor.
Qed.

Lemma stable_sort_sorted (l : list (Z * Z * Z)) :
  StronglySorted (fun a b => a.2 <= b.2) (stable_sort l).
Proof.
  unfold stable_sort.
  assert (H : forall acc, StronglySorted (fun a b : Z * Z * Z => a.2 <= b.2) acc ->
    StronglySorted (fun a b => a.2 <= b.2) (foldl (fun acc e => stable_insert e acc) acc l)).
  { induction l as [|e l IH]; intros acc Hacc; simpl; [done|].
    by apply IH, stable_insert_sorted. }
  apply H. constructor.
Qed.

Lemma StronglySorted_fmap {A B} (R : A -> A -> Prop) (R' : B -> B -> Prop) (f : A -> B)
  (l : list A) :
  (forall a b, a ∈ l -> b ∈ l -> R a b -> R' (f a) (f b)) ->
  StronglySorted R l -> StronglySorted R' (f <$> l).
Proof.
  intros Hf Hs. induction Hs as [|a l Hs IH Ha]; simpl; [constructor|].
  constructor.
  - apply IH. intros b c Hb Hc. apply Hf; by right.
  - apply Forall_fmap. apply Forall_forall. intros b Hb. simpl.
    apply Hf; [by left|by right|]. rewrite Forall_forall in Ha. by apply Ha.
Qed.

Lemma elem_of_unknown_cells g t :
  t ∈ unknown_cells g
  <-> valid g t.1.1 t.1.2 = true /\ cell g t.1.1 t.1.2 = UNKNOWN
      /\ t.2 = m_width g + m_height g.
Proof.
  unfold unknown_cells. rewrite list_elem_of_omap. split.
  - intros ([x y] & Hp & Ht). simpl in Ht.
    destruct (cell g x y =? UNKNOWN) eqn:E; [|done]. injection Ht as <-. simpl.
    apply Z.eqb_eq in E. split; [|done].
    apply elem_of_xy_range in Hp. unfold valid. simpl in Hp.
    repeat (apply andb_true_intro; split); lia.
  - destruct t as [[x y] d]. simpl. intros (Hv & Hc & ->). exists (x, y).
    split; [by apply (valid_xy_range g (x, y))|]. simpl. by rewrite Hc.
Qed.

Lemma NoDup_unknown_cells g : NoDup (fst <$> unknown_cells g).
Proof.
  unfold unknown_cells.
  pose proof (NoDup_xy_range (m_width g) (m_height g)) as Hnd.
  induction Hnd as [|[x y] l Hp Hnd IH]; simpl; [constructor|].
  destruct (cell g x y =? UNKNOWN); [|done]. simpl. constructor; [|done].
  intros ([[x' y'] d] & [= <- <-] & Hin)%list_elem_of_fmap.
  apply list_elem_of_omap in Hin as ([x'' y''] & Hin & Ht). simpl in Ht.
  destruct (cell g x'' y'' =? UNKNOWN); [|done]. by injection Ht as -> -> _.
Qed.

Section Shuffled.

Hypothesis random_shuffle_perm : forall s l, (random_shuffle s l).1 ≡ₚ l.

(** X22.  [guessing_order] returns every unknown cell of the grid exactly
    once ([random_shuffle] permutes its argument), and changes nothing in
    the grid but the state of the generator. *)
Theorem guessing_order_unknowns g :
  let res := guessing_order random_shuffle g in
  NoDup res.1
  /\ (forall p, p ∈ res.1 <-> valid g p.1 p.2 = true /\ cell g p.1 p.2 = UNKNOWN)
  /\ m_cells res.2 = m_cells g /\ m_regions res.2 = m_regions g
  /\ m_sitrep res.2 = m_sitrep g /\ m_output res.2 = m_output g
  /\ m_width res.2 = m_width g /\ m_height res.2 = m_height g
  /\ m_total_black res.2 = m_total_black g.
Proof.
  intros res. unfold res, guessing_order.
  match goal with |- context [random_shuffle (m_prng g) ?l] =>
    change l with (unknown_cells g) end.
  pose proof (random_shuffle_perm (m_prng g) (unknown_cells g)) as Hperm.
  destruct (random_shuffle (m_prng g) (unknown_cells g)) as [shuffled prng]. simpl in *.
  assert (Hres : forall near : Z * Z * Z -> Z,
            fst <$> stable_sort ((fun t => (t.1, near t)) <$> shuffled)
            ≡ₚ fst <$> unknown_cells g).
  { intros near. rewrite stable_sort_perm, <- list_fmap_compose, <- Hperm. done. }
  split; [|split; [|by repeat split]].
  - rewrite Hres. apply NoDup_unknown_cells.
  - intros p. rewrite Hres, list_elem_of_fmap. split.
    + intros (t & -> & (Hv & Hc & _)%elem_of_unknown_cells). done.
    + intros [Hv Hc]. exists (p, m_width g + m_height g). split; [done|].
      apply elem_of_unknown_cells. by destruct p.
Qed.

(** X23.  The cells of [guessing_order] come in the order of their distance
    to the nearest white cell: a cell is never followed by one that is
    strictly nearer to a white cell. *)
Theorem guessing_order_sorted g :
  StronglySorted (fun p q => white_distance g p <= white_distance g q)
                 (guessing_order random_shuffle g).1.
Proof.
  unfold guessing_order.
  match goal with |- context [random_shuffle (m_prng g) ?l] =>
    change l with (unknown_cells g) end.
  pose proof (random_shuffle_perm (m_prng g) (unknown_cells g)) as Hperm.
  destruct (random_shuffle (m_prng g) (unknown_cells g)) as [shuffled prng]. simpl in *.
  eapply (StronglySorted_fmap (fun a b : Z * Z * Z => a.2 <= b.2)); [|apply stable_sort_sorted].
  assert (Hd : forall t, t ∈ stable_sort ((fun t0 : Z * Z * Z =>
                 (t0.1, foldl (fun manhattan k =>
                    let d := Z.abs (t0.1.1 - k.1) + Z.abs (t0.1.2 - k.2) in
                    if d <? manhattan then d else manhattan) t0.2
                    (List.filter (fun p => cell g p.1 p.2 =? WHITE)
                       (xy_range (m_width g) (m_height g))))) <$> shuffled) ->
               t.2 = white_distance g t.1).
  { intros t. rewrite stable_sort_perm, list_elem_of_fmap.
    intros (t0 & -> & Ht0). rewrite Hperm in Ht0.
    apply elem_of_unknown_cells in Ht0 as (_ & _ & Hd). simpl. rewrite Hd. done. }
  intros a b Ha Hb. by rewrite (Hd a Ha), (Hd b Hb).
Qed.

End Shuffled.

End GuessingOrder.

(** ** Progress of a step of analysis *)

Section Progress.

Context {PRNG : Type}.
Implicit Types (g h : Grid PRNG) (p q : coord).

Lemma shape_moved (strict : bool) g g' : moved strict g g' -> shape g -> shape g'.
Proof.
  intros (Hw & Hh & Hi & _) Hs x y Hin. unfold valid. rewrite Hw, Hh.
  apply Hs. by apply Hi.
Qed.

Lemma moved_refl g : moved false g g.
Proof.
  split; [done|]. split; [done|]. split; [done|]. right. split; [done|]. intros _. lia.
Qed.

Lemma moved_weaken (strict : bool) g g' : moved strict g g' -> moved false g g'.
Proof.
  intros (Hw & Hh & Hi & Hs). split; [done|]. split; [done|]. split; [done|].
  destruct Hs as [?|[? Hk]]; [by left|right]. split; [done|].
  intros Hsh. specialize (Hk Hsh). destruct strict; lia.
Qed.

Lemma moved_trans (s1 s2 : bool) g g1 g2 :
  moved s1 g g1 -> moved s2 g1 g2 -> moved (s1 || s2) g g2.
Proof.
  intros H1 H2. pose proof (shape_moved s1 g g1 H1) as Hsh.
  destruct H1 as (Hw & Hh & Hi & Hs), H2 as (Hw' & Hh' & Hi' & Hs').
  split; [congruence|]. split; [congruence|]. split; [intros x y; by rewrite Hi', Hi|].
  destruct Hs' as [?|[E' Hk']]; [by left|].
  destruct Hs as [E|[E Hk]]; [left; congruence|right].
  split; [congruence|]. intros Hshape.
  specialize (Hk Hshape). specialize (Hk' (Hsh Hshape)).
  destruct s1, s2; simpl; lia.
Qed.

Lemma known_same_cells g g' :
  m_cells g' = m_cells g -> m_width g' = m_width g -> m_height g' = m_height g ->
  known g' = known g.
Proof. intros Hc Hw Hh. unfold known, cell. by rewrite Hc, Hw, Hh. Qed.

Lemma same_board_moved g g' : same_board g g' -> moved false g g'.
Proof.
  intros (Hc & _ & Hs & Hw & Hh & _). split; [done|]. split; [done|].
  split; [by rewrite Hc|]. right. split; [done|]. intros _.
  pose proof (known_same_cells g g' Hc Hw Hh). lia.
Qed.

Lemma mark_moved g (s : State) (x y : Z) g' :
  mark g s x y = Ok g' -> moved (bool_decide (cell g x y = UNKNOWN)) g g'.
Proof.
  intros Hm. destruct (same_frame_mark g s x y g' Hm) as (Hw & Hh & _).
  split; [done|]. split; [done|]. split; [intros x' y'; by eapply mark_inside|].
  destruct (mark_sitrep_step g s x y g' Hm) as [E|E]; [right|by left].
  split; [done|]. intros Hsh. case_bool_decide as Hc.
  - pose proof (mark_unknown _ _ _ _ _ Hm Hc) as (Hin & _).
    rewrite (known_mark_unknown g s x y g' Hm); [lia|by apply Hsh|done].
  - apply mark_known in Hm as ->; [|done].
    pose proof (known_same_cells g (with_sitrep g CONTRADICTION_FOUND) eq_refl eq_refl eq_refl).
    lia.
Qed.

Lemma mark_all_moved g (s : State) (ps : list coord) g' :
  mark_all g s ps = Ok g' ->
  moved false g g'
  /\ (ps <> [] -> moved true g g').
Proof.
  revert g. induction ps as [|u ps IH]; intros g.
  { intros [= <-]. split; [apply moved_refl|done]. }
  rewrite mark_all_cons. destruct (mark g s u.1 u.2) as [h| |] eqn:Em; simpl; try done.
  intros Hall. destruct (IH h Hall) as [IH1 _].
  pose proof (mark_moved g s u.1 u.2 h Em) as Hm.
  split; [apply (moved_trans false false g h g'); [by eapply moved_weaken|done]|].
  intros _. case_bool_decide as Hc.
  - apply (moved_trans true false g h g'); done.
  - (* the cell was known: the contradiction is remembered *)
    destruct IH1 as (Hw & Hh & Hi & _), Hm as (Hw' & Hh' & Hi' & _).
    split; [congruence|]. split; [congruence|]. split; [intros x y; by rewrite Hi, Hi'|].
    left. apply (mark_all_contradiction h s ps g' Hall). left.
    by apply mark_known in Em as ->.
Qed.

Lemma moved_print (strict : bool) g g' (t : string) (u : CoordSet.t) (n : Z) (fc : CoordSet.t) :
  moved strict g g' -> moved strict g (print g' t u n fc).
Proof.
  intros (Hw & Hh & Hi & Hs). split; [done|]. split; [done|]. split; [done|].
  destruct Hs as [?|[? Hk]]; [by left|right]. split; [done|].
  intros Hsh. specialize (Hk Hsh).
  pose proof (known_same_cells g' (print g' t u n fc) eq_refl eq_refl eq_refl) as E.
  rewrite E. done.
Qed.

(** A step of analysis through [process]: no change, or an advance. *)
Lemma process_moved g (verbose : bool) (mb mw : CoordSet.t) (s : string) (n : Z)
  (fc : CoordSet.t) (b : bool) g' :
  process g verbose mb mw s n fc = Ok (b, g') ->
  if b then moved true g g' else g' = g.
Proof.
  unfold process. destruct (CoordSet.is_empty mb && CoordSet.is_empty mw) eqn:E.
  { by intros [= <- <-]. }
  destruct (mark_all g BLACK mb) as [g1| |] eqn:Hg1; simpl; try done.
  destruct (mark_all g1 WHITE mw) as [g2| |] eqn:Hg2; simpl; try done.
  intros [= <- <-].
  destruct (mark_all_moved g BLACK mb g1 Hg1) as [H1 H1'].
  destruct (mark_all_moved g1 WHITE mw g2 Hg2) as [H2 H2'].
  assert (H : moved true g g2).
  { destruct mb as [|u mb].
    - destruct mw as [|v mw]; [done|].
      apply (moved_trans false true g g1 g2); [done|by apply H2'].
    - apply (moved_trans true false g g1 g2); [by apply H1'|done]. }
  destruct verbose; [by apply moved_print|done].
Qed.

Lemma detect_contradictions_moved (fuel : nat) g (verbose : bool)
  (cache cache' : cache_map_t) (b : bool) g' :
  detect_contradictions fuel g verbose cache = Ok (b, g', cache') ->
  if b then moved true g g' /\ m_sitrep g' = CONTRADICTION_FOUND
            /\ m_cells g' = m_cells g /\ m_regions g' = m_regions g
  else g' = g.
Proof.
  assert (Huh : forall s, moved true g (uh_oh g verbose s)
            /\ m_sitrep (uh_oh g verbose s) = CONTRADICTION_FOUND
            /\ m_cells (uh_oh g verbose s) = m_cells g
            /\ m_regions (uh_oh g verbose s) = m_regions g).
  { intros s. destruct (uh_oh_spec g verbose s) as (Hc & Hr & Hs & _).
    split; [|done]. split; [unfold uh_oh; by destruct verbose|].
    split; [unfold uh_oh; by destruct verbose|]. split; [by rewrite Hc|]. by left. }
  unfold detect_contradictions.
  destruct (existsb _ _); [intros [= <- <- <-]; apply Huh|].
  destruct (detect_regions _ _ _ _ _ _) as [[[[found bc] wc] c]| |]; simpl; try done.
  destruct found as [s|]; [intros [= <- <- <-]; apply Huh|].
  destruct (_ <? bc); [intros [= <- <- <-]; apply Huh|].
  destruct (_ <? wc); [intros [= <- <- <-]; apply Huh|].
  by intros [= <- <- <-].
Qed.

End Progress.

(** ** [solve] and the loop of [main] *)

Section SolveMore.

Context {PRNG : Type}.
Variable random_shuffle : PRNG -> list (Z * Z * Z) -> list (Z * Z * Z) * PRNG.
Implicit Types (g h : Grid PRNG) (p q : coord).

Lemma guessing_order_board g : same_board g (guessing_order random_shuffle g).2.
Proof.
  unfold guessing_order. destruct (random_shuffle _ _) as [shuffled prng]. simpl.
  by repeat split.
Qed.

Lemma hypotheticals_loop_moved (fuel : nat) g (verbose : bool) (todo : list (coord * State))
  (n : Z) (fc : CoordSet.t) (b : bool) g' :
  hypotheticals_loop fuel g verbose todo n fc = Ok (b, g') ->
  if b then moved true g g' else g' = g.
Proof.
  revert n fc. induction todo as [|[p c] todo IH]; intros n fc; simpl.
  { by intros [= <- <-]. }
  destruct (hypothesize fuel g c p.1 p.2) as [sr| |]; simpl; try done.
  destruct sr; try apply IH; apply process_moved.
Qed.

Lemma analyze_hypotheticals_moved (fuel : nat) g (verbose : bool) (b : bool) g' :
  analyze_hypotheticals random_shuffle fuel g verbose = Ok (b, g') ->
  if b then moved true g g' else same_board g g'.
Proof.
  unfold analyze_hypotheticals.
  pose proof (guessing_order_board g) as Hb.
  destruct (guessing_order random_shuffle g) as [v g0]. simpl in Hb.
  intros Hloop%hypotheticals_loop_moved. destruct b; [|by subst].
  apply (moved_trans false true g g0 g'); [by apply same_board_moved|done].
Qed.

(** X24.  When every guess of the hypothetical search ends with
    [CANNOT_PROCEED], the search answers "no change": nothing is marked and,
    even if verbose, nothing is printed; only the generator has advanced. *)
Theorem hypotheticals_none_decisive (fuel : nat) g (verbose : bool) :
  let res := guessing_order random_shuffle g in
  Forall (fun qc => hypothesize fuel res.2 qc.2 qc.1.1 qc.1.2 = Ok CANNOT_PROCEED)
         (guesses res.1) ->
  analyze_hypotheticals random_shuffle fuel g verbose = Ok (false, res.2)
  /\ m_cells res.2 = m_cells g /\ m_regions res.2 = m_regions g
  /\ m_sitrep res.2 = m_sitrep g /\ m_output res.2 = m_output g.
Proof.
  intros res Hall. split.
  - unfold analyze_hypotheticals. unfold res in Hall.
    destruct (guessing_order random_shuffle g) as [v g0]. simpl in Hall.
    rewrite <- (app_nil_r (guesses v)).
    by rewrite (hypotheticals_loop_skip fuel g0 verbose (guesses v) []).
  - unfold res, guessing_order. destruct (random_shuffle _ _) as [shuffled prng]. done.
Qed.

(** The steps of [solve] before the hypothetical search. *)
Lemma or_else_moved (a : result (bool * Grid PRNG)) (k : Grid PRNG -> result (bool * Grid PRNG))
  g (b : bool) g' :
  (forall b g', a = Ok (b, g') -> if b then moved true g g' else g' = g) ->
  (forall b g', k g = Ok (b, g') -> if b then moved true g g' else same_board g g') ->
  or_else a k = Ok (b, g') ->
  if b then moved true g g' else same_board g g'.
Proof.
  intros Ha Hk. unfold or_else. destruct a as [[ba ga]| |]; simpl; try done.
  specialize (Ha ba ga eq_refl). destruct ba; simpl.
  - by intros [= <- <-].
  - subst ga. apply Hk.
Qed.

Lemma same_board_refl g : same_board g g.
Proof. by repeat split. Qed.

Lemma solve_with_cases (hyp : nat -> Grid PRNG -> bool -> result (bool * Grid PRNG))
  (fuel : nat) g (verbose guessing : bool) (sr : SitRep) g' :
  (forall g b g', hyp fuel g verbose = Ok (b, g') ->
                  if b then moved true g g' else same_board g g') ->
  solve_with hyp fuel g verbose guessing = Ok (sr, g') ->
  (known g = m_width g * m_height g
   /\ exists (b : bool) gd c, detect_contradictions fuel g verbose ∅ = Ok (b, gd, c)
        /\ sr = (if b then CONTRADICTION_FOUND else SOLUTION_FOUND)
        /\ m_cells g' = m_cells gd /\ m_regions g' = m_regions gd
        /\ m_sitrep g' = m_sitrep gd)
  \/ (known g <> m_width g * m_height g
      /\ ((moved true g g' /\ sr = m_sitrep g')
          \/ (sr = CANNOT_PROCEED /\ same_board g g'))).
Proof.
  intros Hhyp. unfold solve_with.
  destruct (known g =? m_width g * m_height g) eqn:Ek.
  { apply Z.eqb_eq in Ek. intros H. left. split; [done|].
    destruct (detect_contradictions fuel g verbose ∅) as [[[b gd] c]| |] eqn:Ed;
      simpl in H; try done.
    exists b, gd, c. split; [done|]. destruct b; simpl in H.
    - by injection H as <- <-.
    - injection H as <- <-. split; [done|]. by destruct verbose. }
  apply Z.eqb_neq in Ek. intros H. right. split; [done|]. revert H.
  match goal with |- mbind _ ?chain = _ -> _ =>
    destruct chain as [[b r]| |] eqn:Hchain end; simpl; try done.
  assert (Hr : if b then moved true g r else same_board g r).
  { revert Hchain.
    apply or_else_moved; [apply process_moved|]. clear b r. intros b r.
    apply or_else_moved; [apply process_moved|]. clear b r. intros b r.
    apply or_else_moved; [apply process_moved|]. clear b r. intros b r.
    apply or_else_moved.
    { intros b0 g0. unfold analyze_unreachable_cells.
      destruct (unreachable_cells_marks fuel g) as [ms| |]; simpl; try done.
      apply process_moved. }
    clear b r. intros b r.
    apply or_else_moved.
    { intros b0 g0. unfold analyze_potential_pools.
      destruct (potential_pools_marks fuel g) as [ms| |]; simpl; try done.
      apply process_moved. }
    clear b r. intros b r.
    destruct (detect_contradictions fuel g verbose ∅) as [[[bd gd] cd]| |] eqn:Ed;
      simpl; try done.
    apply detect_contradictions_moved in Ed. destruct bd; simpl.
    { intros [= <- <-]. apply Ed. }
    subst gd. unfold analyze_confinement.
    destruct (confinement_marks fuel g cd) as [[[mb mw] c']| |]; simpl; try done.
    destruct (process g verbose mb mw _ 0 CoordSet.empty) as [[bp gp]| |] eqn:Ep;
      simpl; try done.
    apply process_moved in Ep. destruct bp; simpl.
    { by intros [= <- <-]. }
    subst gp. destruct guessing; [apply Hhyp|].
    intros [= <- <-]. apply same_board_refl. }
  destruct b; simpl.
  - intros [= <- <-]. by left.
  - intros [= <- <-]. right. split; [done|]. by destruct verbose.
Qed.

Lemma solve_cases (fuel : nat) g (verbose guessing : bool) (sr : SitRep) g' :
  solve random_shuffle fuel g verbose guessing = Ok (sr, g') ->
  (known g = m_width g * m_height g
   /\ exists (b : bool) gd c, detect_contradictions fuel g verbose ∅ = Ok (b, gd, c)
        /\ sr = (if b then CONTRADICTION_FOUND else SOLUTION_FOUND)
        /\ m_cells g' = m_cells gd /\ m_regions g' = m_regions gd
        /\ m_sitrep g' = m_sitrep gd)
  \/ (known g <> m_width g * m_height g
      /\ ((moved true g g' /\ sr = m_sitrep g')
          \/ (sr = CANNOT_PROCEED /\ same_board g g'))).
Proof.
  apply solve_with_cases. intros g0 b g0'. apply analyze_hypotheticals_moved.
Qed.

(** X25.  When [solve] answers [CANNOT_PROCEED] it has changed no cell, no
    region and not the situation; and it only gives this answer on a grid
    that still has unknown cells. *)
Theorem solve_cannot_proceed (fuel : nat) g (verbose guessing : bool) g' :
  m_sitrep g <> CANNOT_PROCEED ->
  solve random_shuffle fuel g verbose guessing = Ok (CANNOT_PROCEED, g') ->
  m_cells g' = m_cells g /\ m_regions g' = m_regions g /\ m_sitrep g' = m_sitrep g
  /\ known g <> m_width g * m_height g.
Proof.
  intros Hs [(_ & b & gd & c & _ & Hsr & _) | (Hk & [[Hm Hsr] | [_ Hb]])]%solve_cases.
  - by destruct b.
  - destruct Hm as (_ & _ & _ & [E | [E _]]); congruence.
  - destruct Hb as (? & ? & ? & _). done.
Qed.

(** X26.  A call of [solve] that answers [KEEP_GOING] has made progress:
    on a grid whose array has the size of the grid, the number of known
    cells has grown, and the array still has that size. *)
Theorem solve_keep_going_progress (fuel : nat) g (verbose guessing : bool) g' :
  shape g ->
  solve random_shuffle fuel g verbose guessing = Ok (KEEP_GOING, g') ->
  known g < known g' /\ shape g'
  /\ m_width g' = m_width g /\ m_height g' = m_height g.
Proof.
  intros Hsh [(_ & b & gd & c & _ & Hsr & _) | (Hk & [[Hm Hsr] | [? _]])]%solve_cases;
    [by destruct b| |done].
  pose proof (shape_moved true g g' Hm Hsh) as Hsh'.
  destruct Hm as (Hw & Hh & _ & [E | [_ Hlt]]); [congruence|].
  split; [by apply Hlt|done].
Qed.

(** X27.  [solve] announces a solution only for a grid without unknown
    cell on which [detect_contradictions] finds nothing, and it leaves the
    cells, the regions and the situation of that grid as they are. *)
Theorem solve_solution_found (fuel : nat) g (verbose guessing : bool) g' :
  m_sitrep g <> SOLUTION_FOUND ->
  solve random_shuffle fuel g verbose guessing = Ok (SOLUTION_FOUND, g') ->
  known g = m_width g * m_height g
  /\ (exists c, detect_contradictions fuel g verbose ∅ = Ok (false, g, c))
  /\ m_cells g' = m_cells g /\ m_regions g' = m_regions g /\ m_sitrep g' = m_sitrep g.
Proof.
  intros Hs [(Hk & b & gd & c & Hd & Hsr & Hc & Hr & Hsit) | (_ & [[Hm Hsr] | [? _]])]%solve_cases;
    [| |done].
  - destruct b; [done|]. pose proof (detect_contradictions_moved _ _ _ _ _ _ _ Hd) as ->.
    split; [done|]. split; [by exists c|done].
  - destruct Hm as (_ & _ & _ & [E | [E _]]); congruence.
Qed.

(** More iterations than the grid has unknown cells change nothing. *)
Lemma solve_loop_more (n m fuel : nat) g :
  shape g -> 0 <= m_width g -> 0 <= m_height g ->
  m_width g * m_height g - known g < Z.of_nat n ->
  (n <= m)%nat ->
  solve_loop random_shuffle m fuel g = solve_loop random_shuffle n fuel g.
Proof.
  revert m g. induction n as [|n IH]; intros m g Hsh Hw Hh Hn Hm.
  { change (known g) with (count_known g 0 (xy_range (m_width g) (m_height g))) in Hn.
    pose proof (count_known_bounds g 0 (xy_range (m_width g) (m_height g))) as Hb.
    rewrite length_xy_range in Hb by done. lia. }
  destruct m as [|m]; [lia|]. simpl.
  destruct (solve random_shuffle fuel g true true) as [[sr g']| |] eqn:Es; simpl; try done.
  destruct sr; simpl; try done.
  apply solve_cases in Es
    as [(_ & b & gd & c & _ & Hsr & _) | (Hk & [[Hmv Hsr] | [? _]])];
    [by destruct b| |done].
  pose proof (shape_moved true g g' Hmv Hsh) as Hsh'.
  destruct Hmv as (Hw' & Hh' & _ & [E | [_ Hlt]]); [congruence|].
  specialize (Hlt Hsh). apply IH; [done|lia|lia| |lia]. rewrite Hw', Hh'. lia.
Qed.

End SolveMore.

(** ** The loops of the constructor *)

Lemma wrap_int_range (z : Z) : -2147483648 <= wrap_int z <= 2147483647.
Proof. unfold wrap_int. pose proof (Z.mod_pos_bound (z + 2147483648) 4294967296). lia. Qed.

Lemma wrap_int_small (z : Z) : -2147483648 <= z <= 2147483647 -> wrap_int z = z.
Proof. intros Hz. unfold wrap_int. rewrite Z.mod_small; lia. Qed.

Lemma wrap_int_sub (a b : Z) : wrap_int (wrap_int a - b) = wrap_int (a - b).
Proof.
  unfold wrap_int. f_equal.
  replace ((a + 2147483648) mod 4294967296 - 2147483648 - b + 2147483648)
    with ((a + 2147483648) mod 4294967296 + (- b)) by lia.
  rewrite Zplus_mod_idemp_l. f_equal. lia.
Qed.

Section ConstructionMore.

Context {PRNG : Type}.
Implicit Types (g h : Grid PRNG) (p q : coord) (v : list Z).

Lemma for_each_app {A B} (l1 l2 : list B) (a : A) (body : A -> B -> result A) :
  for_each (l1 ++ l2) a body = for_each l1 a body ≫= λ a', for_each l2 a' body.
Proof.
  revert a. induction l1 as [|x l1 IH]; intros a; simpl; [done|].
  destruct (body a x) as [a0| |]; simpl; [apply IH|done|done].
Qed.

Lemma for_each_ext {A B} (l : list B) (a : A) (b1 b2 : A -> B -> result A) :
  (forall a x, b1 a x = b2 a x) -> for_each l a b1 = for_each l a b2.
Proof.
  intros Hb. revert a. induction l as [|x l IH]; intros a; simpl; [done|].
  rewrite Hb. destruct (b2 a x); simpl; [apply IH|done|done].
Qed.

Lemma for_each_bind {A B C} (l : list C) (f : C -> list B) (a : A)
  (body : A -> B -> result A) :
  for_each (l ≫= f) a body = for_each l a (fun a x => for_each (f x) a body).
Proof.
  revert a. induction l as [|x l IH]; intros a; [done|].
  change ((x :: l) ≫= f) with (f x ++ (l ≫= f)). rewrite for_each_app. simpl.
  destruct (for_each (f x) a body); simpl; [apply IH|done|done].
Qed.

(** The two nested loops of the constructor visit the cells in the order of
    [xy_range]. *)
Lemma constructor_loops v (w h : Z) g :
  for_each (seqZ 0 w) g (fun g x => for_each (seqZ 0 h) g (fun h' y => place_clue v h' (x, y)))
  = for_each (xy_range w h) g (place_clue v).
Proof.
  unfold xy_range. rewrite for_each_bind. apply for_each_ext. intros a x.
  rewrite for_each_bind. apply for_each_ext. intros a' y. simpl.
  by destruct (place_clue v a' (x, y)).
Qed.

Lemma place_clue_result v g p g' :
  inside (m_cells g) p.1 p.2 ->
  place_clue v g p = Ok g' ->
  let n := entry v (p.1 + p.2 * m_width g) in
  m_width g' = m_width g /\ m_height g' = m_height g
  /\ (forall x y, inside (m_cells g') x y <-> inside (m_cells g) x y)
  /\ m_sitrep g' = m_sitrep g /\ m_output g' = m_output g
  /\ (forall q, cell g' q.1 q.2
                = if bool_decide (q = p /\ 0 < n) then n else cell g q.1 q.2)
  /\ m_total_black g' = (if 0 <? n then wrap_int (m_total_black g - n) else m_total_black g)
  /\ (forall q, q <> p -> region g' q.1 q.2 = region g q.1 q.2)
  /\ (n <= 0 -> g' = g)
  /\ (0 < n -> exists r, m_regions g !! fresh_rid g = None
        /\ m_regions g' = <[fresh_rid g := r]> (m_regions g)
        /\ m_state r = n /\ m_coords r = [p]
        /\ region g' p.1 p.2 = Some (fresh_rid g)).
Proof.
  intros Hin Hrun n. unfold place_clue in Hrun. fold n in Hrun.
  destruct (0 <? n) eqn:Hn.
  2: { apply Z.ltb_ge in Hn. injection Hrun as <-.
       split; [done|]. split; [done|]. split; [done|]. split; [done|]. split; [done|].
       split; [|split; [done|split; [done|split; [done|lia]]]].
       intros q. rewrite bool_decide_eq_false_2; [done|]. intros [_ ?]. lia. }
  apply Z.ltb_lt in Hn.
  destruct (valid g p.1 (p.2 - 1) && (0 <? cell g p.1 (p.2 - 1))); [done|].
  assert (Hcell : cell (set_cell g p.1 p.2 n) p.1 p.2 = n).
  { unfold cell, set_cell. simpl. by rewrite cells_get_alter_eq. }
  unfold add_region, Reg.make in Hrun. rewrite Hcell in Hrun.
  replace (n =? UNKNOWN) with false in Hrun
    by (symmetry; apply Z.eqb_neq; unfold UNKNOWN; lia).
  simpl in Hrun. injection Hrun as <-. simpl.
  split; [done|]. split; [done|]. split; [intros x y; by rewrite !inside_alter|].
  split; [done|]. split; [done|]. split; [|split; [done|split; [|split; [lia|]]]].
  - intros [x' y']. unfold cell. simpl. rewrite cells_get_alter_fst by done.
    case_bool_decide as Hd.
    + destruct Hd as [<- _]. simpl. by rewrite cells_get_alter_eq.
    + rewrite cells_get_alter_ne; [done|]. intros E. apply Hd. destruct p. simpl in *.
      split; [congruence|done].
  - intros [x' y'] Hne. unfold region. simpl.
    rewrite cells_get_alter_ne by (destruct p; simpl in *; congruence).
    apply (region_set_cell g p.1 p.2 n x' y').
  - intros _. eexists. split; [|split; [done|split; [done|split]]].
    + apply not_elem_of_dom. apply is_fresh.
    + by destruct p.
    + unfold region. simpl. rewrite cells_get_alter_eq; [done|]. by apply inside_alter.
Qed.

Lemma place_clues_result v (l : list coord) g g' :
  NoDup l ->
  (forall p, p ∈ l -> inside (m_cells g) p.1 p.2) ->
  for_each l g (place_clue v) = Ok g' ->
  let n p := entry v (p.1 + p.2 * m_width g) in
  m_width g' = m_width g /\ m_height g' = m_height g
  /\ (forall x y, inside (m_cells g') x y <-> inside (m_cells g) x y)
  /\ m_sitrep g' = m_sitrep g /\ m_output g' = m_output g
  /\ (forall q, cell g' q.1 q.2
                = if bool_decide (q ∈ l /\ 0 < n q) then n q else cell g q.1 q.2)
  /\ wrap_int (m_total_black g')
     = wrap_int (m_total_black g
                 - foldr (fun p acc => (if 0 <? n p then n p else 0) + acc) 0 l)
  /\ (wrap_int (m_total_black g) = m_total_black g ->
      wrap_int (m_total_black g') = m_total_black g')
  /\ (forall q, q ∉ l -> region g' q.1 q.2 = region g q.1 q.2)
  /\ (forall i r, m_regions g !! i = Some r -> m_regions g' !! i = Some r)
  /\ (forall q, q ∈ l -> 0 < n q ->
        exists i r, region g' q.1 q.2 = Some i /\ m_regions g' !! i = Some r
          /\ m_regions g !! i = None /\ m_state r = n q /\ m_coords r = [q])
  /\ (forall q, q ∈ l -> n q <= 0 -> region g' q.1 q.2 = region g q.1 q.2)
  /\ (forall i r, m_regions g' !! i = Some r ->
        m_regions g !! i = Some r
        \/ exists q, q ∈ l /\ 0 < n q /\ region g' q.1 q.2 = Some i
             /\ m_state r = n q /\ m_coords r = [q]).
Proof.
  intros Hnd. revert g. induction Hnd as [|p l Hp Hnd IH]; intros g Hin Hrun n.
  { injection Hrun as <-.
    split; [done|]. split; [done|]. split; [done|]. split; [done|]. split; [done|].
    split; [|split; [simpl; f_equal; lia|split; [done|split; [done|split; [done|split;
      [|split; [done|by left]]]]]]].
    - intros q. rewrite bool_decide_eq_false_2; [done|]. by intros [?%not_elem_of_nil _].
    - by intros q ?%not_elem_of_nil. }
  simpl in Hrun. destruct (place_clue v g p) as [g1| |] eqn:E1; simpl in Hrun; try done.
  destruct (place_clue_result v g p g1 (Hin p ltac:(by left)) E1)
    as (Hw1 & Hh1 & Hi1 & Hs1 & Ho1 & Hc1 & Ht1 & Hr1 & Hz1 & Hn1).
  fold (n p) in Hc1, Ht1, Hz1, Hn1.
  destruct (IH g1) as (Hw & Hh & Hi & Hs & Ho & Hc & Ht & Hk & Hr & Hsub & Hnew & Hold & Hall);
    [intros q Hq; apply Hi1, Hin; by right|done|].
  rewrite Hw1 in Hc, Ht, Hnew, Hold, Hall. fold n in Hc, Ht, Hnew, Hold, Hall.
  assert (Hsub1 : forall i r, m_regions g !! i = Some r -> m_regions g1 !! i = Some r).
  { intros i r Hir. destruct (decide (0 < n p)) as [Hpos|Hneg].
    - destruct (Hn1 Hpos) as (r0 & Hfresh & -> & _).
      rewrite lookup_insert_ne; [done|]. intros <-. congruence.
    - rewrite Hz1; [done|lia]. }
  split; [congruence|]. split; [congruence|]. split; [intros x y; by rewrite Hi, Hi1|].
  split; [congruence|]. split; [congruence|].
  split; [|split; [|split; [|split; [|split; [|split; [|split]]]]]].
  - intros q. rewrite Hc, Hc1.
    destruct (decide (q = p)) as [->|Hne].
    + destruct (decide (0 < n p)) as [Hpos|Hneg].
      * rewrite (bool_decide_eq_true_2 (p ∈ p :: l /\ 0 < n p)) by (split; [by left|done]).
        rewrite (bool_decide_eq_true_2 (p = p /\ 0 < n p)) by done.
        by case_bool_decide.
      * rewrite (bool_decide_eq_false_2 (p ∈ p :: l /\ 0 < n p)) by (by intros [_ ?]).
        rewrite (bool_decide_eq_false_2 (p = p /\ 0 < n p)) by (by intros [_ ?]).
        rewrite bool_decide_eq_false_2; [done|]. by intros [_ ?].
    + rewrite (bool_decide_eq_false_2 (q = p /\ 0 < n p)) by (by intros [? _]).
      apply (f_equal (fun b : bool => if b then n q else cell g q.1 q.2)).
      apply bool_decide_ext. rewrite elem_of_cons. tauto.
  - rewrite Ht, Ht1. simpl. fold (n p).
    destruct (0 <? n p); [rewrite wrap_int_sub|]; f_equal; unfold n; lia.
  - intros Hg. apply Hk. rewrite Ht1. destruct (0 <? n p); [|done].
    apply wrap_int_small, wrap_int_range.
  - intros q [Hne Hq]%not_elem_of_cons. rewrite Hr by done. by apply Hr1.
  - intros i r Hir. by apply Hsub, Hsub1.
  - intros q [-> | Hq]%elem_of_cons Hpos.
    + destruct (Hn1 Hpos) as (r & Hfresh & Hreg & Hst & Hco & Hptr).
      exists (fresh_rid g), r. rewrite Hr by done. split; [done|].
      split; [|done]. apply Hsub. rewrite Hreg. apply lookup_insert_eq.
    + destruct (Hnew q Hq Hpos) as (i & r & ? & ? & Hnone & ? & ?).
      exists i, r. split; [done|]. split; [done|]. split; [|done].
      destruct (m_regions g !! i) as [r0|] eqn:E0; [|done].
      by rewrite (Hsub1 i r0 E0) in Hnone.
  - intros q [-> | Hq]%elem_of_cons Hneg.
    + rewrite Hr by done. by rewrite Hz1.
    + rewrite Hold by done. apply Hr1. intros ->. done.
  - intros i r Hir. destruct (Hall i r Hir) as [H1 | (q & Hq & Hpos & ? & ? & ?)].
    + destruct (decide (0 < n p)) as [Hpos|Hneg].
      * destruct (Hn1 Hpos) as (r0 & Hfresh & Hreg & Hst & Hco & Hptr).
        rewrite Hreg in H1. apply lookup_insert_Some in H1 as [[<- <-]|[_ H1]]; [|by left].
        right. exists p. split; [by left|]. split; [done|]. rewrite Hr by done. done.
      * left. rewrite Hz1 in H1; [done|lia].
    + right. exists q. split; [by right|done].
Qed.

End ConstructionMore.

(** ** The grid that the constructor builds *)

Section ConstructorMore.

Context {PRNG : Type}.
Variable mt19937 : Z -> PRNG.
Implicit Types (g h : Grid PRNG) (p q : coord) (v : list Z).

Lemma cells_get_replicate (w h x y : Z) :
  cells_get (replicate (Z.to_nat w) (replicate (Z.to_nat h) (UNKNOWN, None))) x y
  = (UNKNOWN, None).
Proof.
  unfold cells_get. destruct ((0 <=? x) && (0 <=? y)); [|done].
  destruct (replicate (Z.to_nat w) _ !! Z.to_nat x) as [col|] eqn:E; [|done].
  apply lookup_replicate in E as [-> _].
  destruct (replicate (Z.to_nat h) _ !! Z.to_nat y) as [c|] eqn:E2; [|done].
  by apply lookup_replicate in E2 as [-> _].
Qed.

Lemma inside_replicate (w h x y : Z) :
  inside (replicate (Z.to_nat w) (replicate (Z.to_nat h) (UNKNOWN, None))) x y
  <-> 0 <= x < w /\ 0 <= y < h.
Proof.
  unfold inside. split.
  - intros (Hx & Hy & col & Hc & [c Hy']).
    apply lookup_replicate in Hc as [-> ?]. apply lookup_replicate in Hy' as [_ ?]. lia.
  - intros [Hx Hy]. split; [lia|]. split; [lia|].
    exists (replicate (Z.to_nat h) (UNKNOWN, None)).
    split; [apply lookup_replicate_2; lia|].
    apply lookup_lt_is_Some. rewrite length_replicate. lia.
Qed.

Lemma Grid_new_run (w h : Z) (s : string) g :
  Grid_new mt19937 w h s = Ok g ->
  exists v g1,
    parse (tokenize (list_ascii_of_string s)) [] = Ok v
    /\ Z.of_nat (length v) = w * h /\ 1 <= w /\ 1 <= h
    /\ for_each (xy_range w h)
         (mkGrid w h (wrap_int (w * h))
            (replicate (Z.to_nat w) (replicate (Z.to_nat h) (UNKNOWN, None)))
            ∅ KEEP_GOING [] (mt19937 1729))
         (place_clue v) = Ok g1
    /\ g = print g1 "I'm okay to go!" CoordSet.empty 0 CoordSet.empty.
Proof.
  unfold Grid_new.
  destruct (w <? 1) eqn:Ew; [done|]. destruct (h <? 1) eqn:Eh; [done|].
  apply Z.ltb_ge in Ew, Eh.
  destruct (parse _ []) as [v| |]; simpl; [|done|done].
  destruct (Z.of_nat (length v) =? w * h) eqn:Ec; simpl; [|done].
  apply Z.eqb_eq in Ec. rewrite constructor_loops.
  destruct (for_each (xy_range w h) _ (place_clue v)) as [g1| |] eqn:E; simpl; [|done|done].
  intros [= <-]. exists v, g1. by repeat split.
Qed.

Lemma clue_sum_ext (f1 f2 : coord -> Z) (l : list coord) :
  (forall p, p ∈ l -> f1 p = f2 p) ->
  foldr (fun p acc => f1 p + acc) 0 l = foldr (fun p acc => f2 p + acc) 0 l.
Proof.
  induction l as [|p l IH]; intros Hf; simpl; [done|].
  rewrite Hf by (by left). rewrite IH; [done|]. intros q Hq. apply Hf. by right.
Qed.

(** X29.  The grid that the constructor builds.  When [Grid::Grid] returns,
    the string held exactly W * H numbers and spaces, with W and H at least
    1; the grid has this width and this height and its array has exactly
    the cells of the grid; a cell holds its number when that is positive
    and is unknown otherwise; [m_total_black] is W * H minus the sum of the
    numbers as [int] arithmetic leaves it, which is that difference when it
    fits in an [int]; the situation is [KEEP_GOING] and the output has one
    entry. *)
Theorem Grid_new_result (w h : Z) (s : string) g :
  Grid_new mt19937 w h s = Ok g ->
  exists v,
    parse (tokenize (list_ascii_of_string s)) [] = Ok v
    /\ Z.of_nat (length v) = w * h /\ 1 <= w /\ 1 <= h
    /\ m_width g = w /\ m_height g = h
    /\ (forall x y, inside (m_cells g) x y <-> valid g x y = true)
    /\ (forall x y, valid g x y = true ->
          cell g x y = if 0 <? entry v (x + y * w) then entry v (x + y * w) else UNKNOWN)
    /\ m_total_black g = wrap_int (w * h - clue_sum g)
    /\ (-2147483648 <= w * h - clue_sum g <= INT_MAX ->
        m_total_black g = w * h - clue_sum g)
    /\ m_sitrep g = KEEP_GOING
    /\ length (m_output g) = 1%nat.
Proof.
  intros (v & g1 & Hv & Hlen & Hw & Hh & Hrun & ->)%Grid_new_run.
  apply place_clues_result in Hrun
    as (Hw1 & Hh1 & Hi & Hs & Ho & Hc & Ht & Hk & _);
    [|apply NoDup_xy_range
     |intros p Hp%elem_of_xy_range; apply inside_replicate; lia].
  simpl in *.
  assert (Hcell : forall x y, valid g1 x y = true ->
            cell g1 x y = if 0 <? entry v (x + y * w) then entry v (x + y * w) else UNKNOWN).
  { intros x y Hxy. pose proof (Hc (x, y)) as Hq. simpl in Hq. rewrite Hq.
    unfold cell at 1. simpl.
    rewrite cells_get_replicate. simpl.
    case_bool_decide as Hd.
    - destruct Hd as [_ Hd]. apply Z.ltb_lt in Hd. by rewrite Hd.
    - destruct (0 <? entry v (x + y * w)) eqn:E; [|done]. apply Z.ltb_lt in E.
      exfalso. apply Hd. split; [|done]. rewrite <- Hw1, <- Hh1.
      by apply (valid_xy_range g1 (x, y)). }
  exists v. split; [done|]. split; [done|]. split; [done|]. split; [done|].
  assert (Hsum : foldr (fun p acc => (if 0 <? entry v (p.1 + p.2 * w)
                                       then entry v (p.1 + p.2 * w) else 0) + acc) 0
                       (xy_range w h) = clue_sum g1).
  { unfold clue_sum. rewrite Hw1, Hh1.
    apply (clue_sum_ext
             (fun p => if 0 <? entry v (p.1 + p.2 * w) then entry v (p.1 + p.2 * w) else 0)
             (fun p => if 0 <? cell g1 p.1 p.2 then cell g1 p.1 p.2 else 0)).
    intros p Hp%elem_of_xy_range. rewrite Hcell.
    + destruct (0 <? entry v (p.1 + p.2 * w)) eqn:E; [by rewrite E|done].
    + unfold valid. rewrite Hw1, Hh1.
      rewrite !andb_true_iff, !Z.leb_le, !Z.ltb_lt. lia. }
  assert (Htotal : m_total_black g1 = wrap_int (w * h - clue_sum g1)).
  { rewrite <- Hk by apply wrap_int_small, wrap_int_range.
    rewrite Ht, Hsum. apply wrap_int_sub. }
  split; [done|]. split; [done|].
  split; [|split; [done|split; [exact Htotal|split; [|split; [done|]]]]].
  - intros x y. change (inside (m_cells g1) x y <-> valid g1 x y = true).
    rewrite Hi, inside_replicate. unfold valid. rewrite Hw1, Hh1.
    rewrite !andb_true_iff, !Z.leb_le, !Z.ltb_lt. lia.
  - intros Hsmall. change (m_total_black g1 = w * h - clue_sum g1).
    change (-2147483648 <= w * h - clue_sum g1 <= INT_MAX) in Hsmall.
    rewrite Htotal. apply wrap_int_small. unfold INT_MAX in Hsmall. lia.
  - by rewrite Ho.
Qed.

(** X30.  The regions that the constructor builds.  Every numbered cell
    designates a region of its own, made of that cell alone, in the state
    of its number; every other cell is unknown and designates no region;
    the grid has no other region.  The array has the size of the grid, and
    the grid is tidy. *)
Theorem Grid_new_regions (w h : Z) (s : string) g :
  Grid_new mt19937 w h s = Ok g ->
  (forall x y, valid g x y = true ->
     if 0 <? cell g x y
     then exists i r, region g x y = Some i /\ m_regions g !! i = Some r
            /\ m_state r = cell g x y /\ m_coords r = [(x, y)]
     else cell g x y = UNKNOWN /\ region g x y = None)
  /\ (forall i r, m_regions g !! i = Some r ->
        exists x y, valid g x y = true /\ region g x y = Some i
          /\ 0 < m_state r /\ m_state r = cell g x y /\ m_coords r = [(x, y)])
  /\ shape g /\ tidy g.
Proof.
  intros (v & g1 & Hv & Hlen & Hw & Hh & Hrun & ->)%Grid_new_run.
  apply place_clues_result in Hrun
    as (Hw1 & Hh1 & Hi & Hs & Ho & Hc & Ht & _ & Hr & Hsub & Hnew & Hold & Hall);
    [|apply NoDup_xy_range
     |intros p Hp%elem_of_xy_range; apply inside_replicate; lia].
  simpl in *.
  assert (Hval : forall x y, valid g1 x y = true <-> (x, y) ∈ xy_range w h).
  { intros x y. rewrite elem_of_xy_range. unfold valid. rewrite Hw1, Hh1. simpl.
    rewrite !andb_true_iff, !Z.leb_le, !Z.ltb_lt. lia. }
  assert (Hcell : forall x y, (x, y) ∈ xy_range w h ->
            cell g1 x y = if 0 <? entry v (x + y * w) then entry v (x + y * w) else UNKNOWN).
  { intros x y Hxy. pose proof (Hc (x, y)) as Hq. simpl in Hq. rewrite Hq.
    unfold cell at 1. simpl.
    rewrite cells_get_replicate. simpl.
    case_bool_decide as Hd.
    - destruct Hd as [_ Hd]. apply Z.ltb_lt in Hd. by rewrite Hd.
    - destruct (0 <? entry v (x + y * w)) eqn:E; [|done]. apply Z.ltb_lt in E.
      exfalso. apply Hd. done. }
  assert (Hreg0 : forall x y,
            region (mkGrid w h (wrap_int (w * h))
              (replicate (Z.to_nat w) (replicate (Z.to_nat h) (UNKNOWN, None)))
              ∅ KEEP_GOING [] (mt19937 1729)) x y = None).
  { intros x y. unfold region. simpl. by rewrite cells_get_replicate. }
  assert (Hfirst : forall x y, valid g1 x y = true ->
     if 0 <? cell g1 x y
     then exists i r, region g1 x y = Some i /\ m_regions g1 !! i = Some r
            /\ m_state r = cell g1 x y /\ m_coords r = [(x, y)]
     else cell g1 x y = UNKNOWN /\ region g1 x y = None).
  { intros x y Hxy%Hval. rewrite (Hcell x y Hxy).
    destruct (0 <? entry v (x + y * w)) eqn:E.
    - rewrite E. apply Z.ltb_lt in E.
      destruct (Hnew (x, y) Hxy E) as (i & r & ? & ? & _ & ? & ?). by exists i, r.
    - change (0 <? UNKNOWN) with false. cbv iota. split; [done|].
      apply Z.ltb_ge in E. pose proof (Hold (x, y) Hxy E) as Hq. simpl in Hq.
      rewrite Hq. apply Hreg0. }
  assert (Hsecond : forall i r, m_regions g1 !! i = Some r ->
        exists x y, valid g1 x y = true /\ region g1 x y = Some i
          /\ 0 < m_state r /\ m_state r = cell g1 x y /\ m_coords r = [(x, y)]).
  { intros i r Hir. destruct (Hall i r Hir) as [H0 | ([x y] & Hq & Hpos & Hptr & Hst & Hco)].
    { by rewrite lookup_empty in H0. }
    simpl in *. exists x, y. split; [by apply Hval|]. split; [done|].
    split; [lia|]. split; [|done]. rewrite (Hcell x y Hq).
    apply Z.ltb_lt in Hpos. by rewrite Hpos. }
  split; [exact Hfirst|]. split; [exact Hsecond|]. split; [|split].
  - intros x y. change (inside (m_cells g1) x y -> valid g1 x y = true).
    rewrite Hi, inside_replicate. intros ?. apply Hval, elem_of_xy_range. simpl. lia.
  - intros x y Hxy Hu. change (valid g1 x y = true) in Hxy. change (cell g1 x y = UNKNOWN) in Hu.
    specialize (Hfirst x y Hxy). rewrite Hu in Hfirst.
    change (0 <? UNKNOWN) with false in Hfirst. destruct Hfirst as [_ Hnone].
    intros i a Hi'. change (region g1 x y = Some i) in Hi'. congruence.
  - intros i b q Hib Hb Hq. change (m_regions g1 !! i = Some b) in Hib.
    destruct (Hsecond i b Hib) as (x & y & _ & _ & Hpos & _).
    unfold Reg.black in Hb. apply Z.eqb_eq in Hb. unfold BLACK in Hb. lia.
Qed.

End ConstructorMore.

(** ** The flags of [confined] *)

Section Flags.

Lemma Flag_eqb_eq (a b : Flag) : Flag_eqb a b = true <-> a = b.
Proof. destruct a, b; simpl; split; congruence. Qed.

Lemma count_flag_bounds (f : Flag) (l : list Flag) :
  0 <= count_flag f l <= Z.of_nat (length l).
Proof. induction l as [|x l IH]; simpl; [lia|]. destruct (Flag_eqb x f); lia. Qed.

Lemma count_flag_sum (l : list Flag) :
  count_flag OPEN l + count_flag CLOSED l <= Z.of_nat (length l).
Proof. induction l as [|x l IH]; simpl; [lia|]. destruct x; simpl; lia. Qed.

Lemma count_flag_insert (f : Flag) (l : list Flag) (k : nat) (x y : Flag) :
  l !! k = Some y ->
  count_flag f (<[k := x]> l)
  = count_flag f l - (if Flag_eqb y f then 1 else 0) + (if Flag_eqb x f then 1 else 0).
Proof.
  revert k. induction l as [|z l IH]; intros [|k] Hk; simpl in *; try done.
  - injection Hk as ->. lia.
  - rewrite (IH k Hk). lia.
Qed.

(** Closed flags that stay closed, and one more. *)
Lemma count_closed_mono (l l' : list Flag) :
  length l = length l' ->
  (forall k, l !! k = Some CLOSED -> l' !! k = Some CLOSED) ->
  count_flag CLOSED l <= count_flag CLOSED l'.
Proof.
  revert l'. induction l as [|x l IH]; intros [|x' l'] Hlen Hk; simpl in *; try done.
  assert (count_flag CLOSED l <= count_flag CLOSED l').
  { apply IH; [lia|]. intros k. apply (Hk (S k)). }
  destruct x; simpl; try (destruct (Flag_eqb x' CLOSED); lia).
  specialize (Hk O eq_refl). injection Hk as ->. simpl. lia.
Qed.

Lemma count_closed_strict (l l' : list Flag) (k0 : nat) :
  length l = length l' ->
  (forall k, l !! k = Some CLOSED -> l' !! k = Some CLOSED) ->
  l !! k0 <> Some CLOSED -> l' !! k0 = Some CLOSED ->
  count_flag CLOSED l < count_flag CLOSED l'.
Proof.
  revert l' k0. induction l as [|x l IH]; intros [|x' l'] k0 Hlen Hk H0 H0'; simpl in *;
    try done.
  destruct k0 as [|k0]; simpl in *.
  - injection H0' as ->.
    assert (count_flag CLOSED l <= count_flag CLOSED l').
    { apply count_closed_mono; [lia|]. intros k. apply (Hk (S k)). }
    destruct x; simpl; try lia. done.
  - assert (count_flag CLOSED l < count_flag CLOSED l').
    { apply (IH l' k0); [lia| |done|done]. intros k. apply (Hk (S k)). }
    destruct x; simpl; try (destruct (Flag_eqb x' CLOSED); lia).
    specialize (Hk O eq_refl). injection Hk as ->. simpl. lia.
Qed.

Lemma find_open_Some (l : list Flag) (k : nat) : find_open l = Some k -> l !! k = Some OPEN.
Proof.
  revert k. induction l as [|x l IH]; intros k; simpl; [done|].
  destruct (Flag_eqb x OPEN) eqn:E.
  - intros [= <-]. apply Flag_eqb_eq in E. by subst.
  - destruct (find_open l) as [k'|]; simpl; [|done]. intros [= <-]. by apply IH.
Qed.

End Flags.

Section FlagsOfGrid.

Context {PRNG : Type}.
Implicit Types (g : Grid PRNG) (r a : Region) (p q : coord) (fl : list Flag).

Lemma flag_index_valid g q :
  valid g q.1 q.2 = true -> 0 <= flag_index g q < m_width g * m_height g.
Proof.
  unfold valid, flag_index. rewrite !andb_true_iff, !Z.leb_le, !Z.ltb_lt. nia.
Qed.

Lemma flag_index_inj g p q :
  valid g p.1 p.2 = true -> valid g q.1 q.2 = true ->
  flag_index g p = flag_index g q -> p = q.
Proof.
  unfold valid, flag_index. rewrite !andb_true_iff, !Z.leb_le, !Z.ltb_lt.
  destruct p as [x y], q as [x' y']. simpl. intros ? ? E.
  assert (y = y') by nia. subst. f_equal. lia.
Qed.

(** The cell that the loop of [confined] reads off an index. *)
Lemma cell_of_index g (k : nat) :
  1 <= m_width g -> (k < Z.to_nat (m_width g * m_height g))%nat ->
  let p := (Z.rem (Z.of_nat k) (m_width g), Z.quot (Z.of_nat k) (m_width g)) in
  flag_index g p = Z.of_nat k /\ valid g p.1 p.2 = true.
Proof.
  intros Hw Hk. simpl. rewrite Z.rem_mod_nonneg, Z.quot_div_nonneg by lia.
  unfold flag_index, valid. simpl.
  pose proof (Z.mod_pos_bound (Z.of_nat k) (m_width g) ltac:(lia)).
  pose proof (Z.div_mod (Z.of_nat k) (m_width g) ltac:(lia)).
  assert (0 <= Z.of_nat k `div` m_width g) by (apply Z.div_pos; lia).
  assert (Z.of_nat k `div` m_width g < m_height g)
    by (apply Z.div_lt_upper_bound; lia).
  split; [lia|]. rewrite !andb_true_iff, !Z.leb_le, !Z.ltb_lt. lia.
Qed.

Lemma length_flags_set g fl p (f : Flag) : length (flags_set g fl p f) = length fl.
Proof. unfold flags_set. destruct (0 <=? flag_index g p); [apply length_insert|done]. Qed.

Lemma length_flags_set_all g fl (ps : list coord) (f : Flag) :
  length (foldl (fun fl p => flags_set g fl p f) fl ps) = length fl.
Proof.
  revert fl. induction ps as [|p ps IH]; intros fl; simpl; [done|].
  by rewrite IH, length_flags_set.
Qed.

Lemma length_flags_open g fl (ps : list coord) : length (flags_open g fl ps) = length fl.
Proof.
  unfold flags_open. revert fl. induction ps as [|p ps IH]; intros fl; simpl; [done|].
  rewrite IH. destruct (Flag_eqb _ _); [apply length_flags_set|done].
Qed.

(** What [flags_set] leaves at an index. *)
Lemma flags_set_lookup g fl p (f f' : Flag) (k : nat) :
  flags_set g fl p f !! k = Some f' ->
  fl !! k = Some f' \/ (f' = f /\ 0 <= flag_index g p /\ k = Z.to_nat (flag_index g p)).
Proof.
  unfold flags_set. destruct (0 <=? flag_index g p) eqn:E; [|by left].
  apply Z.leb_le in E. intros [[-> [-> _]] | [_ ?]]%list_lookup_insert_Some; [by right|by left].
Qed.

Lemma flags_set_lookup_eq g fl p (f : Flag) :
  0 <= flag_index g p -> (Z.to_nat (flag_index g p) < length fl)%nat ->
  flags_set g fl p f !! Z.to_nat (flag_index g p) = Some f.
Proof.
  intros H0 Hlt. unfold flags_set. rewrite (proj2 (Z.leb_le _ _) H0).
  by apply list_lookup_insert_eq.
Qed.

Lemma flags_set_lookup_closed g fl p (k : nat) :
  fl !! k = Some CLOSED -> flags_set g fl p CLOSED !! k = Some CLOSED.
Proof.
  intros Hk. unfold flags_set. destruct (0 <=? flag_index g p); [|done].
  destruct (decide (Z.to_nat (flag_index g p) = k)) as [->|Hne].
  - apply list_lookup_insert_eq. by eapply lookup_lt_Some.
  - by rewrite list_lookup_insert_ne.
Qed.

Lemma flags_set_all_lookup g fl (ps : list coord) (f f' : Flag) (k : nat) :
  foldl (fun fl p => flags_set g fl p f) fl ps !! k = Some f' ->
  fl !! k = Some f'
  \/ (f' = f /\ exists p, p ∈ ps /\ 0 <= flag_index g p /\ k = Z.to_nat (flag_index g p)).
Proof.
  revert fl. induction ps as [|p ps IH]; intros fl; simpl; [by left|].
  intros [H | (-> & q & Hq & ?)]%IH.
  - apply flags_set_lookup in H as [H | (-> & ? & ->)]; [by left|].
    right. split; [done|]. exists p. split; [by left|done].
  - right. split; [done|]. exists q. split; [by right|done].
Qed.

Lemma flags_set_all_lookup_closed g fl (ps : list coord) (k : nat) :
  fl !! k = Some CLOSED ->
  foldl (fun fl p => flags_set g fl p CLOSED) fl ps !! k = Some CLOSED.
Proof.
  revert fl. induction ps as [|p ps IH]; intros fl Hk; simpl; [done|].
  by apply IH, flags_set_lookup_closed.
Qed.

Lemma flags_set_all_lookup_in g fl (ps : list coord) p :
  p ∈ ps -> 0 <= flag_index g p -> (Z.to_nat (flag_index g p) < length fl)%nat ->
  foldl (fun fl p => flags_set g fl p CLOSED) fl ps !! Z.to_nat (flag_index g p)
  = Some CLOSED.
Proof.
  revert fl. induction ps as [|u ps IH]; intros fl Hp H0 Hlt; [by apply not_elem_of_nil in Hp|].
  simpl. apply elem_of_cons in Hp as [-> | Hp].
  - apply flags_set_all_lookup_closed. by apply flags_set_lookup_eq.
  - apply IH; [done|done|]. by rewrite length_flags_set.
Qed.

(** What [flags_open] leaves at an index. *)
Lemma flags_open_lookup g fl (ps : list coord) (f' : Flag) (k : nat) :
  flags_open g fl ps !! k = Some f' ->
  fl !! k = Some f'
  \/ (f' = OPEN /\ fl !! k = Some NONE
      /\ exists p, p ∈ ps /\ 0 <= flag_index g p /\ k = Z.to_nat (flag_index g p)).
Proof.
  unfold flags_open. revert fl. induction ps as [|p ps IH]; intros fl; simpl; [by left|].
  intros [H | (-> & H & q & Hq & ?)]%IH.
  - destruct (Flag_eqb (flags_get g fl p) NONE) eqn:E; [|by left].
    pose proof (lookup_lt_Some _ _ _ H) as Hlt. rewrite length_flags_set in Hlt.
    apply flags_set_lookup in H as [H | (-> & H0 & ->)]; [by left|].
    right. split; [done|]. split.
    + apply Flag_eqb_eq in E. unfold flags_get in E.
      rewrite (proj2 (Z.leb_le _ _) H0) in E.
      destruct (fl !! Z.to_nat (flag_index g p)) as [f0|] eqn:E0; [by simpl in E; subst|].
      apply lookup_ge_None in E0. lia.
    + exists p. split; [by left|done].
  - destruct (Flag_eqb (flags_get g fl p) NONE) eqn:E.
    + apply flags_set_lookup in H as [H | ([=] & _)].
      right. split; [done|]. split; [done|]. exists q. split; [by right|done].
    + right. split; [done|]. split; [done|]. exists q. split; [by right|done].
Qed.

Lemma flags_open_lookup_kept g fl (ps : list coord) (f : Flag) (k : nat) :
  f <> NONE -> fl !! k = Some f -> flags_open g fl ps !! k = Some f.
Proof.
  unfold flags_open. revert fl. induction ps as [|p ps IH]; intros fl Hf Hk; simpl; [done|].
  apply IH; [done|]. destruct (Flag_eqb (flags_get g fl p) NONE) eqn:E; [|done].
  apply Flag_eqb_eq in E. unfold flags_set, flags_get in *. revert E.
  destruct (0 <=? flag_index g p); [|done]. intros E.
  destruct (decide (Z.to_nat (flag_index g p) = k)) as [Heq|Hne].
  - rewrite Heq, Hk in E. simpl in E. done.
  - by rewrite list_lookup_insert_ne.
Qed.

End FlagsOfGrid.

(** ** The loop of [confined] ends *)

Section ConfinedTotal.

Context {PRNG : Type}.
Implicit Types (g : Grid PRNG) (r a : Region) (p q : coord) (fl flags : list Flag).

Lemma wf_region_of g (x y : Z) a :
  well_formed g -> valid g x y = true -> region_of g x y = Some a ->
  exists i, region g x y = Some i /\ m_regions g !! i = Some a /\ (x, y) ∈ m_coords a.
Proof.
  unfold region_of. intros Hwf Hv. destruct (region g x y) as [i|] eqn:E; simpl; [|done].
  intros Ha. exists i. split; [done|]. split; [done|].
  destruct (decide (cell g x y = UNKNOWN)) as [Hu|Hk].
  { rewrite (wf_unknown g Hwf x y Hv Hu) in E. done. }
  destruct (wf_known g Hwf x y Hv Hk) as (i' & a' & Hi' & Ha' & Hin).
  rewrite E in Hi'. injection Hi' as <-. rewrite Ha in Ha'. by injection Ha' as <-.
Qed.

Lemma wf_liberty_free g (i : rid) a q :
  well_formed g -> m_regions g !! i = Some a -> q ∈ m_unknowns a ->
  valid g q.1 q.2 = true /\ region_of g q.1 q.2 = None.
Proof.
  intros Hwf Ha Hq. destruct (wf_liberties g Hwf i a q Ha Hq) as [Hv Hu].
  split; [done|]. unfold region_of. by rewrite (wf_unknown g Hwf _ _ Hv Hu).
Qed.

Lemma confined_measure_nonneg flags : 0 <= confined_measure flags.
Proof.
  unfold confined_measure. pose proof (count_flag_bounds CLOSED flags).
  pose proof (count_flag_bounds OPEN flags). nia.
Qed.

Lemma confined_measure_closed flags flags' :
  length flags' = length flags ->
  count_flag CLOSED flags < count_flag CLOSED flags' ->
  confined_measure flags' < confined_measure flags.
Proof.
  intros Hlen Hc. unfold confined_measure. rewrite Hlen.
  pose proof (count_flag_sum flags'). rewrite Hlen in H.
  pose proof (count_flag_bounds OPEN flags). pose proof (count_flag_bounds OPEN flags').
  pose proof (count_flag_bounds CLOSED flags).
  set (L := Z.of_nat (length flags)) in *.
  assert ((L - count_flag CLOSED flags') * (L + 1)
          <= (L - count_flag CLOSED flags - 1) * (L + 1)) by (apply Z.mul_le_mono_nonneg_r; lia).
  lia.
Qed.

(** The verdicts of [consider]. *)
Lemma consider_confused g (ri : rid) r p (area : option Region) :
  consider g ri r p area = Confused ->
  Reg.black r = false /\ Reg.white r = false
  /\ exists a, area = Some a /\ Reg.black a = false /\ Reg.white a = false.
Proof.
  unfold consider. destruct (Reg.black r); [by destruct area as [a|]; [destruct (Reg.black a)|]|].
  destruct (Reg.white r).
  { destruct area as [a|]; [|done]. destruct (Reg.black a); [done|]. by destruct (Reg.white a). }
  destruct area as [a|]; [|by destruct (existsb _ _)].
  destruct (Reg.black a) eqn:Eb; [done|]. destruct (Reg.white a) eqn:Ew; [done|].
  intros _. split; [done|]. split; [done|]. by exists a.
Qed.

Lemma consider_consume_unknown g (ri : rid) r p :
  consider g ri r p None = Consume ->
  Reg.black r = false -> Reg.white r = false ->
  forall q oi other, q ∈ valid_neighbors g p.1 p.2 -> region g q.1 q.2 = Some oi ->
    m_regions g !! oi = Some other -> Reg.numbered other = true -> oi = ri.
Proof.
  unfold consider. intros Hc Hb Hw. rewrite Hb, Hw in Hc.
  destruct (existsb _ _) eqn:E; [done|].
  intros q oi other Hq Hoi Hother Hnum.
  destruct (decide (oi = ri)) as [|Hne]; [done|]. exfalso.
  apply not_true_iff_false in E. apply E. apply existsb_exists.
  exists q. split; [by apply list_elem_of_In|].
  rewrite Hoi, Hother, Hnum. simpl. by case_bool_decide.
Qed.

Lemma consider_consume_region g (ri : rid) r p a :
  consider g ri r p (Some a) = Consume ->
  Reg.black r = false -> Reg.white r = false -> Reg.white a = true.
Proof.
  unfold consider. intros Hc Hb Hw. rewrite Hb, Hw in Hc. destruct (Reg.black a); [done|].
  by destruct (Reg.white a).
Qed.

Lemma confined_loop_total (fuel : nat) g (ri : rid) r (verboten : CoordSet.t) :
  well_formed g -> m_regions g !! ri = Some r ->
  forall flags (closed_size : Z) (cache : cache_map_t),
    confined_inv g r flags ->
    confined_measure flags < Z.of_nat fuel ->
    exists b c, confined_loop fuel g ri r verboten flags closed_size cache = Ok (b, c).
Proof.
  intros Hwf Hr. induction fuel as [|fuel IH]; intros flags cs cache Hinv Hm.
  { pose proof (confined_measure_nonneg flags). lia. }
  simpl. destruct (negb (needs_more g r cs)); [by eauto|].
  destruct (find_open flags) as [index|] eqn:Ef; [|by eauto].
  apply find_open_Some in Ef. destruct Hinv as [Hlen Hnum].
  pose proof (lookup_lt_Some _ _ _ Ef) as Hlt. rewrite Hlen in Hlt.
  destruct (cell_of_index g index (wf_width g Hwf) Hlt) as [Hidx Hvalid].
  set (p := (Z.rem (Z.of_nat index) (m_width g), Z.quot (Z.of_nat index) (m_width g))) in *.
  assert (Hk : Z.to_nat (flag_index g p) = index) by lia.
  set (flags1 := <[index := NONE]> flags).
  assert (Hlen1 : length flags1 = length flags) by apply length_insert.
  assert (H1 : flags1 !! index = Some NONE).
  { apply list_lookup_insert_eq. by eapply lookup_lt_Some. }
  assert (Hkeep : forall k f, f <> NONE -> flags1 !! k = Some f -> flags !! k = Some f).
  { intros k f Hf. unfold flags1. intros [[_ [? _]] | [_ ?]]%list_lookup_insert_Some; [|done].
    congruence. }
  assert (Hclosed1 : forall k, flags !! k = Some CLOSED -> flags1 !! k = Some CLOSED).
  { intros k Hc. unfold flags1. rewrite list_lookup_insert_ne; [done|]. intros <-. congruence. }
  assert (Hm1 : confined_measure flags1 = confined_measure flags - 1).
  { unfold confined_measure. rewrite Hlen1. unfold flags1.
    rewrite !(count_flag_insert _ _ _ _ _ Ef). simpl. lia. }
  assert (Hinv1 : confined_inv g r flags1).
  { split; [by rewrite Hlen1|]. intros Hb Hw. destruct (Hnum Hb Hw) as [Hopen Hcl].
    split.
    - intros q a Hq Hf. apply Hopen; [done|]. by apply Hkeep.
    - intros q Hq. by apply Hclosed1, Hcl. }
  change (Z.of_nat index `rem` m_width g) with p.1.
  change (Z.of_nat index `quot` m_width g) with p.2.
  destruct (consider g ri r p (region_of g p.1 p.2)) eqn:Ec.
  - (* Consume *)
    destruct (region_of g p.1 p.2) as [a|] eqn:Ea.
    + destruct (wf_region_of g p.1 p.2 a Hwf Hvalid Ea) as (i & Hi & Hia & Hin).
      set (flags2 := flags_open g
             (foldl (fun fl q => flags_set g fl q CLOSED) flags1 (m_coords a)) (m_unknowns a)).
      assert (Hlen2 : length flags2 = length flags).
      { unfold flags2. by rewrite length_flags_open, length_flags_set_all. }
      assert (Hclosed2 : forall k, flags1 !! k = Some CLOSED -> flags2 !! k = Some CLOSED).
      { intros k Hc. apply flags_open_lookup_kept; [done|].
        by apply flags_set_all_lookup_closed. }
      apply IH.
      * split; [by rewrite Hlen2|]. intros Hb Hw. destruct (Hnum Hb Hw) as [Hopen Hcl].
        split.
        -- intros q b Hq Hf Hqb.
           apply flags_open_lookup in Hf as [Hf | (_ & _ & u & Hu & H0 & Heq)].
           ++ apply flags_set_all_lookup in Hf as [Hf | ([=] & _)].
              by apply (Hopen q b Hq); [apply Hkeep|].
           ++ destruct (wf_liberty_free g i a u Hwf Hia Hu) as [Hv Hnone].
              assert (u = q).
              { apply (flag_index_inj g); [done|done|].
                pose proof (flag_index_valid g q Hq). lia. }
              subst u. destruct q. simpl in *. congruence.
        -- intros q Hq. by apply Hclosed2, Hclosed1, Hcl.
      * assert (count_flag CLOSED flags1 < count_flag CLOSED flags2).
        { apply (count_closed_strict _ _ index); [by rewrite Hlen2|done|congruence|].
          apply flags_open_lookup_kept; [done|]. rewrite <- Hk.
          apply flags_set_all_lookup_in; [by destruct p|lia|]. rewrite Hlen1, Hlen. lia. }
        pose proof (confined_measure_closed flags1 flags2 ltac:(congruence) H). lia.
    + set (flags2 := flags_open g (flags_set g flags1 p CLOSED) (valid_neighbors g p.1 p.2)).
      assert (Hlen2 : length flags2 = length flags).
      { unfold flags2. by rewrite length_flags_open, length_flags_set. }
      assert (Hclosed2 : forall k, flags1 !! k = Some CLOSED -> flags2 !! k = Some CLOSED).
      { intros k Hc. apply flags_open_lookup_kept; [done|]. by apply flags_set_lookup_closed. }
      apply IH.
      * split; [by rewrite Hlen2|]. intros Hb Hw. destruct (Hnum Hb Hw) as [Hopen Hcl].
        split.
        -- intros q b Hq Hf Hqb.
           apply flags_open_lookup in Hf as [Hf | (_ & Hnone & u & Hu & H0 & Heq)].
           ++ apply flags_set_lookup in Hf as [Hf | ([=] & _)].
              by apply (Hopen q b Hq); [apply Hkeep|].
           ++ assert (Hv : valid g u.1 u.2 = true)
                by apply (valid_neighbors_valid g p.1 p.2 u Hvalid Hu).
              assert (u = q).
              { apply (flag_index_inj g); [done|done|].
                pose proof (flag_index_valid g q Hq). lia. }
              subst u.
              destruct (wf_region_of g q.1 q.2 b Hwf Hq Hqb) as (oi & Hoi & Hob & Hin).
              destruct (wf_state g Hwf oi b Hob) as [?|[?|Hn']]; [by left|by right|].
              exfalso.
              assert (oi = ri)
                by (by eapply (consider_consume_unknown g ri r p Ec Hb Hw q oi b)).
              subst oi. rewrite Hr in Hob. injection Hob as <-.
              apply flags_set_lookup in Hnone as [Hnone | ([=] & _)].
              specialize (Hcl q ltac:(by destruct q)).
              apply Hclosed1 in Hcl. congruence.
        -- intros q Hq. by apply Hclosed2, Hclosed1, Hcl.
      * assert (count_flag CLOSED flags1 < count_flag CLOSED flags2).
        { apply (count_closed_strict _ _ index); [by rewrite Hlen2|done|congruence|].
          apply flags_open_lookup_kept; [done|]. rewrite <- Hk.
          apply flags_set_lookup_eq; [lia|]. rewrite Hlen1, Hlen. lia. }
        pose proof (confined_measure_closed flags1 flags2 ltac:(congruence) H). lia.
  - (* Discard *) apply IH; [done|lia].
  - (* Escaped *) by eauto.
  - (* Confused *)
    exfalso. apply consider_confused in Ec as (Hb & Hw & a & Ea & Hab & Haw).
    destruct (Hnum Hb Hw) as [Hopen _].
    destruct (Hopen p a Hvalid ltac:(by rewrite Hk) Ea); congruence.
Qed.

End ConfinedTotal.

(** ** Confinement analysis returns *)

Section ConfinementTotal.

Context {PRNG : Type}.
Implicit Types (g : Grid PRNG) (r a : Region) (p q : coord) (fl flags : list Flag).

Lemma for_each_total {A B} (P : A -> Prop) (l : list B) (st : A)
  (body : A -> B -> result A) :
  P st ->
  (forall st x, x ∈ l -> P st -> exists st', body st x = Ok st' /\ P st') ->
  exists st', for_each l st body = Ok st' /\ P st'.
Proof.
  revert st. induction l as [|x l IH]; intros st Ha Hbody; simpl; [by eauto|].
  destruct (Hbody st x ltac:(by left) Ha) as (st1 & -> & Ha1). simpl.
  apply IH; [done|]. intros st0 y Hy. apply Hbody. by right.
Qed.

Lemma flags_set_all_lookup_ne g fl (ps : list coord) (f : Flag) (k : nat) :
  (forall p, p ∈ ps -> 0 <= flag_index g p -> Z.to_nat (flag_index g p) <> k) ->
  foldl (fun fl p => flags_set g fl p f) fl ps !! k = fl !! k.
Proof.
  revert fl. induction ps as [|p ps IH]; intros fl Hne; simpl; [done|].
  rewrite IH by (intros q Hq; apply Hne; by right).
  unfold flags_set. destruct (0 <=? flag_index g p) eqn:E; [|done].
  apply Z.leb_le in E. rewrite list_lookup_insert_ne; [done|]. apply Hne; [by left|done].
Qed.

Lemma enough_fuel g (fuel : nat) :
  well_formed g -> enough g fuel -> m_width g * m_height g + 1 < Z.of_nat fuel.
Proof.
  intros Hwf. unfold enough. pose proof (wf_width g Hwf). pose proof (wf_height g Hwf). nia.
Qed.

(** [confined] returns: on a well-formed grid, for a region of the grid and
    verboten cells that are unknown cells of the grid, the loop ends and does
    not throw. *)
Lemma confined_total (fuel : nat) g (ri : rid) r (cache : cache_map_t)
  (verboten : CoordSet.t) :
  well_formed g -> m_regions g !! ri = Some r ->
  unknown_cells_of g verboten ->
  enough g fuel ->
  exists b c, confined fuel g ri r cache verboten = Ok (b, c).
Proof.
  intros Hwf Hr Hverb Hfuel. unfold confined.
  match goal with |- context [if ?c then Ok (false, cache) else _] => destruct c end;
    [by eauto|].
  pose proof (wf_width g Hwf) as Hw. pose proof (wf_height g Hwf) as Hh.
  set (fl0 := replicate (Z.to_nat (m_width g * m_height g)) NONE).
  set (fl1 := foldl (fun fl p => flags_set g fl p OPEN) fl0 (m_unknowns r)).
  set (fl2 := foldl (fun fl p => flags_set g fl p CLOSED) fl1 (m_coords r)).
  set (fl3 := foldl (fun fl p => flags_set g fl p VERBOTEN) fl2 verboten).
  assert (Hlen : length fl3 = Z.to_nat (m_width g * m_height g)).
  { unfold fl3, fl2, fl1, fl0. by rewrite !length_flags_set_all, length_replicate. }
  apply confined_loop_total; [done|done| |].
  - split; [done|]. intros Hb Hwh. split.
    + intros q a Hq Hopen Ha. exfalso.
      apply flags_set_all_lookup in Hopen as [Hopen | ([=] & _)].
      apply flags_set_all_lookup in Hopen as [Hopen | ([=] & _)].
      apply flags_set_all_lookup in Hopen as [Hopen | (_ & u & Hu & H0 & Heq)].
      { unfold fl0 in Hopen. by apply lookup_replicate in Hopen as [[=] _]. }
      destruct (wf_liberty_free g ri r u Hwf Hr Hu) as [Hv Hnone].
      assert (u = q).
      { apply (flag_index_inj g); [done|done|].
        pose proof (flag_index_valid g q Hq). lia. }
      subst u. congruence.
    + intros q Hq. destruct (wf_coords g Hwf ri r q Hr Hq) as [Hv Hreg].
      pose proof (flag_index_valid g q Hv) as Hi.
      unfold fl3. rewrite flags_set_all_lookup_ne.
      * apply flags_set_all_lookup_in; [done|lia|].
        unfold fl1, fl0. rewrite length_flags_set_all, length_replicate. lia.
      * intros v Hv' H0 Heq. destruct (Hverb v Hv') as [Hvv Hvu].
        assert (v = q).
        { apply (flag_index_inj g); [done|done|].
          pose proof (flag_index_valid g v Hvv). lia. }
        subst v. rewrite (wf_unknown g Hwf _ _ Hv Hvu) in Hreg. done.
  - unfold confined_measure. rewrite Hlen.
    pose proof (count_flag_bounds CLOSED fl3) as Hc.
    pose proof (count_flag_sum fl3) as Hs. rewrite Hlen in Hc, Hs.
    unfold enough in Hfuel.
    rewrite Z2Nat.id in * by nia.
    set (L := m_width g * m_height g) in *.
    assert ((L - count_flag CLOSED fl3) * (L + 1) <= L * (L + 1))
      by (apply Z.mul_le_mono_nonneg_r; lia).
    nia.
Qed.

Lemma regions_lookup g (ir : rid * Region) :
  ir ∈ regions g <-> m_regions g !! ir.1 = Some ir.2.
Proof. unfold regions. destruct ir. apply elem_of_map_to_list. Qed.

Lemma unknown_cells_singleton g q :
  valid g q.1 q.2 = true -> cell g q.1 q.2 = UNKNOWN ->
  unknown_cells_of g (CoordSet.insert q CoordSet.empty).
Proof.
  intros Hv Hu u [-> | []%not_elem_of_nil]%CoordSetFacts.elem_of_insert. done.
Qed.

(** The rule returns, and it proposes cells of the grid only. *)
Lemma confinement_marks_total (fuel : nat) g (cache : cache_map_t) :
  well_formed g -> enough g fuel ->
  exists mb mw c, confinement_marks fuel g cache = Ok (mb, mw, c)
    /\ cells_of g mb /\ cells_of g mw.
Proof.
  intros Hwf Hfuel. unfold confinement_marks.
  set (P1 := fun st : CoordSet.t * CoordSet.t * cache_map_t =>
               cells_of g st.1.1 /\ cells_of g st.1.2).
  destruct (for_each_total P1 (xy_range (m_width g) (m_height g))
              (CoordSet.empty, CoordSet.empty, cache) (confinement_unknown fuel g))
    as ([[mb1 mw1] c1] & E1 & Hb1 & Hw1).
  { split; by intros q ?%not_elem_of_nil. }
  { intros st p Hp Hst. unfold confinement_unknown.
    destruct (cell g p.1 p.2 =? UNKNOWN) eqn:Eu; [|by eauto].
    apply Z.eqb_eq in Eu. apply for_each_total; [done|].
    intros [[mb mw] c] ir Hir%regions_lookup [Hmb Hmw]. unfold confinement_region.
    assert (Hpv : valid g p.1 p.2 = true).
    { apply elem_of_xy_range in Hp. unfold valid.
      rewrite !andb_true_iff, !Z.leb_le, !Z.ltb_lt. lia. }
    destruct (confined_total fuel g ir.1 ir.2 c (CoordSet.insert p CoordSet.empty)
                Hwf Hir (unknown_cells_singleton g p Hpv Eu) Hfuel) as (b & c' & ->).
    simpl. eexists. split; [done|].
    destruct b; [|done]. destruct (Reg.black ir.2); split; simpl; try done.
    - intros q [-> | ?]%CoordSetFacts.elem_of_insert; [done|by apply Hmb].
    - intros q [-> | ?]%CoordSetFacts.elem_of_insert; [done|by apply Hmw]. }
  unfold confinement_pass1. rewrite E1. simpl in *.
  set (P2 := fun st : CoordSet.t * cache_map_t => cells_of g st.1).
  destruct (for_each_total P2 (regions g) (mb1, c1)
              (fun st ir =>
                 if Reg.numbered_and ir.2 (fun n => Reg.size ir.2 <? n)
                 then for_each (m_unknowns ir.2) st (confinement_liberty fuel g ir.1)
                 else Ok st))
    as ([mb2 c2] & E2 & Hb2).
  { done. }
  { intros st ir Hir%regions_lookup Hst.
    destruct (Reg.numbered_and _ _); [|by eauto].
    apply for_each_total; [done|]. intros st1 u Hu Hst1. unfold confinement_liberty.
    destruct (wf_liberties g Hwf _ _ u Hir Hu) as [Huv Huu].
    apply for_each_total; [done|]. intros st2 kr Hkr%regions_lookup Hst2.
    unfold confinement_other.
    destruct (negb (bool_decide (kr.1 = ir.1)) && Reg.numbered kr.2); [|by eauto].
    edestruct (confined_total fuel g kr.1 kr.2 st2.2) as (b & c' & ->); [done|done| |done|].
    { intros q [Hq | [Hq Hqu]]%elem_of_insert_valid_unknown_neighbors.
      - by apply (unknown_cells_singleton g u Huv Huu).
      - split; [|done]. by apply (valid_neighbors_valid g u.1 u.2 q Huv Hq). }
    simpl. eexists. split; [done|]. unfold P2. simpl. destruct b; [|done].
    intros q [-> | ?]%CoordSetFacts.elem_of_insert; [done|by apply Hst2]. }
  unfold confinement_pass2. rewrite E2. simpl. by eauto 7.
Qed.

(** [process] returns on marks that are cells of the grid. *)
Lemma process_total g (verbose : bool) (mb mw : CoordSet.t) (s : string) (n : Z)
  (fc : CoordSet.t) :
  well_formed g -> cells_of g mb -> cells_of g mw ->
  exists b g', process g verbose mb mw s n fc = Ok (b, g').
Proof.
  intros Hwf Hb Hw. unfold process.
  destruct (CoordSet.is_empty mb && CoordSet.is_empty mw); [by eauto|].
  destruct (mark_all_total g BLACK mb) as [g1 Hg1]; [by right| |].
  { intros q Hq. by apply (wf_array g Hwf), Hb. }
  destruct (mark_all_total g1 WHITE mw) as [g2 Hg2]; [by left| |].
  { intros q Hq. apply (mark_all_inside g BLACK mb g1 _ _ Hg1).
    by apply (wf_array g Hwf), Hw. }
  rewrite Hg1. simpl. rewrite Hg2. simpl. by eauto.
Qed.

End ConfinementTotal.

(** ** [mark] keeps the grid well formed *)

Section WellFormed.

Context {PRNG : Type}.
Implicit Types (g h : Grid PRNG) (r a b : Region) (p q : coord).

Lemma valid_ext g h (x y : Z) :
  m_width h = m_width g -> m_height h = m_height g -> valid h x y = valid g x y.
Proof. unfold valid. by intros -> ->. Qed.

(** Well-formedness only reads the size, the array and the regions. *)
Lemma well_formed_ext g h :
  m_width h = m_width g -> m_height h = m_height g ->
  m_cells h = m_cells g -> m_regions h = m_regions g ->
  well_formed g -> well_formed h.
Proof.
  intros Hw Hh Hc Hr [].
  split; unfold valid, cell, region in *; rewrite ?Hw, ?Hh, ?Hc, ?Hr; done.
Qed.

Lemma inside_absorb g (i1 i2 : rid) a b (x y : Z) :
  inside (m_cells (absorb g i1 a i2 b)) x y <-> inside (m_cells g) x y.
Proof.
  unfold absorb. simpl.
  apply (inside_set_regions (with_regions g _) i1 (m_coords b) x y).
Qed.

Lemma well_formed_absorb g (i1 i2 : rid) a b :
  well_formed g -> i1 <> i2 ->
  m_regions g !! i1 = Some a -> m_regions g !! i2 = Some b ->
  well_formed (absorb g i1 a i2 b).
Proof.
  intros Hwf Hne Ha Hb.
  pose proof (absorb_result g i1 i2 a b) as H. cbv zeta in H.
  destruct H as (Hreg & Hst & Hco & Hun & Hcell & _ & Hin & Hout).
  destruct (same_frame_absorb g i1 i2 a b) as (Hw & Hh & _).
  set (h := absorb g i1 a i2 b) in *.
  set (r := Reg.unk_insert (m_unknowns b) (Reg.insert (m_coords b) a)) in *.
  assert (Hv : forall x y, valid h x y = valid g x y) by (intros; by apply valid_ext).
  assert (Hlook : forall i c, m_regions h !! i = Some c ->
            i <> i2 /\ ((i = i1 /\ c = r) \/ (i <> i1 /\ m_regions g !! i = Some c))).
  { intros i c. rewrite Hreg. intros [Hi2 Hi]%lookup_delete_Some. split; [done|].
    apply lookup_insert_Some in Hi as [[-> ->]|[? ?]]; [by left|right; by auto]. }
  assert (Hr : m_regions h !! i1 = Some r).
  { rewrite Hreg, lookup_delete_ne by done. apply lookup_insert_eq. }
  assert (Hother : forall i c, i <> i1 -> i <> i2 -> m_regions g !! i = Some c ->
            m_regions h !! i = Some c).
  { intros i c ? ? Hi. rewrite Hreg, lookup_delete_ne, lookup_insert_ne; done. }
  assert (Hptr : forall q, q ∈ m_coords b -> region h q.1 q.2 = Some i1).
  { intros q Hq. apply Hin; [done|]. apply (wf_array g Hwf).
    by apply (wf_coords g Hwf i2 b q Hb Hq). }
  assert (Hout' : forall x y, (x, y) ∉ m_coords b -> region h x y = region g x y)
    by (intros x y; apply (Hout (x, y))).
  assert (Hptr' : forall x y, (x, y) ∈ m_coords b -> region h x y = Some i1)
    by (intros x y; apply (Hptr (x, y))).
  split.
  - rewrite Hw. apply (wf_width g Hwf).
  - rewrite Hh. apply (wf_height g Hwf).
  - intros x y. rewrite Hv. unfold h. rewrite inside_absorb. apply (wf_array g Hwf).
  - intros x y. rewrite Hv, Hcell. intros Hxy Hu.
    rewrite Hout'; [by apply (wf_unknown g Hwf)|]. intros Hq.
    destruct (wf_coords g Hwf i2 b (x, y) Hb Hq) as [_ Hp]. simpl in Hp.
    by rewrite (wf_unknown g Hwf x y Hxy Hu) in Hp.
  - intros x y. rewrite Hv, Hcell. intros Hxy Hk.
    destruct (wf_known g Hwf x y Hxy Hk) as (i & c & Hi & Hc & Hq).
    destruct (decide ((x, y) ∈ m_coords b)) as [Hxb|Hxb].
    + exists i1, r. split; [by apply Hptr'|]. split; [done|]. apply Hco. by right.
    + rewrite (Hout' x y Hxb).
      assert (i <> i2). { intros ->. rewrite Hb in Hc. by injection Hc as <-. }
      destruct (decide (i = i1)) as [->|Hi1].
      * exists i1, r. split; [done|]. split; [done|]. apply Hco. left.
        rewrite Ha in Hc. by injection Hc as <-.
      * exists i, c. split; [done|]. split; [by apply Hother|done].
  - intros i c q Hi Hq. rewrite Hv. apply Hlook in Hi as [Hi2 [[-> ->] | [Hi1 Hi]]].
    + apply Hco in Hq as [Hq | Hq].
      * destruct (wf_coords g Hwf i1 a q Ha Hq) as [Hqv Hqr]. split; [done|].
        destruct (decide (q ∈ m_coords b)) as [Hqb|Hqb]; [by apply Hptr|].
        by rewrite Hout.
      * split; [by apply (wf_coords g Hwf i2 b q Hb Hq)|by apply Hptr].
    + destruct (wf_coords g Hwf i c q Hi Hq) as [Hqv Hqr]. split; [done|].
      rewrite Hout; [done|]. intros Hqb.
      destruct (wf_coords g Hwf i2 b q Hb Hqb) as [_ Hqr']. congruence.
  - intros i c q Hi Hq. rewrite Hv, Hcell. apply Hlook in Hi as [Hi2 [[-> ->] | [Hi1 Hi]]].
    + apply Hun in Hq as [Hq | Hq];
        [by apply (wf_liberties g Hwf i1 a)|by apply (wf_liberties g Hwf i2 b)].
    + by apply (wf_liberties g Hwf i c).
  - intros i c Hi. apply Hlook in Hi as [Hi2 [[-> ->] | [Hi1 Hi]]].
    + unfold Reg.black, Reg.white, Reg.numbered. rewrite Hst.
      apply (wf_state g Hwf i1 a Ha).
    + by apply (wf_state g Hwf i c).
Qed.

Lemma well_formed_sitrep g (s : SitRep) : well_formed g -> well_formed (with_sitrep g s).
Proof. by apply well_formed_ext. Qed.

Lemma well_formed_print g (s : string) (u : CoordSet.t) (n : Z) (fc : CoordSet.t) :
  well_formed g -> well_formed (print g s u n fc).
Proof. by apply well_formed_ext. Qed.

Lemma well_formed_fuse_regions g (p1 p2 : option rid) :
  well_formed g -> well_formed (fuse_regions g p1 p2).
Proof.
  intros Hwf. unfold fuse_regions.
  destruct p1 as [i1|]; [|done]. destruct p2 as [i2|]; [|done].
  case_bool_decide as Hne; [done|].
  destruct (m_regions g !! i1) as [a|] eqn:Ha; [|done].
  destruct (m_regions g !! i2) as [b|] eqn:Hb; [|done].
  destruct (Reg.numbered a && Reg.numbered b); [by apply well_formed_sitrep|].
  destruct (negb (Bool.eqb (Reg.black a) (Reg.black b))); [done|].
  destruct (Reg.size a <? Reg.size b).
  - destruct (Reg.numbered a); apply well_formed_absorb; done.
  - destruct (Reg.numbered b); apply well_formed_absorb; done.
Qed.

Lemma well_formed_fuse_neighbors g (x y : Z) (l : list coord) :
  well_formed g ->
  well_formed (foldl (fun h q => fuse_regions h (region h x y) (region h q.1 q.2)) g l).
Proof.
  revert g. induction l as [|q l IH]; intros g Hwf; simpl; [done|].
  by apply IH, well_formed_fuse_regions.
Qed.

(** [mark] keeps the grid well formed. *)
Lemma well_formed_mark g (s : State) (x y : Z) g' :
  well_formed g -> mark g s x y = Ok g' -> well_formed g'.
Proof.
  intros Hwf Hm. destruct (decide (cell g x y = UNKNOWN)) as [Hu|Hk].
  2: { apply mark_known in Hm as ->; [|done]. by apply well_formed_sitrep. }
  destruct (mark_unknown g s x y g' Hm Hu) as (Hin & _).
  assert (Hxy : valid g x y = true) by (by apply (wf_array g Hwf)).
  unfold mark in Hm. destruct (negb (s =? WHITE) && negb (s =? BLACK)) eqn:Es; [done|].
  assert (Hs : s = WHITE \/ s = BLACK).
  { apply andb_false_iff in Es as [E|E]; apply negb_false_iff, Z.eqb_eq in E; auto. }
  rewrite Hu in Hm. simpl in Hm. unfold add_region, Reg.make in Hm.
  set (g1 := set_cell g x y s) in *.
  set (g2 := with_regions g1 (Reg.unk_erase x y <$> m_regions g1)) in *.
  assert (Hc2 : forall x' y', cell g2 x' y'
            = if bool_decide ((x', y') = (x, y)) then s else cell g x' y').
  { intros x' y'. change (cell g2 x' y') with (cell g1 x' y'). case_bool_decide as E.
    - injection E as -> ->. destruct (cell_set_cell g x y s) as [[_ ?]|E]; [done|].
      exfalso. unfold set_cell in E. apply (f_equal m_cells) in E. simpl in E.
      pose proof (cells_get_alter_eq (fun c => (s, c.2)) (m_cells g) x y Hin) as E'.
      rewrite E in E'. apply (f_equal fst) in E'. simpl in E'.
      unfold cell in Hu. rewrite Hu in E'. destruct Hs; subst; done.
    - by apply cell_set_cell_ne. }
  rewrite Hc2, bool_decide_eq_true_2 in Hm by done.
  replace (s =? UNKNOWN) with false in Hm by (destruct Hs; by subst).
  simpl in Hm. injection Hm as <-. apply well_formed_fuse_neighbors.
  set (i0 := fresh_rid g2).
  set (rn := mkRegion s (CoordSet.insert (x, y) CoordSet.empty)
                      (insert_valid_unknown_neighbors g2 CoordSet.empty x y)).
  set (g3 := with_regions (set_region g2 x y (Some i0)) (<[i0 := rn]> (m_regions g2))).
  assert (Hfresh : m_regions g !! i0 = None).
  { apply not_elem_of_dom. unfold i0, fresh_rid, g2. simpl. rewrite dom_fmap_L.
    apply is_fresh. }
  assert (Hc3 : forall x' y', cell g3 x' y'
            = if bool_decide ((x', y') = (x, y)) then s else cell g x' y').
  { intros x' y'. rewrite <- Hc2. apply (cell_set_region g2). }
  assert (Hr3 : forall x' y', region g3 x' y'
            = if bool_decide ((x', y') = (x, y)) then Some i0 else region g x' y').
  { intros x' y'. unfold g3, region. simpl. case_bool_decide as E.
    - injection E as -> ->. rewrite cells_get_alter_eq; [done|]. by apply inside_alter.
    - rewrite cells_get_alter_ne by congruence.
      apply (region_set_cell g x y s x' y'). }
  assert (Hv3 : forall x' y', valid g3 x' y' = valid g x' y') by done.
  assert (Hlook : forall i c, m_regions g3 !! i = Some c ->
            (i = i0 /\ c = rn)
            \/ (i <> i0 /\ exists c0, m_regions g !! i = Some c0 /\ c = Reg.unk_erase x y c0)).
  { intros i c. unfold g3. simpl.
    intros [[<- <-]|[? Hi]]%lookup_insert_Some; [by left|]. right. split; [done|].
    rewrite lookup_fmap in Hi. destruct (m_regions g !! i) as [c0|]; [|done].
    injection Hi as <-. by exists c0. }
  assert (Hold : forall i c0, m_regions g !! i = Some c0 ->
            m_regions g3 !! i = Some (Reg.unk_erase x y c0)).
  { intros i c0 Hi. unfold g3. simpl. rewrite lookup_insert_ne by congruence.
    rewrite lookup_fmap. simpl. by rewrite Hi. }
  split.
  - apply (wf_width g Hwf).
  - apply (wf_height g Hwf).
  - intros x' y'. rewrite Hv3, <- (wf_array g Hwf). unfold g3. simpl.
    rewrite !inside_alter. done.
  - intros x' y'. rewrite Hv3, Hc3, Hr3. case_bool_decide as E.
    + intros _ ->. destruct Hs; done.
    + by apply (wf_unknown g Hwf).
  - intros x' y'. rewrite Hv3, Hc3, Hr3. case_bool_decide as E.
    + intros _ _. exists i0, rn. split; [done|]. split.
      * unfold g3. simpl. apply lookup_insert_eq.
      * injection E as -> ->. apply CoordSetFacts.elem_of_insert. by left.
    + intros Hv' Hk'. destruct (wf_known g Hwf x' y' Hv' Hk') as (i & c & Hi & Hc & Hq).
      exists i, (Reg.unk_erase x y c). split; [done|]. split; [by apply Hold|done].
  - intros i c q Hi Hq. rewrite Hv3. destruct q as [x' y']. simpl. rewrite Hr3.
    apply Hlook in Hi as [[-> ->] | [Hne (c0 & Hi & ->)]].
    + simpl in Hq. apply list_elem_of_singleton in Hq as [= -> ->].
      split; [done|]. by rewrite bool_decide_eq_true_2.
    + destruct (wf_coords g Hwf i c0 (x', y') Hi Hq) as [Hqv Hqr]. split; [done|].
      case_bool_decide as E; [|done]. injection E as -> ->. simpl in Hqr.
      by rewrite (wf_unknown g Hwf x y Hxy Hu) in Hqr.
  - intros i c q Hi Hq. rewrite Hv3. destruct q as [x' y']. simpl. rewrite Hc3.
    apply Hlook in Hi as [[-> ->] | [Hne (c0 & Hi & ->)]].
    + simpl in Hq. apply elem_of_insert_valid_unknown_neighbors in Hq
        as [[]%not_elem_of_nil | [Hq Hqu]]. simpl in Hqu. rewrite Hc2 in Hqu.
      split; [by apply (valid_neighbors_valid g x y (x', y') Hxy Hq)|].
      case_bool_decide; [|done]. destruct Hs; subst; done.
    + simpl in Hq. apply CoordSetFacts.elem_of_erase in Hq as [Hqne Hq].
      destruct (wf_liberties g Hwf i c0 (x', y') Hi Hq) as [Hqv Hqu]. split; [done|].
      by rewrite bool_decide_eq_false_2.
  - intros i c Hi. apply Hlook in Hi as [[-> ->] | [Hne (c0 & Hi & ->)]].
    + unfold Reg.black, Reg.white. simpl. destruct Hs as [-> | ->]; auto.
    + apply (wf_state g Hwf i c0 Hi).
Qed.

Lemma well_formed_mark_all g (s : State) (ps : list coord) g' :
  well_formed g -> mark_all g s ps = Ok g' -> well_formed g'.
Proof.
  revert g. induction ps as [|u ps IH]; intros g Hwf; [by intros [= <-]|].
  rewrite mark_all_cons. destruct (mark g s u.1 u.2) as [h| |] eqn:Em; simpl; try done.
  apply IH. by eapply well_formed_mark.
Qed.

Lemma well_formed_process g (verbose : bool) (mb mw : CoordSet.t) (s : string) (n : Z)
  (fc : CoordSet.t) (b : bool) g' :
  well_formed g -> process g verbose mb mw s n fc = Ok (b, g') -> well_formed g'.
Proof.
  intros Hwf. unfold process. destruct (CoordSet.is_empty mb && CoordSet.is_empty mw).
  { by intros [= <- <-]. }
  destruct (mark_all g BLACK mb) as [g1| |] eqn:Hg1; simpl; try done.
  destruct (mark_all g1 WHITE mw) as [g2| |] eqn:Hg2; simpl; try done.
  intros [= <- <-].
  assert (well_formed g2) by (eapply well_formed_mark_all; [|done];
                              by eapply well_formed_mark_all).
  destruct verbose; [by apply well_formed_print|done].
Qed.

End WellFormed.

(** ** The constructor builds a well-formed grid *)

Section ConstructedWellFormed.

Context {PRNG : Type}.
Variable mt19937 : Z -> PRNG.
Implicit Types (g h : Grid PRNG) (p q : coord) (v : list Z).

Lemma place_clue_liberties v g p g' :
  place_clue v g p = Ok g' ->
  m_width g' = m_width g /\ m_height g' = m_height g
  /\ (liberties_near g -> liberties_near g').
Proof.
  unfold place_clue. destruct (0 <? _); [|by intros [= <-]].
  destruct (_ && _); [done|]. unfold add_region, Reg.make.
  destruct (_ =? UNKNOWN); [done|]. simpl. intros [= <-].
  split; [done|]. split; [done|]. intros Hl i r u. simpl.
  intros [[_ <-]|[_ Hi]]%lookup_insert_Some Hu.
  - exists p. split; [by destruct p|]. simpl in Hu.
    apply elem_of_insert_valid_unknown_neighbors in Hu as [[]%not_elem_of_nil | [Hu _]].
    done.
  - destruct (Hl i r u Hi Hu) as (q & ? & ?). by exists q.
Qed.

Lemma place_clues_liberties v (l : list coord) g g' :
  for_each l g (place_clue v) = Ok g' -> liberties_near g -> liberties_near g'.
Proof.
  intros Hrun.
  apply (for_each_rel (fun g g' => m_width g' = m_width g /\ m_height g' = m_height g
                          /\ (liberties_near g -> liberties_near g'))
                      (place_clue v) l g g'); [done| | |done].
  - intros g1 g2 g3 (? & ? & ?) (? & ? & ?). split; [congruence|]. split; [congruence|auto].
  - intros g1 p g2 _. apply place_clue_liberties.
Qed.

Lemma clues_side_by_side_false g (x y : Z) :
  clues_side_by_side g = false ->
  valid g x y = true -> valid g (x + 1) y = true ->
  0 < cell g x y -> 0 < cell g (x + 1) y -> False.
Proof.
  unfold clues_side_by_side. intros He Hv Hv' Hc Hc'.
  apply not_true_iff_false in He. apply He, existsb_exists.
  exists (x, y). split.
  - apply list_elem_of_In, elem_of_xy_range. unfold valid in *. simpl.
    rewrite !andb_true_iff, !Z.leb_le, !Z.ltb_lt in Hv, Hv'. lia.
  - simpl. apply andb_true_iff. split; by apply Z.ltb_lt.
Qed.

Lemma elem_of_valid_neighbors_cases g (x y : Z) u :
  u ∈ valid_neighbors g x y ->
  u = (x - 1, y) \/ u = (x + 1, y) \/ u = (x, y - 1) \/ u = (x, y + 1).
Proof.
  unfold valid_neighbors. rewrite !elem_of_app.
  intros [H | [H | [H | H]]]; revert H; case_match; intros H';
    try (by apply not_elem_of_nil in H'); apply list_elem_of_singleton in H'; auto.
Qed.

(** The constructor leaves a well-formed grid, unless two numbers are side
    by side in a row. *)
Lemma Grid_new_well_formed (w h : Z) (s : string) g :
  Grid_new mt19937 w h s = Ok g ->
  clues_side_by_side g = false ->
  well_formed g.
Proof.
  intros Hnew Hside.
  destruct (Grid_new_cases mt19937 w h s) as [[_ [e He]] | [Hok _]]; [congruence|].
  assert (Hvert : ~ vertically_adjacent w h s).
  { intros Hv. apply Hok. left. unfold input_error. tauto. }
  destruct (parse_string s) as [[Hbad _] | (_ & _ & Hparse)];
    [exfalso; apply Hok; unfold input_error; tauto|].
  pose proof Hnew as (v & g1 & Hv & Hlen & Hw & Hh & Hrun & ->)%Grid_new_run.
  rewrite Hparse in Hv. injection Hv as <-.
  pose proof (place_clues_liberties _ _ _ _ Hrun) as Hnear.
  apply place_clues_result in Hrun
    as (Hw1 & Hh1 & Hi & Hs & Ho & Hc & Ht & _ & Hr & Hsub & Hnewr & Hold & Hall);
    [|apply NoDup_xy_range
     |intros p Hp%elem_of_xy_range; apply inside_replicate; lia].
  simpl in *.
  apply (well_formed_print g1 _ _ _ _).
  change (clues_side_by_side g1 = false) in Hside.
  set (v := entries s) in *.
  assert (Hval : forall x y, valid g1 x y = true <-> (x, y) ∈ xy_range w h).
  { intros x y. rewrite elem_of_xy_range. unfold valid. rewrite Hw1, Hh1. simpl.
    rewrite !andb_true_iff, !Z.leb_le, !Z.ltb_lt. lia. }
  assert (Hcell : forall x y, (x, y) ∈ xy_range w h ->
            cell g1 x y = if 0 <? entry v (x + y * w) then entry v (x + y * w) else UNKNOWN).
  { intros x y Hxy. pose proof (Hc (x, y)) as Hq. simpl in Hq. rewrite Hq.
    unfold cell at 1. simpl. rewrite cells_get_replicate. simpl.
    case_bool_decide as Hd.
    - destruct Hd as [_ Hd]. apply Z.ltb_lt in Hd. by rewrite Hd.
    - destruct (0 <? entry v (x + y * w)) eqn:E; [|done]. apply Z.ltb_lt in E.
      exfalso. apply Hd. done. }
  assert (Hreg0 : forall x y,
            region (mkGrid w h (wrap_int (w * h))
              (replicate (Z.to_nat w) (replicate (Z.to_nat h) (UNKNOWN, None)))
              ∅ KEEP_GOING [] (mt19937 1729)) x y = None).
  { intros x y. unfold region. simpl. by rewrite cells_get_replicate. }
  assert (Hclue : forall x y, valid g1 x y = true -> cell g1 x y <> UNKNOWN ->
            0 < entry v (x + y * w) /\ cell g1 x y = entry v (x + y * w)).
  { intros x y Hxy%Hval Hk. rewrite (Hcell x y Hxy) in *.
    destruct (0 <? entry v (x + y * w)) eqn:E; [|done]. by apply Z.ltb_lt in E. }
  assert (Hregion : forall i r, m_regions g1 !! i = Some r ->
            exists x y, valid g1 x y = true /\ region g1 x y = Some i
              /\ 0 < m_state r /\ m_state r = cell g1 x y /\ m_coords r = [(x, y)]).
  { intros i r Hir. destruct (Hall i r Hir) as [H0 | ([x y] & Hq & Hpos & Hptr & Hst & Hco)].
    { by rewrite lookup_empty in H0. }
    simpl in *. exists x, y. split; [by apply Hval|]. split; [done|].
    split; [lia|]. split; [|done]. rewrite (Hcell x y Hq).
    apply Z.ltb_lt in Hpos. by rewrite Hpos. }
  split.
  - lia.
  - lia.
  - intros x y. rewrite Hi, inside_replicate, Hval, elem_of_xy_range. simpl. lia.
  - intros x y Hxy%Hval Hu. rewrite (Hcell x y Hxy) in Hu.
    destruct (0 <? entry v (x + y * w)) eqn:E.
    { apply Z.ltb_lt in E. unfold UNKNOWN in Hu. lia. }
    apply Z.ltb_ge in E. pose proof (Hold (x, y) Hxy E) as Hq. simpl in Hq.
    rewrite Hq. apply Hreg0.
  - intros x y Hxy Hk. destruct (Hclue x y Hxy Hk) as [Hpos _].
    destruct (Hnewr (x, y) (proj1 (Hval x y) Hxy) Hpos) as (i & r & Hi' & Hr' & _ & _ & Hco).
    exists i, r. split; [done|]. split; [done|]. rewrite Hco. by left.
  - intros i r q Hir Hq. destruct (Hregion i r Hir) as (x & y & Hxy & Hptr & _ & _ & Hco).
    rewrite Hco in Hq. apply list_elem_of_singleton in Hq as ->. done.
  - intros i r u Hir Hu.
    assert (Hnear0 : liberties_near (mkGrid w h (wrap_int (w * h))
              (replicate (Z.to_nat w) (replicate (Z.to_nat h) (UNKNOWN, None)))
              ∅ KEEP_GOING [] (mt19937 1729))).
    { intros i0 r0 u0 H0. simpl in H0. by rewrite lookup_empty in H0. }
    destruct (Hnear Hnear0 i r u Hir Hu) as (q & Hco & Hq).
    destruct (Hregion i r Hir) as (x & y & Hxy & Hptr & Hpos & Hst & Hco').
    rewrite Hco in Hco'. injection Hco' as ->. simpl in Hq.
    assert (Hq' : u ∈ valid_neighbors g1 x y) by done.
    assert (Huv : valid g1 u.1 u.2 = true) by apply (valid_neighbors_valid g1 x y u Hxy Hq').
    split; [done|].
    destruct (decide (cell g1 u.1 u.2 = UNKNOWN)) as [|Hk]; [done|]. exfalso.
    destruct (Hclue u.1 u.2 Huv Hk) as [Hupos Hucell].
    assert (Hxpos : 0 < entry v (x + y * w)).
    { apply (Hclue x y Hxy). rewrite <- Hst. unfold UNKNOWN. lia. }
    assert (Hxc : 0 < cell g1 x y) by lia.
    assert (Huc : 0 < cell g1 u.1 u.2) by lia.
    assert (Hb : 0 <= x < w /\ 0 <= y < h).
    { apply Hval, elem_of_xy_range in Hxy. simpl in Hxy. lia. }
    assert (Hbu : 0 <= u.1 < w /\ 0 <= u.2 < h).
    { apply Hval in Huv. apply elem_of_xy_range in Huv. simpl in Huv. lia. }
    apply elem_of_valid_neighbors_cases in Hq' as [-> | [-> | [-> | ->]]]; simpl in *.
    + apply (clues_side_by_side_false g1 (x - 1) y Hside); try done.
      all: by replace (x - 1 + 1) with x by lia.
    + by apply (clues_side_by_side_false g1 x y Hside).
    + apply Hvert. exists x, y. split; [lia|]. split; [lia|]. done.
    + apply Hvert. exists x, (y + 1). split; [lia|]. split; [lia|].
      by replace (y + 1 - 1) with y by lia.
  - intros i r Hir. destruct (Hregion i r Hir) as (_ & _ & _ & _ & Hpos & _).
    right. right. by apply Z.ltb_lt.
Qed.

End ConstructedWellFormed.

(** ** Every rule returns *)

Section RulesTotal.

Context {PRNG : Type}.
Implicit Types (g h : Grid PRNG) (r a : Region) (p q u : coord).

Lemma foldl_inv {A B} (P : A -> Prop) (f : A -> B -> A) (l : list B) (st : A) :
  P st -> (forall acc x, x ∈ l -> P acc -> P (f acc x)) -> P (foldl f st l).
Proof.
  revert st. induction l as [|x l IH]; intros st Hst Hf; simpl; [done|].
  apply IH; [apply Hf; [by left|done]|]. intros acc y Hy. apply Hf. by right.
Qed.

Lemma cells_of_empty g : cells_of g CoordSet.empty.
Proof. by intros q ?%not_elem_of_nil. Qed.

Lemma cells_of_insert g q (s : CoordSet.t) :
  valid g q.1 q.2 = true -> cells_of g s -> cells_of g (CoordSet.insert q s).
Proof. intros Hq Hs u [-> | ?]%CoordSetFacts.elem_of_insert; [done|by apply Hs]. Qed.

Lemma xy_range_cell g q :
  q ∈ xy_range (m_width g) (m_height g) -> valid g q.1 q.2 = true.
Proof.
  intros Hq%elem_of_xy_range. unfold valid.
  rewrite !andb_true_iff, !Z.leb_le, !Z.ltb_lt. lia.
Qed.

(** A rule that commits its marks with [process]. *)
Lemma process_kept g (verbose : bool) (mb mw : CoordSet.t) (s : string) (n : Z)
  (fc : CoordSet.t) :
  well_formed g -> cells_of g mb -> cells_of g mw ->
  exists b g', process g verbose mb mw s n fc = Ok (b, g') /\ well_formed g'.
Proof.
  intros Hwf Hb Hw.
  destruct (process_total g verbose mb mw s n fc Hwf Hb Hw) as (b & g' & Hp).
  exists b, g'. split; [done|]. by eapply well_formed_process.
Qed.

Lemma complete_islands_cells g : well_formed g -> cells_of g (complete_islands_marks g).
Proof.
  intros Hwf q (i & r & Hi & _ & Hq)%elem_of_complete_islands_marks.
  by apply (wf_liberties g Hwf i r q).
Qed.

Lemma single_liberties_cells g :
  well_formed g ->
  cells_of g (single_liberties_marks g).1 /\ cells_of g (single_liberties_marks g).2.
Proof.
  intros Hwf. unfold single_liberties_marks.
  apply (foldl_inv (fun m : CoordSet.t * CoordSet.t => cells_of g m.1 /\ cells_of g m.2)).
  { split; apply cells_of_empty. }
  intros m ir Hir%regions_lookup [Hb Hw]. simpl.
  destruct (partial g ir.2 && _); [|done].
  destruct (m_unknowns ir.2) as [|u l] eqn:Eu; [done|].
  assert (Hu : valid g u.1 u.2 = true).
  { apply (wf_liberties g Hwf ir.1 ir.2 u Hir). rewrite Eu. by left. }
  destruct (Reg.black ir.2); simpl; split; try done; by apply cells_of_insert.
Qed.

Lemma dual_liberties_cells g : well_formed g -> cells_of g (dual_liberties_marks g).
Proof.
  intros Hwf. unfold dual_liberties_marks.
  apply (foldl_inv (cells_of g)); [apply cells_of_empty|].
  intros m ir Hir%regions_lookup Hm. unfold dual_liberties_step.
  destruct (_ && _); [|done].
  destruct (m_unknowns ir.2) as [|[x1 y1] [|[x2 y2] l]] eqn:Eu; try done.
  destruct (_ && _); [|done].
  destruct (cell g _ _ =? UNKNOWN); [|done].
  apply cells_of_insert; [|done].
  assert (H1 : valid g x1 y1 = true).
  { apply (wf_liberties g Hwf ir.1 ir.2 (x1, y1) Hir). rewrite Eu. by left. }
  assert (H2 : valid g x2 y2 = true).
  { apply (wf_liberties g Hwf ir.1 ir.2 (x2, y2) Hir). rewrite Eu. right. by left. }
  unfold far_corner, valid in *.
  rewrite !andb_true_iff, !Z.leb_le, !Z.ltb_lt in H1, H2.
  destruct (Reg.contains _ _ _); simpl; rewrite !andb_true_iff, !Z.leb_le, !Z.ltb_lt; lia.
Qed.

Lemma unreachable_cells_marks_total (fuel : nat) g :
  m_width g * m_height g + 1 < Z.of_nat fuel ->
  exists ms, unreachable_cells_marks fuel g = Ok ms /\ cells_of g ms.
Proof.
  intros Hfuel.
  destruct (unreachable_cells_marks_spec fuel g) as (ms & Hms & Hspec).
  { intros p Hp. apply unreachable_total; [by apply xy_range_cell|done]. }
  exists ms. split; [done|]. intros q [Hq _]%Hspec. by apply xy_range_cell.
Qed.

(** The sort of the four cells of a square keeps them. *)
Lemma sort_insert_perm (e : XYState) (l : list XYState) : sort_insert e l ≡ₚ e :: l.
Proof.
  induction l as [|x l IH]; simpl; [done|].
  destruct (x.2 <? e.2); [|done]. rewrite IH. apply Permutation_swap.
Qed.

Lemma sort_by_state_perm (l : list XYState) : sort_by_state l ≡ₚ l.
Proof.
  unfold sort_by_state. induction l as [|x l IH]; simpl; [done|].
  by rewrite sort_insert_perm, IH.
Qed.

Lemma square_valid g (x y : Z) q :
  0 <= x < m_width g - 1 -> 0 <= y < m_height g - 1 ->
  q ∈ square x y -> valid g q.1 q.2 = true.
Proof.
  intros Hx Hy. unfold square, valid. rewrite !elem_of_cons, elem_of_nil.
  intros [-> | [-> | [-> | [-> | []]]]]; simpl;
    rewrite !andb_true_iff, !Z.leb_le, !Z.ltb_lt; lia.
Qed.

Lemma unreachable_avoiding_total (fuel : nat) g (x y : Z) (discovered : CoordSet.t) :
  valid g x y = true -> m_width g * m_height g + 1 < Z.of_nat fuel ->
  exists b, unreachable fuel g x y discovered = Ok b.
Proof.
  intros Hv Hfuel. unfold unreachable.
  destruct (negb (cell g x y =? UNKNOWN)); [by eauto|].
  apply unreachable_loop_total.
  - intros t ->%list_elem_of_singleton. done.
  - assert (0 <= m_width g /\ 0 <= m_height g) as [Hw Hh].
    { unfold valid in Hv. repeat (apply andb_true_iff in Hv as [Hv ?]). lia. }
    pose proof (undiscovered_le g (CoordSet.insert (x, y) discovered) Hw Hh).
    change (length [(x, y, 1)]) with 1%nat. lia.
Qed.

Lemma potential_pools_square_total (fuel : nat) g (x y : Z) (m : CoordSet.t) :
  0 <= x < m_width g - 1 -> 0 <= y < m_height g - 1 ->
  m_width g * m_height g + 1 < Z.of_nat fuel ->
  cells_of g m ->
  exists m', potential_pools_square fuel g x y m = Ok m' /\ cells_of g m'.
Proof.
  intros Hx Hy Hfuel Hm. unfold potential_pools_square.
  set (l := [(x, y, cell g x y); (x + 1, y, cell g (x + 1) y);
             (x, y + 1, cell g x (y + 1)); (x + 1, y + 1, cell g (x + 1) (y + 1))]).
  pose proof (sort_by_state_perm l) as Hperm.
  assert (Hin : forall e, e ∈ sort_by_state l -> valid g e.1.1 e.1.2 = true).
  { intros e He. rewrite Hperm in He. apply (square_valid g x y e.1 Hx Hy).
    unfold l, square in *. rewrite !elem_of_cons, elem_of_nil in *.
    destruct He as [E | [E | [E | [E | E]]]]; [| | | |by apply not_elem_of_nil in E];
      rewrite E; simpl; auto 10. }
  destruct (sort_by_state l) as [|a0 [|a1 [|a2 [|a3 [|a4 rest]]]]]; try (by eauto).
  assert (H0 : valid g a0.1.1 a0.1.2 = true) by (apply Hin; by left).
  assert (H1 : valid g a1.1.1 a1.1.2 = true) by (apply Hin; right; by left).
  destruct (_ && _ && _ && _).
  { eexists. split; [done|]. by apply cells_of_insert. }
  destruct (_ && _ && _ && _); [|by eauto].
  destruct (unreachable_avoiding_total fuel g a1.1.1 a1.1.2
              (CoordSet.insert a0.1 CoordSet.empty) H1 Hfuel) as [u1 ->].
  destruct (unreachable_avoiding_total fuel g a0.1.1 a0.1.2
              (CoordSet.insert a1.1 CoordSet.empty) H0 Hfuel) as [u0 ->].
  simpl. eexists. split; [done|].
  destruct u0, u1; repeat apply cells_of_insert; done.
Qed.

(** The pool rule returns, and it proposes cells of the grid only. *)
Lemma potential_pools_marks_total (fuel : nat) g :
  m_width g * m_height g + 1 < Z.of_nat fuel ->
  exists ms, potential_pools_marks fuel g = Ok ms /\ cells_of g ms.
Proof.
  intros Hfuel. unfold potential_pools_marks.
  apply (for_each_total (cells_of g)); [apply cells_of_empty|].
  intros m p Hp%elem_of_xy_range Hm.
  apply potential_pools_square_total; [lia|lia|done|done].
Qed.

Lemma well_formed_uh_oh g (verbose : bool) (s : string) :
  well_formed g -> well_formed (uh_oh g verbose s).
Proof.
  intros Hwf. unfold uh_oh. apply well_formed_sitrep.
  destruct verbose; [by apply well_formed_print|done].
Qed.

Lemma detect_regions_total (fuel : nat) g (rs : list (rid * Region)) (bc wc : Z)
  (cache : cache_map_t) :
  well_formed g -> enough g fuel ->
  (forall ir, ir ∈ rs -> m_regions g !! ir.1 = Some ir.2) ->
  exists d, detect_regions fuel g rs bc wc cache = Ok d.
Proof.
  intros Hwf Hfuel. revert bc wc cache.
  induction rs as [|[i r] rs IH]; intros bc wc cache Hrs; simpl; [by eauto|].
  destruct (gigantic g r); [by eauto|].
  destruct (confined_total fuel g i r cache CoordSet.empty Hwf
              (Hrs (i, r) ltac:(by left))) as (b & c & ->); [|done|].
  { by intros q ?%not_elem_of_nil. }
  simpl. destruct b; [by eauto|]. apply IH. intros ir Hir. apply Hrs. by right.
Qed.

Lemma detect_contradictions_total (fuel : nat) g (verbose : bool) (cache : cache_map_t) :
  well_formed g -> enough g fuel ->
  exists b g' c, detect_contradictions fuel g verbose cache = Ok (b, g', c)
    /\ well_formed g'.
Proof.
  intros Hwf Hfuel. unfold detect_contradictions.
  destruct (existsb _ _); [eexists _, _, _; split; [done|by apply well_formed_uh_oh]|].
  destruct (detect_regions_total fuel g (regions g) 0 0 cache Hwf Hfuel)
    as ([[[found bc] wc] c] & ->).
  { intros ir. apply regions_lookup. }
  simpl. destruct found as [s|]; [eexists _, _, _; split; [done|by apply well_formed_uh_oh]|].
  destruct (_ <? bc); [eexists _, _, _; split; [done|by apply well_formed_uh_oh]|].
  destruct (_ <? wc); [eexists _, _, _; split; [done|by apply well_formed_uh_oh]|].
  by eauto 6.
Qed.

Lemma analyze_confinement_total (fuel : nat) g (verbose : bool) (cache : cache_map_t) :
  well_formed g -> enough g fuel ->
  exists b g' c, analyze_confinement fuel g verbose cache = Ok (b, g', c)
    /\ well_formed g'.
Proof.
  intros Hwf Hfuel. unfold analyze_confinement.
  destruct (confinement_marks_total fuel g cache Hwf Hfuel) as (mb & mw & c & -> & Hb & Hw).
  simpl.
  destruct (process_kept g verbose mb mw "Confinement analysis succeeded." 0 CoordSet.empty
              Hwf Hb Hw) as (b & g' & -> & Hwf').
  simpl. by eauto.
Qed.

End RulesTotal.

(** ** [solve] returns *)

Section SolveTotal.

Context {PRNG : Type}.
Variable random_shuffle : PRNG -> list (Z * Z * Z) -> list (Z * Z * Z) * PRNG.
Implicit Types (g h : Grid PRNG) (r a : Region) (p q u : coord).

Lemma enough_ext g h (fuel : nat) :
  m_width h = m_width g -> m_height h = m_height g -> enough g fuel -> enough h fuel.
Proof. unfold enough. by intros -> ->. Qed.

Lemma well_formed_shape g : well_formed g -> shape g.
Proof. intros Hwf x y. apply (wf_array g Hwf). Qed.

Lemma known_range g : well_formed g -> 0 <= known g <= m_width g * m_height g.
Proof.
  intros Hwf. pose proof (wf_width g Hwf). pose proof (wf_height g Hwf).
  change (known g) with (count_known g 0 (xy_range (m_width g) (m_height g))).
  pose proof (count_known_bounds g 0 (xy_range (m_width g) (m_height g))) as Hb.
  rewrite length_xy_range in Hb by lia. lia.
Qed.

(** The copy of a well-formed grid is well formed. *)
Lemma well_formed_copy g : well_formed g -> well_formed (Grid_copy g).
Proof.
  intros Hwf. unfold Grid_copy.
  destruct (copy_fold (regions (with_output g [])) (with_output g []))
    as (Hc & Hr & _ & (Hw & Hh & _) & Hi & Hreg & _).
  set (c := foldl _ _ _) in *. simpl in *.
  assert (Hv : forall x y, valid c x y = valid g x y) by (intros; by apply valid_ext).
  assert (Hp : forall x y, region c x y = region g x y).
  { intros x y. destruct (Hreg (x, y)) as [E | ([i r] & Hir & Hq & E)]; [done|].
    simpl in *. rewrite E. apply elem_of_map_to_list in Hir.
    symmetry. apply (wf_coords g Hwf i r (x, y) Hir Hq). }
  split.
  - rewrite Hw. apply (wf_width g Hwf).
  - rewrite Hh. apply (wf_height g Hwf).
  - intros x y. rewrite Hi, Hv. apply (wf_array g Hwf).
  - intros x y. rewrite Hv, Hc, Hp. apply (wf_unknown g Hwf).
  - intros x y. rewrite Hv, Hc, Hp, Hr. apply (wf_known g Hwf).
  - intros i r q. rewrite Hv, Hp, Hr. apply (wf_coords g Hwf).
  - intros i r q. rewrite Hv, Hc, Hr. apply (wf_liberties g Hwf).
  - intros i r. rewrite Hr. apply (wf_state g Hwf).
Qed.

Lemma process_steady g (verbose : bool) (mb mw : CoordSet.t) (s : string) (n : Z)
  (fc : CoordSet.t) :
  well_formed g -> cells_of g mb -> cells_of g mw ->
  steady (process g verbose mb mw s n fc) g.
Proof.
  intros Hwf Hb Hw.
  destruct (process_kept g verbose mb mw s n fc Hwf Hb Hw) as (b & g' & Hp & Hwf').
  exists b, g'. split; [done|]. split; [done|]. intros ->.
  by apply process_moved in Hp.
Qed.

Lemma or_else_total (a : result (bool * Grid PRNG))
  (k : Grid PRNG -> result (bool * Grid PRNG)) g :
  steady a g ->
  (exists (b : bool) g', k g = Ok (b, g') /\ well_formed g') ->
  exists (b : bool) g', or_else a k = Ok (b, g') /\ well_formed g'.
Proof.
  intros (b & g1 & -> & Hwf1 & Hsame) Hk. unfold or_else. simpl.
  destruct b; simpl; [by eauto|]. by rewrite Hsame.
Qed.

Lemma solve_with_total (hyp : nat -> Grid PRNG -> bool -> result (bool * Grid PRNG))
  (fuel : nat) g (verbose guessing : bool) :
  well_formed g -> enough g fuel ->
  (guessing = true ->
   exists (b : bool) g', hyp fuel g verbose = Ok (b, g') /\ well_formed g') ->
  exists sr g', solve_with hyp fuel g verbose guessing = Ok (sr, g') /\ well_formed g'.
Proof.
  intros Hwf Hfuel Hhyp. unfold solve_with.
  pose proof (enough_fuel g fuel Hwf Hfuel) as Hfuel'.
  destruct (known g =? m_width g * m_height g).
  { destruct (detect_contradictions_total fuel g verbose ∅ Hwf Hfuel)
      as (b & g' & c & -> & Hwf').
    simpl. destruct b; simpl; [by eauto|].
    eexists _, _. split; [done|]. destruct verbose; [by apply well_formed_print|done]. }
  match goal with |- context [mbind _ ?chain] =>
    assert (Hchain : exists (b : bool) gr, chain = Ok (b, gr) /\ well_formed gr) end.
  { apply (or_else_total _ _ g).
    { apply process_steady; [done|by apply complete_islands_cells|apply cells_of_empty]. }
    apply (or_else_total _ _ g).
    { apply process_steady; [done|by apply single_liberties_cells..]. }
    apply (or_else_total _ _ g).
    { apply process_steady; [done|by apply dual_liberties_cells|apply cells_of_empty]. }
    apply (or_else_total _ _ g).
    { unfold analyze_unreachable_cells.
      destruct (unreachable_cells_marks_total fuel g Hfuel') as (ms & -> & Hms). simpl.
      apply process_steady; [done|done|apply cells_of_empty]. }
    apply (or_else_total _ _ g).
    { unfold analyze_potential_pools.
      destruct (potential_pools_marks_total fuel g Hfuel') as (ms & -> & Hms). simpl.
      apply process_steady; [done|apply cells_of_empty|done]. }
    destruct (detect_contradictions_total fuel g verbose ∅ Hwf Hfuel)
      as (bd & gd & cd & Hd & Hwfd).
    rewrite Hd. simpl. apply detect_contradictions_moved in Hd.
    destruct bd; simpl; [by eauto|]. subst gd.
    destruct (analyze_confinement_total fuel g verbose cd Hwf Hfuel)
      as (bc & gc & cc & Hc & Hwfc).
    rewrite Hc. simpl. destruct bc; simpl; [by eauto|].
    assert (gc = g) as ->.
    { unfold analyze_confinement in Hc.
      destruct (confinement_marks fuel g cd) as [[[mb mw] c']| |]; simpl in Hc; try done.
      destruct (process g verbose mb mw _ 0 CoordSet.empty) as [[bp gp]| |] eqn:Ep;
        simpl in Hc; try done.
      injection Hc as -> -> _. by apply process_moved in Ep. }
    destruct guessing; [by apply Hhyp|by eauto]. }
  destruct Hchain as (b & gr & -> & Hwfr). simpl.
  destruct b; simpl; [by eauto|].
  eexists _, _. split; [done|]. destruct verbose; [by apply well_formed_print|done].
Qed.

(** The loop of a hypothetical grid ends. *)
Lemma solve_until_total (n fuel : nat) (other : Grid PRNG) :
  well_formed other -> enough other fuel ->
  m_width other * m_height other - known other < Z.of_nat n ->
  exists sr, solve_until n fuel other = Ok sr.
Proof.
  revert other. induction n as [|n IH]; intros g Hwf Hfuel Hn.
  { pose proof (known_range g Hwf). lia. }
  simpl. unfold solve_no_guess.
  destruct (solve_with_total (fun _ g _ => Ok (false, g)) fuel g false false Hwf Hfuel)
    as (sr & g' & Hs & Hwf'); [intros H; discriminate H|].
  rewrite Hs. simpl. destruct sr; simpl; try by eauto.
  apply solve_with_cases in Hs
    as [(_ & b & gd & c & _ & Hsr & _) | (Hk & [[Hmv Hsr] | [? _]])];
    [by destruct b| |done|].
  2: { intros g0 b g0' [= <- <-]. apply same_board_refl. }
  destruct Hmv as (Hw' & Hh' & _ & [E | [_ Hlt]]); [congruence|].
  specialize (Hlt (well_formed_shape g Hwf)).
  apply IH; [done|by apply (enough_ext g)|]. rewrite Hw', Hh'. lia.
Qed.

End SolveTotal.

(** ** The hypothetical search and the loop of [main] return *)

Section GuessTotal.

Context {PRNG : Type}.
Variable random_shuffle : PRNG -> list (Z * Z * Z) -> list (Z * Z * Z) * PRNG.
Hypothesis random_shuffle_perm : forall s l, (random_shuffle s l).1 ≡ₚ l.
Implicit Types (g h : Grid PRNG) (r a : Region) (p q u : coord).

(** The cells of [guessing_order] are unknown cells of the grid. *)
Lemma guessing_order_cells g p :
  p ∈ (guessing_order random_shuffle g).1 ->
  valid g p.1 p.2 = true /\ cell g p.1 p.2 = UNKNOWN.
Proof.
  unfold guessing_order.
  match goal with |- context [random_shuffle (m_prng g) ?l] =>
    change l with (unknown_cells g) end.
  pose proof (random_shuffle_perm (m_prng g) (unknown_cells g)) as Hperm.
  destruct (random_shuffle (m_prng g) (unknown_cells g)) as [shuffled prng]. simpl in *.
  assert (Hres : forall near : Z * Z * Z -> Z,
            fst <$> stable_sort ((fun t => (t.1, near t)) <$> shuffled)
            ≡ₚ fst <$> unknown_cells g).
  { intros near. rewrite stable_sort_perm, <- list_fmap_compose, <- Hperm. done. }
  rewrite Hres, list_elem_of_fmap.
  intros (t & -> & (Hv & Hc & _)%elem_of_unknown_cells). done.
Qed.

Lemma hypothesize_total (fuel : nat) g (color : State) (x y : Z) :
  well_formed g -> enough g fuel ->
  valid g x y = true -> color = BLACK \/ color = WHITE ->
  exists sr, hypothesize fuel g color x y = Ok sr.
Proof.
  intros Hwf Hfuel Hv Hcol. unfold hypothesize.
  pose proof (well_formed_copy g Hwf) as Hwfc.
  destruct (copy_fold (regions (with_output g [])) (with_output g []))
    as (_ & _ & _ & (Hw & Hh & _) & _).
  change (foldl _ _ _) with (Grid_copy g) in Hw, Hh. simpl in Hw, Hh.
  destruct (mark_total (Grid_copy g) color x y) as [other Hm]; [tauto| |].
  { apply (wf_array _ Hwfc). by rewrite (valid_ext g) by done. }
  rewrite Hm. simpl.
  pose proof (well_formed_mark _ _ _ _ _ Hwfc Hm) as Hwfo.
  destruct (same_frame_mark _ _ _ _ _ Hm) as (Hw' & Hh' & _).
  apply solve_until_total; [done|apply (enough_ext g); congruence|].
  pose proof (known_range other Hwfo). unfold enough in Hfuel.
  rewrite Hw', Hh', Hw, Hh in *.
  pose proof (wf_width g Hwf). pose proof (wf_height g Hwf). nia.
Qed.

Lemma cells_of_singleton_if g (b : bool) p :
  valid g p.1 p.2 = true -> cells_of g (singleton_if b p).
Proof.
  intros Hp. unfold singleton_if. destruct b; [|apply cells_of_empty].
  by apply cells_of_insert; [|apply cells_of_empty].
Qed.

Lemma hypotheticals_loop_total (fuel : nat) g (verbose : bool)
  (todo : list (coord * State)) (failed_guesses : Z) (failed_coords : CoordSet.t) :
  well_formed g -> enough g fuel ->
  (forall pc, pc ∈ todo -> valid g pc.1.1 pc.1.2 = true /\ (pc.2 = BLACK \/ pc.2 = WHITE)) ->
  exists (b : bool) g',
    hypotheticals_loop fuel g verbose todo failed_guesses failed_coords = Ok (b, g')
    /\ well_formed g'.
Proof.
  intros Hwf Hfuel. revert failed_guesses failed_coords.
  induction todo as [|[p color] todo IH]; intros fg fc Htodo; simpl; [by eauto|].
  destruct (Htodo (p, color) ltac:(by left)) as [Hp Hcol]. simpl in Hp, Hcol.
  destruct (hypothesize_total fuel g color p.1 p.2 Hwf Hfuel Hp Hcol) as [sr ->]. simpl.
  destruct sr.
  - apply process_kept; [done|by apply cells_of_singleton_if..].
  - apply process_kept; [done|by apply cells_of_singleton_if..].
  - apply IH. intros pc Hpc. apply Htodo. by right.
  - apply IH. intros pc Hpc. apply Htodo. by right.
Qed.

Lemma analyze_hypotheticals_total (fuel : nat) g (verbose : bool) :
  well_formed g -> enough g fuel ->
  exists (b : bool) g',
    analyze_hypotheticals random_shuffle fuel g verbose = Ok (b, g') /\ well_formed g'.
Proof.
  intros Hwf Hfuel. unfold analyze_hypotheticals.
  pose proof (guessing_order_cells g) as Hcells.
  destruct (guessing_order_board random_shuffle g) as (Hc & Hr & _ & Hw & Hh & _).
  destruct (guessing_order random_shuffle g) as [v g1]. simpl in *.
  assert (Hwf1 : well_formed g1) by (by apply (well_formed_ext g)).
  apply hypotheticals_loop_total; [done|by apply (enough_ext g)|].
  intros [p c] Hpc. simpl. split; [|by apply (guesses_colour v p c)].
  rewrite (valid_ext g) by done. apply Hcells.
  unfold guesses in Hpc. apply list_elem_of_bind in Hpc as (u & Hpc & Hu).
  apply elem_of_cons in Hpc as [[= -> _] | Hpc]; [done|].
  apply list_elem_of_singleton in Hpc as [= -> _]. done.
Qed.

(** [solve] returns on a well-formed grid, and leaves it well formed. *)
Lemma solve_total (fuel : nat) g (verbose guessing : bool) :
  well_formed g -> enough g fuel ->
  exists sr g', solve random_shuffle fuel g verbose guessing = Ok (sr, g')
    /\ well_formed g'.
Proof.
  intros Hwf Hfuel. unfold solve. apply solve_with_total; [done|done|].
  intros _. by apply analyze_hypotheticals_total.
Qed.

(** The loop of [main] returns. *)
Lemma solve_loop_total (n fuel : nat) g :
  well_formed g -> enough g fuel ->
  m_width g * m_height g - known g < Z.of_nat n ->
  exists g', solve_loop random_shuffle n fuel g = Ok g' /\ well_formed g'.
Proof.
  revert g. induction n as [|n IH]; intros g Hwf Hfuel Hn.
  { pose proof (known_range g Hwf). lia. }
  simpl.
  destruct (solve_total fuel g true true Hwf Hfuel) as (sr & g' & Hs & Hwf').
  rewrite Hs. simpl. destruct sr; simpl; try by eauto.
  apply solve_cases in Hs
    as [(_ & b & gd & c & _ & Hsr & _) | (Hk & [[Hmv Hsr] | [? _]])];
    [by destruct b| |done].
  destruct Hmv as (Hw' & Hh' & _ & [E | [_ Hlt]]); [congruence|].
  specialize (Hlt (well_formed_shape g Hwf)).
  apply IH; [done|by apply (enough_ext g)|]. rewrite Hw', Hh'. lia.
Qed.

End GuessTotal.

(** ** The direction of confinement, the pools and the loop of [main] *)

Section ConfinementDirection.

Context {PRNG : Type}.
Implicit Types (g h : Grid PRNG) (r : Region).

(** C1.  In confinement analysis on a well-formed grid, take an unknown cell
    [u] of the grid, the verboten set {u} and a region [r] that [confined]
    reports as confined.  The rule returns; it proposes [u] as black when
    [r] is black and as white when [r] is white or numbered; it answers
    "changed", a cell proposed as black is black afterwards, and a cell
    proposed as white only is white. *)
Theorem confinement_marks_direction (fuel : nat) g (verbose : bool)
  (cache c : cache_map_t) (x y : Z) (i : rid) r :
  well_formed g ->
  enough g fuel ->
  valid g x y = true ->
  cell g x y = UNKNOWN ->
  m_regions g !! i = Some r ->
  confined fuel g i r cache [(x, y)] = Ok (true, c) ->
  exists (mark_as_black mark_as_white : CoordSet.t) (cache' : cache_map_t) g',
    confinement_marks fuel g cache = Ok (mark_as_black, mark_as_white, cache')
    /\ (Reg.black r = true -> (x, y) ∈ mark_as_black)
    /\ (Reg.white r = true \/ Reg.numbered r = true -> (x, y) ∈ mark_as_white)
    /\ analyze_confinement fuel g verbose cache = Ok (true, g', cache')
    /\ ((x, y) ∈ mark_as_black -> cell g' x y = BLACK)
    /\ ((x, y) ∈ mark_as_white -> (x, y) ∉ mark_as_black -> cell g' x y = WHITE).
Proof.
  intros Hwf Hfuel Hv Hc Hr Hconf.
  destruct (confinement_marks_total fuel g cache Hwf Hfuel)
    as (mark_as_black & mark_as_white & cache' & Hmarks & Hbv & Hwv).
  assert (Hdir : if Reg.black r then (x, y) ∈ mark_as_black else (x, y) ∈ mark_as_white).
  { pose proof Hmarks as Hm. unfold confinement_marks in Hm.
    destruct (confinement_pass1 fuel g cache) as [[[mb1 mw1] c1]| |] eqn:E1; simpl in Hm;
      try discriminate.
    destruct (confinement_pass2 fuel g (mb1, c1)) as [[mb2 c2]| |] eqn:E2; simpl in Hm;
      try discriminate.
    injection Hm as <- <- <-.
    apply confinement_pass1_spec in E1 as (-> & _ & _ & Hall).
    specialize (Hall (x, y) (i, r) c).
    assert (H : if Reg.black r then (x, y) ∈ mb1 else (x, y) ∈ mw1).
    { apply Hall; [|done|by apply elem_of_map_to_list|done].
      apply elem_of_xy_range. unfold valid in Hv. simpl.
      repeat (apply andb_true_iff in Hv as [Hv ?]). lia. }
    destruct (Reg.black r); [|done]. by eapply confinement_pass2_le. }
  assert (Hne : CoordSet.is_empty mark_as_black && CoordSet.is_empty mark_as_white = false).
  { destruct (CoordSet.is_empty mark_as_black && CoordSet.is_empty mark_as_white) eqn:Ee;
      [|done]. exfalso.
    apply andb_true_iff in Ee as [Eb%CoordSetFacts.is_empty_true
                                  Ew%CoordSetFacts.is_empty_true].
    subst. destruct (Reg.black r); by apply not_elem_of_nil in Hdir. }
  destruct (mark_all_total g BLACK mark_as_black) as [g1 Hg1]; [by right| |].
  { intros q Hq. by apply (wf_array g Hwf), Hbv. }
  destruct (mark_all_total g1 WHITE mark_as_white) as [g2 Hg2]; [by left| |].
  { intros q Hq. apply (mark_all_inside g BLACK mark_as_black g1 _ _ Hg1).
    by apply (wf_array g Hwf), Hwv. }
  eexists mark_as_black, mark_as_white, cache', _.
  split; [done|]. split; [|split; [|split; [|split]]].
  - intros Hb. by rewrite Hb in Hdir.
  - intros Hw. destruct (Reg.black r) eqn:Hb; [exfalso|done].
    unfold Reg.black, Reg.white, Reg.numbered, BLACK, WHITE in *.
    apply Z.eqb_eq in Hb. destruct Hw as [Hw%Z.eqb_eq | Hw%Z.ltb_lt]; lia.
  - unfold analyze_confinement. rewrite Hmarks. simpl. unfold process.
    rewrite Hne, Hg1. simpl. rewrite Hg2. simpl. reflexivity.
  - intros Hb. transitivity (cell g2 x y); [by destruct verbose|].
    rewrite (mark_all_cells _ _ _ _ x y Hg2), (mark_all_cells _ _ _ _ x y Hg1), Hc.
    rewrite (bool_decide_eq_true_2 (_ ∈ mark_as_black /\ _)) by done.
    by rewrite bool_decide_eq_false_2 by (by intros [_ ?]).
  - intros Hw Hnb. transitivity (cell g2 x y); [by destruct verbose|].
    rewrite (mark_all_cells _ _ _ _ x y Hg2), (mark_all_cells _ _ _ _ x y Hg1), Hc.
    rewrite (bool_decide_eq_false_2 (_ ∈ mark_as_black /\ _)) by (by intros [? _]).
    by rewrite bool_decide_eq_true_2.
Qed.

End ConfinementDirection.

Section PoolsReturn.

Context {PRNG : Type}.
Implicit Types (g h : Grid PRNG) (r : Region).

(** X17.  A square of the grid with three black cells and one unknown
    cell: the pool rule returns, it proposes the unknown cell as white, it
    answers "changed" and the cell is white afterwards. *)
Theorem potential_pools_three_black (fuel : nat) g (verbose : bool) (x y : Z) (u : coord) :
  (forall x y, valid g x y = true -> inside (m_cells g) x y) ->
  m_width g * m_height g + 1 < Z.of_nat fuel ->
  0 <= x < m_width g - 1 -> 0 <= y < m_height g - 1 ->
  u ∈ square x y ->
  cell g u.1 u.2 = UNKNOWN ->
  (forall v, v ∈ square x y -> v <> u -> cell g v.1 v.2 = BLACK) ->
  exists (ms : CoordSet.t) g',
    potential_pools_marks fuel g = Ok ms
    /\ u ∈ ms
    /\ analyze_potential_pools fuel g verbose = Ok (true, g')
    /\ cell g' u.1 u.2 = WHITE.
Proof.
  intros Hin Hfuel Hx Hy Hu Hc Hb.
  destruct (potential_pools_marks_total fuel g Hfuel) as (ms & Hms & Hcells).
  assert (Hums : u ∈ ms).
  { pose proof Hms as Hm. unfold potential_pools_marks in Hm.
    destruct (for_each_elem (fun m m' : CoordSet.t => forall q, q ∈ m -> q ∈ m')
                (fun mark_as_white p => potential_pools_square fuel g p.1 p.2 mark_as_white)
                _ _ _ (x, y) (fun a q H => H) (fun a b c H1 H2 q H => H2 q (H1 q H))
                (fun a p a' H q => potential_pools_square_mono fuel g p.1 p.2 a a' q H)
                Hm) as (m1 & m2 & _ & Hstep & Hle).
    { apply elem_of_xy_range. simpl. lia. }
    apply Hle. simpl in Hstep.
    rewrite (potential_pools_square_hit fuel g x y m1 u Hu Hc Hb) in Hstep.
    injection Hstep as <-. apply CoordSetFacts.elem_of_insert. by left. }
  destruct (mark_all_total g WHITE ms) as [g2 Hg2]; [by left| |].
  { intros q Hq. by apply Hin, Hcells. }
  eexists ms, _. split; [done|]. split; [done|].
  assert (Hne : CoordSet.is_empty ms = false).
  { destruct ms; [by apply not_elem_of_nil in Hums|done]. }
  split.
  - unfold analyze_potential_pools. rewrite Hms. simpl. unfold process. simpl.
    rewrite Hne, Hg2. simpl. reflexivity.
  - transitivity (cell g2 u.1 u.2); [by destruct verbose|].
    rewrite (mark_all_cells g WHITE ms g2 u.1 u.2 Hg2).
    rewrite bool_decide_eq_true_2; [done|]. split; [by destruct u|done].
Qed.

End PoolsReturn.

Section MainLoop.

Context {PRNG : Type}.
Variable random_shuffle : PRNG -> list (Z * Z * Z) -> list (Z * Z * Z) * PRNG.
Hypothesis random_shuffle_perm : forall s l, (random_shuffle s l).1 ≡ₚ l.
Implicit Types (g h : Grid PRNG).

(** X28.  The loop of [main] ends.  On a well-formed grid, with a
    [random_shuffle] that permutes its argument, every call of [solve]
    returns, and every call that answers [KEEP_GOING] has made a cell
    known: the loop returns a grid after at most W * H - known() + 1 calls,
    and allowing it more calls gives the same grid. *)
Theorem solve_loop_ends (n m fuel : nat) g :
  well_formed g ->
  enough g fuel ->
  m_width g * m_height g - known g < Z.of_nat n ->
  (n <= m)%nat ->
  exists g', solve_loop random_shuffle n fuel g = Ok g'
    /\ solve_loop random_shuffle m fuel g = Ok g'
    /\ well_formed g'.
Proof.
  intros Hwf Hfuel Hn Hm.
  destruct (solve_loop_total random_shuffle random_shuffle_perm n fuel g Hwf Hfuel Hn)
    as (g' & Hg' & Hwf').
  exists g'. split; [done|]. split; [|done]. rewrite <- Hg'.
  pose proof (wf_width g Hwf). pose proof (wf_height g Hwf).
  apply solve_loop_more; [by apply well_formed_shape|lia|lia|done|done].
Qed.

End MainLoop.

(** ** The properties on sample grids *)

Lemma shape_by_length {PRNG} (g : Grid PRNG) :
  length (m_cells g) = Z.to_nat (m_width g) ->
  Forall (fun col => length col = Z.to_nat (m_height g)) (m_cells g) ->
  shape g.
Proof.
  intros Hw Hh x y (Hx & Hy & col & Hc & Hy').
  pose proof (lookup_lt_Some _ _ _ Hc) as Hlx.
  rewrite Forall_forall in Hh. specialize (Hh col (list_elem_of_lookup_2 _ _ _ Hc)).
  apply lookup_lt_is_Some in Hy'. unfold valid.
  rewrite !andb_true_iff, !Z.leb_le, !Z.ltb_lt. lia.
Qed.

Lemma shape_corridor : shape corridor.
Proof. apply shape_by_length; [done|]. vm_compute. by repeat constructor. Qed.

Lemma well_formed_corridor : well_formed corridor.
Proof. apply (Grid_new_well_formed no_prng 5 1 "3    "); by vm_compute. Qed.

Lemma well_formed_pool_corner : well_formed pool_corner.
Proof.
  apply (well_formed_mark_all (grid_of (Grid_new no_prng 2 2 "    ")) BLACK
           [(0, 0); (1, 0); (0, 1)]); [|by vm_compute].
  apply (Grid_new_well_formed no_prng 2 2 "    "); by vm_compute.
Qed.

Lemma keep_order_perm (s : unit) (l : list (Z * Z * Z)) : (keep_order s l).1 ≡ₚ l.
Proof. done. Qed.

(** The clues of [big_clues] add up to 2^32 - 2: the [int] that counts the
    black cells of the solution wraps around to 5. *)
Example big_clues_total_black : m_total_black big_clues = 5 /\ clue_sum big_clues = 4294967294.
Proof. by vm_compute. Qed.

Lemma confinement_marks_direction_witness :
  exists (mark_as_black mark_as_white : CoordSet.t) (cache' : cache_map_t) g',
    confinement_marks 40 corridor corridor_cache = Ok (mark_as_black, mark_as_white, cache')
    /\ (Reg.black corridor_island = true -> (1, 0) ∈ mark_as_black)
    /\ (Reg.white corridor_island = true \/ Reg.numbered corridor_island = true ->
        (1, 0) ∈ mark_as_white)
    /\ analyze_confinement 40 corridor false corridor_cache = Ok (true, g', cache')
    /\ ((1, 0) ∈ mark_as_black -> cell g' 1 0 = BLACK)
    /\ ((1, 0) ∈ mark_as_white -> (1, 0) ∉ mark_as_black -> cell g' 1 0 = WHITE).
Proof.
  apply (confinement_marks_direction 40 corridor false corridor_cache corridor_cache
           1 0 0%nat corridor_island).
  - apply well_formed_corridor.
  - by vm_compute.
  - by vm_compute.
  - by vm_compute.
  - by vm_compute.
  - by vm_compute.
Defined.

(** A cell that the rule proposes in both colours: on the row of the clues
    3 and 4, the verboten cell (2, 0) confines the island of the clue 3, and
    the second pass proposes it as black; the black mark is committed first
    and the white one is reported as a contradiction. *)
Example confinement_both_colours :
  detect_contradictions 100 two_clue_row false ∅ = Ok (false, two_clue_row, two_clue_row_cache)
  /\ confined 100 two_clue_row 0%nat (mkRegion 3 [(1, 0)] [(0, 0); (2, 0)])
              two_clue_row_cache [(2, 0)] = Ok (true, two_clue_row_cache)
  /\ (exists g', analyze_confinement 100 two_clue_row false two_clue_row_cache
                 = Ok (true, g', two_clue_row_cache)
        /\ cell g' 2 0 = BLACK /\ m_sitrep g' = CONTRADICTION_FOUND)
  /\ (exists c, confinement_marks 100 two_clue_row two_clue_row_cache
                = Ok ([(2, 0)], [(2, 0); (3, 0); (4, 0); (6, 0)], c)).
Proof.
  split; [by vm_compute|]. split; [by vm_compute|]. split.
  - eexists. split; [by vm_compute|]. by vm_compute.
  - eexists. by vm_compute.
Qed.

Lemma liberties_unknown_lone_clue : liberties_unknown lone_clue.
Proof. intros i r q [_ ->]%regions_lone_clue ->%list_elem_of_singleton. by vm_compute. Qed.

Lemma valid_neighbors_exact_witness :
  NoDup (valid_neighbors corridor 1 0)
  /\ forall p, p ∈ valid_neighbors corridor 1 0
               <-> valid corridor p.1 p.2 = true /\ Z.abs (p.1 - 1) + Z.abs (p.2 - 0) = 1.
Proof. apply (valid_neighbors_exact corridor 1 0). reflexivity. Defined.

Lemma add_region_result_witness :
  exists g' r, add_region corridor 0 0 = Ok g'
    /\ m_regions corridor !! fresh_rid corridor = None
    /\ m_regions g' = <[fresh_rid corridor := r]> (m_regions corridor)
    /\ m_state r = cell corridor 0 0 /\ m_coords r = [(0, 0)]
    /\ (forall q, q ∈ m_unknowns r
                  <-> q ∈ valid_neighbors corridor 0 0 /\ cell corridor q.1 q.2 = UNKNOWN)
    /\ region g' 0 0 = Some (fresh_rid corridor)
    /\ (forall x' y', (x', y') <> (0, 0) -> region g' x' y' = region corridor x' y')
    /\ (forall x' y', cell g' x' y' = cell corridor x' y').
Proof. apply (add_region_result corridor 0 0). apply inside_corridor. lia. Defined.

Lemma mark_throws_on_colour_only_witness :
  exists g', mark corridor WHITE 1 0 = Ok g'.
Proof. apply (mark_throws_on_colour_only corridor WHITE 1 0). apply inside_corridor. lia. Defined.

Lemma mark_frame_witness :
  (forall x' y', (x', y') <> (1, 0) -> cell corridor_black x' y' = cell corridor x' y')
  /\ cell corridor_black 1 0 = (if cell corridor 1 0 =? UNKNOWN then BLACK else cell corridor 1 0)
  /\ m_width corridor_black = m_width corridor /\ m_height corridor_black = m_height corridor
  /\ m_total_black corridor_black = m_total_black corridor
  /\ m_output corridor_black = m_output corridor /\ m_prng corridor_black = m_prng corridor.
Proof. apply (mark_frame corridor BLACK 1 0 corridor_black). by vm_compute. Defined.

Lemma mark_keeps_liberties_witness :
  liberties_unknown lone_clue_black
  /\ (forall i r, m_regions lone_clue_black !! i = Some r -> (1, 0) ∉ m_unknowns r).
Proof.
  apply (mark_keeps_liberties lone_clue BLACK 1 0 lone_clue_black).
  - apply liberties_unknown_lone_clue.
  - by vm_compute.
Defined.

Lemma mark_sitrep_witness :
  (m_sitrep lone_clue_black = m_sitrep lone_clue
   \/ m_sitrep lone_clue_black = CONTRADICTION_FOUND)
  /\ (BLACK = BLACK -> cell lone_clue 1 0 = UNKNOWN ->
      m_sitrep lone_clue_black = m_sitrep lone_clue).
Proof. apply (mark_sitrep lone_clue BLACK 1 0 lone_clue_black). by vm_compute. Defined.

Lemma mark_known_count_witness :
  known lone_clue_black
  = if cell lone_clue 1 0 =? UNKNOWN then known lone_clue + 1 else known lone_clue.
Proof. apply (mark_known_count lone_clue BLACK 1 0 lone_clue_black); by vm_compute. Defined.

Lemma known_bounds_witness :
  0 <= known corridor <= m_width corridor * m_height corridor
  /\ (known corridor = m_width corridor * m_height corridor
      <-> forall x y, valid corridor x y = true -> cell corridor x y <> UNKNOWN).
Proof. apply (known_bounds corridor); by vm_compute. Defined.

Lemma fuse_regions_result_witness :
  exists (keep drop : rid) (k d r : Region),
    ((keep, drop, k, d)
       = (2%nat, 3%nat, mkRegion BLACK [(1, 1); (2, 1)] [(0, 1); (1, 0); (1, 2); (2, 0)],
          mkRegion BLACK [(0, 2)] [(0, 1); (1, 2)])
     \/ (keep, drop, k, d)
       = (3%nat, 2%nat, mkRegion BLACK [(0, 2)] [(0, 1); (1, 2)],
          mkRegion BLACK [(1, 1); (2, 1)] [(0, 1); (1, 0); (1, 2); (2, 0)]))
    /\ Reg.numbered d = false
    /\ (Reg.numbered k = false -> Reg.size d <= Reg.size k)
    /\ m_regions (fuse_regions pool_shore (Some 2%nat) (Some 3%nat))
       = delete drop (<[keep := r]> (m_regions pool_shore))
    /\ m_state r = m_state k
    /\ (forall q, q ∈ m_coords r <-> q ∈ [(1, 1); (2, 1)] \/ q ∈ [(0, 2)])
    /\ (forall q, q ∈ m_unknowns r
                  <-> q ∈ [(0, 1); (1, 0); (1, 2); (2, 0)] \/ q ∈ [(0, 1); (1, 2)])
    /\ (forall x y, cell (fuse_regions pool_shore (Some 2%nat) (Some 3%nat)) x y
                    = cell pool_shore x y)
    /\ m_sitrep (fuse_regions pool_shore (Some 2%nat) (Some 3%nat)) = m_sitrep pool_shore
    /\ (forall q, q ∈ m_coords d -> inside (m_cells pool_shore) q.1 q.2 ->
                  region (fuse_regions pool_shore (Some 2%nat) (Some 3%nat)) q.1 q.2
                  = Some keep)
    /\ (forall q, q ∉ m_coords d ->
                  region (fuse_regions pool_shore (Some 2%nat) (Some 3%nat)) q.1 q.2
                  = region pool_shore q.1 q.2).
Proof.
  apply (fuse_regions_result pool_shore 2%nat 3%nat
           (mkRegion BLACK [(1, 1); (2, 1)] [(0, 1); (1, 0); (1, 2); (2, 0)])
           (mkRegion BLACK [(0, 2)] [(0, 1); (1, 2)])); by vm_compute.
Defined.

Lemma unreachable_returns_witness :
  exists b, unreachable 10 corridor 1 0 [(2, 0)] = Ok b.
Proof. apply (unreachable_returns 10 corridor 1 0 [(2, 0)]); by vm_compute. Defined.

Lemma unreachable_decides_witness :
  (unreachable 10 corridor 4 0 CoordSet.empty = Ok false
   <-> exists n e, chain corridor (4, 0) n e /\ examine corridor e.1 e.2 n = Ok Found)
  /\ (unreachable 10 corridor 4 0 CoordSet.empty = Ok true
      <-> ~ exists n e, chain corridor (4, 0) n e /\ examine corridor e.1 e.2 n = Ok Found).
Proof. apply (unreachable_decides 10 corridor 4 0); by vm_compute. Defined.

Lemma process_result_witness :
  exists b g',
    process corridor false [(3, 0)] [(1, 0)] "" 0 [] = Ok (b, g')
    /\ (b = false <-> [(3, 0)] = [] /\ [(1, 0)] = [])
    /\ (b = false -> g' = corridor)
    /\ (forall x y,
          cell g' x y
          = if bool_decide ((x, y) ∈ [(3, 0)] /\ cell corridor x y = UNKNOWN) then BLACK
            else if bool_decide ((x, y) ∈ [(1, 0)] /\ cell corridor x y = UNKNOWN) then WHITE
            else cell corridor x y).
Proof.
  apply (process_result corridor false [(3, 0)] [(1, 0)] "" 0 []).
  intros q [->%list_elem_of_singleton | ->%list_elem_of_singleton];
    apply inside_corridor; simpl; lia.
Defined.

Lemma process_conflict_witness :
  m_sitrep (grid_of (snd <$> process corridor false [(0, 0)] [] "" 0 [])) = CONTRADICTION_FOUND.
Proof.
  apply (process_conflict corridor false [(0, 0)] [] "" 0 [] true).
  - by vm_compute.
  - right. exists (0, 0). split; [left; by left|by vm_compute].
Defined.

Lemma potential_pools_three_black_witness :
  exists (ms : CoordSet.t) g',
    potential_pools_marks 10 pool_corner = Ok ms
    /\ (1, 1) ∈ ms
    /\ analyze_potential_pools 10 pool_corner false = Ok (true, g')
    /\ cell g' 1 1 = WHITE.
Proof.
  apply (potential_pools_three_black 10 pool_corner false 0 0 (1, 1)).
  - intros x y. apply (wf_array pool_corner well_formed_pool_corner).
  - by vm_compute.
  - by vm_compute.
  - by vm_compute.
  - do 3 right. by left.
  - by vm_compute.
  - intros v Hv Hne. unfold square in Hv. simpl in Hv.
    apply elem_of_cons in Hv as [-> | Hv]; [by vm_compute|].
    apply elem_of_cons in Hv as [-> | Hv]; [by vm_compute|].
    apply elem_of_cons in Hv as [-> | Hv]; [by vm_compute|].
    apply list_elem_of_singleton in Hv. done.
Defined.

Lemma detect_contradictions_pool_witness :
  exists g', detect_contradictions 0 pool true ∅ = Ok (true, g', ∅)
    /\ m_sitrep g' = CONTRADICTION_FOUND
    /\ m_cells g' = m_cells pool /\ m_regions g' = m_regions pool.
Proof.
  apply (detect_contradictions_pool 0 pool true ∅ 0 0).
  - by vm_compute.
  - by vm_compute.
  - intros v Hv. unfold square in Hv. simpl in Hv.
    apply elem_of_cons in Hv as [-> | Hv]; [by vm_compute|].
    apply elem_of_cons in Hv as [-> | Hv]; [by vm_compute|].
    apply elem_of_cons in Hv as [-> | Hv]; [by vm_compute|].
    apply list_elem_of_singleton in Hv as ->. by vm_compute.
Defined.

Lemma detect_contradictions_frame_witness :
  m_cells (grid_of ((fun r => r.1.2) <$> detect_contradictions 0 pool true ∅)) = m_cells pool
  /\ m_regions (grid_of ((fun r => r.1.2) <$> detect_contradictions 0 pool true ∅))
     = m_regions pool
  /\ m_sitrep (grid_of ((fun r => r.1.2) <$> detect_contradictions 0 pool true ∅))
     = CONTRADICTION_FOUND
  /\ length (m_output (grid_of ((fun r => r.1.2) <$> detect_contradictions 0 pool true ∅)))
     = (length (m_output pool) + 1)%nat.
Proof.
  apply (detect_contradictions_frame 0 pool true ∅ ∅ true). by vm_compute.
Defined.

Lemma confined_verboten_witness :
  corridor_cache = corridor_cache
  /\ (true = true -> exists consumed p,
        corridor_cache !! 0%nat = Some consumed /\ p ∈ [(1, 0)] /\ p ∈ consumed).
Proof.
  apply (confined_verboten 10 corridor 0%nat corridor_island corridor_cache corridor_cache
           [(1, 0)] true); by vm_compute.
Defined.

Lemma guessing_order_unknowns_witness :
  NoDup (guessing_order keep_order corridor).1
  /\ (forall p, p ∈ (guessing_order keep_order corridor).1
                <-> valid corridor p.1 p.2 = true /\ cell corridor p.1 p.2 = UNKNOWN)
  /\ m_cells (guessing_order keep_order corridor).2 = m_cells corridor
  /\ m_regions (guessing_order keep_order corridor).2 = m_regions corridor
  /\ m_sitrep (guessing_order keep_order corridor).2 = m_sitrep corridor
  /\ m_output (guessing_order keep_order corridor).2 = m_output corridor
  /\ m_width (guessing_order keep_order corridor).2 = m_width corridor
  /\ m_height (guessing_order keep_order corridor).2 = m_height corridor
  /\ m_total_black (guessing_order keep_order corridor).2 = m_total_black corridor.
Proof. apply (guessing_order_unknowns keep_order keep_order_perm corridor). Defined.

Lemma guessing_order_sorted_witness :
  StronglySorted (fun p q => white_distance pool_shore p <= white_distance pool_shore q)
                 (guessing_order keep_order pool_shore).1.
Proof. apply (guessing_order_sorted keep_order keep_order_perm pool_shore). Defined.

Lemma hypotheticals_none_decisive_witness :
  analyze_hypotheticals keep_order 60 stumped true
  = Ok (false, (guessing_order keep_order stumped).2)
  /\ m_cells (guessing_order keep_order stumped).2 = m_cells stumped
  /\ m_regions (guessing_order keep_order stumped).2 = m_regions stumped
  /\ m_sitrep (guessing_order keep_order stumped).2 = m_sitrep stumped
  /\ m_output (guessing_order keep_order stumped).2 = m_output stumped.
Proof.
  apply (hypotheticals_none_decisive keep_order 60 stumped true).
  apply Forall_forall. intros qc Hqc.
  assert (Hall : forallb (fun qc : coord * State =>
            match hypothesize 60 (guessing_order keep_order stumped).2 qc.2 qc.1.1 qc.1.2 with
            | Ok CANNOT_PROCEED => true
            | _ => false
            end) (guesses (guessing_order keep_order stumped).1) = true) by (by vm_compute).
  rewrite forallb_forall in Hall. apply list_elem_of_In, Hall in Hqc.
  by destruct (hypothesize _ _ _ _ _) as [[]| |].
Defined.

Lemma solve_cannot_proceed_witness :
  m_cells (grid_of (snd <$> solve keep_order 60 stumped true true)) = m_cells stumped
  /\ m_regions (grid_of (snd <$> solve keep_order 60 stumped true true)) = m_regions stumped
  /\ m_sitrep (grid_of (snd <$> solve keep_order 60 stumped true true)) = m_sitrep stumped
  /\ known stumped <> m_width stumped * m_height stumped.
Proof.
  apply (solve_cannot_proceed keep_order 60 stumped true true); by vm_compute.
Defined.

Lemma solve_keep_going_progress_witness :
  known corridor < known (grid_of (snd <$> solve keep_order 10 corridor true true))
  /\ shape (grid_of (snd <$> solve keep_order 10 corridor true true))
  /\ m_width (grid_of (snd <$> solve keep_order 10 corridor true true)) = m_width corridor
  /\ m_height (grid_of (snd <$> solve keep_order 10 corridor true true)) = m_height corridor.
Proof.
  apply (solve_keep_going_progress keep_order 10 corridor true true).
  - apply shape_corridor.
  - by vm_compute.
Defined.

Lemma solve_solution_found_witness :
  known solved_cell = m_width solved_cell * m_height solved_cell
  /\ (exists c, detect_contradictions 10 solved_cell true ∅ = Ok (false, solved_cell, c))
  /\ m_cells (grid_of (snd <$> solve keep_order 10 solved_cell true true)) = m_cells solved_cell
  /\ m_regions (grid_of (snd <$> solve keep_order 10 solved_cell true true))
     = m_regions solved_cell
  /\ m_sitrep (grid_of (snd <$> solve keep_order 10 solved_cell true true))
     = m_sitrep solved_cell.
Proof.
  apply (solve_solution_found keep_order 10 solved_cell true true); by vm_compute.
Defined.

Lemma solve_loop_ends_witness :
  exists g', solve_loop keep_order 5 40 corridor = Ok g'
    /\ solve_loop keep_order 9 40 corridor = Ok g'
    /\ well_formed g'.
Proof.
  apply (solve_loop_ends keep_order keep_order_perm 5 9 40 corridor).
  - apply well_formed_corridor.
  - by vm_compute.
  - by vm_compute.
  - lia.
Defined.

Lemma Grid_new_result_witness :
  exists v,
    parse (tokenize (list_ascii_of_string "2147483647 2147483647")) [] = Ok v
    /\ Z.of_nat (length v) = 3 * 1 /\ 1 <= 3 /\ 1 <= 1
    /\ m_width big_clues = 3 /\ m_height big_clues = 1
    /\ (forall x y, inside (m_cells big_clues) x y <-> valid big_clues x y = true)
    /\ (forall x y, valid big_clues x y = true ->
          cell big_clues x y
          = if 0 <? entry v (x + y * 3) then entry v (x + y * 3) else UNKNOWN)
    /\ m_total_black big_clues = wrap_int (3 * 1 - clue_sum big_clues)
    /\ (-2147483648 <= 3 * 1 - clue_sum big_clues <= INT_MAX ->
        m_total_black big_clues = 3 * 1 - clue_sum big_clues)
    /\ m_sitrep big_clues = KEEP_GOING
    /\ length (m_output big_clues) = 1%nat.
Proof.
  apply (Grid_new_result no_prng 3 1 "2147483647 2147483647" big_clues). by vm_compute.
Defined.

Lemma Grid_new_regions_witness :
  (forall x y, valid two_islands x y = true ->
     if 0 <? cell two_islands x y
     then exists i r, region two_islands x y = Some i /\ m_regions two_islands !! i = Some r
            /\ m_state r = cell two_islands x y /\ m_coords r = [(x, y)]
     else cell two_islands x y = UNKNOWN /\ region two_islands x y = None)
  /\ (forall i r, m_regions two_islands !! i = Some r ->
        exists x y, valid two_islands x y = true /\ region two_islands x y = Some i
          /\ 0 < m_state r /\ m_state r = cell two_islands x y /\ m_coords r = [(x, y)])
  /\ shape two_islands /\ tidy two_islands.
Proof.
  apply (Grid_new_regions no_prng 2 4
           ("2 " ++ String "010" ("  " ++ String "010" (" 2" ++ String "010" "  ")))
           two_islands).
  by vm_compute.
Defined.

